(** * Wot++ parser: string post-processors and recursive descent

    A shallow embedding of [src/frontend/parser/parser.cpp].  A
    [std::string] is a list of characters; an operation whose C++
    behaviour is undefined (reading [front()] or [back()] of an empty
    string, dereferencing past the terminating NUL) returns [None]. *)

From Stdlib Require Import ZArith Ascii String List Lia Bool.
From stdpp Require Import base option list.

Local Open Scope char_scope.
Local Open Scope list_scope.

(** ** std::string helpers *)

Abbreviation cstring := (list ascii).

(** [std::unique(first, last, pred)]: an element is dropped when [pred]
    holds between the last element kept and it. *)
Fixpoint unique_from {A} (pred : A -> A -> bool) (kept : A) (l : list A) : list A :=
  match l with
  | [] => []
  | x :: l' =>
      if pred kept x then unique_from pred kept l'
      else x :: unique_from pred x l'
  end.

Definition unique {A} (pred : A -> A -> bool) (l : list A) : list A :=
  match l with
  | [] => []
  | x :: l' => x :: unique_from pred x l'
  end.

(** [str.erase(str.begin(), str.begin() + 1)] *)
Definition erase_first (str : cstring) : cstring := tail str.

(** [str.erase(str.end() - 1, str.end())] *)
Definition erase_last (str : cstring) : cstring := removelast str.

Section Paragraph.

(** [wpp::is_whitespace] is declared in [frontend/char.hpp]. *)
Variable is_whitespace : ascii -> bool.

Definition both_whitespace (lhs rhs : ascii) : bool :=
  is_whitespace lhs && is_whitespace rhs.

Definition to_space (c : ascii) : ascii :=
  if is_whitespace c then " " else c.

(** [void para_string(std::string& str)] *)
Definition para_string (str : cstring) : option cstring :=
  (* Collapse consecutive runs of whitespace to a single whitespace. *)
  let str := unique both_whitespace str in
  (* Replace all whitespace with a literal space. *)
  let str := map to_space str in
  (* Strip leading and trailing whitespace. *)
  front ← head str;
  let str := if is_whitespace front then erase_first str else str in
  back ← last str;
  Some (if is_whitespace back then erase_last str else str).

(** *** The paragraph transformation as the specification words it *)

(** Each run of consecutive whitespace collapses to a single character
    (here the last one of the run). *)
Fixpoint collapse_runs (l : cstring) : cstring :=
  match l with
  | [] => []
  | a :: t =>
      match t with
      | b :: _ =>
          if is_whitespace a && is_whitespace b then collapse_runs t
          else a :: collapse_runs t
      | [] => [a]
      end
  end.

Definition strip_one_leading (l : cstring) : cstring :=
  match l with
  | c :: t => if is_whitespace c then t else l
  | [] => []
  end.

Definition strip_one_trailing (l : cstring) : cstring :=
  rev (strip_one_leading (rev l)).

Definition para_spec (x : cstring) : cstring :=
  strip_one_trailing (strip_one_leading (map to_space (collapse_runs x))).

(** No two neighbours are both whitespace. *)
Fixpoint no_adjacent (l : cstring) : bool :=
  match l with
  | a :: t =>
      match t with
      | b :: _ => negb (is_whitespace a && is_whitespace b) && no_adjacent t
      | [] => true
      end
  | [] => true
  end.

Definition has_non_whitespace (x : cstring) : bool :=
  existsb (fun c => negb (is_whitespace c)) x.

(** A character [to_space] leaves alone. *)
Definition spaced (c : ascii) : Prop := to_space c = c.

(** A string is in paragraph form when [para_string] has nothing left to
    do on it. *)
Definition paragraph_form (y : cstring) : Prop :=
  no_adjacent y = true /\ Forall spaced y
  /\ (exists f, head y = Some f /\ is_whitespace f = false)
  /\ (exists b, last y = Some b /\ is_whitespace b = false).

End Paragraph.

(** ** Code strings *)

Definition NUL : ascii := "000".
Definition NL : ascii := "010".

(** [std::numeric_limits<int>::max()] *)
Definition INT_MAX : Z := 2147483647.

(** Reading through an iterator or a [const char*] into the buffer of
    [str]: the characters, then the terminating NUL at index
    [length str]; anything further is outside the buffer. *)
Definition deref (str : cstring) (i : nat) : option ascii :=
  match str !! i with
  | Some c => Some c
  | None => if Nat.eqb i (length str) then Some NUL else None
  end.

Section Code.

Variable is_whitespace : ascii -> bool.

(** Trim trailing whitespace: the reverse iterator has [n] characters
    left to visit and points at [str[n-1]];
    [str.erase(it.base(), str.end())] keeps the first [n]. *)
Fixpoint trim_trailing (n : nat) (str : cstring) : cstring :=
  match n with
  | 0 => str
  | S j =>
      match str !! j with
      | Some c =>
          if negb (is_whitespace c) then take (S j) str
          else trim_trailing j str
      | None => str
      end
  end.

(** Trim leading whitespace: every iteration either stops, erases
    [begin .. it] and restarts, or advances [it]. *)
Fixpoint trim_leading (fuel : nat) (str : cstring) (it : nat) : cstring :=
  match fuel with
  | 0 => str
  | S fuel =>
      match str !! it with
      | None => str
      | Some c =>
          if negb (is_whitespace c) then str
          else if Ascii.eqb c NL then trim_leading fuel (drop (S it) str) 0
          else trim_leading fuel str (S it)
      end
  end.

(** [while (wpp::is_whitespace( *it )) ++it, ++indent;] gives the new
    iterator and the indent; incrementing an [int] at [INT_MAX] is
    undefined. *)
Fixpoint count_indent (fuel : nat) (str : cstring) (it : nat) (indent : Z)
  : option (nat * Z) :=
  match fuel with
  | 0 => None
  | S fuel =>
      c ← deref str it;
      if is_whitespace c then
        if (indent =? INT_MAX)%Z then None
        else count_indent fuel str (S it) (indent + 1)%Z
      else Some (it, indent)
  end.

(** Discover tab depth: [for (auto it = str.begin(); *it; ++it)]. *)
Fixpoint discover_indent (fuel : nat) (str : cstring) (it : nat)
    (common_indent : Z) : option Z :=
  match fuel with
  | 0 => None
  | S fuel =>
      c ← deref str it;
      if Ascii.eqb c NUL then Some common_indent
      else if Ascii.eqb c NL then
        r ← count_indent (S (S (length str))) str (S it) 0%Z;
        let common_indent :=
          if (r.2 <? common_indent)%Z then r.2 else common_indent in
        discover_indent fuel str (S r.1) common_indent
      else discover_indent fuel str (S it) common_indent
  end.

(** The loop of the [strip] lambda: where [ptr] stops. *)
Fixpoint strip_scan (fuel : nat) (str : cstring) (common_indent : Z)
    (ptr : nat) (count_whitespace : Z) : option nat :=
  match fuel with
  | 0 => None
  | S fuel =>
      c ← deref str ptr;
      if is_whitespace c && negb (count_whitespace =? common_indent)%Z then
        strip_scan fuel str common_indent (S ptr) (count_whitespace + 1)%Z
      else Some ptr
  end.

(** [strip(ptr)]: [str.erase(start - str.c_str(), ptr - start)]; the
    lambda returns [start], so only the new string is returned here. *)
Definition strip (str : cstring) (common_indent : Z) (start : nat)
  : option cstring :=
  ptr ← strip_scan (S (S (length str))) str common_indent start 0%Z;
  Some (take start str ++ drop ptr str).

(** [while ( *ptr ) { if ( *ptr == '\n') ptr = strip(++ptr); ++ptr; }] *)
Fixpoint strip_lines (fuel : nat) (str : cstring) (common_indent : Z)
    (ptr : nat) : option cstring :=
  match fuel with
  | 0 => None
  | S fuel =>
      c ← deref str ptr;
      if Ascii.eqb c NUL then Some str
      else if Ascii.eqb c NL then
        str' ← strip str common_indent (S ptr);
        strip_lines fuel str' common_indent (S (S ptr))
      else strip_lines fuel str common_indent (S ptr)
  end.

(** [void code_string(std::string& str)] *)
Definition code_string (str : cstring) : option cstring :=
  let str := trim_trailing (length str) str in
  let str := trim_leading (S (length str)) str 0 in
  common_indent ← discover_indent (S (S (length str))) str 0 INT_MAX;
  c ← deref str 0;
  str ← (if is_whitespace c then strip str common_indent 0 else Some str);
  strip_lines (S (S (length str))) str common_indent 0.

(** Characters that are neither whitespace nor NUL. *)
Definition plain (l : cstring) : bool :=
  forallb (fun c => negb (is_whitespace c) && negb (Ascii.eqb c NUL)) l.

End Code.

(** *** The code transformation as the specification words it *)

Section CodeSpec.

Variable is_whitespace : ascii -> bool.

(** The lines of a string, cut at the newlines. *)
Fixpoint lines (s : cstring) : list cstring :=
  match s with
  | [] => [[]]
  | c :: s' =>
      if Ascii.eqb c NL then [] :: lines s'
      else
        match lines s' with
        | l :: ls => (c :: l) :: ls
        | [] => [[c]]
        end
  end.

Fixpoint unlines (ls : list cstring) : cstring :=
  match ls with
  | [] => []
  | l :: ls' =>
      match ls' with
      | [] => l
      | _ :: _ => l ++ NL :: unlines ls'
      end
  end.

(** Count of leading whitespace of a line. *)
Fixpoint indentation (l : cstring) : nat :=
  match l with
  | c :: l' => if is_whitespace c then S (indentation l') else 0
  | [] => 0
  end.

Fixpoint drop_leading_whitespace (l : cstring) : cstring :=
  match l with
  | c :: l' => if is_whitespace c then drop_leading_whitespace l' else l
  | [] => []
  end.

(** Trimming trailing whitespace. *)
Definition trim_trailing_spec (s : cstring) : cstring :=
  rev (drop_leading_whitespace (rev s)).

(** Trimming the leading newline-terminated whitespace: the leading
    lines of whitespace that a newline ends. *)
Fixpoint trim_leading_spec (ls : list cstring) : list cstring :=
  match ls with
  | l :: rest =>
      match rest with
      | _ :: _ => if forallb is_whitespace l then trim_leading_spec rest else ls
      | [] => ls
      end
  | [] => []
  end.

(** The minimum indentation, counted after each newline: [None] when
    there is no newline. *)
Definition minimum_indentation (ls : list cstring) : option nat :=
  match tail ls with
  | [] => None
  | l :: rest => Some (fold_right Nat.min (indentation l) (map indentation rest))
  end.

(** Stripping the common indent from a line. *)
Definition strip_indent (common : option nat) (l : cstring) : cstring :=
  match common with
  | Some n => drop (Nat.min n (indentation l)) l
  | None => drop_leading_whitespace l
  end.

Definition code_spec (s : cstring) : cstring :=
  let ls := trim_leading_spec (lines (trim_trailing_spec s)) in
  unlines (map (strip_indent (minimum_indentation ls)) ls).

End CodeSpec.

(** Modelled from the spec: [wpp::is_whitespace] of [frontend/char.hpp]
    is not part of the sources at hand; the blank characters are the
    space, the tab, the newline, the vertical tab, the form feed and
    the carriage return. *)
Definition blank (c : ascii) : bool :=
  match c with
  | " " | "009" | "010" | "011" | "012" | "013" => true
  | _ => false
  end.

Definition chars (s : string) : cstring := list_ascii_of_string s.

(** ** Characters as 8-bit values *)

Definition code (c : ascii) : Z := Z.of_N (N_of_ascii c).

(** Conversion of an [int] to [char]: the low eight bits. *)
Definition char_of (z : Z) : ascii := ascii_of_N (Z.to_N (z mod 256)).

(** Modelled from the spec: [wpp::hex_to_digit] of [misc/util/util.hpp]
    is not part of the sources at hand; it is the value of a hexadecimal
    digit.  Only hexadecimal digits reach it (the lexer rejects anything
    else), other characters are sent to 0 here. *)
Definition hex_to_digit (c : ascii) : Z :=
  let n := code c in
  if (48 <=? n)%Z && (n <=? 57)%Z then (n - 48)%Z
  else if (97 <=? n)%Z && (n <=? 102)%Z then (n - 87)%Z
  else if (65 <=? n)%Z && (n <=? 70)%Z then (n - 55)%Z
  else 0%Z.

Definition is_hex_digit (c : ascii) : bool :=
  let n := code c in
  ((48 <=? n)%Z && (n <=? 57)%Z) || ((97 <=? n)%Z && (n <=? 102)%Z)
  || ((65 <=? n)%Z && (n <=? 70)%Z).

Definition is_bin_digit (c : ascii) : bool :=
  Ascii.eqb c "0" || Ascii.eqb c "1".

(** ** Hex and binary strings *)

(** [str.back() |= v]: undefined on an empty string. *)
Definition or_back (str : cstring) (v : Z) : option cstring :=
  back ← last str;
  Some (removelast str ++ [char_of (Z.lor (code back) v)]).

(** [str.push_back(v)] *)
Definition push_back (str : cstring) (v : Z) : cstring :=
  str ++ [char_of v].

(** The loop of [hex_string]; [rview] is the view read from its last
    character to its first ([ptr[i - 1]] for [i = len .. 1]). *)
Fixpoint hex_loop (rview : cstring) (str : cstring) (counter : Z)
  : option cstring :=
  match rview with
  | [] => Some str
  | c :: rview =>
      (* Skip underscores. *)
      if Ascii.eqb c "_" then hex_loop rview str counter
      (* Odd index, shift digit by 4 and or it with last character. *)
      else if negb (Z.land counter 1 =? 0)%Z then
        str ← or_back str (Z.shiftl (hex_to_digit c) 4);
        hex_loop rview str (counter + 1)%Z
      (* Even index, push back digit. *)
      else hex_loop rview (push_back str (hex_to_digit c)) (counter + 1)%Z
  end.

(** [void hex_string(wpp::Lexer& lex, std::string& str)], on the view of
    the token it takes from the lexer. *)
Definition hex_string (view : cstring) (str : cstring) : option cstring :=
  str ← hex_loop (rev view) str 0%Z;
  Some (rev str).

Fixpoint bin_loop (rview : cstring) (str : cstring) (counter : Z)
  : option cstring :=
  match rview with
  | [] => Some str
  | c :: rview =>
      (* Skip underscores. *)
      if Ascii.eqb c "_" then bin_loop rview str counter
      (* We shift and or every character encounter. *)
      else if negb (Z.land counter 7 =? 0)%Z then
        str ← or_back str (Z.shiftl (code c - code "0") (Z.land counter 7));
        bin_loop rview str (counter + 1)%Z
      (* When we get to a multiple of 8, we push back the character. *)
      else bin_loop rview (push_back str (code c - code "0")) (counter + 1)%Z
  end.

(** [void bin_string(wpp::Lexer& lex, std::string& str)] *)
Definition bin_string (view : cstring) (str : cstring) : option cstring :=
  str ← bin_loop (rev view) str 0%Z;
  Some (rev str).

(** *** Hex and binary decoding as the specification words it *)

(** The digits of a literal, underscores ignored. *)
Definition digits (view : cstring) : cstring :=
  List.filter (fun c => negb (Ascii.eqb c "_")) view.

(** Groups of [k] elements, the last one possibly shorter. *)
Fixpoint chunks {A} (fuel k : nat) (l : list A) : list (list A) :=
  match fuel with
  | 0 => []
  | S fuel =>
      match l with
      | [] => []
      | _ => take k l :: chunks fuel k (drop k l)
      end
  end.

(** Value of a group of digits read right to left, each digit worth
    [bits] bits: the first one is the least significant. *)
Fixpoint group_value (bits : Z) (ds : list Z) : Z :=
  match ds with
  | [] => 0
  | d :: ds => d + 2 ^ bits * group_value bits ds
  end.

(** Read the digits right to left, pack every [k] of them into one
    byte, reverse the bytes. *)
Definition pack_spec (digit : ascii -> Z) (bits : Z) (k : nat)
    (view : cstring) : list Z :=
  let ds := map digit (rev (digits view)) in
  rev (map (group_value bits) (chunks (length ds) k ds)).

Definition hex_spec : cstring -> list Z := pack_spec hex_to_digit 4 2.
Definition bin_spec : cstring -> list Z :=
  pack_spec (fun c => code c - code "0")%Z 1 8.

(** The shape the two loops share, on digit values and byte values:
    [i] is the place of the next digit inside its byte, [k] digits of
    [bits] bits make a byte. *)
Fixpoint pack_loop (bits : Z) (k : nat) (ds : list Z) (bytes : list Z)
    (i : nat) : option (list Z) :=
  match ds with
  | [] => Some bytes
  | d :: ds =>
      let i' := if Nat.eqb (S i) k then 0 else S i in
      if Nat.eqb i 0 then pack_loop bits k ds (bytes ++ [d mod 256]%Z) i'
      else
        back ← last bytes;
        pack_loop bits k ds
          (removelast bytes
           ++ [Z.lor back (Z.shiftl d (bits * Z.of_nat i)) mod 256]%Z) i'
  end.

Definition digit_in_range (bits : Z) (d : Z) : Prop := (0 <= d < 2 ^ bits)%Z.

(** The bytes of hex digit values taken left to right, two by two. *)
Fixpoint pair_bytes (ds : list Z) : list Z :=
  match ds with
  | hi :: lo :: ds => (16 * hi + lo)%Z :: pair_bytes ds
  | _ => []
  end.

(** What the lexer lets through in a hex and in a binary literal. *)
Definition hex_view (view : cstring) : bool :=
  forallb (fun c => Ascii.eqb c "_" || is_hex_digit c) view.

Definition bin_view (view : cstring) : bool :=
  forallb (fun c => Ascii.eqb c "_" || is_bin_digit c) view.

(** ** Outcomes and the parser monad *)

(** What a call does: it returns, it throws a [wpp::Exception], its
    behaviour is undefined in C++, or the step bound of the model is
    reached before it returns. *)
Inductive outcome (A : Type) : Type :=
| Ok (a : A)
| Throw (msg : string)
| Undefined
| Timeout.

Arguments Ok {A} a.
Arguments Throw {A} msg.
Arguments Undefined {A}.
Arguments Timeout {A}.

Definition of_option {A} (o : option A) : outcome A :=
  match o with
  | Some a => Ok a
  | None => Undefined
  end.

Definition ST (S A : Type) : Type := S -> outcome (A * S).

Definition ret {S A} (a : A) : ST S A := fun s => Ok (a, s).

Definition bind {S A B} (m : ST S A) (k : A -> ST S B) : ST S B :=
  fun s =>
    match m s with
    | Ok (a, s') => k a s'
    | Throw msg => Throw msg
    | Undefined => Undefined
    | Timeout => Timeout
    end.

Definition throw {S A} (msg : string) : ST S A := fun _ => Throw msg.
Definition undefined {S A} : ST S A := fun _ => Undefined.
Definition timeout {S A} : ST S A := fun _ => Timeout.

Definition lift {S A} (o : outcome A) : ST S A :=
  fun s =>
    match o with
    | Ok a => Ok (a, s)
    | Throw msg => Throw msg
    | Undefined => Undefined
    | Timeout => Timeout
    end.

(** [m'] does what [m] does wherever [m] does not run out of steps. *)
Definition more_steps {S A} (m m' : ST S A) : Prop :=
  forall s, m s <> Timeout -> m' s = m s.

Notation "x <- m ;; k" := (bind m (fun x => k))
  (at level 100, m at next level, right associativity).
Notation "m ;;; k" := (bind m (fun _ => k))
  (at level 100, right associativity).

(** ** Tokens *)

Inductive token_type : Set :=
| TOKEN_NONE | TOKEN_EOF | TOKEN_CHAR
| TOKEN_IDENTIFIER
| TOKEN_LPAREN | TOKEN_RPAREN | TOKEN_LBRACE | TOKEN_RBRACE
| TOKEN_COMMA | TOKEN_CAT | TOKEN_ARROW | TOKEN_EQUAL | TOKEN_STAR
| TOKEN_EXCLAIM
| TOKEN_LET | TOKEN_VAR | TOKEN_DROP | TOKEN_PREFIX | TOKEN_MAP
| TOKEN_QUOTE | TOKEN_DOUBLEQUOTE
| TOKEN_SMART | TOKEN_HEX | TOKEN_BIN
| TOKEN_ESCAPE_DOUBLEQUOTE | TOKEN_ESCAPE_QUOTE | TOKEN_ESCAPE_BACKSLASH
| TOKEN_ESCAPE_NEWLINE | TOKEN_ESCAPE_TAB | TOKEN_ESCAPE_CARRIAGERETURN
| TOKEN_ESCAPE_HEX | TOKEN_ESCAPE_BIN
| TOKEN_SOURCE | TOKEN_FILE | TOKEN_ASSERT | TOKEN_ERROR | TOKEN_PIPE
| TOKEN_RUN | TOKEN_SLICE | TOKEN_FIND | TOKEN_LENGTH | TOKEN_LOG
| TOKEN_ESCAPE | TOKEN_EVAL.

#[global] Instance token_type_eq_dec : EqDecision token_type.
Proof. solve_decision. Defined.

(** A token: its kind and the bytes of the source it views (the
    position serves diagnostics only and is left out). *)
Record Token : Type := mkToken { type : token_type; view : cstring }.

(** [tok == TOKEN_X] *)
Definition tok_is (t : Token) (ty : token_type) : bool :=
  bool_decide (type t = ty).

(** [tok == other] on two tokens: the same kind. *)
Definition same_token (t u : Token) : bool :=
  bool_decide (type t = type u).

(** [view == c] for a character [c]: the view is that one byte. *)
Definition view_is (v : cstring) (c : ascii) : bool :=
  match v with
  | [b] => Ascii.eqb b c
  | _ => false
  end.

(** [tok.str()] *)
Definition tok_str (t : Token) : cstring := view t.

(** Lexer modes, [wpp::modes]. *)
Inductive mode : Set := normal | string_mode | character.

(** [accumulate_string(part, literal, handle_escapes)]; the declaration
    in the header gives [handle_escapes] its default, [true]. *)
Definition accumulate_string (part : Token) (literal : cstring)
    (handle_escapes : bool) : cstring :=
  if negb handle_escapes then literal ++ tok_str part
  else if tok_is part TOKEN_ESCAPE_DOUBLEQUOTE then literal ++ ["034"]
  else if tok_is part TOKEN_ESCAPE_QUOTE then literal ++ ["'"]
  else if tok_is part TOKEN_ESCAPE_BACKSLASH then literal ++ ["092"]
  else if tok_is part TOKEN_ESCAPE_NEWLINE then literal ++ [NL]
  else if tok_is part TOKEN_ESCAPE_TAB then literal ++ ["009"]
  else if tok_is part TOKEN_ESCAPE_CARRIAGERETURN then literal ++ ["013"]
  else if tok_is part TOKEN_ESCAPE_HEX then
    let first_nibble := nth 0 (view part) NUL in
    let second_nibble := nth 1 (view part) NUL in
    literal ++ [char_of (Z.lor (Z.shiftl (hex_to_digit first_nibble) 4)
                               (hex_to_digit second_nibble))]
  else if tok_is part TOKEN_ESCAPE_BIN then
    let value :=
      fold_left
        (fun value c => Z.lor (Z.shiftl value 1 mod 256) (code c - code "0") mod 256)%Z
        (view part) 0%Z in
    literal ++ [char_of value]
  else literal ++ tok_str part.

(** Modelled from the spec: the token predicates [peek_is_*] are declared
    with the parser's header, which is not part of the sources at hand;
    they follow the grammar (a call starts with an identifier or an
    intrinsic name, a string with one of its six openers, an expression
    with a call, a string, [{], [map] or [=], a statement with [let],
    [var], [drop], [prefix] or an expression) and the reserved names are
    the keywords and the intrinsic names. *)
Definition peek_is_intrinsic (t : Token) : bool :=
  match type t with
  | TOKEN_SOURCE | TOKEN_FILE | TOKEN_ASSERT | TOKEN_ERROR | TOKEN_PIPE
  | TOKEN_RUN | TOKEN_SLICE | TOKEN_FIND | TOKEN_LENGTH | TOKEN_LOG
  | TOKEN_ESCAPE | TOKEN_EVAL => true
  | _ => false
  end.

Definition peek_is_keyword (t : Token) : bool :=
  match type t with
  | TOKEN_LET | TOKEN_VAR | TOKEN_DROP | TOKEN_PREFIX | TOKEN_MAP => true
  | _ => false
  end.

Definition peek_is_reserved_name (t : Token) : bool :=
  peek_is_intrinsic t || peek_is_keyword t.

Definition peek_is_call (t : Token) : bool :=
  tok_is t TOKEN_IDENTIFIER || peek_is_intrinsic t.

Definition peek_is_string (t : Token) : bool :=
  match type t with
  | TOKEN_DOUBLEQUOTE | TOKEN_QUOTE | TOKEN_EXCLAIM
  | TOKEN_HEX | TOKEN_BIN | TOKEN_SMART => true
  | _ => false
  end.

Definition peek_is_expr (t : Token) : bool :=
  tok_is t TOKEN_MAP || tok_is t TOKEN_EQUAL || tok_is t TOKEN_LBRACE
  || peek_is_string t || peek_is_call t.

Definition peek_is_stmt (t : Token) : bool :=
  tok_is t TOKEN_LET || tok_is t TOKEN_VAR || tok_is t TOKEN_PREFIX
  || tok_is t TOKEN_DROP || peek_is_expr t.

(** ** The parser *)

Module wpp.

(** [wpp::node_t]: an index into the tree. *)
Abbreviation node_t := nat.

(** The node variants of [ast_nodes.hpp], positions left out. *)
Inductive node : Type :=
| Document (stmts : list node_t)
| Fn (identifier : cstring) (parameters : list cstring) (body : node_t)
| Var (identifier : cstring) (body : node_t)
| Drop (func : node_t)
| Pre (exprs : list node_t) (statements : list node_t)
| Block (statements : list node_t) (expr : node_t)
| Map (expr : node_t) (cases : list (node_t * node_t)) (default_case : node_t)
| FnInvoke (identifier : cstring) (arguments : list node_t)
| Intrinsic (type : token_type) (identifier : cstring) (arguments : list node_t)
| Codeify (expr : node_t)
| String (literal : cstring)
| Concat (lhs rhs : node_t).

(** [wpp::AST]: nodes are appended and addressed by index. *)
Abbreviation AST := (list node).

Section Parser.

(** The lexer: [next_token m lex] is the token read in mode [m] at the
    position of [lex], and the lexer past it. *)
Variable Lexer : Type.
Variable next_token : mode -> Lexer -> outcome (Token * Lexer).

Variable is_whitespace : ascii -> bool.

(** [wpp::NODE_EMPTY] *)
Variable NODE_EMPTY : node_t.

(** [lex.peek(m)] *)
Definition lpeek (m : mode) : ST Lexer Token :=
  fun lex =>
    match next_token m lex with
    | Ok (t, _) => Ok (t, lex)
    | Throw msg => Throw msg
    | Undefined => Undefined
    | Timeout => Timeout
    end.

(** [lex.advance(m)] *)
Definition ladvance (m : mode) : ST Lexer Token := next_token m.

(** The loop of [normal_string]. *)
Fixpoint normal_loop (fuel : nat) (delim : Token) (str : cstring)
  : ST Lexer cstring :=
  match fuel with
  | 0 => timeout
  | S fuel =>
      t <- lpeek string_mode;;
      if negb (same_token t delim) then
        if tok_is t TOKEN_EOF then throw "reached EOF while parsing string."
        else
          part <- ladvance string_mode;;
          normal_loop fuel delim (accumulate_string part str true)
      else ret str
  end.

Definition normal_string (fuel : nat) (str : cstring) : ST Lexer cstring :=
  delim <- ladvance string_mode;;
  str <- normal_loop fuel delim str;;
  ladvance normal;;;
  ret str.

Definition stringify_string (str : cstring) : ST Lexer cstring :=
  ladvance normal;;;
  t <- lpeek normal;;
  if negb (tok_is t TOKEN_IDENTIFIER) then
    throw "expected an identifier to follow !."
  else
    t <- ladvance normal;;
    ret (tok_str t).

Definition raw_string (str : cstring) : cstring := str.

(** The [while (true)] loop of [smart_string]. *)
Fixpoint smart_loop (fuel : nat) (str_type delim : ascii) (quote : Token)
    (str : cstring) : ST Lexer cstring :=
  match fuel with
  | 0 => timeout
  | S fuel =>
      t <- lpeek string_mode;;
      if tok_is t TOKEN_EOF then throw "reached EOF while parsing string."
      else if same_token t quote then
        part <- ladvance string_mode;;
        let str := accumulate_string part str true in
        d <- lpeek character;;
        if view_is (view d) delim then
          ladvance character;;;
          ret (erase_last str)
        else smart_loop fuel str_type delim quote str
      else
        let handle_escapes := negb (Ascii.eqb str_type "r") in
        part <- ladvance string_mode;;
        smart_loop fuel str_type delim quote
          (accumulate_string part str handle_escapes)
  end.

Definition smart_string (fuel : nat) (str : cstring) : ST Lexer cstring :=
  tok <- ladvance normal;;
  match view tok with
  | str_type :: delim :: _ =>
      quote <- ladvance string_mode;;
      str <- smart_loop fuel str_type delim quote str;;
      if Ascii.eqb str_type "r" then ret (raw_string str)
      else if Ascii.eqb str_type "c" then
        lift (of_option (code_string is_whitespace str))
      else if Ascii.eqb str_type "p" then
        lift (of_option (para_string is_whitespace str))
      else ret str
  | _ => undefined
  end.

(** The parser's state: the lexer and the tree it fills. *)
Definition P (A : Type) : Type := ST (Lexer * AST) A.

Definition on_lexer {A} (m : ST Lexer A) : P A :=
  fun s =>
    match m (fst s) with
    | Ok (a, lex) => Ok (a, (lex, snd s))
    | Throw msg => Throw msg
    | Undefined => Undefined
    | Timeout => Timeout
    end.

Definition peek (m : mode) : P Token := on_lexer (lpeek m).
Definition advance (m : mode) : P Token := on_lexer (ladvance m).

(** [tree.add<T>(pos)]: the new node's index. *)
Definition add (n : node) : P node_t :=
  fun s => Ok (length (snd s), (fst s, snd s ++ [n])).

(** An assignment through [tree.get<T>(i)]; [f] is [None] on a node
    that is not a [T]. *)
Definition modify (i : node_t) (f : node -> option node) : P unit :=
  fun s =>
    match snd s !! i with
    | Some n =>
        match f n with
        | Some n' => Ok (tt, (fst s, <[i := n']> (snd s)))
        | None => Undefined
        end
    | None => Undefined
    end.

(** The loop collecting the parameters of [let]. *)
Fixpoint let_params (fuel : nat) (node : node_t) : P unit :=
  match fuel with
  | 0 => timeout
  | S fuel =>
      t <- peek normal;;
      if tok_is t TOKEN_IDENTIFIER then
        id <- advance normal;;
        modify node (fun n =>
          match n with
          | Fn i ps b => Some (Fn i (ps ++ [tok_str id]) b)
          | _ => None
          end);;;
        t <- peek normal;;
        if tok_is t TOKEN_COMMA then advance normal;;; let_params fuel node
        else if negb (tok_is t TOKEN_RPAREN) then
          throw "expecting comma to follow parameter name."
        else let_params fuel node
      else ret tt
  end.

(** The parameter list of [let], from the token after the name on. *)
Definition let_parameter_list (fuel : nat) (node : node_t) : P unit :=
  t <- peek normal;;
  if tok_is t TOKEN_LPAREN then
    advance normal;;;
    let_params fuel node;;;
    (* Check if there's an keyword conflict. *)
    t <- peek normal;;
    if peek_is_reserved_name t then
      t <- advance normal;;
      throw ("parameter name '" ++ string_of_list_ascii (tok_str t)
             ++ "' conflicts with keyword.")
    else
      (* Make sure parameter list is terminated by `)`. *)
      t <- advance normal;;
      if negb (tok_is t TOKEN_RPAREN) then
        throw "expecting ')' to follow argument list."
      else ret tt
  else ret tt.

(** [wpp::node_t string(wpp::Lexer& lex, wpp::AST& tree)] *)
Definition string (fuel : nat) : P node_t :=
  node <- add (String []);;
  t <- peek normal;;
  literal <-
    (if tok_is t TOKEN_HEX then
       tok <- advance normal;;
       lift (of_option (hex_string (view tok) []))
     else if tok_is t TOKEN_BIN then
       tok <- advance normal;;
       lift (of_option (bin_string (view tok) []))
     else if tok_is t TOKEN_SMART then on_lexer (smart_string fuel [])
     else if tok_is t TOKEN_EXCLAIM then on_lexer (stringify_string [])
     else if tok_is t TOKEN_QUOTE || tok_is t TOKEN_DOUBLEQUOTE then
       on_lexer (normal_string fuel [])
     else ret []);;
  modify node (fun n =>
    match n with
    | String _ => Some (String literal)
    | _ => None
    end);;;
  ret node.

Fixpoint expression (fuel : nat) : P node_t :=
  match fuel with
  | 0 => timeout
  | S fuel =>
      lookahead <- peek normal;;
      lhs <-
        (if peek_is_call lookahead then fninvoke fuel
         else if peek_is_string lookahead then string fuel
         else if tok_is lookahead TOKEN_LBRACE then block fuel
         else if tok_is lookahead TOKEN_MAP then map fuel
         else if tok_is lookahead TOKEN_EQUAL then codeify fuel
         else throw "expecting an expression.");;
      t <- peek normal;;
      if tok_is t TOKEN_CAT then
        node <- add (Concat NODE_EMPTY NODE_EMPTY);;
        advance normal;;;
        rhs <- expression fuel;;
        modify node (fun n =>
          match n with
          | Concat _ _ => Some (Concat lhs rhs)
          | _ => None
          end);;;
        ret node
      else ret lhs
  end

with let_ (fuel : nat) : P node_t :=
  match fuel with
  | 0 => timeout
  | S fuel =>
      node <- add (Fn [] [] NODE_EMPTY);;
      advance normal;;;
      t <- peek normal;;
      if negb (tok_is t TOKEN_IDENTIFIER) then
        throw "function declaration does not have a name."
      else
        id <- advance normal;;
        modify node (fun n =>
          match n with
          | Fn _ ps b => Some (Fn (tok_str id) ps b)
          | _ => None
          end);;;
        let_parameter_list fuel node;;;
        body <- expression fuel;;
        modify node (fun n =>
          match n with
          | Fn i ps _ => Some (Fn i ps body)
          | _ => None
          end);;;
        ret node
  end

with var (fuel : nat) : P node_t :=
  match fuel with
  | 0 => timeout
  | S fuel =>
      node <- add (Var [] NODE_EMPTY);;
      advance normal;;;
      t <- peek normal;;
      if negb (tok_is t TOKEN_IDENTIFIER) then
        throw "variable declaration does not have a name."
      else
        id <- advance normal;;
        modify node (fun n =>
          match n with
          | Var _ b => Some (Var (tok_str id) b)
          | _ => None
          end);;;
        body <- expression fuel;;
        modify node (fun n =>
          match n with
          | Var i _ => Some (Var i body)
          | _ => None
          end);;;
        ret node
  end

with codeify (fuel : nat) : P node_t :=
  match fuel with
  | 0 => timeout
  | S fuel =>
      advance normal;;;
      t <- peek normal;;
      if negb (peek_is_expr t) then
        throw "expecting an expression to follow =."
      else
        node <- add (Codeify NODE_EMPTY);;
        expr <- expression fuel;;
        modify node (fun n =>
          match n with
          | Codeify _ => Some (Codeify expr)
          | _ => None
          end);;;
        ret node
  end

with drop (fuel : nat) : P node_t :=
  match fuel with
  | 0 => timeout
  | S fuel =>
      advance normal;;;
      node <- add (Drop NODE_EMPTY);;
      call_expr <- fninvoke fuel;;
      modify node (fun n =>
        match n with
        | Drop _ => Some (Drop call_expr)
        | _ => None
        end);;;
      ret node
  end

with fninvoke_args (fuel : nat) (node : node_t) : P unit :=
  match fuel with
  | 0 => timeout
  | S fuel =>
      t <- peek normal;;
      if peek_is_expr t then
        expr <- expression fuel;;
        modify node (fun n =>
          match n with
          | FnInvoke i args => Some (FnInvoke i (args ++ [expr]))
          | _ => None
          end);;;
        t <- peek normal;;
        if tok_is t TOKEN_COMMA then advance normal;;; fninvoke_args fuel node
        else if negb (tok_is t TOKEN_RPAREN) then
          throw "expecting comma to follow parameter name."
        else fninvoke_args fuel node
      else ret tt
  end

with fninvoke (fuel : nat) : P node_t :=
  match fuel with
  | 0 => timeout
  | S fuel =>
      node <- add (FnInvoke [] []);;
      fn_token <- advance normal;;
      t <- peek normal;;
      (if tok_is t TOKEN_LPAREN then
         advance normal;;;
         fninvoke_args fuel node;;;
         t <- advance normal;;
         if negb (tok_is t TOKEN_RPAREN) then
           throw "expecting ')' to follow argument list."
         else ret tt
       else ret tt);;;
      (if peek_is_intrinsic fn_token then
         modify node (fun n =>
           match n with
           | FnInvoke _ args =>
               Some (Intrinsic (type fn_token) (tok_str fn_token) args)
           | _ => None
           end)
       else
         modify node (fun n =>
           match n with
           | FnInvoke _ args => Some (FnInvoke (tok_str fn_token) args)
           | _ => None
           end));;;
      ret node
  end

with prefix_stmts (fuel : nat) (node : node_t) : P unit :=
  match fuel with
  | 0 => timeout
  | S fuel =>
      stmt <- statement fuel;;
      modify node (fun n =>
        match n with
        | Pre es stmts => Some (Pre es (stmts ++ [stmt]))
        | _ => None
        end);;;
      t <- peek normal;;
      if peek_is_stmt t then prefix_stmts fuel node else ret tt
  end

with prefix (fuel : nat) : P node_t :=
  match fuel with
  | 0 => timeout
  | S fuel =>
      node <- add (Pre [] []);;
      advance normal;;;
      t <- peek normal;;
      if negb (peek_is_expr t) then throw "prefix does not have a name."
      else
        expr <- expression fuel;;
        modify node (fun n =>
          match n with
          | Pre _ stmts => Some (Pre [expr] stmts)
          | _ => None
          end);;;
        t <- advance normal;;
        if negb (tok_is t TOKEN_LBRACE) then
          throw "expecting '{' to follow name."
        else
          t <- peek normal;;
          (if negb (tok_is t TOKEN_RBRACE) then prefix_stmts fuel node
           else ret tt);;;
          t <- advance normal;;
          if negb (tok_is t TOKEN_RBRACE) then throw "prefix is unterminated."
          else ret node
  end

with block_stmts (fuel : nat) (node : node_t) : P bool :=
  match fuel with
  | 0 => timeout
  | S fuel =>
      t <- peek normal;;
      let last_is_expr := peek_is_expr t in
      stmt <- statement fuel;;
      modify node (fun n =>
        match n with
        | Block stmts e => Some (Block (stmts ++ [stmt]) e)
        | _ => None
        end);;;
      t <- peek normal;;
      if peek_is_stmt t then block_stmts fuel node else ret last_is_expr
  end

with block (fuel : nat) : P node_t :=
  match fuel with
  | 0 => timeout
  | S fuel =>
      node <- add (Block [] NODE_EMPTY);;
      advance normal;;;
      t <- peek normal;;
      last_is_expr <-
        (if peek_is_stmt t then block_stmts fuel node else ret false);;
      t <- peek normal;;
      (if negb (peek_is_expr t) && last_is_expr then
         modify node (fun n =>
           match n with
           | Block stmts _ =>
               match last stmts with
               | Some e => Some (Block (removelast stmts) e)
               | None => None
               end
           | _ => None
           end)
       else
         throw "expecting a trailing expression at the end of a block");;;
      t <- peek normal;;
      if tok_is t TOKEN_ARROW then throw "map is missing test expression."
      else if negb (tok_is t TOKEN_RBRACE) then throw "block is unterminated."
      else advance normal;;; ret node
  end

with map_arms (fuel : nat) (node : node_t) : P unit :=
  match fuel with
  | 0 => timeout
  | S fuel =>
      t <- peek normal;;
      if peek_is_expr t then
        arm <- expression fuel;;
        t <- advance normal;;
        if negb (tok_is t TOKEN_ARROW) then throw "expected '->'."
        else
          t <- peek normal;;
          if negb (peek_is_expr t) then throw "expected expression."
          else
            hand <- expression fuel;;
            modify node (fun n =>
              match n with
              | Map e cases d => Some (Map e (cases ++ [(arm, hand)]) d)
              | _ => None
              end);;;
            map_arms fuel node
      else ret tt
  end

with map (fuel : nat) : P node_t :=
  match fuel with
  | 0 => timeout
  | S fuel =>
      advance normal;;;
      node <- add (Map NODE_EMPTY [] NODE_EMPTY);;
      t <- peek normal;;
      if negb (peek_is_expr t) then
        throw "expected an expression to follow `map` keyword."
      else
        expr <- expression fuel;;
        modify node (fun n =>
          match n with
          | Map _ cases d => Some (Map expr cases d)
          | _ => None
          end);;;
        t <- advance normal;;
        if negb (tok_is t TOKEN_LBRACE) then throw "expected '{'."
        else
          map_arms fuel node;;;
          t <- peek normal;;
          (if tok_is t TOKEN_STAR then
             advance normal;;;
             t <- advance normal;;
             if negb (tok_is t TOKEN_ARROW) then throw "expected '->'."
             else
               t <- peek normal;;
               if negb (peek_is_expr t) then throw "expected expression."
               else
                 default_case <- expression fuel;;
                 modify node (fun n =>
                   match n with
                   | Map e cases _ => Some (Map e cases default_case)
                   | _ => None
                   end)
           else
             modify node (fun n =>
               match n with
               | Map e cases _ => Some (Map e cases NODE_EMPTY)
               | _ => None
               end));;;
          t <- advance normal;;
          if negb (tok_is t TOKEN_RBRACE) then throw "expected '}'."
          else ret node
  end

with statement (fuel : nat) : P node_t :=
  match fuel with
  | 0 => timeout
  | S fuel =>
      lookahead <- peek normal;;
      if tok_is lookahead TOKEN_LET then let_ fuel
      else if tok_is lookahead TOKEN_VAR then var fuel
      else if tok_is lookahead TOKEN_DROP then drop fuel
      else if tok_is lookahead TOKEN_PREFIX then prefix fuel
      else if peek_is_expr lookahead then expression fuel
      else throw "expecting a statement."
  end.

(** The loop of [document]. *)
Fixpoint document_stmts (fuel : nat) (node : node_t) : P unit :=
  match fuel with
  | 0 => timeout
  | S fuel =>
      t <- peek normal;;
      if negb (tok_is t TOKEN_EOF) then
        stmt <- statement fuel;;
        modify node (fun n =>
          match n with
          | Document stmts => Some (Document (stmts ++ [stmt]))
          | _ => None
          end);;;
        document_stmts fuel node
      else ret tt
  end.

Definition document (fuel : nat) : P node_t :=
  node <- add (Document []);;
  document_stmts fuel node;;;
  ret node.

(** The first half of [expression]: the operand before an optional
    [..]. *)
Definition primary (fuel : nat) : P node_t :=
  lookahead <- peek normal;;
  if peek_is_call lookahead then fninvoke fuel
  else if peek_is_string lookahead then string fuel
  else if tok_is lookahead TOKEN_LBRACE then block fuel
  else if tok_is lookahead TOKEN_MAP then map fuel
  else if tok_is lookahead TOKEN_EQUAL then codeify fuel
  else throw "expecting an expression.".

(** [m] leaves the first [L] nodes of the tree as they are, and removes
    none. *)
Definition frame {A} (L : nat) (m : P A) : Prop :=
  forall s a s',
    m s = Ok (a, s') -> L <= length (snd s) ->
    take L (snd s') = take L (snd s) /\ length (snd s) <= length (snd s').

(** The tree once [stmt] is appended to the statements of the Block
    [node]. *)
Definition push_statement (node stmt : node_t) (tree : AST) : AST :=
  match tree !! node with
  | Some (Block stmts e) => <[node := Block (stmts ++ [stmt]) e]> tree
  | _ => tree
  end.

(** The statements between the braces of a block, as [block] reads
    them: from the state [s] the statements [stmts], each given with its
    first token and its node, are parsed one after the other and
    appended to the Block [node]; in the state reached no statement
    follows. *)
Inductive block_statements (node : node_t)
  : Lexer * AST -> list (Token * node_t) -> Lexer * AST -> Prop :=
| block_statements_last s t fuel stmt s1 t' :
    peek normal s = Ok (t, s) ->
    statement fuel s = Ok (stmt, s1) ->
    peek normal s1 = Ok (t', s1) ->
    peek_is_stmt t' = false ->
    block_statements node s [(t, stmt)]
      (fst s1, push_statement node stmt (snd s1))
| block_statements_more s t fuel stmt s1 t' stmts s' :
    peek normal s = Ok (t, s) ->
    statement fuel s = Ok (stmt, s1) ->
    peek normal s1 = Ok (t', s1) ->
    peek_is_stmt t' = true ->
    block_statements node (fst s1, push_statement node stmt (snd s1)) stmts s' ->
    block_statements node s ((t, stmt) :: stmts) s'.

End Parser.

End wpp.

(** ** Lexers *)

Definition is_quote (c : ascii) : bool :=
  Ascii.eqb c "034" || Ascii.eqb c "'".

Definition ends_chunk (c : ascii) : bool :=
  Ascii.eqb c "092" || is_quote c.

(** A literal chunk and what follows it. *)
Fixpoint chunk (input : cstring) : cstring * cstring :=
  match input with
  | [] => ([], [])
  | c :: rest =>
      if ends_chunk c then ([], input)
      else let r := chunk rest in (c :: fst r, snd r)
  end.

(** Modelled from the spec: the lexer is not part of the sources at
    hand.  These are its escape forms in string mode, "backslash then
    one of a double quote, a quote, a backslash, n, t, r, x and two
    hexadecimal digits, b and eight binary digits"; the view of a hex or
    bin escape is its digits (as [accumulate_string] reads them), a
    malformed escape is a lex error. *)
Definition lex_escape (input : cstring) : outcome (Token * cstring) :=
  match input with
  | [] => Throw "unterminated escape."
  | e :: rest =>
      if Ascii.eqb e "034" then
        Ok (mkToken TOKEN_ESCAPE_DOUBLEQUOTE ["092"; e], rest)
      else if Ascii.eqb e "'" then
        Ok (mkToken TOKEN_ESCAPE_QUOTE ["092"; e], rest)
      else if Ascii.eqb e "092" then
        Ok (mkToken TOKEN_ESCAPE_BACKSLASH ["092"; e], rest)
      else if Ascii.eqb e "n" then
        Ok (mkToken TOKEN_ESCAPE_NEWLINE ["092"; e], rest)
      else if Ascii.eqb e "t" then
        Ok (mkToken TOKEN_ESCAPE_TAB ["092"; e], rest)
      else if Ascii.eqb e "r" then
        Ok (mkToken TOKEN_ESCAPE_CARRIAGERETURN ["092"; e], rest)
      else if Ascii.eqb e "x" then
        let ds := take 2 rest in
        if Nat.eqb (length ds) 2 && forallb is_hex_digit ds then
          Ok (mkToken TOKEN_ESCAPE_HEX ds, drop 2 rest)
        else Throw "invalid hex digit."
      else if Ascii.eqb e "b" then
        let ds := take 8 rest in
        if Nat.eqb (length ds) 8 && forallb is_bin_digit ds then
          Ok (mkToken TOKEN_ESCAPE_BIN ds, drop 8 rest)
        else Throw "invalid binary digit."
      else Throw "invalid escape."
  end.

(** Modelled from the spec: string mode "does not skip whitespace" and
    "emits literal chunks up to the first escape or the matching
    delimiter"; a quote of either kind is a token of its own and the end
    of the input is [TOKEN_EOF]. *)
Definition lex_string_mode (input : cstring) : outcome (Token * cstring) :=
  match input with
  | [] => Ok (mkToken TOKEN_EOF [], [])
  | c :: rest =>
      if Ascii.eqb c "092" then lex_escape rest
      else if Ascii.eqb c "034" then Ok (mkToken TOKEN_DOUBLEQUOTE [c], rest)
      else if Ascii.eqb c "'" then Ok (mkToken TOKEN_QUOTE [c], rest)
      else let r := chunk input in Ok (mkToken TOKEN_CHAR (fst r), snd r)
  end.

(** Modelled from the spec: character mode "emits exactly one raw
    byte". *)
Definition lex_character_mode (input : cstring) : outcome (Token * cstring) :=
  match input with
  | [] => Ok (mkToken TOKEN_EOF [], [])
  | c :: rest => Ok (mkToken TOKEN_CHAR [c], rest)
  end.

(** The lexer on the bytes of the source, given its normal mode. *)
Definition byte_lexer (lex_normal : cstring -> outcome (Token * cstring))
    (m : mode) (input : cstring) : outcome (Token * cstring) :=
  match m with
  | normal => lex_normal input
  | string_mode => lex_string_mode input
  | character => lex_character_mode input
  end.

(** The token of a quote character. *)
Definition quote_token (q : ascii) : Token :=
  if Ascii.eqb q "034" then mkToken TOKEN_DOUBLEQUOTE [q]
  else mkToken TOKEN_QUOTE [q].

(** The delimiter of a smart string opener: the bytes before the
    quote. *)
Fixpoint opener_delimiter (input : cstring) : cstring * cstring :=
  match input with
  | [] => ([], [])
  | c :: rest =>
      if is_quote c then ([], input)
      else let r := opener_delimiter rest in (c :: fst r, snd r)
  end.

(** Modelled from the spec: in normal mode a smart string opens "with a
    letter in {r, p, c} followed by a user-chosen ASCII delimiter of one
    or more bytes (captured by the lexer as the second view byte
    onward), then a quote", and "the lexer emits the opener as one token
    ([TOKEN_SMART]) carrying the type letter and delimiter".  Normal mode
    is modelled at such an opener only. *)
Definition lex_opener (input : cstring) : outcome (Token * cstring) :=
  match input with
  | [] => Ok (mkToken TOKEN_EOF [], [])
  | letter :: rest =>
      if Ascii.eqb letter "r" || Ascii.eqb letter "p" || Ascii.eqb letter "c"
      then
        let r := opener_delimiter rest in
        match fst r, snd r with
        | _ :: _, _ :: _ => Ok (mkToken TOKEN_SMART (letter :: fst r), snd r)
        | _, _ => Throw "not a smart string."
        end
      else Throw "not a smart string."
  end.

(** Modelled from the spec: the lexer "turns a byte buffer into a stream
    of tokens"; for the control flow of the parser it is the list of the
    tokens still to come, [TOKEN_EOF] once the list is empty. *)
Definition stream_lexer (m : mode) (toks : list Token)
  : outcome (Token * list Token) :=
  match toks with
  | [] => Ok (mkToken TOKEN_EOF [], [])
  | t :: toks => Ok (t, toks)
  end.

(** Tokens by kind and text, for the examples. *)
Definition tok (ty : token_type) (text : string) : Token :=
  mkToken ty (chars text).

Definition ident (name : string) : Token := tok TOKEN_IDENTIFIER name.

(** ** Smart strings: what a literal should decode to *)










Definition no_backslash (content : cstring) : bool :=
  forallb (fun c => negb (Ascii.eqb c "092")) content.


(** ** Escapes, text *)

(** The number a binary numeral writes, its first digit the most
    significant. *)
Definition bin_value (ds : cstring) : Z :=
  fold_left (fun v c => 2 * v + (code c - code "0"))%Z ds 0%Z.

(** The characters of a string that are not whitespace, in order. *)
Definition text (is_whitespace : ascii -> bool) (s : cstring) : cstring :=
  List.filter (fun c => negb (is_whitespace c)) s.

(** [r] is [s] with some whitespace characters taken out. *)
Definition thinned (is_whitespace : ascii -> bool) (r s : cstring) : Prop :=
  r `sublist_of` s /\ text is_whitespace r = text is_whitespace s.

(** A string without a newline. *)
Definition one_line (s : cstring) : bool :=
  forallb (fun c => negb (Ascii.eqb c NL)) s.

(** ** Running to an end *)

(** [m], run from [s], does not run out of steps; and when it returns,
    [Q] holds of what it returns and of the state it leaves. *)
Definition finishes {S A} (m : ST S A) (s : S) (Q : A -> S -> Prop) : Prop :=
  match m s with
  | Ok (a, s') => Q a s'
  | Throw _ => True
  | Undefined => True
  | Timeout => False
  end.

Section Progress.

Context {Lexer : Type}.
Variable next_token : mode -> Lexer -> outcome (Token * Lexer).

(** What is left of the input, by some measure. *)
Variable size : Lexer -> nat.

(** The call left no more of the input than there was at [lex]. *)
Definition shrinks {A} (lex : Lexer) : A -> Lexer * wpp.AST -> Prop :=
  fun _ s' => size (fst s') <= size lex.

(** The call took some of the input there was at [lex]. *)
Definition consumes {A} (lex : Lexer) : A -> Lexer * wpp.AST -> Prop :=
  fun _ s' => size (fst s') < size lex.

(** The call took some of the input, unless the input was at its end. *)
Definition progresses {A} (lex : Lexer) : A -> Lexer * wpp.AST -> Prop :=
  fun _ s' =>
    size (fst s') <= size lex
    /\ forall t lex1,
         next_token normal lex = Ok (t, lex1) -> tok_is t TOKEN_EOF = false ->
         size (fst s') < size lex.

End Progress.

(** ** Reading tokens *)

Section Reading.

Context {Lexer : Type}.
Variable next_token : mode -> Lexer -> outcome (Token * Lexer).

(** From [lex] the lexer gives, in normal mode, the tokens [toks] one
    after the other and is then at [lex']. *)
Fixpoint reads (lex : Lexer) (toks : list Token) (lex' : Lexer) : Prop :=
  match toks with
  | [] => lex = lex'
  | t :: toks =>
      exists lex1, next_token normal lex = Ok (t, lex1) /\ reads lex1 toks lex'
  end.

End Reading.

(** The node of a call to [fn] with the arguments [args]. *)
Definition call_node (fn : Token) (args : list wpp.node_t) : wpp.node :=
  if peek_is_intrinsic fn then wpp.Intrinsic (type fn) (tok_str fn) args
  else wpp.FnInvoke (tok_str fn) args.

(** ** The loops of the parser, as what they read *)

Section Traces.

Variable Lexer : Type.
Variable next_token : mode -> Lexer -> outcome (Token * Lexer).
Variable is_whitespace : ascii -> bool.
Variable NODE_EMPTY : wpp.node_t.

(** The tree once [arg] is appended to the arguments of the call
    [node]. *)
Definition push_argument (node arg : wpp.node_t) (tree : wpp.AST) : wpp.AST :=
  match tree !! node with
  | Some (wpp.FnInvoke i args) => <[node := wpp.FnInvoke i (args ++ [arg])]> tree
  | _ => tree
  end.

(** The arguments between the parentheses of a call, as [fninvoke]
    reads them from the state [s]: expressions, each followed by a comma
    that is skipped, the last one possibly by the closing parenthesis at
    once; in the state reached no expression follows. *)
Inductive call_arguments (node : wpp.node_t)
  : Lexer * wpp.AST -> list wpp.node_t -> Lexer * wpp.AST -> Prop :=
| call_arguments_end s t :
    wpp.peek Lexer next_token normal s = Ok (t, s) ->
    peek_is_expr t = false ->
    call_arguments node s [] s
| call_arguments_comma s t fuel arg s1 comma s2 args s' :
    wpp.peek Lexer next_token normal s = Ok (t, s) ->
    peek_is_expr t = true ->
    wpp.expression Lexer next_token is_whitespace NODE_EMPTY fuel s
    = Ok (arg, s1) ->
    wpp.advance Lexer next_token normal s1 = Ok (comma, s2) ->
    tok_is comma TOKEN_COMMA = true ->
    call_arguments node (fst s2, push_argument node arg (snd s1)) args s' ->
    call_arguments node s (arg :: args) s'
| call_arguments_last s t fuel arg s1 rparen :
    wpp.peek Lexer next_token normal s = Ok (t, s) ->
    peek_is_expr t = true ->
    wpp.expression Lexer next_token is_whitespace NODE_EMPTY fuel s
    = Ok (arg, s1) ->
    wpp.peek Lexer next_token normal s1 = Ok (rparen, s1) ->
    tok_is rparen TOKEN_RPAREN = true ->
    call_arguments node s [arg] (fst s1, push_argument node arg (snd s1)).

(** The tree once [stmt] is appended to the statements of the Document
    [node]. *)
Definition push_document (node stmt : wpp.node_t) (tree : wpp.AST) : wpp.AST :=
  match tree !! node with
  | Some (wpp.Document stmts) => <[node := wpp.Document (stmts ++ [stmt])]> tree
  | _ => tree
  end.

(** The statements of a document, as [document] reads them from the
    state [s], up to the end of the input. *)
Inductive document_statements (node : wpp.node_t)
  : Lexer * wpp.AST -> list wpp.node_t -> Lexer * wpp.AST -> Prop :=
| document_statements_end s t :
    wpp.peek Lexer next_token normal s = Ok (t, s) ->
    tok_is t TOKEN_EOF = true ->
    document_statements node s [] s
| document_statements_more s t fuel stmt s1 stmts s' :
    wpp.peek Lexer next_token normal s = Ok (t, s) ->
    tok_is t TOKEN_EOF = false ->
    wpp.statement Lexer next_token is_whitespace NODE_EMPTY fuel s
    = Ok (stmt, s1) ->
    document_statements node (fst s1, push_document node stmt (snd s1)) stmts s' ->
    document_statements node s (stmt :: stmts) s'.

(** The tree once the case [(arm, hand)] is appended to the cases of
    the Map [node]. *)
Definition push_case (node arm hand : wpp.node_t) (tree : wpp.AST) : wpp.AST :=
  match tree !! node with
  | Some (wpp.Map e cases d) => <[node := wpp.Map e (cases ++ [(arm, hand)]) d]> tree
  | _ => tree
  end.

(** The cases of a map, as [map] reads them from the state [s]: an
    expression, the arrow, an expression, as long as an expression
    comes. *)
Inductive map_cases (node : wpp.node_t)
  : Lexer * wpp.AST -> list (wpp.node_t * wpp.node_t) -> Lexer * wpp.AST -> Prop :=
| map_cases_end s t :
    wpp.peek Lexer next_token normal s = Ok (t, s) ->
    peek_is_expr t = false ->
    map_cases node s [] s
| map_cases_more s t fuel arm s1 arrow s2 t2 fuel' hand s3 cases s' :
    wpp.peek Lexer next_token normal s = Ok (t, s) ->
    peek_is_expr t = true ->
    wpp.expression Lexer next_token is_whitespace NODE_EMPTY fuel s
    = Ok (arm, s1) ->
    wpp.advance Lexer next_token normal s1 = Ok (arrow, s2) ->
    tok_is arrow TOKEN_ARROW = true ->
    wpp.peek Lexer next_token normal s2 = Ok (t2, s2) ->
    peek_is_expr t2 = true ->
    wpp.expression Lexer next_token is_whitespace NODE_EMPTY fuel' s2
    = Ok (hand, s3) ->
    map_cases node (fst s3, push_case node arm hand (snd s3)) cases s' ->
    map_cases node s ((arm, hand) :: cases) s'.

End Traces.

Section PrefixTrace.

Variable Lexer : Type.
Variable next_token : mode -> Lexer -> outcome (Token * Lexer).
Variable is_whitespace : ascii -> bool.
Variable NODE_EMPTY : wpp.node_t.

(** The tree once [stmt] is appended to the statements of the Pre
    [node]. *)
Definition push_prefix (node stmt : wpp.node_t) (tree : wpp.AST) : wpp.AST :=
  match tree !! node with
  | Some (wpp.Pre es stmts) => <[node := wpp.Pre es (stmts ++ [stmt])]> tree
  | _ => tree
  end.

(** The statements between the braces of a prefix, as [prefix] reads
    them from the state [s]: one, and more as long as a statement
    comes. *)
Inductive prefix_statements (node : wpp.node_t)
  : Lexer * wpp.AST -> list wpp.node_t -> Lexer * wpp.AST -> Prop :=
| prefix_statements_last s fuel stmt s1 t' :
    wpp.statement Lexer next_token is_whitespace NODE_EMPTY fuel s
    = Ok (stmt, s1) ->
    wpp.peek Lexer next_token normal s1 = Ok (t', s1) ->
    peek_is_stmt t' = false ->
    prefix_statements node s [stmt] (fst s1, push_prefix node stmt (snd s1))
| prefix_statements_more s fuel stmt s1 t' stmts s' :
    wpp.statement Lexer next_token is_whitespace NODE_EMPTY fuel s
    = Ok (stmt, s1) ->
    wpp.peek Lexer next_token normal s1 = Ok (t', s1) ->
    peek_is_stmt t' = true ->
    prefix_statements node (fst s1, push_prefix node stmt (snd s1)) stmts s' ->
    prefix_statements node s (stmt :: stmts) s'.

End PrefixTrace.

(** ** Strings that do not end *)

(** No quote [quote] in [content]. *)
Definition no_quote (quote : ascii) (content : cstring) : bool :=
  forallb (fun c => negb (Ascii.eqb c quote)) content.

(** No quote [quote] of [content] is directly followed by [delim]. *)
Fixpoint never_closed (quote delim : ascii) (content : cstring) : bool :=
  match content with
  | [] => true
  | c :: rest =>
      negb (Ascii.eqb c quote
            && match rest with d :: _ => Ascii.eqb d delim | [] => false end)
      && never_closed quote delim rest
  end.


(** ** The links of the tree *)

(** [m], run from [s]: when it returns, [Q] holds of what it returns and
    of the state it leaves. *)
Definition ensures {S A} (m : ST S A) (s : S) (Q : A -> S -> Prop) : Prop :=
  match m s with
  | Ok (a, s') => Q a s'
  | Throw _ => True
  | Undefined => True
  | Timeout => True
  end.

Section Links.

Variable Lexer : Type.
Variable NODE_EMPTY : wpp.node_t.

(** The nodes a node refers to.  The default case of a [Map] is one of
    them unless it is [NODE_EMPTY], which [map] stores when there is no
    default arm. *)
Definition links (n : wpp.node) : list wpp.node_t :=
  match n with
  | wpp.Document stmts => stmts
  | wpp.Fn _ _ body => [body]
  | wpp.Var _ body => [body]
  | wpp.Drop func => [func]
  | wpp.Pre exprs stmts => exprs ++ stmts
  | wpp.Block stmts expr => stmts ++ [expr]
  | wpp.Map expr cases default_case =>
      expr :: flat_map (fun c => [fst c; snd c]) cases
      ++ (if Nat.eqb default_case NODE_EMPTY then [] else [default_case])
  | wpp.FnInvoke _ args => args
  | wpp.Intrinsic _ _ args => args
  | wpp.Codeify expr => [expr]
  | wpp.String _ => []
  | wpp.Concat lhs rhs => [lhs; rhs]
  end.

(** The links of [n] are indices from [lo] on and below [hi]. *)
Definition closed (lo hi : nat) (n : wpp.node) : Prop :=
  Forall (fun j => lo <= j < hi) (links n).

(** The nodes of [tree] from the index [lo] on refer to nodes of [tree]
    from [lo] on. *)
Definition closed_from (lo : nat) (tree : wpp.AST) : Prop :=
  forall i n, lo <= i -> tree !! i = Some n -> closed lo (length tree) n.

(** The node [node] of [tree] is [o], being filled: the nodes after it
    refer to one another only. *)
Definition filling (node : wpp.node_t) (o : wpp.node) (tree : wpp.AST) : Prop :=
  tree !! node = Some o /\ closed_from (S node) tree.

(** [m] returns the index of a node it made, and the nodes it made
    refer to one another only. *)
Definition builds (m : wpp.P Lexer wpp.node_t) : Prop :=
  forall s,
    ensures m s (fun a s' =>
      length (snd s) <= a < length (snd s')
      /\ closed_from (length (snd s)) (snd s')).

(** [m], a loop filling the node [node], keeps the nodes from [node] on
    referring to one another only. *)
Definition keeps {A} (node : wpp.node_t) (m : wpp.P Lexer A) : Prop :=
  forall s,
    node < length (snd s) -> closed_from node (snd s) ->
    ensures m s (fun _ s' =>
      length (snd s) <= length (snd s') /\ closed_from node (snd s')).

End Links.

(** ** Lines of code *)

(** A line: neither a newline nor a NUL in it. *)
Definition line (l : cstring) : bool :=
  forallb (fun c => negb (Ascii.eqb c NL) && negb (Ascii.eqb c NUL)) l.

(** A string without a NUL. *)
Definition no_nul (s : cstring) : bool :=
  forallb (fun c => negb (Ascii.eqb c NUL)) s.

(** The lines [ls], each after a newline. *)
Definition after_newlines (ls : list cstring) : cstring :=
  flat_map (fun l => NL :: l) ls.

(** The least of [common] and of the indentations of the lines [ls]. *)
Definition least_indent (is_whitespace : ascii -> bool) (common : Z)
    (ls : list cstring) : Z :=
  fold_left (fun acc l => Z.min acc (Z.of_nat (indentation is_whitespace l)))
    ls common.

(** A line without the first [common] characters of its indentation, or
    without its indentation when that is shorter. *)
Definition strip_line (is_whitespace : ascii -> bool) (common : Z)
    (l : cstring) : cstring :=
  drop (Nat.min (Z.to_nat common) (indentation is_whitespace l)) l.
(** * Paragraph strings *)

Section ParagraphFacts.

Variable ws : ascii -> bool.

Lemma unique_from_kept (a b : ascii) (l : cstring) :
  ws a = ws b ->
  unique_from (both_whitespace ws) a l = unique_from (both_whitespace ws) b l.
Proof.
  intros Hab. induction l as [|x l IH]; simpl; [reflexivity|].
  assert (E : both_whitespace ws a x = both_whitespace ws b x)
    by (unfold both_whitespace; now rewrite Hab).
  rewrite E. destruct (both_whitespace ws b x); [exact IH | reflexivity].
Qed.

Lemma to_space_whitespace (a : ascii) : ws a = true -> to_space ws a = " ".
Proof. intros H. unfold to_space. now rewrite H. Qed.

Lemma to_space_other (a : ascii) : ws a = false -> to_space ws a = a.
Proof. intros H. unfold to_space. now rewrite H. Qed.

Lemma to_space_idem (a : ascii) : to_space ws (to_space ws a) = to_space ws a.
Proof.
  unfold to_space. destruct (ws a) eqn:Ha; [|now rewrite Ha].
  now destruct (ws " ").
Qed.

Lemma whitespace_to_space (a : ascii) :
  ws (to_space ws a) = true -> ws a = true.
Proof. unfold to_space. destruct (ws a) eqn:Ha; congruence. Qed.

(** The run kept by [std::unique] and the one kept by [collapse_runs]
    differ, their images under [to_space] do not. *)
Lemma collapse_runs_cons (a b : ascii) (t : cstring) :
  collapse_runs ws (a :: b :: t)
  = if ws a && ws b then collapse_runs ws (b :: t)
    else a :: collapse_runs ws (b :: t).
Proof. reflexivity. Qed.

Lemma unique_collapse (x : cstring) :
  map (to_space ws) (unique (both_whitespace ws) x)
  = map (to_space ws) (collapse_runs ws x).
Proof.
  destruct x as [|a t]; [reflexivity|].
  revert a. induction t as [|b t IH]; intros a; [reflexivity|].
  specialize (IH b). rewrite collapse_runs_cons.
  unfold unique in *. cbn [unique_from]. unfold both_whitespace at 1.
  destruct (ws a) eqn:Ha, (ws b) eqn:Hb; cbn [andb];
    try (cbn [map] in *; now rewrite IH).
  rewrite <- IH, (unique_from_kept a b) by congruence.
  cbn [map]. now rewrite !to_space_whitespace.
Qed.

Lemma no_adjacent_unique_from (a : ascii) (l : cstring) :
  no_adjacent ws (a :: unique_from (both_whitespace ws) a l) = true.
Proof.
  revert a. induction l as [|x l IH]; intros a; [reflexivity|].
  cbn [unique_from]. destruct (both_whitespace ws a x) eqn:E; [apply IH|].
  change (negb (ws a && ws x) && no_adjacent ws (x :: unique_from (both_whitespace ws) x l) = true).
  unfold both_whitespace in E. rewrite E, IH. reflexivity.
Qed.

Lemma no_adjacent_unique (x : cstring) :
  no_adjacent ws (unique (both_whitespace ws) x) = true.
Proof. destruct x; [reflexivity | apply no_adjacent_unique_from]. Qed.

Lemma no_adjacent_map (l : cstring) :
  no_adjacent ws l = true -> no_adjacent ws (map (to_space ws) l) = true.
Proof.
  induction l as [|a t IH]; [reflexivity|].
  destruct t as [|b t]; [reflexivity|].
  intros H. change (negb (ws a && ws b) && no_adjacent ws (b :: t) = true) in H.
  apply andb_true_iff in H as [H1 H2].
  change (negb (ws (to_space ws a) && ws (to_space ws b))
          && no_adjacent ws (map (to_space ws) (b :: t)) = true).
  rewrite (IH H2), andb_true_r.
  apply negb_true_iff. apply negb_true_iff in H1.
  destruct (ws (to_space ws a)) eqn:Ea, (ws (to_space ws b)) eqn:Eb; try reflexivity.
  apply whitespace_to_space in Ea, Eb. now rewrite Ea, Eb in H1.
Qed.

Lemma unique_fixed (l : cstring) :
  no_adjacent ws l = true -> unique (both_whitespace ws) l = l.
Proof.
  destruct l as [|a t]; [reflexivity|]. simpl. intros H. f_equal.
  revert a H. induction t as [|b t IH]; intros a H; [reflexivity|].
  change (negb (ws a && ws b) && no_adjacent ws (b :: t) = true) in H.
  apply andb_true_iff in H as [H1 H2]. apply negb_true_iff in H1.
  simpl. unfold both_whitespace at 1. rewrite H1. f_equal. now apply IH.
Qed.

Lemma no_adjacent_tail (l : cstring) :
  no_adjacent ws l = true -> no_adjacent ws (tail l) = true.
Proof.
  destruct l as [|a [|b t]]; try reflexivity.
  intros H. change (negb (ws a && ws b) && no_adjacent ws (b :: t) = true) in H.
  now apply andb_true_iff in H as [_ H].
Qed.

Lemma no_adjacent_removelast (l : cstring) :
  no_adjacent ws l = true -> no_adjacent ws (removelast l) = true.
Proof.
  induction l as [|a t IH]; [reflexivity|].
  destruct t as [|b t]; [reflexivity|].
  intros H. change (negb (ws a && ws b) && no_adjacent ws (b :: t) = true) in H.
  apply andb_true_iff in H as [H1 H2]. specialize (IH H2).
  destruct t as [|c t]; [reflexivity|].
  change (removelast (a :: b :: c :: t)) with (a :: removelast (b :: c :: t)).
  change (removelast (b :: c :: t)) with (b :: removelast (c :: t)) in *.
  change (negb (ws a && ws b) && no_adjacent ws (b :: removelast (c :: t)) = true).
  now rewrite H1, IH.
Qed.

Lemma no_adjacent_head (a : ascii) (l : cstring) (g : ascii) :
  no_adjacent ws (a :: l) = true -> ws a = true -> head l = Some g ->
  ws g = false.
Proof.
  destruct l as [|b t]; [discriminate|]. intros H Ha [= <-].
  change (negb (ws a && ws b) && no_adjacent ws (b :: t) = true) in H.
  apply andb_true_iff in H as [H _]. rewrite Ha in H.
  now apply negb_true_iff in H.
Qed.

Lemma no_adjacent_last (l : cstring) (b c : ascii) :
  no_adjacent ws (l ++ [b]) = true -> ws b = true -> last l = Some c ->
  ws c = false.
Proof.
  induction l as [|a t IH]; [discriminate|].
  destruct t as [|a' t].
  - intros H Hb [= <-].
    change (negb (ws a && ws b) && true = true) in H.
    rewrite Hb, andb_true_r in H. now destruct (ws a).
  - intros H Hb Hl.
    change (negb (ws a && ws a') && no_adjacent ws ((a' :: t) ++ [b]) = true) in H.
    apply andb_true_iff in H as [_ H]. now apply IH.
Qed.

Lemma spaced_map (l : cstring) : Forall (spaced ws) (map (to_space ws) l).
Proof.
  induction l as [|a l IH]; cbn [map]; constructor; [apply to_space_idem | exact IH].
Qed.

Lemma spaced_fixed (l : cstring) : Forall (spaced ws) l -> map (to_space ws) l = l.
Proof. induction 1 as [|c l Hc _ IH]; [reflexivity|]. cbn [map]. now rewrite Hc, IH. Qed.

Lemma spaced_tail (l : cstring) : Forall (spaced ws) l -> Forall (spaced ws) (tail l).
Proof. destruct 1; [constructor | assumption]. Qed.

Lemma spaced_removelast (l : cstring) :
  Forall (spaced ws) l -> Forall (spaced ws) (removelast l).
Proof.
  induction 1 as [|c l Hc Hl IH]; [constructor|].
  destruct l; [constructor|]. now constructor.
Qed.

Lemma paragraph_form_fixed (y : cstring) :
  paragraph_form ws y -> para_string ws y = Some y.
Proof.
  intros (Hadj & Hsp & (f & Hf & Hwf) & (b & Hb & Hwb)).
  unfold para_string. rewrite (unique_fixed _ Hadj), (spaced_fixed _ Hsp).
  rewrite Hf. cbn. rewrite Hwf, Hb. cbn. now rewrite Hwb.
Qed.

Lemma strip_ends_form (z : cstring) (y : cstring) :
  no_adjacent ws z = true -> Forall (spaced ws) z ->
  (front ← head z;
   let z1 := if ws front then erase_first z else z in
   back ← last z1;
   Some (if ws back then erase_last z1 else z1)) = Some y ->
  paragraph_form ws y.
Proof.
  intros Hadj Hsp. destruct z as [|f z']; [discriminate|]. cbn [head mbind option_bind].
  assert (Hz1 : forall z1 : cstring, no_adjacent ws z1 = true -> Forall (spaced ws) z1 ->
            (exists g, head z1 = Some g /\ ws g = false) ->
            (back ← last z1; Some (if ws back then erase_last z1 else z1)) = Some y ->
            paragraph_form ws y).
  { clear. intros z1 Hadj Hsp (g & Hg & Hwg) H.
    destruct (last z1) as [b|] eqn:Hb; [|discriminate]. cbn in H.
    destruct (ws b) eqn:Hwb; injection H as <-.
    - apply last_Some in Hb as [l' ->]. unfold erase_last.
      rewrite removelast_last.
      destruct l' as [|g' l']; [cbn in Hg; congruence|].
      cbn in Hg. injection Hg as ->.
      assert (Hadj' := no_adjacent_removelast _ Hadj).
      assert (Hsp' := spaced_removelast _ Hsp).
      rewrite removelast_last in Hadj', Hsp'.
      repeat split; try assumption; [now exists g|].
      destruct (last (g :: l')) as [c|] eqn:Hc.
      + exists c. split; [reflexivity|]. now apply (no_adjacent_last (g :: l') b c).
      + now apply last_None in Hc.
    - repeat split; try assumption; [now exists g | now exists b]. }
  cbv zeta. destruct (ws f) eqn:Hwf.
  - unfold erase_first. cbn [tail]. intros H.
    destruct z' as [|g z'']; [discriminate|].
    apply (Hz1 (g :: z'')); try assumption.
    + now apply no_adjacent_tail in Hadj.
    + now apply spaced_tail in Hsp.
    + exists g. split; [reflexivity|]. now apply (no_adjacent_head f (g :: z'')).
  - apply Hz1; try assumption. now exists f.
Qed.

Lemma para_string_form (x y : cstring) :
  para_string ws x = Some y -> paragraph_form ws y.
Proof.
  apply strip_ends_form.
  - apply no_adjacent_map, no_adjacent_unique.
  - apply spaced_map.
Qed.

Lemma unique_from_keeps (c a : ascii) (l : cstring) :
  In c l -> ws c = false -> In c (unique_from (both_whitespace ws) a l).
Proof.
  intros Hin Hc. revert a. induction l as [|x l IH]; intros a; [contradiction|].
  cbn [unique_from]. destruct Hin as [->|Hin].
  - unfold both_whitespace. rewrite Hc, andb_false_r. now left.
  - destruct (both_whitespace ws a x); [now apply IH | right; now apply IH].
Qed.

Lemma non_whitespace_survives (x : cstring) :
  has_non_whitespace ws x = true ->
  exists c, In c (map (to_space ws) (unique (both_whitespace ws) x))
            /\ ws c = false.
Proof.
  intros H. apply existsb_exists in H as (c & Hin & Hc).
  apply negb_true_iff in Hc. exists c. split; [|assumption].
  rewrite <- (to_space_other c Hc). apply in_map.
  destruct x as [|a t]; [contradiction|]. cbn [unique].
  destruct Hin as [->|Hin]; [now left | right; now apply unique_from_keeps].
Qed.

Lemma strip_one_trailing_last (l : cstring) (b : ascii) :
  strip_one_trailing ws (l ++ [b]) = if ws b then l else l ++ [b].
Proof.
  unfold strip_one_trailing. rewrite rev_app_distr. cbn [rev app strip_one_leading].
  destruct (ws b); [apply rev_involutive|].
  cbn [rev]. now rewrite rev_involutive.
Qed.

(** Where the input holds a character that is not whitespace
    [para_string] is defined, and is the transformation of the
    specification. *)
Lemma para_string_on_text (x : cstring) :
  has_non_whitespace ws x = true ->
  para_string ws x = Some (para_spec ws x).
Proof.
  intros H. apply non_whitespace_survives in H as (c & Hin & Hc).
  unfold para_string, para_spec. rewrite <- unique_collapse.
  destruct (map (to_space ws) (unique (both_whitespace ws) x)) as [|f z']; [contradiction|].
  cbn [head mbind option_bind strip_one_leading]. cbv zeta.
  assert (Hz1 : forall z1 : cstring, In c z1 ->
            (back ← last z1; Some (if ws back then erase_last z1 else z1))
            = Some (strip_one_trailing ws z1)).
  { intros z1 Hz1. destruct (last z1) as [b|] eqn:Hb.
    - apply last_Some in Hb as [l' ->]. cbn.
      rewrite strip_one_trailing_last. unfold erase_last.
      now rewrite removelast_last.
    - apply last_None in Hb. subst. contradiction. }
  destruct (ws f) eqn:Hf.
  - apply Hz1. destruct Hin as [->|Hin]; [congruence | assumption].
  - now apply Hz1.
Qed.

(** C6: on every input with a character that is not whitespace the
    payload of a paragraph string is obtained by collapsing each run of
    whitespace to one character, replacing every whitespace character by
    a space, then stripping one leading and one trailing whitespace
    character, if present. *)
Theorem para_string_refines_spec (x : cstring) :
  has_non_whitespace ws x = true ->
  para_string ws x = Some (para_spec ws x).
Proof. exact (para_string_on_text x). Qed.

(** C5: paragraph post-processing is idempotent, [p(p(x)) = p(x)] for
    every input [x]: where [para_string] is defined on [x] it is defined
    on its result and leaves it unchanged (where it is undefined both
    sides are), and it is defined on every [x] that holds a character
    that is not whitespace. *)
Theorem para_string_idempotent (x : cstring) :
  para_string ws x ≫= para_string ws = para_string ws x
  /\ (has_non_whitespace ws x = true ->
      exists y, para_string ws x = Some y /\ para_string ws y = Some y).
Proof.
  split.
  - destruct (para_string ws x) as [y|] eqn:E; [|reflexivity].
    cbn. now apply paragraph_form_fixed, (para_string_form x).
  - intros H. exists (para_spec ws x).
    pose proof (para_string_on_text x H) as E. split; [exact E|].
    now apply paragraph_form_fixed, (para_string_form x).
Qed.

Lemma unique_from_all_whitespace (a : ascii) (l : cstring) :
  ws a = true -> has_non_whitespace ws l = false ->
  unique_from (both_whitespace ws) a l = [].
Proof.
  intros Ha. induction l as [|x l IH]; [reflexivity|].
  unfold has_non_whitespace. cbn [existsb]. intros H.
  apply orb_false_iff in H as [Hx Hl]. apply negb_false_iff in Hx.
  cbn [unique_from]. unfold both_whitespace at 1. rewrite Ha, Hx. now apply IH.
Qed.

(** C9: [para_string] is defined exactly on the inputs that hold a
    character that is not whitespace; on the empty string and on a
    string of whitespace the strip step reads [front()] or [back()] of an
    empty string. *)
Theorem para_string_undefined_iff (x : cstring) :
  ws " " = true ->
  para_string ws x = None <-> has_non_whitespace ws x = false.
Proof.
  intros Hsp. split.
  - intros H. destruct (has_non_whitespace ws x) eqn:E; [|reflexivity].
    apply para_string_on_text in E. congruence.
  - intros H. destruct x as [|a t]; [reflexivity|].
    unfold has_non_whitespace in H. cbn [existsb] in H.
    apply orb_false_iff in H as [Ha Ht]. apply negb_false_iff in Ha.
    unfold para_string. cbn [unique].
    rewrite (unique_from_all_whitespace a t Ha Ht). cbn [map head mbind option_bind].
    rewrite (to_space_whitespace a Ha). cbv zeta. now rewrite Hsp.
Qed.

End ParagraphFacts.

(** Witness of [para_string_idempotent]: the paragraph of two words is
    left as it is. *)
Lemma para_string_idempotent_witness :
  exists y, para_string blank (chars "  two   words ") = Some y
            /\ para_string blank y = Some y.
Proof.
  apply (proj2 (para_string_idempotent blank (chars "  two   words "))).
  reflexivity.
Defined.

(** Witness of [para_string_refines_spec]: two words and the whitespace
    around them. *)
Lemma para_string_refines_spec_witness :
  para_string blank (chars "  two   words ") = Some (chars "two words").
Proof.
  apply (para_string_refines_spec blank (chars "  two   words ")).
  reflexivity.
Defined.

(** Witness of [para_string_undefined_iff]: the empty paragraph string
    and the one made of a space. *)
Lemma para_string_undefined_iff_witness :
  para_string blank [] = None /\ para_string blank [" "] = None.
Proof.
  split.
  - apply (para_string_undefined_iff blank [] eq_refl). reflexivity.
  - apply (para_string_undefined_iff blank [" "] eq_refl). reflexivity.
Defined.

(** * Hex and binary strings *)

Section HexFacts.

Local Open Scope Z_scope.

Lemma code_range (c : ascii) : 0 <= code c < 256.
Proof.
  unfold code. pose proof (N_ascii_bounded c). lia.
Qed.

Lemma code_char_of (z : Z) : code (char_of z) = z mod 256.
Proof.
  unfold code, char_of.
  assert (0 <= z mod 256 < 256) by (apply Z.mod_pos_bound; lia).
  rewrite N_ascii_embedding by lia. lia.
Qed.

Lemma lor_shifted (v d n : Z) :
  0 <= n -> 0 <= v < 2 ^ n -> Z.lor v (Z.shiftl d n) = v + d * 2 ^ n.
Proof.
  intros Hn Hv. rewrite Z.shiftl_mul_pow2 by assumption.
  assert (E : Z.land v (d * 2 ^ n) = 0).
  { apply Z.bits_inj'. intros m Hm. rewrite Z.land_spec, Z.bits_0.
    destruct (Z.lt_ge_cases m n) as [Hlt|Hge].
    - rewrite Z.mul_pow2_bits_low by assumption. apply andb_false_r.
    - rewrite <- (Z.mod_small v (2 ^ n)) by assumption.
      rewrite Z.mod_pow2_bits_high by lia. reflexivity. }
  rewrite <- (Z.lxor_lor _ _ E). symmetry. now apply Z.add_nocarry_lxor.
Qed.

Section Packing.

Variables (bits : Z) (k : nat).
Hypothesis bits_pos : 0 < bits.
Hypothesis k_pos : (0 < k)%nat.
Hypothesis fits : bits * Z.of_nat k <= 8.

Lemma pow_split (i : nat) :
  2 ^ (bits * Z.of_nat (S i)) = 2 ^ (bits * Z.of_nat i) * 2 ^ bits.
Proof.
  rewrite <- Z.pow_add_r by lia. f_equal. lia.
Qed.

Lemma pow_le_256 (i : nat) : (i <= k)%nat -> 2 ^ (bits * Z.of_nat i) <= 256.
Proof.
  intros Hi. change 256 with (2 ^ 8). apply Z.pow_le_mono_r; nia.
Qed.

(** Filling up the byte under construction. *)
Lemma pack_loop_fill (ds rest pre : list Z) (v : Z) (i : nat) :
  (0 < i < k)%nat -> (i + length ds <= k)%nat ->
  0 <= v < 2 ^ (bits * Z.of_nat i) ->
  Forall (digit_in_range bits) ds ->
  pack_loop bits k (ds ++ rest) (pre ++ [v]) i
  = pack_loop bits k rest
      (pre ++ [v + 2 ^ (bits * Z.of_nat i) * group_value bits ds])
      (if Nat.eqb (i + length ds) k then 0%nat else (i + length ds)%nat).
Proof.
  revert v i. induction ds as [|d ds IH]; intros v i Hi Hlen Hv Hds.
  - cbn [app length group_value]. rewrite Nat.add_0_r, Z.mul_0_r, Z.add_0_r.
    now rewrite (proj2 (Nat.eqb_neq i k)) by lia.
  - inversion Hds as [|? ? Hd Hds']; subst. unfold digit_in_range in Hd.
    cbn [app pack_loop length group_value].
    rewrite (proj2 (Nat.eqb_neq i 0)) by lia.
    rewrite last_snoc. cbn [mbind option_bind]. rewrite removelast_last.
    rewrite lor_shifted by lia.
    assert (Hpow := pow_split i).
    assert (Hle := pow_le_256 (S i) ltac:(lia)).
    assert (Hbound : 0 <= v + d * 2 ^ (bits * Z.of_nat i) < 2 ^ (bits * Z.of_nat (S i))) by nia.
    rewrite Z.mod_small by lia.
    destruct (Nat.eqb_spec (S i) k) as [E|E].
    + destruct ds as [|d' ds]; [|cbn [length] in Hlen; lia].
      cbn [app length group_value].
      rewrite (proj2 (Nat.eqb_eq (i + 1) k)) by lia.
      do 3 f_equal. lia.
    + cbn [length] in Hlen. rewrite (IH _ (S i)) by (try assumption; lia).
      replace (S i + length ds)%nat with (i + S (length ds))%nat by lia.
      do 3 f_equal. rewrite Hpow. ring.
Qed.

(** A whole group, from the start of a byte. *)
Lemma pack_loop_group (g rest pre : list Z) :
  g <> [] -> (length g <= k)%nat -> Forall (digit_in_range bits) g ->
  pack_loop bits k (g ++ rest) pre 0
  = pack_loop bits k rest (pre ++ [group_value bits g])
      (if Nat.eqb (length g) k then 0%nat else length g).
Proof.
  intros Hne Hlen Hg. destruct g as [|d g]; [contradiction|].
  inversion Hg as [|? ? Hd Hg']; subst. unfold digit_in_range in Hd.
  cbn [app pack_loop length group_value] in *.
  change (Nat.eqb 0 0) with true. cbv iota.
  assert (H256 := pow_le_256 1 ltac:(lia)).
  change (Z.of_nat 1) with 1 in *. rewrite Z.mul_1_r in H256.
  rewrite (Z.mod_small d 256) by lia.
  destruct (Nat.eqb_spec 1 k) as [E|E].
  - destruct g as [|d' g]; [|cbn [length] in Hlen; lia].
    cbn [app length group_value]. rewrite <- E. cbn. do 3 f_equal. lia.
  - rewrite pack_loop_fill;
      [ | lia | lia | change (Z.of_nat 1) with 1; rewrite Z.mul_1_r; lia
        | assumption ].
    change (Z.of_nat 1) with 1. rewrite Z.mul_1_r. reflexivity.
Qed.

Lemma pack_loop_chunks (fuel : nat) (ds pre : list Z) :
  (length ds <= fuel)%nat -> Forall (digit_in_range bits) ds ->
  pack_loop bits k ds pre 0
  = Some (pre ++ map (group_value bits) (chunks fuel k ds)).
Proof.
  revert ds pre. induction fuel as [|fuel IH]; intros ds pre Hlen Hds.
  - destruct ds; [|cbn in Hlen; lia]. cbn. now rewrite app_nil_r.
  - destruct ds as [|d ds]; [cbn; now rewrite app_nil_r|].
    cbn [chunks map]. set (l := d :: ds) in *.
    rewrite <- (take_drop k l) at 1.
    assert (Hl : (0 < length l)%nat) by (cbn; lia).
    rewrite pack_loop_group.
    + destruct (Nat.eqb_spec (length (take k l)) k) as [E|E].
      * rewrite IH.
        -- now rewrite <- List.app_assoc.
        -- rewrite length_drop. lia.
        -- now apply Forall_drop.
      * rewrite length_take in E.
        rewrite drop_ge by lia. cbn [pack_loop].
        destruct fuel; reflexivity.
    + intros E. apply (f_equal length) in E. rewrite length_take in E. cbn in E. lia.
    + rewrite length_take. lia.
    + now apply Forall_take.
Qed.

End Packing.

Lemma last_map_code (str : cstring) :
  last (map code str) = option_map code (last str).
Proof.
  destruct (last str) as [b|] eqn:E.
  - apply last_Some in E as [l' ->]. rewrite map_app. cbn [map].
    now rewrite last_snoc.
  - apply last_None in E. now subst.
Qed.

Lemma or_back_code (str : cstring) (v : Z) :
  option_map (map code) (or_back str v)
  = (back ← last (map code str);
     Some (removelast (map code str) ++ [Z.lor back v mod 256])).
Proof.
  unfold or_back. rewrite last_map_code.
  destruct (last str) as [b|] eqn:E; [|reflexivity].
  apply last_Some in E as [l' ->]. cbn [mbind option_bind option_map].
  rewrite removelast_last, !map_app. cbn [map].
  now rewrite removelast_last, code_char_of.
Qed.

Lemma push_back_code (str : cstring) (v : Z) :
  map code (push_back str v) = map code str ++ [v mod 256].
Proof. unfold push_back. rewrite map_app. cbn [map]. now rewrite code_char_of. Qed.

Lemma digits_cons (c : ascii) (l : cstring) :
  digits (c :: l) = if Ascii.eqb c "_" then digits l else c :: digits l.
Proof. unfold digits. cbn [List.filter]. now destruct (Ascii.eqb c "_"). Qed.

Lemma land_1 (n : Z) : 0 <= n -> Z.land n 1 = n mod 2.
Proof. intros H. change 1 with (Z.ones 1). now rewrite Z.land_ones by lia. Qed.

Lemma land_7 (n : Z) : 0 <= n -> Z.land n 7 = n mod 8.
Proof. intros H. change 7 with (Z.ones 3). now rewrite Z.land_ones by lia. Qed.

Lemma hex_loop_pack (rview str : cstring) (counter : Z) (i : nat) :
  0 <= counter -> counter mod 2 = Z.of_nat i ->
  option_map (map code) (hex_loop rview str counter)
  = pack_loop 4 2 (map hex_to_digit (digits rview)) (map code str) i.
Proof.
  revert str counter i. induction rview as [|c rview IH]; intros str counter i Hc Hi.
  - reflexivity.
  - cbn [hex_loop]. rewrite digits_cons.
    destruct (Ascii.eqb c "_"); [now apply IH|].
    cbn [map pack_loop]. rewrite land_1, Hi by assumption.
    assert (Hi2 : (i < 2)%nat) by (Z.div_mod_to_equations; lia).
    destruct i as [|[|i]]; [| |lia].
    + change (negb (Z.of_nat 0 =? 0)) with false. cbv iota.
      change (Nat.eqb 0 0) with true. change (Nat.eqb 1 2) with false.
      cbv iota zeta. rewrite <- push_back_code.
      apply IH; [lia | Z.div_mod_to_equations; lia].
    + change (negb (Z.of_nat 1 =? 0)) with true. cbv iota.
      change (Nat.eqb 1 0) with false. cbv iota.
      change (Nat.eqb 2 2) with true. cbv iota zeta.
      change (4 * Z.of_nat 1) with 4.
      destruct (or_back str (Z.shiftl (hex_to_digit c) 4)) as [str'|] eqn:E.
      * pose proof (or_back_code str (Z.shiftl (hex_to_digit c) 4)) as H.
        rewrite E in H. cbn [option_map] in H.
        destruct (last (map code str)) as [b|]; [|discriminate].
        cbn [mbind option_bind] in *. injection H as H. rewrite <- H.
        apply IH; [lia | Z.div_mod_to_equations; lia].
      * pose proof (or_back_code str (Z.shiftl (hex_to_digit c) 4)) as H.
        rewrite E in H. cbn [option_map] in H.
        destruct (last (map code str)) as [b|]; [discriminate|reflexivity].
Qed.

Lemma bin_loop_pack (rview str : cstring) (counter : Z) (i : nat) :
  0 <= counter -> counter mod 8 = Z.of_nat i ->
  option_map (map code) (bin_loop rview str counter)
  = pack_loop 1 8 (map (fun c => code c - code "0") (digits rview))
      (map code str) i.
Proof.
  revert str counter i. induction rview as [|c rview IH]; intros str counter i Hc Hi.
  - reflexivity.
  - cbn [bin_loop]. rewrite digits_cons.
    destruct (Ascii.eqb c "_"); [now apply IH|].
    cbn [map pack_loop]. rewrite land_7, Hi by assumption.
    assert (Hnext : (counter + 1) mod 8
                    = Z.of_nat (if Nat.eqb (S i) 8 then 0 else S i)).
    { destruct (Nat.eqb_spec (S i) 8); Z.div_mod_to_equations; lia. }
    destruct i as [|i].
    + change (negb (Z.of_nat 0 =? 0)) with false.
      change (Nat.eqb 0 0) with true. cbv iota zeta.
      rewrite <- push_back_code. apply IH; [lia | exact Hnext].
    + replace (negb (Z.of_nat (S i) =? 0)) with true
        by (symmetry; apply negb_true_iff, Z.eqb_neq; lia).
      change (Nat.eqb (S i) 0) with false. cbv iota zeta.
      rewrite Z.mul_1_l.
      pose proof (or_back_code str
                    (Z.shiftl (code c - code "0") (Z.of_nat (S i)))) as H.
      destruct (or_back str _) as [str'|].
      * cbn [option_map] in H.
        destruct (last (map code str)) as [b|]; [|discriminate].
        cbn [mbind option_bind] in *. injection H as H. rewrite <- H.
        apply IH; [lia | exact Hnext].
      * cbn [option_map] in H.
        destruct (last (map code str)) as [b|]; [discriminate|reflexivity].
Qed.

Lemma hex_digit_value (c : ascii) :
  is_hex_digit c = true -> digit_in_range 4 (hex_to_digit c).
Proof.
  intros _. unfold hex_to_digit, digit_in_range. cbv zeta.
  change (2 ^ 4) with 16.
  destruct ((48 <=? code c) && (code c <=? 57)) eqn:E1;
    [apply andb_true_iff in E1 as [?%Z.leb_le ?%Z.leb_le]; lia|].
  destruct ((97 <=? code c) && (code c <=? 102)) eqn:E2;
    [apply andb_true_iff in E2 as [?%Z.leb_le ?%Z.leb_le]; lia|].
  destruct ((65 <=? code c) && (code c <=? 70)) eqn:E3;
    [apply andb_true_iff in E3 as [?%Z.leb_le ?%Z.leb_le]; lia|].
  lia.
Qed.

Lemma bin_digit_value (c : ascii) :
  is_bin_digit c = true -> digit_in_range 1 (code c - code "0").
Proof.
  unfold is_bin_digit, digit_in_range. intros H.
  change (2 ^ 1) with 2. change (code "0") with 48.
  apply orb_true_iff in H as [H|H]; apply Ascii.eqb_eq in H; subst;
    [change (code "0") with 48 | change (code "1") with 49]; lia.
Qed.

Lemma digits_in_range (ok : ascii -> bool) (digit : ascii -> Z) (bits : Z)
    (view : cstring) :
  (forall c, ok c = true -> digit_in_range bits (digit c)) ->
  forallb (fun c => Ascii.eqb c "_" || ok c) view = true ->
  Forall (digit_in_range bits) (map digit (rev (digits view))).
Proof.
  intros Hok Hview. apply List.Forall_forall. intros d Hd.
  apply in_map_iff in Hd as (c & <- & Hc). apply in_rev in Hc.
  unfold digits in Hc. apply filter_In in Hc as [Hc Hu].
  rewrite forallb_forall in Hview. specialize (Hview c Hc).
  apply negb_true_iff in Hu. rewrite Hu in Hview. now apply Hok.
Qed.

Lemma digits_rev (view : cstring) : digits (rev view) = rev (digits view).
Proof.
  unfold digits. induction view as [|c view IH]; [reflexivity|].
  cbn [rev List.filter]. rewrite List.filter_app, IH. cbn [List.filter].
  destruct (negb (Ascii.eqb c "_")); [reflexivity | now rewrite app_nil_r].
Qed.

Lemma hex_string_packs (view : cstring) :
  hex_view view = true ->
  option_map (map code) (hex_string view []) = Some (hex_spec view).
Proof.
  intros Hview. unfold hex_string.
  pose proof (hex_loop_pack (rev view) [] 0 0 ltac:(lia) eq_refl) as H.
  rewrite digits_rev in H. cbn [map] in H.
  assert (Hr : Forall (digit_in_range 4)
                 (map hex_to_digit (rev (digits view))))
    by (apply (digits_in_range is_hex_digit);
        [exact hex_digit_value | exact Hview]).
  rewrite (pack_loop_chunks 4 2 ltac:(lia) ltac:(lia) ltac:(lia)
             _ _ [] (le_n _) Hr) in H.
  destruct (hex_loop (rev view) [] 0) as [str|]; [|discriminate].
  cbn [option_map mbind option_bind] in *. injection H as H.
  now rewrite map_rev, H.
Qed.

Lemma bin_string_packs (view : cstring) :
  bin_view view = true ->
  option_map (map code) (bin_string view []) = Some (bin_spec view).
Proof.
  intros Hview. unfold bin_string.
  pose proof (bin_loop_pack (rev view) [] 0 0 ltac:(lia) eq_refl) as H.
  rewrite digits_rev in H. cbn [map] in H.
  assert (Hr : Forall (digit_in_range 1)
                 (map (fun c => code c - code "0") (rev (digits view))))
    by (apply (digits_in_range is_bin_digit);
        [exact bin_digit_value | exact Hview]).
  rewrite (pack_loop_chunks 1 8 ltac:(lia) ltac:(lia) ltac:(lia)
             _ _ [] (le_n _) Hr) in H.
  destruct (bin_loop (rev view) [] 0) as [str|]; [|discriminate].
  cbn [option_map mbind option_bind] in *. injection H as H.
  now rewrite map_rev, H.
Qed.

Lemma chunks_nil {A} (fuel k : nat) : @chunks A fuel k [] = [].
Proof. now destruct fuel. Qed.

Lemma pairs_ind {A} (P : list A -> Prop) :
  P [] -> (forall a b l, P l -> P (a :: b :: l)) ->
  forall l, Nat.even (length l) = true -> P l.
Proof.
  intros Hnil Hcons.
  assert (H : forall n l, (length l <= n)%nat -> Nat.even (length l) = true -> P l).
  { induction n as [|n IH]; intros l Hlen Heven.
    - destruct l; [exact Hnil | cbn in Hlen; lia].
    - destruct l as [|a [|b l]]; [exact Hnil | discriminate |].
      apply Hcons, IH; [cbn [length] in Hlen; lia | exact Heven]. }
  intros l. apply (H (length l)). lia.
Qed.

Lemma chunks_snoc_pair {A} (l : list A) (b a : A) :
  Nat.even (length l) = true ->
  forall f f', (length l + 2 <= f)%nat -> (length l <= f')%nat ->
    chunks f 2 (l ++ [b; a]) = chunks f' 2 l ++ [[b; a]].
Proof.
  intros Heven. pattern l. apply pairs_ind; [ | | exact Heven]; clear l Heven.
  - intros f f' Hf Hf'. destruct f as [|[|f]]; try (cbn in Hf; lia).
    cbn. now rewrite !chunks_nil.
  - intros a0 b0 l IH f f' Hf Hf'. cbn [length] in Hf, Hf'.
    destruct f as [|f]; [lia|]. destruct f' as [|f']; [lia|].
    change (chunks (S f) 2 ((a0 :: b0 :: l) ++ [b; a]))
      with ([a0; b0] :: chunks f 2 (l ++ [b; a])).
    change (chunks (S f') 2 (a0 :: b0 :: l))
      with ([a0; b0] :: chunks f' 2 l).
    cbn [app]. f_equal. apply IH; lia.
Qed.

(** With an even number of digits, grouping from the right and
    reversing is pairing from the left. *)
Lemma pairs_natural_order (ds : list Z) :
  Nat.even (length ds) = true ->
  rev (map (group_value 4) (chunks (length (rev ds)) 2 (rev ds)))
  = pair_bytes ds.
Proof.
  intros Heven.
  enough (H : Nat.even (length ds) = true
              /\ rev (map (group_value 4) (chunks (length (rev ds)) 2 (rev ds)))
                 = pair_bytes ds) by apply H.
  pattern ds. apply pairs_ind; [ | | exact Heven]; clear ds Heven;
    [split; reflexivity|].
  intros a b l [Heven IH]. split; [exact Heven|].
  change (rev (a :: b :: l)) with ((rev l ++ [b]) ++ [a]).
  rewrite <- List.app_assoc. cbn [app].
  rewrite (chunks_snoc_pair (rev l) b a) with (f' := length (rev l)).
  - rewrite map_app, rev_app_distr. cbn [map rev app group_value pair_bytes].
    rewrite IH. f_equal. change (2 ^ 4) with 16. lia.
  - now rewrite length_rev.
  - rewrite length_app. cbn [length]. lia.
  - lia.
Qed.

Lemma hex_string_natural_order (view : cstring) :
  hex_view view = true ->
  Nat.even (length (digits view)) = true ->
  option_map (map code) (hex_string view [])
  = Some (pair_bytes (map hex_to_digit (digits view))).
Proof.
  intros Hview Heven. rewrite (hex_string_packs view Hview).
  unfold hex_spec, pack_spec. rewrite map_rev.
  rewrite pairs_natural_order; [reflexivity|].
  now rewrite length_map.
Qed.

(** C4: a hex literal and a binary literal decode to the bytes got by
    reading the digits right to left, underscores skipped, packing every
    two hex digits, every eight binary digits, into one byte and
    reversing the bytes; the bytes of an even number of hex digits are
    then those of the pairs of digits from left to right, and the hex
    digits 4869 give the bytes 0x48 0x69. *)
Theorem hex_bin_decoding :
  (forall view, hex_view view = true ->
     option_map (map code) (hex_string view []) = Some (hex_spec view))
  /\ (forall view, bin_view view = true ->
        option_map (map code) (bin_string view []) = Some (bin_spec view))
  /\ (forall view, hex_view view = true ->
        Nat.even (length (digits view)) = true ->
        option_map (map code) (hex_string view [])
        = Some (pair_bytes (map hex_to_digit (digits view))))
  /\ option_map (map code) (hex_string (chars "4869") []) = Some [72; 105].
Proof.
  repeat apply conj;
    [ exact hex_string_packs | exact bin_string_packs
    | exact hex_string_natural_order | reflexivity ].
Qed.

(** With an odd number of digits the last group, read right to left,
    holds the leftmost digit alone. *)
Lemma chunks_pairs_odd {A} (fuel : nat) (l : list A) :
  (length l <= fuel)%nat -> Nat.odd (length l) = true ->
  exists cs d, chunks fuel 2 l = cs ++ [[d]] /\ last l = Some d
               /\ length cs = Nat.div2 (length l).
Proof.
  revert l. induction fuel as [|fuel IH]; intros l Hlen Hodd.
  - destruct l; [discriminate | cbn in Hlen; lia].
  - destruct l as [|a [|b l]]; [discriminate| |].
    + exists [], a. cbn. now rewrite chunks_nil.
    + destruct (IH l) as (cs & d & Hcs & Hlast & Hn).
      * cbn [length] in Hlen. lia.
      * exact Hodd.
      * exists ([a; b] :: cs), d.
        change (chunks (S fuel) 2 (a :: b :: l))
          with ([a; b] :: chunks fuel 2 l).
        rewrite Hcs. repeat split.
        -- destruct l; [discriminate|]. exact Hlast.
        -- cbn [length Nat.div2]. now rewrite Hn.
Qed.

Lemma last_map_rev {A B} (f : A -> B) (l : list A) :
  last (map f (rev l)) = option_map f (head l).
Proof.
  destruct l as [|a l]; [reflexivity|]. cbn [rev head option_map].
  rewrite map_app. cbn [map]. apply last_snoc.
Qed.

(** C10: a hex literal with an odd number [n] of digits, the leftmost
    being [c], is decoded, never rejected: to [ceil(n/2)] bytes, the
    first of which is the value of [c] with a zero high nibble. *)
Theorem hex_odd_digit_count (view : cstring) (c : ascii) :
  hex_view view = true ->
  head (digits view) = Some c ->
  Nat.odd (length (digits view)) = true ->
  exists first rest,
    hex_string view [] = Some (first :: rest)
    /\ length (first :: rest) = Nat.div2 (S (length (digits view)))
    /\ code first = hex_to_digit c
    /\ Z.shiftr (code first) 4 = 0.
Proof.
  intros Hview Hhead Hodd.
  pose proof (hex_string_packs view Hview) as H.
  unfold hex_spec, pack_spec in H.
  set (ds := map hex_to_digit (rev (digits view))) in *.
  assert (Hlen : length ds = length (digits view))
    by (unfold ds; now rewrite length_map, length_rev).
  destruct (chunks_pairs_odd (length ds) ds (le_n _)) as (cs & d & Hcs & Hlast & Hn);
    [now rewrite Hlen|].
  rewrite Hcs, map_app, rev_app_distr in H. cbn [map rev app group_value] in H.
  unfold ds in Hlast. rewrite last_map_rev, Hhead in Hlast.
  injection Hlast as <-.
  destruct (hex_string view []) as [[|first rest]|]; try discriminate.
  cbn [option_map map] in H. injection H as Hfirst Hrest.
  exists first, rest. repeat split.
  - cbn [length]. apply (f_equal (@length Z)) in Hrest.
    rewrite length_map, length_rev, length_map, Hn, Hlen in Hrest.
    rewrite Hrest. destruct (length (digits view)) as [|n]; [discriminate|].
    change (Nat.div2 (S (S n))) with (S (Nat.div2 n)). f_equal.
    clear -Hodd. rewrite Nat.odd_succ in Hodd.
    apply Nat.even_spec in Hodd as [m ->].
    now rewrite Nat.div2_succ_double, Nat.div2_double.
  - lia.
  - rewrite Hfirst, Z.mul_0_r, Z.add_0_r.
    assert (Hc : digit_in_range 4 (hex_to_digit c)).
    { apply hex_digit_value. unfold hex_view in Hview.
      rewrite forallb_forall in Hview.
      assert (Hin : In c (digits view)) by (destruct (digits view); [discriminate | injection Hhead as ->; now left]).
      unfold digits in Hin. apply filter_In in Hin as [Hin Hu].
      specialize (Hview c Hin). apply negb_true_iff in Hu. now rewrite Hu in Hview. }
    unfold digit_in_range in Hc. rewrite Z.shiftr_div_pow2 by lia.
    apply Z.div_small. exact Hc.
Qed.

(** Witness of [hex_bin_decoding]: [48_69] and the nine binary digits
    [1_01000001]. *)
Lemma hex_bin_decoding_witness :
  option_map (map code) (hex_string (chars "48_69") []) = Some [72; 105]
  /\ option_map (map code) (bin_string (chars "1_01000001") []) = Some [1; 65].
Proof.
  split.
  - apply (proj1 hex_bin_decoding (chars "48_69")). reflexivity.
  - apply (proj1 (proj2 hex_bin_decoding) (chars "1_01000001")). reflexivity.
Defined.

(** Witness of [hex_odd_digit_count]: the three digits of [a_bc]. *)
Lemma hex_odd_digit_count_witness :
  exists first rest,
    hex_string (chars "a_bc") [] = Some (first :: rest)
    /\ length (first :: rest) = 2%nat
    /\ code first = 10
    /\ Z.shiftr (code first) 4 = 0.
Proof.
  apply (hex_odd_digit_count (chars "a_bc") "a"); reflexivity.
Defined.

End HexFacts.

(** * Code strings *)

(** The scenario of the specification: the code string made of the two
    lines [   int x = 1;] and [   int y = 2;], each ended by a newline,
    decodes to [int x = 1;], a newline, [int y = 2;]; the steps of the
    specification give the same. *)
Lemma code_string_scenario :
  code_string blank
    (chars "   int x = 1;" ++ [NL] ++ chars "   int y = 2;" ++ [NL])
  = Some (chars "int x = 1;" ++ [NL] ++ chars "int y = 2;")
  /\ code_spec blank
       (chars "   int x = 1;" ++ [NL] ++ chars "   int y = 2;" ++ [NL])
     = chars "int x = 1;" ++ [NL] ++ chars "int y = 2;".
Proof. split; reflexivity. Qed.

(** C2 at a code string with an empty line, [int x;], two newlines,
    [int y;]: nothing is indented, so the steps of the claim leave the
    string as it is; [code_string] counts the second newline as
    indentation of the line after the first one and strips it, which
    joins the two lines. *)
Theorem code_string_blank_line :
  code_string blank (chars "int x;" ++ [NL; NL] ++ chars "int y;")
  = Some (chars "int x;" ++ [NL] ++ chars "int y;")
  /\ code_spec blank (chars "int x;" ++ [NL; NL] ++ chars "int y;")
     = chars "int x;" ++ [NL; NL] ++ chars "int y;".
Proof. split; reflexivity. Qed.

(** The same with indented lines around the empty one: the common
    indent found is 2 (the newline and the tab), the empty line is
    lost. *)
Lemma code_string_blank_line_indented :
  code_string blank
    ([NL; "009"] ++ chars "int x;" ++ [NL; NL; "009"] ++ chars "int y;" ++ [NL])
  = Some (chars "int x;" ++ [NL] ++ chars "int y;").
Proof. reflexivity. Qed.

Section BlankLine.

Variable ws : ascii -> bool.
Hypothesis ws_newline : ws NL = true.
Hypothesis ws_nul : ws NUL = false.


Lemma deref_middle (pre rest : cstring) (c : ascii) :
  deref (pre ++ c :: rest) (length pre) = Some c.
Proof. unfold deref. now rewrite list_lookup_middle. Qed.

Lemma deref_end (str : cstring) : deref str (length str) = Some NUL.
Proof.
  unfold deref. rewrite lookup_ge_None_2 by lia. now rewrite Nat.eqb_refl.
Qed.

Lemma plain_cons (c : ascii) (l : cstring) :
  plain ws (c :: l) = true ->
  ws c = false /\ Ascii.eqb c NUL = false /\ Ascii.eqb c NL = false
  /\ plain ws l = true.
Proof.
  unfold plain. cbn [forallb]. intros H.
  apply andb_true_iff in H as [H Hl]. apply andb_true_iff in H as [H1 H2].
  apply negb_true_iff in H1, H2. repeat split; try assumption.
  destruct (Ascii.eqb_spec c NL) as [->|]; [congruence | reflexivity].
Qed.

(** The tab-depth loop steps over plain characters. *)
Lemma discover_indent_plain (p pre rest : cstring) (fuel : nat) (common : Z) :
  plain ws p = true ->
  discover_indent ws (length p + fuel) (pre ++ p ++ rest) (length pre) common
  = discover_indent ws fuel (pre ++ p ++ rest) (length pre + length p) common.
Proof.
  revert pre. induction p as [|c p IH]; intros pre Hp.
  - cbn [length app]. now rewrite Nat.add_0_r.
  - apply plain_cons in Hp as (Hw & Hnul & Hnl & Hp).
    cbn [length Nat.add discover_indent].
    change (pre ++ (c :: p) ++ rest) with (pre ++ c :: (p ++ rest)).
    rewrite deref_middle. cbn [mbind option_bind]. rewrite Hnul, Hnl.
    replace (pre ++ c :: p ++ rest) with ((pre ++ [c]) ++ p ++ rest)
      by now rewrite <- List.app_assoc.
    replace (S (length pre)) with (length (pre ++ [c]))
      by (rewrite length_app; cbn; lia).
    rewrite IH by assumption. f_equal. rewrite length_app. cbn. lia.
Qed.

(** So does the loop that strips the lines. *)
Lemma strip_lines_plain (p pre rest : cstring) (fuel : nat) (common : Z) :
  plain ws p = true ->
  strip_lines ws (length p + fuel) (pre ++ p ++ rest) common (length pre)
  = strip_lines ws fuel (pre ++ p ++ rest) common (length pre + length p).
Proof.
  revert pre. induction p as [|c p IH]; intros pre Hp.
  - cbn [length app]. now rewrite Nat.add_0_r.
  - apply plain_cons in Hp as (Hw & Hnul & Hnl & Hp).
    cbn [length Nat.add strip_lines].
    change (pre ++ (c :: p) ++ rest) with (pre ++ c :: (p ++ rest)).
    rewrite deref_middle. cbn [mbind option_bind]. rewrite Hnul, Hnl.
    replace (pre ++ c :: p ++ rest) with ((pre ++ [c]) ++ p ++ rest)
      by now rewrite <- List.app_assoc.
    replace (S (length pre)) with (length (pre ++ [c]))
      by (rewrite length_app; cbn; lia).
    rewrite IH by assumption. f_equal. rewrite length_app. cbn. lia.
Qed.

Lemma trim_trailing_plain_end (s : cstring) (c : ascii) :
  ws c = false ->
  trim_trailing ws (length (s ++ [c])) (s ++ [c]) = s ++ [c].
Proof.
  intros Hc. rewrite length_app. cbn [length]. rewrite Nat.add_1_r.
  cbn [trim_trailing]. rewrite list_lookup_middle by reflexivity.
  rewrite Hc. cbn [negb]. apply take_ge. rewrite length_app. cbn. lia.
Qed.

Lemma discover_indent_step (fuel : nat) (str : cstring) (it : nat)
    (common : Z) :
  discover_indent ws (S fuel) str it common
  = (c ← deref str it;
     if Ascii.eqb c NUL then Some common
     else if Ascii.eqb c NL then
       r ← count_indent ws (S (S (length str))) str (S it) 0%Z;
       let common := if (r.2 <? common)%Z then r.2 else common in
       discover_indent ws fuel str (S r.1) common
     else discover_indent ws fuel str (S it) common).
Proof. reflexivity. Qed.

Lemma strip_lines_step (fuel : nat) (str : cstring) (common : Z) (ptr : nat) :
  strip_lines ws (S fuel) str common ptr
  = (c ← deref str ptr;
     if Ascii.eqb c NUL then Some str
     else if Ascii.eqb c NL then
       str' ← strip ws str common (S ptr);
       strip_lines ws fuel str' common (S (S ptr))
     else strip_lines ws fuel str common (S ptr)).
Proof. reflexivity. Qed.

Lemma plain_last (l : cstring) :
  plain ws l = true -> l <> [] ->
  exists l' c, l = l' ++ [c] /\ ws c = false.
Proof.
  intros Hl Hne. destruct (last l) as [c|] eqn:E.
  - apply last_Some in E as [l' ->]. exists l', c. split; [reflexivity|].
    unfold plain in Hl. rewrite forallb_app in Hl.
    apply andb_true_iff in Hl as [_ Hl]. cbn in Hl.
    rewrite andb_true_r in Hl. apply andb_true_iff in Hl as [Hl _].
    now apply negb_true_iff in Hl.
  - apply last_None in E. contradiction.
Qed.

(** Two unindented lines with an empty line between them: the empty
    line is lost. *)
Lemma code_string_joins_lines (a b : cstring) :
  plain ws a = true -> plain ws b = true -> a <> [] -> b <> [] ->
  code_string ws (a ++ [NL; NL] ++ b) = Some (a ++ [NL] ++ b).
Proof.
  intros Ha Hb Hane Hbne.
  destruct a as [|a0 a']; [contradiction|].
  destruct b as [|b0 b']; [contradiction|].
  destruct (plain_cons _ _ Ha) as (Ha0 & Ha0nul & Ha0nl & Ha').
  destruct (plain_cons _ _ Hb) as (Hb0 & Hb0nul & Hb0nl & Hb').
  set (a := a0 :: a') in *. set (b := b0 :: b') in *.
  set (str := a ++ [NL; NL] ++ b).
  assert (Hlen : length str = length a + 2 + length b)
    by (unfold str; rewrite !length_app; cbn [length]; lia).
  assert (Hlenb : length b = S (length b')) by reflexivity.
  unfold code_string.
  (* Trim trailing whitespace. *)
  assert (T1 : trim_trailing ws (length str) str = str).
  { destruct (plain_last b Hb Hbne) as (l' & c & Hl & Hc).
    unfold str. rewrite Hl.
    replace (a ++ [NL; NL] ++ l' ++ [c]) with ((a ++ [NL; NL] ++ l') ++ [c])
      by (now rewrite <- !List.app_assoc).
    now apply trim_trailing_plain_end. }
  rewrite T1.
  (* Trim leading whitespace. *)
  assert (T2 : trim_leading ws (S (length str)) str 0 = str).
  { cbn [trim_leading]. unfold str, a. cbn [app lookup list_lookup].
    now rewrite Ha0. }
  rewrite T2.
  (* Discover tab depth. *)
  assert (D : discover_indent ws (S (S (length str))) str 0 INT_MAX = Some 1%Z).
  { replace (S (S (length str))) with (length a + S (S (S (S (length b)))))
      by lia.
    pose proof (discover_indent_plain a [] ([NL; NL] ++ b)
                  (S (S (S (S (length b))))) INT_MAX Ha) as E.
    cbn [app length Nat.add] in E. fold str in E. cbn [app] in E.
    unfold str. cbn [app]. rewrite E. clear E.
    rewrite discover_indent_step.
    rewrite deref_middle. cbn [mbind option_bind].
    change (Ascii.eqb NL NUL) with false. rewrite Ascii.eqb_refl. cbv iota.
    (* the indent counted after the first newline *)
    assert (C : count_indent ws (S (S (length (a ++ NL :: NL :: b))))
                  (a ++ NL :: NL :: b) (S (length a)) 0
                = Some (S (S (length a)), 1%Z)).
    { cbn [count_indent].
      replace (a ++ NL :: NL :: b) with ((a ++ [NL]) ++ NL :: b)
        by (now rewrite <- List.app_assoc).
      replace (S (length a)) with (length (a ++ [NL]))
        by (rewrite length_app; cbn; lia).
      rewrite deref_middle. cbn [mbind option_bind]. rewrite ws_newline.
      change (0 =? INT_MAX)%Z with false. cbv iota.
      replace ((a ++ [NL]) ++ NL :: b) with ((a ++ [NL; NL]) ++ b0 :: b')
        by (now rewrite <- !List.app_assoc).
      replace (S (length (a ++ [NL]))) with (length (a ++ [NL; NL]))
        by (rewrite !length_app; cbn; lia).
      rewrite deref_middle. cbn [mbind option_bind]. rewrite Hb0.
      reflexivity. }
    rewrite C. cbn [mbind option_bind fst snd].
    change (1 <? INT_MAX)%Z with true. cbv iota.
    pose proof (discover_indent_plain b' (a ++ [NL; NL; b0]) [] 4 1%Z Hb') as E.

    rewrite app_nil_r in E.
    replace ((a ++ [NL; NL; b0]) ++ b') with (a ++ NL :: NL :: b) in E
      by (unfold b; now rewrite <- !List.app_assoc).
    replace (length (a ++ [NL; NL; b0])) with (S (S (S (length a)))) in E
      by (rewrite length_app; cbn; lia).
    replace (S (S (S (length b)))) with (length b' + 4) by lia.
    rewrite E. rewrite discover_indent_step.
    replace (S (S (S (length a))) + length b') with (length (a ++ NL :: NL :: b))
      by (rewrite length_app; cbn [length]; lia).
    rewrite deref_end. reflexivity. }
  rewrite D. cbn [mbind option_bind].
  (* The first line is not indented. *)
  replace (deref str 0) with (Some a0) by reflexivity.
  cbn [mbind option_bind]. rewrite Ha0. cbn [mbind option_bind].
  (* Remove the rest of the leading whitespace. *)
  replace (S (S (length str))) with (length a + S (S (S (S (length b)))))
    by lia.
  pose proof (strip_lines_plain a [] ([NL; NL] ++ b)
                (S (S (S (S (length b))))) 1%Z Ha) as E.
  cbn [app length Nat.add] in E. unfold str. cbn [app]. rewrite E. clear E.
  rewrite strip_lines_step.
  rewrite deref_middle. cbn [mbind option_bind].
  change (Ascii.eqb NL NUL) with false. rewrite Ascii.eqb_refl. cbv iota.
  assert (S1 : strip ws (a ++ NL :: NL :: b) 1 (S (length a))
               = Some (a ++ NL :: b)).
  { assert (Sc : strip_scan ws (S (S (length (a ++ NL :: NL :: b))))
                   (a ++ NL :: NL :: b) 1 (S (length a)) 0
                 = Some (S (S (length a)))).
    { cbn [strip_scan].
      replace (a ++ NL :: NL :: b) with ((a ++ [NL]) ++ NL :: b)
        by (now rewrite <- List.app_assoc).
      replace (S (length a)) with (length (a ++ [NL]))
        by (rewrite length_app; cbn; lia).
      rewrite deref_middle. cbn [mbind option_bind]. rewrite ws_newline.
      change (negb (0 =? 1)%Z) with true. cbn [andb].
      replace ((a ++ [NL]) ++ NL :: b) with ((a ++ [NL; NL]) ++ b0 :: b')
        by (now rewrite <- !List.app_assoc).
      replace (S (length (a ++ [NL]))) with (length (a ++ [NL; NL]))
        by (rewrite !length_app; cbn; lia).
      rewrite deref_middle. cbn [mbind option_bind]. rewrite Hb0. cbn [andb].
      reflexivity. }
    unfold strip. rewrite Sc. cbn [mbind option_bind]. f_equal.
    replace (take (S (length a)) (a ++ NL :: NL :: b)) with (a ++ [NL]).
    2:{ replace (a ++ NL :: NL :: b) with ((a ++ [NL]) ++ NL :: b)
          by (now rewrite <- List.app_assoc).
        replace (S (length a)) with (length (a ++ [NL]))
          by (rewrite length_app; cbn; lia).
        now rewrite take_app_length. }
    replace (drop (S (S (length a))) (a ++ NL :: NL :: b)) with b.
    2:{ replace (a ++ NL :: NL :: b) with ((a ++ [NL; NL]) ++ b)
          by (now rewrite <- List.app_assoc).
        replace (S (S (length a))) with (length (a ++ [NL; NL]))
          by (rewrite length_app; cbn; lia).
        now rewrite drop_app_length. }
    now rewrite <- List.app_assoc. }
  rewrite S1. cbn [mbind option_bind].
  pose proof (strip_lines_plain b' (a ++ [NL; b0]) [] 4 1%Z Hb') as E.

  rewrite app_nil_r in E.
  replace ((a ++ [NL; b0]) ++ b') with (a ++ NL :: b) in E
    by (unfold b; now rewrite <- !List.app_assoc).
  replace (length (a ++ [NL; b0])) with (S (S (length a))) in E
    by (rewrite length_app; cbn; lia).
  replace (S (S (S (length b)))) with (length b' + 4) by lia.
  rewrite E. rewrite strip_lines_step.
  replace (S (S (length a)) + length b') with (length (a ++ NL :: b))
    by (rewrite length_app; cbn [length]; lia).
  rewrite deref_end. reflexivity.
Qed.

End BlankLine.

(** * Smart strings *)

Lemma is_quote_cases (q : ascii) : is_quote q = true -> q = "034" \/ q = "'".
Proof.
  unfold is_quote. intros H. apply orb_true_iff in H as [H|H];
    apply Ascii.eqb_eq in H; auto.
Qed.

Lemma lex_string_quote (q : ascii) (rest : cstring) :
  is_quote q = true ->
  lex_string_mode (q :: rest) = Ok (quote_token q, rest).
Proof. intros H. destruct (is_quote_cases q H) as [-> | ->]; reflexivity. Qed.

Lemma lex_string_chunk (c : ascii) (rest : cstring) :
  ends_chunk c = false ->
  lex_string_mode (c :: rest)
  = Ok (mkToken TOKEN_CHAR (fst (chunk (c :: rest))), snd (chunk (c :: rest))).
Proof.
  unfold ends_chunk, is_quote, lex_string_mode. intros H.
  apply orb_false_iff in H as [H1 H2]. apply orb_false_iff in H2 as [H2 H3].
  now rewrite H1, H2, H3.
Qed.

Lemma accumulate_quote (q : ascii) (str : cstring) (h : bool) :
  accumulate_string (quote_token q) str h = str ++ [q].
Proof.
  unfold quote_token. destruct (Ascii.eqb q "034"), h; reflexivity.
Qed.

Lemma accumulate_chunk (v str : cstring) (h : bool) :
  accumulate_string (mkToken TOKEN_CHAR v) str h = str ++ v.
Proof. destruct h; reflexivity. Qed.

Lemma same_quote_token (a b : ascii) :
  is_quote a = true -> is_quote b = true ->
  same_token (quote_token a) (quote_token b) = Ascii.eqb a b.
Proof.
  intros Ha Hb.
  destruct (is_quote_cases a Ha) as [-> | ->],
           (is_quote_cases b Hb) as [-> | ->]; reflexivity.
Qed.

Lemma chunk_split (l tail : cstring) (t : ascii) :
  ends_chunk t = true ->
  chunk (l ++ t :: tail)
  = (fst (chunk l), snd (chunk l) ++ t :: tail).
Proof.
  intros Ht. induction l as [|c l IH]; cbn [app chunk].
  - now rewrite Ht.
  - destruct (ends_chunk c); [reflexivity|]. cbv zeta. now rewrite IH.
Qed.

Lemma chunk_app (l : cstring) : fst (chunk l) ++ snd (chunk l) = l.
Proof.
  induction l as [|c l IH]; [reflexivity|]. cbn [chunk].
  destruct (ends_chunk c); [reflexivity|]. cbv zeta. cbn. now rewrite IH.
Qed.

Lemma chunk_length (l : cstring) : length (snd (chunk l)) <= length l.
Proof.
  rewrite <- (chunk_app l) at 2. rewrite length_app. lia.
Qed.

Lemma no_backslash_app (a b : cstring) :
  no_backslash (a ++ b) = true -> no_backslash b = true.
Proof.
  unfold no_backslash. rewrite forallb_app. intros H.
  now apply andb_true_iff in H as [_ H].
Qed.





Section SmartLoop.

Variable lex_normal : cstring -> outcome (Token * cstring).
Variables (str_type delim q : ascii) (rest : cstring).
Hypothesis q_quote : is_quote q = true.

Let loop := wpp.smart_loop cstring (byte_lexer lex_normal).
Let closing := q :: delim :: rest.


End SmartLoop.




(** An escaped quote is a token of its own for the lexer, not a quote:
    in the paragraph string [p#'a\'#b'# tail] the quote after the
    backslash does not end the string although [#] follows it. *)
Lemma smart_string_escaped_quote :
  wpp.smart_string cstring (byte_lexer lex_opener) blank 8 []
    (chars "p#'a\'#b'# tail")
  = Ok (chars "a'#b", chars " tail").
Proof. reflexivity. Qed.

(** * The parser *)

Section MonadFacts.

Context {S : Type}.

Lemma bind_ok {A B} (m : ST S A) (k : A -> ST S B) (s s' : S) (a : A) :
  m s = Ok (a, s') -> bind m k s = k a s'.
Proof. intros H. unfold bind. now rewrite H. Qed.

Lemma bind_throw {A B} (m : ST S A) (k : A -> ST S B) (s : S) (msg : string) :
  m s = Throw msg -> bind m k s = Throw msg.
Proof. intros H. unfold bind. now rewrite H. Qed.

Lemma bind_inv {A B} (m : ST S A) (k : A -> ST S B) (s : S) (r : B * S) :
  bind m k s = Ok r -> exists a s1, m s = Ok (a, s1) /\ k a s1 = Ok r.
Proof.
  unfold bind. destruct (m s) as [[a s1]| | |]; try discriminate.
  intros H. now exists a, s1.
Qed.

Lemma more_steps_refl {A} (m : ST S A) : more_steps m m.
Proof. intros s _. reflexivity. Qed.

Lemma more_steps_timeout {A} (m : ST S A) : more_steps timeout m.
Proof. intros s H. now contradiction H. Qed.

Lemma more_steps_bind {A B} (m m' : ST S A) (k k' : A -> ST S B) :
  more_steps m m' -> (forall a, more_steps (k a) (k' a)) ->
  more_steps (bind m k) (bind m' k').
Proof.
  intros Hm Hk s H. unfold bind in *.
  destruct (m s) as [[a s1]|msg| |] eqn:E.
  - rewrite Hm, E by congruence. now apply Hk.
  - rewrite Hm, E by congruence. reflexivity.
  - rewrite Hm, E by congruence. reflexivity.
  - now contradiction H.
Qed.

Lemma more_steps_trans {A} (m1 m2 m3 : ST S A) :
  more_steps m1 m2 -> more_steps m2 m3 -> more_steps m1 m3.
Proof.
  intros H12 H23 s H. rewrite <- (H12 s H). apply H23. now rewrite (H12 s H).
Qed.

End MonadFacts.

Ltac more_steps_auto :=
  repeat first
    [ assumption
    | apply more_steps_timeout
    | apply more_steps_refl
    | match goal with
      | |- more_steps (if ?b then _ else _) (if ?b then _ else _) => destruct b
      | |- more_steps (match ?x with _ => _ end) (match ?x with _ => _ end) =>
          destruct x
      | H : forall node, more_steps (?f node) (?g node) |- more_steps (?f _) (?g _) =>
          apply H
      end
    | apply more_steps_bind; [ | intros ? ] ].

Section Steps.

Variable Lexer : Type.
Variable next_token : mode -> Lexer -> outcome (Token * Lexer).
Variable is_whitespace : ascii -> bool.
Variable NODE_EMPTY : wpp.node_t.

Lemma more_steps_on_lexer {A} (m m' : ST Lexer A) :
  more_steps m m' ->
  more_steps (wpp.on_lexer Lexer m) (wpp.on_lexer Lexer m').
Proof.
  intros H s Hs. unfold wpp.on_lexer in *.
  destruct (m (fst s)) as [[a l]|msg| |] eqn:E.
  - rewrite H, E by congruence. reflexivity.
  - rewrite H, E by congruence. reflexivity.
  - rewrite H, E by congruence. reflexivity.
  - now contradiction Hs.
Qed.

Lemma normal_loop_steps (n m : nat) (delim : Token) (str : cstring) :
  n <= m ->
  more_steps (wpp.normal_loop Lexer next_token n delim str)
             (wpp.normal_loop Lexer next_token m delim str).
Proof.
  revert m str. induction n as [|n IH]; intros m str Hle;
    [apply more_steps_timeout|].
  destruct m as [|m]; [lia|]. cbn [wpp.normal_loop].
  more_steps_auto. apply IH. lia.
Qed.

Lemma smart_loop_steps (n m : nat) (ty d : ascii) (quote : Token)
    (str : cstring) :
  n <= m ->
  more_steps (wpp.smart_loop Lexer next_token n ty d quote str)
             (wpp.smart_loop Lexer next_token m ty d quote str).
Proof.
  revert m str. induction n as [|n IH]; intros m str Hle;
    [apply more_steps_timeout|].
  destruct m as [|m]; [lia|]. cbn [wpp.smart_loop].
  more_steps_auto; apply IH; lia.
Qed.

Lemma string_steps (n m : nat) :
  n <= m ->
  more_steps (wpp.string Lexer next_token is_whitespace n)
             (wpp.string Lexer next_token is_whitespace m).
Proof.
  intros Hle. unfold wpp.string, wpp.smart_string, wpp.normal_string.
  more_steps_auto; apply more_steps_on_lexer; more_steps_auto;
    solve [now apply normal_loop_steps | now apply smart_loop_steps].
Qed.

Lemma let_params_steps (n m : nat) (node : wpp.node_t) :
  n <= m ->
  more_steps (wpp.let_params Lexer next_token n node)
             (wpp.let_params Lexer next_token m node).
Proof.
  revert m. induction n as [|n IH]; intros m Hle;
    [apply more_steps_timeout|].
  destruct m as [|m]; [lia|]. cbn [wpp.let_params].
  more_steps_auto; apply IH; lia.
Qed.

Lemma let_parameter_list_steps (n m : nat) (node : wpp.node_t) :
  n <= m ->
  more_steps (wpp.let_parameter_list Lexer next_token n node)
             (wpp.let_parameter_list Lexer next_token m node).
Proof.
  intros Hle. unfold wpp.let_parameter_list.
  more_steps_auto. now apply let_params_steps.
Qed.

Let expression := wpp.expression Lexer next_token is_whitespace NODE_EMPTY.
Let let_ := wpp.let_ Lexer next_token is_whitespace NODE_EMPTY.
Let var := wpp.var Lexer next_token is_whitespace NODE_EMPTY.
Let codeify := wpp.codeify Lexer next_token is_whitespace NODE_EMPTY.
Let drop := wpp.drop Lexer next_token is_whitespace NODE_EMPTY.
Let fninvoke_args := wpp.fninvoke_args Lexer next_token is_whitespace NODE_EMPTY.
Let fninvoke := wpp.fninvoke Lexer next_token is_whitespace NODE_EMPTY.
Let prefix_stmts := wpp.prefix_stmts Lexer next_token is_whitespace NODE_EMPTY.
Let prefix := wpp.prefix Lexer next_token is_whitespace NODE_EMPTY.
Let block_stmts := wpp.block_stmts Lexer next_token is_whitespace NODE_EMPTY.
Let block := wpp.block Lexer next_token is_whitespace NODE_EMPTY.
Let map_arms := wpp.map_arms Lexer next_token is_whitespace NODE_EMPTY.
Let map := wpp.map Lexer next_token is_whitespace NODE_EMPTY.
Let statement := wpp.statement Lexer next_token is_whitespace NODE_EMPTY.

(** More fuel does not change what a parsing function does, once it
    does not run out of steps. *)
Lemma parser_steps (n : nat) :
  forall m, n <= m ->
    more_steps (expression n) (expression m)
    /\ more_steps (let_ n) (let_ m)
    /\ more_steps (var n) (var m)
    /\ more_steps (codeify n) (codeify m)
    /\ more_steps (drop n) (drop m)
    /\ (forall node, more_steps (fninvoke_args n node) (fninvoke_args m node))
    /\ more_steps (fninvoke n) (fninvoke m)
    /\ (forall node, more_steps (prefix_stmts n node) (prefix_stmts m node))
    /\ more_steps (prefix n) (prefix m)
    /\ (forall node, more_steps (block_stmts n node) (block_stmts m node))
    /\ more_steps (block n) (block m)
    /\ (forall node, more_steps (map_arms n node) (map_arms m node))
    /\ more_steps (map n) (map m)
    /\ more_steps (statement n) (statement m).
Proof.
  subst expression let_ var codeify drop fninvoke_args fninvoke prefix_stmts
    prefix block_stmts block map_arms map statement.
  induction n as [|n IH]; intros m Hle.
  - repeat split; try intros node; apply more_steps_timeout.
  - destruct m as [|m]; [lia|].
    destruct (IH m ltac:(lia))
      as (H1 & H2 & H3 & H4 & H5 & H6 & H7 & H8 & H9 & H10 & H11 & H12 & H13 & H14).
    pose proof (string_steps n m ltac:(lia)) as Hstring.
    assert (Hparams := fun node => let_parameter_list_steps n m node ltac:(lia)).
    cbn [wpp.expression wpp.let_ wpp.var wpp.codeify wpp.drop
         wpp.fninvoke_args wpp.fninvoke wpp.prefix_stmts wpp.prefix
         wpp.block_stmts wpp.block wpp.map_arms wpp.map wpp.statement].
    repeat split; try intros node; more_steps_auto.
Qed.

Lemma steps_ok {A} (m m' : ST (Lexer * wpp.AST) A) s r :
  more_steps m m' -> m s = Ok r -> m' s = Ok r.
Proof. intros H E. rewrite H; [exact E | congruence]. Qed.

Lemma steps_throw {A} (m m' : ST (Lexer * wpp.AST) A) s msg :
  more_steps m m' -> m s = Throw msg -> m' s = Throw msg.
Proof. intros H E. rewrite H; [exact E | congruence]. Qed.

End Steps.

Section Frame.

Variable Lexer : Type.
Variable next_token : mode -> Lexer -> outcome (Token * Lexer).
Variable is_whitespace : ascii -> bool.
Variable NODE_EMPTY : wpp.node_t.

Lemma frame_ret {A} (L : nat) (a : A) : wpp.frame Lexer L (ret a).
Proof. intros s a' s' [= <- <-] _. split; [reflexivity | lia]. Qed.

Lemma frame_throw {A} (L : nat) (msg : string) :
  wpp.frame Lexer L (throw msg : wpp.P Lexer A).
Proof. intros s a s' H. discriminate. Qed.

Lemma frame_timeout {A} (L : nat) :
  wpp.frame Lexer L (timeout : wpp.P Lexer A).
Proof. intros s a s' H. discriminate. Qed.

Lemma frame_on_lexer {A} (L : nat) (m : ST Lexer A) :
  wpp.frame Lexer L (wpp.on_lexer Lexer m).
Proof.
  intros s a s' H _. unfold wpp.on_lexer in H.
  destruct (m (fst s)) as [[a' l]| | |]; try discriminate.
  injection H as <- <-. split; [reflexivity | cbn; lia].
Qed.

Lemma frame_peek (L : nat) (md : mode) :
  wpp.frame Lexer L (wpp.peek Lexer next_token md).
Proof. apply frame_on_lexer. Qed.

Lemma frame_advance (L : nat) (md : mode) :
  wpp.frame Lexer L (wpp.advance Lexer next_token md).
Proof. apply frame_on_lexer. Qed.

Lemma frame_lift {A} (L : nat) (o : outcome A) :
  wpp.frame Lexer L (lift o).
Proof.
  intros s a s' H _. unfold lift in H. destruct o; try discriminate.
  injection H as <- <-. split; [reflexivity | lia].
Qed.

Lemma frame_bind {A B} (L : nat) (m : wpp.P Lexer A)
    (k : A -> wpp.P Lexer B) :
  wpp.frame Lexer L m -> (forall a, wpp.frame Lexer L (k a)) ->
  wpp.frame Lexer L (bind m k).
Proof.
  intros Hm Hk s b s' H HL. unfold bind in H.
  destruct (m s) as [[a s1]| | |] eqn:E; try discriminate.
  destruct (Hm _ _ _ E HL) as [H1 H2].
  destruct (Hk a _ _ _ H ltac:(lia)) as [H3 H4].
  split; [congruence | lia].
Qed.

Lemma frame_add_bind {B} (L : nat) (n : wpp.node)
    (k : wpp.node_t -> wpp.P Lexer B) :
  (forall node, L <= node -> wpp.frame Lexer L (k node)) ->
  wpp.frame Lexer L (bind (wpp.add Lexer n) k).
Proof.
  intros Hk s b s' H HL. unfold bind, wpp.add in H.
  destruct (Hk (length (snd s)) HL _ _ _ H) as [H1 H2].
  - cbn [snd]. rewrite length_app. lia.
  - cbn [snd] in *. rewrite length_app in H2. cbn [length] in H2.
    split; [|lia]. rewrite H1. now rewrite take_app_le by lia.
Qed.

Lemma frame_modify (L : nat) (i : wpp.node_t)
    (f : wpp.node -> option wpp.node) :
  L <= i -> wpp.frame Lexer L (wpp.modify Lexer i f).
Proof.
  intros Hi s a s' H _. unfold wpp.modify in H.
  destruct (snd s !! i) as [n|]; [|discriminate].
  destruct (f n) as [n'|]; [|discriminate].
  injection H as _ <-. cbn [snd]. rewrite length_insert.
  split; [|lia]. now apply take_insert_ge.
Qed.

End Frame.

Ltac frame_auto :=
  repeat first
    [ apply frame_ret | apply frame_throw | apply frame_timeout
    | apply frame_peek | apply frame_advance | apply frame_on_lexer
    | apply frame_lift
    | apply frame_modify; lia
    | match goal with
      | H : forall L, wpp.frame _ L ?f |- wpp.frame _ _ ?f => apply H
      | H : forall L node, L <= node -> wpp.frame _ L (?f node)
        |- wpp.frame _ _ (?f _) => apply H; lia
      | |- wpp.frame _ _ (if ?b then _ else _) => destruct b
      | |- wpp.frame _ _ (match ?x with _ => _ end) => destruct x
      end
    | apply frame_add_bind; intros ? ?
    | apply frame_bind; [ | intros ? ] ].

Section ParserFrame.

Variable Lexer : Type.
Variable next_token : mode -> Lexer -> outcome (Token * Lexer).
Variable is_whitespace : ascii -> bool.
Variable NODE_EMPTY : wpp.node_t.

Lemma string_frame (n : nat) :
  forall L, wpp.frame Lexer L (wpp.string Lexer next_token is_whitespace n).
Proof. intros L. unfold wpp.string. frame_auto. Qed.

Lemma let_params_frame (n : nat) :
  forall L node, L <= node ->
    wpp.frame Lexer L (wpp.let_params Lexer next_token n node).
Proof.
  induction n as [|n IH]; intros L node Hnode; cbn [wpp.let_params];
    frame_auto.
Qed.

Lemma let_parameter_list_frame (n : nat) :
  forall L node, L <= node ->
    wpp.frame Lexer L (wpp.let_parameter_list Lexer next_token n node).
Proof.
  intros L node Hnode. unfold wpp.let_parameter_list.
  pose proof (let_params_frame n) as Hparams. frame_auto.
Qed.

(** A parsing function changes no node that was in the tree when it
    was called; a loop that fills the node [node] changes no node
    before it. *)
Lemma parser_frame (n : nat) :
  (forall L, wpp.frame Lexer L (wpp.expression Lexer next_token is_whitespace NODE_EMPTY n))
  /\ (forall L, wpp.frame Lexer L (wpp.let_ Lexer next_token is_whitespace NODE_EMPTY n))
  /\ (forall L, wpp.frame Lexer L (wpp.var Lexer next_token is_whitespace NODE_EMPTY n))
  /\ (forall L, wpp.frame Lexer L (wpp.codeify Lexer next_token is_whitespace NODE_EMPTY n))
  /\ (forall L, wpp.frame Lexer L (wpp.drop Lexer next_token is_whitespace NODE_EMPTY n))
  /\ (forall L node, L <= node ->
        wpp.frame Lexer L (wpp.fninvoke_args Lexer next_token is_whitespace NODE_EMPTY n node))
  /\ (forall L, wpp.frame Lexer L (wpp.fninvoke Lexer next_token is_whitespace NODE_EMPTY n))
  /\ (forall L node, L <= node ->
        wpp.frame Lexer L (wpp.prefix_stmts Lexer next_token is_whitespace NODE_EMPTY n node))
  /\ (forall L, wpp.frame Lexer L (wpp.prefix Lexer next_token is_whitespace NODE_EMPTY n))
  /\ (forall L node, L <= node ->
        wpp.frame Lexer L (wpp.block_stmts Lexer next_token is_whitespace NODE_EMPTY n node))
  /\ (forall L, wpp.frame Lexer L (wpp.block Lexer next_token is_whitespace NODE_EMPTY n))
  /\ (forall L node, L <= node ->
        wpp.frame Lexer L (wpp.map_arms Lexer next_token is_whitespace NODE_EMPTY n node))
  /\ (forall L, wpp.frame Lexer L (wpp.map Lexer next_token is_whitespace NODE_EMPTY n))
  /\ (forall L, wpp.frame Lexer L (wpp.statement Lexer next_token is_whitespace NODE_EMPTY n)).
Proof.
  induction n as [|n IH].
  - repeat apply conj;
      match goal with
      | |- forall L node, L <= node -> _ => intros L node Hnode
      | |- forall L, _ => intros L
      end; apply frame_timeout.
  - destruct IH
      as (H1 & H2 & H3 & H4 & H5 & H6 & H7 & H8 & H9 & H10 & H11 & H12 & H13 & H14).
    pose proof (string_frame n) as Hstring.
    pose proof (let_parameter_list_frame n) as Hparams.
    cbn [wpp.expression wpp.let_ wpp.var wpp.codeify wpp.drop
         wpp.fninvoke_args wpp.fninvoke wpp.prefix_stmts wpp.prefix
         wpp.block_stmts wpp.block wpp.map_arms wpp.map wpp.statement].
    repeat apply conj;
      match goal with
      | |- forall L node, L <= node -> _ => intros L node Hnode
      | |- forall L, _ => intros L
      end; frame_auto.
Qed.

End ParserFrame.

Section Concat.

Variable Lexer : Type.
Variable next_token : mode -> Lexer -> outcome (Token * Lexer).
Variable is_whitespace : ascii -> bool.
Variable NODE_EMPTY : wpp.node_t.

Let expression := wpp.expression Lexer next_token is_whitespace NODE_EMPTY.
Let primary := wpp.primary Lexer next_token is_whitespace NODE_EMPTY.
Let peek := wpp.peek Lexer next_token.
Let advance := wpp.advance Lexer next_token.

Lemma peek_of_advance (md : mode) (s s' : Lexer * wpp.AST) (t : Token) :
  advance md s = Ok (t, s') -> peek md s = Ok (t, s) /\ snd s' = snd s.
Proof.
  subst peek advance.
  unfold wpp.peek, wpp.advance, wpp.on_lexer, wpp.lpeek, wpp.ladvance.
  destruct (next_token md (fst s)) as [[t' l]| | |]; try discriminate.
  intros [= -> <-]. destruct s. split; reflexivity.
Qed.

Lemma frame_lookup {A} (m : wpp.P Lexer A) (L : nat) s a s' i x :
  wpp.frame Lexer L m -> m s = Ok (a, s') ->
  i < L -> L <= length (snd s) -> snd s !! i = Some x ->
  snd s' !! i = Some x /\ length (snd s) <= length (snd s').
Proof.
  intros Hm E Hi HL Hx. destruct (Hm _ _ _ E HL) as [Ht Hlen].
  split; [|exact Hlen].
  rewrite <- (lookup_take_lt (snd s') L i Hi), Ht, lookup_take_lt; assumption.
Qed.

Lemma expression_unfold (f : nat) s :
  expression (S f) s
  = (lhs <- primary f;;
     t <- peek normal;;
     if tok_is t TOKEN_CAT then
       node <- wpp.add Lexer (wpp.Concat NODE_EMPTY NODE_EMPTY);;
       advance normal;;;
       rhs <- expression f;;
       wpp.modify Lexer node (fun n =>
         match n with
         | wpp.Concat _ _ => Some (wpp.Concat lhs rhs)
         | _ => None
         end);;;
       ret node
     else ret lhs) s.
Proof.
  subst expression primary peek advance. cbn [wpp.expression].
  unfold wpp.primary, bind.
  destruct (wpp.peek Lexer next_token normal s) as [[t s1]| | |];
    reflexivity.
Qed.

Lemma primary_steps (n m : nat) : n <= m -> more_steps (primary n) (primary m).
Proof.
  intros Hle. subst primary. unfold wpp.primary.
  destruct (parser_steps Lexer next_token is_whitespace NODE_EMPTY n m Hle)
    as (H1 & H2 & H3 & H4 & H5 & H6 & H7 & H8 & H9 & H10 & H11 & H12 & H13 & H14).
  pose proof (string_steps Lexer next_token is_whitespace n m Hle).
  more_steps_auto.
Qed.

Lemma expression_steps (n m : nat) :
  n <= m -> more_steps (expression n) (expression m).
Proof.
  intros Hle.
  apply (parser_steps Lexer next_token is_whitespace NODE_EMPTY n m Hle).
Qed.

Lemma expression_frame (n L : nat) : wpp.frame Lexer L (expression n).
Proof. apply (parser_frame Lexer next_token is_whitespace NODE_EMPTY n). Qed.

Lemma primary_frame (n L : nat) : wpp.frame Lexer L (primary n).
Proof.
  subst primary. unfold wpp.primary.
  destruct (parser_frame Lexer next_token is_whitespace NODE_EMPTY n)
    as (H1 & H2 & H3 & H4 & H5 & H6 & H7 & H8 & H9 & H10 & H11 & H12 & H13 & H14).
  pose proof (string_frame Lexer next_token is_whitespace n).
  frame_auto.
Qed.

(** An operand that no [..] follows is the whole expression. *)
Lemma expression_operand (f : nat) s0 a s1 t :
  primary f s0 = Ok (a, s1) ->
  peek normal s1 = Ok (t, s1) -> tok_is t TOKEN_CAT = false ->
  expression (S f) s0 = Ok (a, s1).
Proof.
  intros Ha Ht Hcat. rewrite expression_unfold.
  rewrite (bind_ok _ _ _ _ _ Ha), (bind_ok _ _ _ _ _ Ht), Hcat.
  reflexivity.
Qed.

(** An operand that [..] follows becomes the left of a [Concat] whose
    right is the expression parsed after the [..]. *)
Lemma expression_concat (f : nat) s0 a s1 cat s1' rhs s2 :
  primary f s0 = Ok (a, s1) ->
  advance normal s1 = Ok (cat, s1') -> tok_is cat TOKEN_CAT = true ->
  expression f (fst s1', snd s1 ++ [wpp.Concat NODE_EMPTY NODE_EMPTY])
  = Ok (rhs, s2) ->
  expression (S f) s0
  = Ok (length (snd s1),
        (fst s2, <[length (snd s1) := wpp.Concat a rhs]> (snd s2)))
  /\ length (snd s1) < length (snd s2).
Proof.
  intros Ha Hadv Hcat Hrhs.
  destruct (peek_of_advance _ _ _ _ Hadv) as [Hpeek Htree].
  assert (Hnode : snd s2 !! length (snd s1)
                  = Some (wpp.Concat NODE_EMPTY NODE_EMPTY)
                  /\ length (snd s1 ++ [wpp.Concat NODE_EMPTY NODE_EMPTY])
                     <= length (snd s2)).
  { refine (frame_lookup _ (S (length (snd s1))) _ _ _ _ _
              (expression_frame f _) Hrhs _ _ _); cbn [snd].
    - lia.
    - rewrite length_app. cbn. lia.
    - apply list_lookup_middle. reflexivity. }
  destruct Hnode as [Hnode Hlen]. rewrite length_app in Hlen. cbn in Hlen.
  split; [|lia].
  rewrite expression_unfold.
  rewrite (bind_ok _ _ _ _ _ Ha), (bind_ok _ _ _ _ _ Hpeek), Hcat.
  unfold bind at 1. unfold wpp.add at 1.
  unfold bind at 1.
  assert (Hadv' : advance normal
                    (fst s1, snd s1 ++ [wpp.Concat NODE_EMPTY NODE_EMPTY])
                  = Ok (cat, (fst s1',
                              snd s1 ++ [wpp.Concat NODE_EMPTY NODE_EMPTY]))).
  { revert Hadv. subst advance.
    unfold wpp.advance, wpp.on_lexer, wpp.ladvance. cbn [fst snd].
    destruct (next_token normal (fst s1)) as [[t' l]| | |]; try discriminate.
    now intros [= -> <-]. }
  rewrite Hadv'.
  rewrite (bind_ok _ _ _ _ _ Hrhs).
  unfold bind at 1. unfold wpp.modify at 1. rewrite Hnode.
  reflexivity.
Qed.

(** C7 (amended): [a .. b .. c] parses to [Concat(a, Concat(b, c))]
    when the parse of the operand [a] and that of the operand [b] stop
    before the [..] that follows them, as the parse of a call, of a
    string, of a block or of a map does.  When the operand [a] is parsed
    from [s0] and [..] follows, the operand [b] is parsed after it and
    [..] follows, the operand [c] is parsed after it and no [..]
    follows, then [expression], given enough fuel, returns a [Concat]
    node whose left is [a] and whose right is a [Concat] node of [b] and
    [c].  A codeify is no such operand [a] or [b]: what follows its [=]
    is an expression, which takes the rest of the chain. *)
Theorem concat_right_associative (fa fb fc : nat)
    (s0 s1 s1' s2 s2' s3 : Lexer * wpp.AST) (a b c : wpp.node_t)
    (cat1 cat2 t3 : Token) :
  primary fa s0 = Ok (a, s1) ->
  advance normal s1 = Ok (cat1, s1') -> tok_is cat1 TOKEN_CAT = true ->
  primary fb (fst s1', snd s1 ++ [wpp.Concat NODE_EMPTY NODE_EMPTY])
  = Ok (b, s2) ->
  advance normal s2 = Ok (cat2, s2') -> tok_is cat2 TOKEN_CAT = true ->
  primary fc (fst s2', snd s2 ++ [wpp.Concat NODE_EMPTY NODE_EMPTY])
  = Ok (c, s3) ->
  peek normal s3 = Ok (t3, s3) -> tok_is t3 TOKEN_CAT = false ->
  exists F, forall fuel, F <= fuel ->
    exists tree,
      expression fuel s0 = Ok (length (snd s1), (fst s3, tree))
      /\ tree !! length (snd s1) = Some (wpp.Concat a (length (snd s2)))
      /\ tree !! length (snd s2) = Some (wpp.Concat b c).
Proof.
  intros Ha Hcat1 Hc1 Hb Hcat2 Hc2 Hc Ht3 Hc3.
  set (f := Nat.max fa (Nat.max fb fc)).
  exists (S (S (S f))). intros fuel Hfuel.
  exists (<[length (snd s1) := wpp.Concat a (length (snd s2))]>
            (<[length (snd s2) := wpp.Concat b c]> (snd s3))).
  assert (Hc' := steps_ok _ _ _ _ _ (primary_steps fc f ltac:(lia)) Hc).
  assert (Hb' := steps_ok _ _ _ _ _ (primary_steps fb (S f) ltac:(lia)) Hb).
  assert (Ha' := steps_ok _ _ _ _ _ (primary_steps fa (S (S f)) ltac:(lia)) Ha).
  pose proof (expression_operand _ _ _ _ _ Hc' Ht3 Hc3) as Hec.
  destruct (expression_concat _ _ _ _ _ _ _ _ Hb' Hcat2 Hc2 Hec) as [Heb Hlb].
  destruct (expression_concat (S (S f)) _ _ _ _ _ _ _ Ha' Hcat1 Hc1 Heb)
    as [Hea Hla].
  cbn [fst snd] in *. rewrite length_insert in Hla.
  destruct (primary_frame fb 0 _ _ _ Hb ltac:(lia)) as [_ Hlen].
  cbn [snd] in Hlen. rewrite length_app in Hlen. cbn [length] in Hlen.
  split; [|split].
  - apply (steps_ok _ _ _ _ _ (expression_steps (S (S (S f))) fuel Hfuel)).
    exact Hea.
  - apply list_lookup_insert_eq. rewrite length_insert. lia.
  - rewrite list_lookup_insert_ne by lia.
    apply list_lookup_insert_eq. lia.
Qed.

(** The token that [peek] gives is the next one of the lexer, whatever
    the tree. *)
Lemma peek_token (md : mode) (s s' : Lexer * wpp.AST) (t : Token) :
  peek md s = Ok (t, s') ->
  s' = s /\ forall tree, peek md (fst s, tree) = Ok (t, (fst s, tree)).
Proof.
  subst peek. unfold wpp.peek, wpp.on_lexer, wpp.lpeek. cbn [fst snd].
  destruct (next_token md (fst s)) as [[t' l]| | |]; try discriminate.
  intros [= -> <-]. destruct s. split; reflexivity.
Qed.

(** An expression takes every [..] that follows its operand: once
    [expression] has returned, the next token is not [..]. *)
Lemma expression_takes_chain (f : nat) s n s' t s'' :
  expression f s = Ok (n, s') ->
  peek normal s' = Ok (t, s'') -> tok_is t TOKEN_CAT = false.
Proof.
  revert s n s' t s''. induction f as [|f IH]; intros s n s' t s'' H Ht;
    [discriminate H|].
  rewrite expression_unfold in H.
  apply bind_inv in H as (lhs & s1 & _ & H).
  apply bind_inv in H as (t1 & s2 & Hpeek & H).
  destruct (tok_is t1 TOKEN_CAT) eqn:E.
  - apply bind_inv in H as (node & s3 & _ & H).
    apply bind_inv in H as (cat & s4 & _ & H).
    apply bind_inv in H as (rhs & s5 & Hrhs & H).
    apply bind_inv in H as (u & s6 & Hmod & H).
    injection H as _ <-. destruct s5 as [lex5 tree5].
    unfold wpp.modify in Hmod. cbn [fst snd] in Hmod.
    destruct (tree5 !! node) as [x|]; [|discriminate].
    destruct x; try discriminate.
    assert (Hs : fst s6 = lex5) by (now inversion Hmod).
    destruct (peek_token _ _ _ _ Ht) as [_ Ht']. rewrite Hs in Ht'.
    exact (IH _ _ _ _ _ Hrhs (Ht' tree5)).
  - injection H as _ <-.
    destruct (peek_token _ _ _ _ Hpeek) as [-> _].
    rewrite Hpeek in Ht. now injection Ht as <- _.
Qed.

(** So does the operand of a codeify, which is an expression: after
    [= e] comes no [..], the rest of a chain belongs to [e]. *)
Lemma codeify_takes_chain (f : nat) s n s' t s'' :
  wpp.codeify Lexer next_token is_whitespace NODE_EMPTY f s = Ok (n, s') ->
  peek normal s' = Ok (t, s'') -> tok_is t TOKEN_CAT = false.
Proof.
  destruct f as [|f]; [discriminate|]. cbn [wpp.codeify]. intros H Ht.
  apply bind_inv in H as (eq & s1 & _ & H).
  apply bind_inv in H as (t1 & s2 & _ & H).
  destruct (negb (peek_is_expr t1)); [discriminate H|].
  apply bind_inv in H as (node & s3 & _ & H).
  apply bind_inv in H as (e & s4 & He & H).
  apply bind_inv in H as (u & s5 & Hmod & H).
  injection H as _ <-. destruct s4 as [lex4 tree4].
  unfold wpp.modify in Hmod. cbn [fst snd] in Hmod.
  destruct (tree4 !! node) as [x|]; [|discriminate].
  destruct x; try discriminate.
  assert (Hs : fst s5 = lex4) by (now inversion Hmod).
  destruct (peek_token _ _ _ _ Ht) as [_ Ht']. rewrite Hs in Ht'.
  exact (expression_takes_chain f _ _ _ _ _ He (Ht' tree4)).
Qed.

End Concat.

Section TokenStream.

Variable is_whitespace : ascii -> bool.
Variable NODE_EMPTY : wpp.node_t.

Lemma peek_stream (md : mode) (t : Token) (toks : list Token)
    (tree : wpp.AST) :
  wpp.peek (list Token) stream_lexer md (t :: toks, tree)
  = Ok (t, (t :: toks, tree)).
Proof. reflexivity. Qed.

Lemma advance_stream (md : mode) (t : Token) (toks : list Token)
    (tree : wpp.AST) :
  wpp.advance (list Token) stream_lexer md (t :: toks, tree)
  = Ok (t, (toks, tree)).
Proof. reflexivity. Qed.

Lemma modify_run {Lexer} (i : wpp.node_t) (f : wpp.node -> option wpp.node)
    (lex : Lexer) (tree : wpp.AST) (n n' : wpp.node) :
  tree !! i = Some n -> f n = Some n' ->
  wpp.modify Lexer i f (lex, tree) = Ok (tt, (lex, <[i := n']> tree)).
Proof. intros H1 H2. unfold wpp.modify. cbn [fst snd]. now rewrite H1, H2. Qed.

Lemma reserved_not_identifier (kw : Token) :
  peek_is_reserved_name kw = true -> tok_is kw TOKEN_IDENTIFIER = false.
Proof.
  unfold peek_is_reserved_name, peek_is_intrinsic, peek_is_keyword, tok_is.
  destruct (type kw); cbn [orb]; intros H;
    first [discriminate H | vm_compute; reflexivity].
Qed.

End TokenStream.

Section Block.

Variable Lexer : Type.
Variable next_token : mode -> Lexer -> outcome (Token * Lexer).
Variable is_whitespace : ascii -> bool.
Variable NODE_EMPTY : wpp.node_t.

Let statement := wpp.statement Lexer next_token is_whitespace NODE_EMPTY.
Let block_stmts := wpp.block_stmts Lexer next_token is_whitespace NODE_EMPTY.
Let block := wpp.block Lexer next_token is_whitespace NODE_EMPTY.
Let peek := wpp.peek Lexer next_token.
Let advance := wpp.advance Lexer next_token.
Local Abbreviation block_statements :=
  (wpp.block_statements Lexer next_token is_whitespace NODE_EMPTY).

(** What [peek] and [advance] give depends on the lexer only. *)
Lemma peek_tree (md : mode) s t (tree : wpp.AST) :
  peek md s = Ok (t, s) -> peek md (fst s, tree) = Ok (t, (fst s, tree)).
Proof.
  subst peek. unfold wpp.peek, wpp.on_lexer, wpp.lpeek. cbn [fst snd].
  destruct (next_token md (fst s)) as [[t' l]| | |]; try discriminate.
  now intros [= ->].
Qed.

Lemma advance_tree (md : mode) s t s' (tree : wpp.AST) :
  advance md s = Ok (t, s') ->
  advance md (fst s, tree) = Ok (t, (fst s', tree)).
Proof.
  subst advance. unfold wpp.advance, wpp.on_lexer, wpp.ladvance. cbn [fst snd].
  destruct (next_token md (fst s)) as [[t' l]| | |]; try discriminate.
  now intros [= -> <-].
Qed.

Lemma not_stmt_not_expr (t : Token) :
  peek_is_stmt t = false -> peek_is_expr t = false.
Proof.
  unfold peek_is_stmt. intros H. now apply orb_false_iff in H as [_ H].
Qed.

(** A statement that is parsed starts with a token of a statement. *)
Lemma statement_starts (fuel : nat) s r t :
  statement fuel s = Ok r -> peek normal s = Ok (t, s) ->
  peek_is_stmt t = true.
Proof.
  subst statement peek. destruct fuel as [|fuel]; [discriminate|].
  cbn [wpp.statement]. intros H Ht.
  rewrite (bind_ok _ _ _ _ _ Ht) in H. unfold peek_is_stmt.
  destruct (tok_is t TOKEN_LET); [reflexivity|].
  destruct (tok_is t TOKEN_VAR); [reflexivity|].
  destruct (tok_is t TOKEN_DROP); [now rewrite !orb_true_r|].
  destruct (tok_is t TOKEN_PREFIX); [reflexivity|].
  destruct (peek_is_expr t); [reflexivity | discriminate].
Qed.

(** The four statement keywords do not start an expression. *)
Lemma expression_not_keyword (t : Token) :
  peek_is_expr t = true ->
  tok_is t TOKEN_LET = false /\ tok_is t TOKEN_VAR = false
  /\ tok_is t TOKEN_DROP = false /\ tok_is t TOKEN_PREFIX = false.
Proof.
  unfold peek_is_expr, peek_is_string, peek_is_call, peek_is_intrinsic, tok_is.
  destruct (type t); vm_compute; intros H;
    first [discriminate H | repeat split; reflexivity].
Qed.

(** A statement that starts as an expression is that expression. *)
Lemma statement_expression (f : nat) s t :
  peek normal s = Ok (t, s) -> peek_is_expr t = true ->
  statement (S f) s
  = wpp.expression Lexer next_token is_whitespace NODE_EMPTY f s.
Proof.
  subst statement peek. intros Ht Hexpr. cbn [wpp.statement].
  destruct (expression_not_keyword t Hexpr) as (H1 & H2 & H3 & H4).
  rewrite (bind_ok _ _ _ _ _ Ht), H1, H2, H3, H4, Hexpr. reflexivity.
Qed.

Lemma statement_steps (n m : nat) :
  n <= m -> more_steps (statement n) (statement m).
Proof.
  intros Hle.
  apply (parser_steps Lexer next_token is_whitespace NODE_EMPTY n m Hle).
Qed.

Lemma statement_frame (n L : nat) : wpp.frame Lexer L (statement n).
Proof. apply (parser_frame Lexer next_token is_whitespace NODE_EMPTY n). Qed.

Lemma block_stmts_steps (n m : nat) node :
  n <= m -> more_steps (block_stmts n node) (block_stmts m node).
Proof.
  intros Hle.
  apply (parser_steps Lexer next_token is_whitespace NODE_EMPTY n m Hle).
Qed.

Lemma block_steps (n m : nat) :
  n <= m -> more_steps (block n) (block m).
Proof.
  intros Hle.
  apply (parser_steps Lexer next_token is_whitespace NODE_EMPTY n m Hle).
Qed.

Lemma push_statement_block (node stmt : wpp.node_t) (tree : wpp.AST) stmts e :
  tree !! node = Some (wpp.Block stmts e) ->
  wpp.push_statement node stmt tree
  = <[node := wpp.Block (stmts ++ [stmt]) e]> tree.
Proof. intros H. unfold wpp.push_statement. now rewrite H. Qed.

Lemma block_statements_nonempty node s stmts s' :
  block_statements node s stmts s' -> stmts <> [].
Proof. destruct 1; discriminate. Qed.

(** One round of the loop of [block]: the statement is parsed, the
    Block is still there and the statement is appended to it. *)
Lemma block_stmts_round (f fuel : nat) node s t stmt s1 t' done e :
  fuel <= f ->
  peek normal s = Ok (t, s) ->
  statement fuel s = Ok (stmt, s1) ->
  peek normal s1 = Ok (t', s1) ->
  node < length (snd s) ->
  snd s !! node = Some (wpp.Block done e) ->
  let s2 := (fst s1, wpp.push_statement node stmt (snd s1)) in
  snd s2 !! node = Some (wpp.Block (done ++ [stmt]) e)
  /\ node < length (snd s2)
  /\ peek normal s2 = Ok (t', s2)
  /\ block_stmts (S f) node s
     = if peek_is_stmt t' then block_stmts f node s2
       else Ok (peek_is_expr t, s2).
Proof.
  intros Hf Ht Hstmt Ht' Hlen Hnode s2.
  assert (Hframe : snd s1 !! node = Some (wpp.Block done e)
                    /\ length (snd s) <= length (snd s1)).
  { refine (frame_lookup _ _ (S node) _ _ _ _ _
              (statement_frame fuel _) Hstmt _ _ Hnode); lia. }
  destruct Hframe as [Hkeep Hlen1].
  assert (Hpush := push_statement_block node stmt _ _ _ Hkeep).
  assert (Hpeek2 := peek_tree _ _ _ (snd s2) Ht').
  subst s2. cbn [fst snd] in *. repeat split.
  - rewrite Hpush. apply list_lookup_insert_eq. lia.
  - rewrite Hpush, length_insert. lia.
  - exact Hpeek2.
  - subst block_stmts. cbn [wpp.block_stmts].
    rewrite (bind_ok _ _ _ _ _ Ht). cbv zeta.
    rewrite (bind_ok _ _ _ _ _
               (steps_ok _ _ _ _ _ (statement_steps fuel f Hf) Hstmt)).
    destruct s1 as [l1 tree1]. cbn [fst snd] in *.
    erewrite bind_ok by (eapply modify_run; [exact Hkeep | reflexivity]).
    rewrite <- Hpush. rewrite (bind_ok _ _ _ _ _ Hpeek2).
    destruct (peek_is_stmt t'); reflexivity.
Qed.

Lemma block_stmts_run node s stmts s' :
  block_statements node s stmts s' ->
  forall done e tl el,
    node < length (snd s) ->
    snd s !! node = Some (wpp.Block done e) ->
    last stmts = Some (tl, el) ->
    (snd s' !! node = Some (wpp.Block (done ++ map snd stmts) e)
     /\ node < length (snd s')
     /\ exists t', peek normal s' = Ok (t', s') /\ peek_is_stmt t' = false)
    /\ exists F, forall fuel, F <= fuel ->
         block_stmts fuel node s = Ok (peek_is_expr tl, s').
Proof.
  induction 1 as [s t fuel stmt s1 t' Ht Hstmt Ht' Hno
                 |s t fuel stmt s1 t' stmts s' Ht Hstmt Ht' Hyes Hrest IH];
    intros done e tl el Hlen Hnode Hlast.
  - injection Hlast as <- <-.
    pose proof (block_stmts_round fuel fuel node s t stmt s1 t' done e
                  (le_n _) Ht Hstmt Ht' Hlen Hnode) as (H1 & H2 & H3 & _).
    split; [repeat split; [exact H1 | exact H2 | now exists t']|].
    exists (S fuel). intros f Hf. destruct f as [|f]; [lia|].
    pose proof (block_stmts_round f fuel node s t stmt s1 t' done e
                  ltac:(lia) Ht Hstmt Ht' Hlen Hnode) as (_ & _ & _ & H4).
    now rewrite H4, Hno.
  - pose proof (block_stmts_round fuel fuel node s t stmt s1 t' done e
                  (le_n _) Ht Hstmt Ht' Hlen Hnode) as (H1 & H2 & H3 & _).
    assert (Hne := block_statements_nonempty _ _ _ _ Hrest).
    assert (Hlast' : last stmts = Some (tl, el))
      by (destruct stmts; [contradiction | exact Hlast]).
    destruct (IH (done ++ [stmt]) e tl el H2 H1 Hlast')
      as [(K1 & K2 & K3) [F HF]].
    split.
    + repeat split; [|exact K2|exact K3].
      rewrite K1. cbn [map snd]. now rewrite <- List.app_assoc.
    + exists (S (Nat.max fuel F)). intros f Hf. destruct f as [|f]; [lia|].
      pose proof (block_stmts_round f fuel node s t stmt s1 t' done e
                    ltac:(lia) Ht Hstmt Ht' Hlen Hnode) as (_ & _ & _ & H4).
      rewrite H4, Hyes. apply HF. lia.
Qed.

Lemma block_statements_first node s stmts s' :
  block_statements node s stmts s' ->
  exists t, peek normal s = Ok (t, s) /\ peek_is_stmt t = true.
Proof.
  destruct 1 as [s t fuel stmt s1 t' Ht Hstmt _ _
                |s t fuel stmt s1 t' stmts s' Ht Hstmt _ _ _];
    exists t; (split; [exact Ht | exact (statement_starts _ _ _ _ Hstmt Ht)]).
Qed.

Lemma removelast_map {A B} (f : A -> B) (l : list A) :
  removelast (map f l) = map f (removelast l).
Proof.
  induction l as [|a l IH]; [reflexivity|].
  destruct l as [|b l]; [reflexivity|].
  change (f a :: removelast (map f (b :: l)) = f a :: map f (removelast (b :: l))).
  now rewrite IH.
Qed.

Lemma last_map {A B} (f : A -> B) (l : list A) :
  last (map f l) = option_map f (last l).
Proof.
  induction l as [|a l IH]; [reflexivity|].
  destruct l as [|b l]; [reflexivity|]. exact IH.
Qed.

Lemma tok_is_other (t : Token) (ty ty' : token_type) :
  tok_is t ty = true -> ty <> ty' -> tok_is t ty' = false.
Proof.
  unfold tok_is. intros H Hne. apply bool_decide_eq_true in H.
  apply bool_decide_eq_false. congruence.
Qed.

(** [block] once the Block node is added and the brace skipped. *)
Lemma block_enter (f : nat) s0 lbrace s0' :
  advance normal s0 = Ok (lbrace, s0') ->
  block (S f) s0
  = (t <- peek normal;;
     last_is_expr <-
       (if peek_is_stmt t then block_stmts f (length (snd s0)) else ret false);;
     t <- peek normal;;
     (if negb (peek_is_expr t) && last_is_expr then
        wpp.modify Lexer (length (snd s0)) (fun n =>
          match n with
          | wpp.Block stmts _ =>
              match last stmts with
              | Some e => Some (wpp.Block (removelast stmts) e)
              | None => None
              end
          | _ => None
          end)
      else
        throw "expecting a trailing expression at the end of a block");;;
     t <- peek normal;;
     if tok_is t TOKEN_ARROW then throw "map is missing test expression."
     else if negb (tok_is t TOKEN_RBRACE) then throw "block is unterminated."
     else advance normal;;; ret (length (snd s0)))
    (fst s0', snd s0 ++ [wpp.Block [] NODE_EMPTY]).
Proof.
  intros Hadv. subst block. cbn [wpp.block].
  unfold bind at 1. unfold wpp.add at 1.
  rewrite (bind_ok _ _ _ _ _ (advance_tree _ _ _ _ _ Hadv)).
  reflexivity.
Qed.

(** C3: once the opening brace is skipped, a block in which no
    statement follows the brace (the empty block among them) and a
    block whose last statement does not start as an expression (a
    [let], [var], [drop] or [prefix] statement) are parse errors; a
    block whose last statement starts as an expression and is followed
    by the closing brace is parsed, and its [Block] node holds the
    statements but the last, and the last as its trailing expression. *)
Theorem block_trailing_expression s0 lbrace s0' :
  advance normal s0 = Ok (lbrace, s0') ->
  (forall t,
     peek normal (fst s0', snd s0 ++ [wpp.Block [] NODE_EMPTY])
     = Ok (t, (fst s0', snd s0 ++ [wpp.Block [] NODE_EMPTY])) ->
     peek_is_stmt t = false ->
     forall fuel,
       block (S fuel) s0
       = Throw "expecting a trailing expression at the end of a block")
  /\ (forall stmts s2 tl el,
        block_statements (length (snd s0))
          (fst s0', snd s0 ++ [wpp.Block [] NODE_EMPTY]) stmts s2 ->
        last stmts = Some (tl, el) ->
        (peek_is_expr tl = false ->
         exists F, forall fuel, F <= fuel ->
           block fuel s0
           = Throw "expecting a trailing expression at the end of a block")
        /\ (peek_is_expr tl = true ->
            forall rb s3,
              advance normal s2 = Ok (rb, s3) ->
              tok_is rb TOKEN_RBRACE = true ->
              exists F, forall fuel, F <= fuel ->
                exists tree,
                  block fuel s0 = Ok (length (snd s0), (fst s3, tree))
                  /\ tree !! length (snd s0)
                     = Some (wpp.Block (map snd (removelast stmts)) el))).
Proof.
  intros Hadv. split.
  - intros t Ht Hno fuel. rewrite (block_enter _ _ _ _ Hadv).
    rewrite (bind_ok _ _ _ _ _ Ht), Hno.
    unfold bind at 1. unfold ret at 1.
    rewrite (bind_ok _ _ _ _ _ Ht), andb_false_r. reflexivity.
  - intros stmts s2 tl el Hstmts Hlast.
    destruct (block_statements_first _ _ _ _ Hstmts) as (t1 & Ht1 & Hyes).
    destruct (block_stmts_run _ _ _ _ Hstmts [] NODE_EMPTY tl el)
      as [(K1 & K2 & t' & Ht' & Hno) [F HF]].
    { cbn [snd]. rewrite length_app. cbn. lia. }
    { cbn [snd]. apply list_lookup_middle. reflexivity. }
    { exact Hlast. }
    cbn [app] in K1. split.
    + intros Htl. exists (S F). intros fuel Hfuel.
      destruct fuel as [|f]; [lia|]. rewrite (block_enter _ _ _ _ Hadv).
      rewrite (bind_ok _ _ _ _ _ Ht1), Hyes.
      rewrite (bind_ok _ _ _ _ _ (HF f ltac:(lia))).
      rewrite (bind_ok _ _ _ _ _ Ht'), Htl, andb_false_r. reflexivity.
    + intros Htl rb s3 Hrb Hbrace.
      destruct (peek_of_advance _ _ _ _ _ _ Hrb) as [Hpeek Htree].
      assert (t' = rb) by (unfold peek in *; congruence). subst t'.
      exists (S F). intros fuel Hfuel.
      exists (<[length (snd s0) :=
                 wpp.Block (removelast (map snd stmts)) el]> (snd s2)).
      split.
      * destruct fuel as [|f]; [lia|]. rewrite (block_enter _ _ _ _ Hadv).
        rewrite (bind_ok _ _ _ _ _ Ht1), Hyes.
        rewrite (bind_ok _ _ _ _ _ (HF f ltac:(lia))).
        rewrite (bind_ok _ _ _ _ _ Hpeek), Htl, (not_stmt_not_expr _ Hno).
        cbn [negb andb].
        destruct s2 as [l2 tree2]. cbn [fst snd] in *.
        erewrite bind_ok
          by (eapply modify_run;
              [exact K1 | cbv beta iota; rewrite last_map, Hlast; reflexivity]).
        rewrite (bind_ok _ _ _ _ _ (peek_tree _ _ _ _ Hpeek)).
        rewrite (tok_is_other _ _ TOKEN_ARROW Hbrace) by discriminate.
        rewrite Hbrace. cbn [negb].
        rewrite (bind_ok _ _ _ _ _ (advance_tree _ _ _ _ _ Hrb)).
        reflexivity.
      * rewrite removelast_map. apply list_lookup_insert_eq. exact K2.
Qed.

End Block.

Section Examples.

Local Open Scope string_scope.

(** Witness of [concat_right_associative]: [a .. b .. c] with three
    names as operands; the nodes are, in the order of their creation,
    [a], the outer [Concat], [b], the inner [Concat] and [c]. *)
Lemma concat_right_associative_witness :
  exists F, forall fuel, F <= fuel ->
    exists tree,
      wpp.expression (list Token) stream_lexer blank 999 fuel
        ([ident "a"; tok TOKEN_CAT ".."; ident "b"; tok TOKEN_CAT "..";
          ident "c"], [])
      = Ok (1, ([], tree))
      /\ tree !! 1 = Some (wpp.Concat 0 3)
      /\ tree !! 3 = Some (wpp.Concat 2 4).
Proof.
  apply (concat_right_associative (list Token) stream_lexer blank 999 1 1 1
           ([ident "a"; tok TOKEN_CAT ".."; ident "b"; tok TOKEN_CAT "..";
             ident "c"], [])
           ([tok TOKEN_CAT ".."; ident "b"; tok TOKEN_CAT ".."; ident "c"],
            [wpp.FnInvoke (chars "a") []])
           ([ident "b"; tok TOKEN_CAT ".."; ident "c"],
            [wpp.FnInvoke (chars "a") []])
           ([tok TOKEN_CAT ".."; ident "c"],
            [wpp.FnInvoke (chars "a") []; wpp.Concat 999 999;
             wpp.FnInvoke (chars "b") []])
           ([ident "c"],
            [wpp.FnInvoke (chars "a") []; wpp.Concat 999 999;
             wpp.FnInvoke (chars "b") []])
           ([],
            [wpp.FnInvoke (chars "a") []; wpp.Concat 999 999;
             wpp.FnInvoke (chars "b") []; wpp.Concat 999 999;
             wpp.FnInvoke (chars "c") []])
           0 2 4 (tok TOKEN_CAT "..") (tok TOKEN_CAT "..") (mkToken TOKEN_EOF []));
    reflexivity.
Defined.

(** C7 as stated fails for a codeify as operand: the operand of [=] is
    an expression and takes the rest of the chain.  [= a .. b .. c] is
    [Codeify(Concat(a, Concat(b, c)))], not a [Concat] of the codeify of
    [a]; [a .. = b .. c] is [Concat(a, Codeify(Concat(b, c)))], not
    [Concat(a, Concat(Codeify(b), c))]. *)
Lemma concat_codeify_operand :
  wpp.expression (list Token) stream_lexer blank 999 6
    ([tok TOKEN_EQUAL "="; ident "a"; tok TOKEN_CAT ".."; ident "b";
      tok TOKEN_CAT ".."; ident "c"], [])
  = Ok (0, ([], [wpp.Codeify 2; wpp.FnInvoke (chars "a") [];
                 wpp.Concat 1 4; wpp.FnInvoke (chars "b") [];
                 wpp.Concat 3 5; wpp.FnInvoke (chars "c") []]))
  /\ wpp.expression (list Token) stream_lexer blank 999 6
       ([ident "a"; tok TOKEN_CAT ".."; tok TOKEN_EQUAL "="; ident "b";
         tok TOKEN_CAT ".."; ident "c"], [])
     = Ok (1, ([], [wpp.FnInvoke (chars "a") []; wpp.Concat 0 2;
                    wpp.Codeify 4; wpp.FnInvoke (chars "b") [];
                    wpp.Concat 3 5; wpp.FnInvoke (chars "c") []])).
Proof. split; reflexivity. Qed.

(** A reserved name right after a parameter, with no comma between
    them, meets the check of the comma first: [let f(x let)]. *)
Lemma let_keyword_without_comma :
  wpp.let_ (list Token) stream_lexer blank 999 3
    ([tok TOKEN_LET "let"; ident "f"; tok TOKEN_LPAREN "("; ident "x";
      tok TOKEN_LET "let"; tok TOKEN_RPAREN ")"; ident "x"], [])
  = Throw "expecting comma to follow parameter name.".
Proof. reflexivity. Qed.

(** Witness of [block_trailing_expression]: the empty block, the block
    [{ let f x }] and the block [{ let f x  y }]. *)
Lemma block_trailing_expression_witness :
  wpp.block (list Token) stream_lexer blank 999 1
    ([tok TOKEN_LBRACE "{"; tok TOKEN_RBRACE "}"], [])
  = Throw "expecting a trailing expression at the end of a block"
  /\ (exists F, forall fuel, F <= fuel ->
        wpp.block (list Token) stream_lexer blank 999 fuel
          ([tok TOKEN_LBRACE "{"; tok TOKEN_LET "let"; ident "f"; ident "x";
            tok TOKEN_RBRACE "}"], [])
        = Throw "expecting a trailing expression at the end of a block")
  /\ (exists F, forall fuel, F <= fuel ->
        exists tree,
          wpp.block (list Token) stream_lexer blank 999 fuel
            ([tok TOKEN_LBRACE "{"; tok TOKEN_LET "let"; ident "f"; ident "x";
              ident "y"; tok TOKEN_RBRACE "}"], [])
          = Ok (0, ([], tree))
          /\ tree !! 0 = Some (wpp.Block [1] 3)).
Proof.
  split; [|split].
  - apply (proj1 (block_trailing_expression (list Token) stream_lexer blank 999
                    ([tok TOKEN_LBRACE "{"; tok TOKEN_RBRACE "}"], [])
                    (tok TOKEN_LBRACE "{") ([tok TOKEN_RBRACE "}"], []) eq_refl)
             (tok TOKEN_RBRACE "}") eq_refl eq_refl 0).
  - refine (proj1 (proj2 (block_trailing_expression (list Token) stream_lexer
                            blank 999
                            ([tok TOKEN_LBRACE "{"; tok TOKEN_LET "let";
                              ident "f"; ident "x"; tok TOKEN_RBRACE "}"], [])
                            (tok TOKEN_LBRACE "{")
                            ([tok TOKEN_LET "let"; ident "f"; ident "x";
                              tok TOKEN_RBRACE "}"], []) eq_refl)
                     [(tok TOKEN_LET "let", 1)]
                     ([tok TOKEN_RBRACE "}"],
                      [wpp.Block [1] 999; wpp.Fn (chars "f") [] 2;
                       wpp.FnInvoke (chars "x") []])
                     (tok TOKEN_LET "let") 1 _ eq_refl) eq_refl).
    apply (wpp.block_statements_last (list Token) stream_lexer blank 999 0
             ([tok TOKEN_LET "let"; ident "f"; ident "x";
               tok TOKEN_RBRACE "}"], [wpp.Block [] 999])
             (tok TOKEN_LET "let") 4 1
             ([tok TOKEN_RBRACE "}"],
              [wpp.Block [] 999; wpp.Fn (chars "f") [] 2;
               wpp.FnInvoke (chars "x") []])
             (tok TOKEN_RBRACE "}")); reflexivity.
  - refine (proj2 (proj2 (block_trailing_expression (list Token) stream_lexer
                            blank 999
                            ([tok TOKEN_LBRACE "{"; tok TOKEN_LET "let";
                              ident "f"; ident "x"; ident "y";
                              tok TOKEN_RBRACE "}"], [])
                            (tok TOKEN_LBRACE "{")
                            ([tok TOKEN_LET "let"; ident "f"; ident "x";
                              ident "y"; tok TOKEN_RBRACE "}"], []) eq_refl)
                     [(tok TOKEN_LET "let", 1); (ident "y", 3)]
                     ([tok TOKEN_RBRACE "}"],
                      [wpp.Block [1; 3] 999; wpp.Fn (chars "f") [] 2;
                       wpp.FnInvoke (chars "x") [];
                       wpp.FnInvoke (chars "y") []])
                     (ident "y") 3 _ eq_refl) eq_refl
              (tok TOKEN_RBRACE "}")
              ([], [wpp.Block [1; 3] 999; wpp.Fn (chars "f") [] 2;
                    wpp.FnInvoke (chars "x") [];
                    wpp.FnInvoke (chars "y") []]) eq_refl eq_refl).
    apply (wpp.block_statements_more (list Token) stream_lexer blank 999 0
             ([tok TOKEN_LET "let"; ident "f"; ident "x"; ident "y";
               tok TOKEN_RBRACE "}"], [wpp.Block [] 999])
             (tok TOKEN_LET "let") 4 1
             ([ident "y"; tok TOKEN_RBRACE "}"],
              [wpp.Block [] 999; wpp.Fn (chars "f") [] 2;
               wpp.FnInvoke (chars "x") []])
             (ident "y")); try reflexivity.
    apply (wpp.block_statements_last (list Token) stream_lexer blank 999 0
             ([ident "y"; tok TOKEN_RBRACE "}"],
              [wpp.Block [1] 999; wpp.Fn (chars "f") [] 2;
               wpp.FnInvoke (chars "x") []])
             (ident "y") 3 3
             ([tok TOKEN_RBRACE "}"],
              [wpp.Block [1] 999; wpp.Fn (chars "f") [] 2;
               wpp.FnInvoke (chars "x") []; wpp.FnInvoke (chars "y") []])
             (tok TOKEN_RBRACE "}")); reflexivity.
Defined.

End Examples.
(** * Escape sequences *)

Section EscapeFacts.

Local Open Scope Z_scope.

Lemma accumulate_escape_hex_unfold (part : Token) (literal : cstring) :
  type part = TOKEN_ESCAPE_HEX ->
  accumulate_string part literal true
  = literal ++ [char_of (Z.lor (Z.shiftl (hex_to_digit (nth 0 (view part) NUL)) 4)
                               (hex_to_digit (nth 1 (view part) NUL)))].
Proof.
  intros H. unfold accumulate_string, tok_is. rewrite H. reflexivity.
Qed.

Lemma accumulate_escape_bin_unfold (part : Token) (literal : cstring) :
  type part = TOKEN_ESCAPE_BIN ->
  accumulate_string part literal true
  = literal ++ [char_of (fold_left
       (fun value c => Z.lor (Z.shiftl value 1 mod 256) (code c - code "0") mod 256)
       (view part) 0)].
Proof.
  intros H. unfold accumulate_string, tok_is. rewrite H. reflexivity.
Qed.

(** X1: where escapes are handled, a hex escape appends one byte, the
    first digit of the token its high nibble and the second its low
    nibble; where they are not, as in a raw string, it appends the text
    of the token as it is. *)
Theorem accumulate_hex_escape (part : Token) (hi lo : ascii)
    (more literal : cstring) :
  type part = TOKEN_ESCAPE_HEX ->
  view part = hi :: lo :: more ->
  is_hex_digit hi = true -> is_hex_digit lo = true ->
  (exists b,
     accumulate_string part literal true = literal ++ [b]
     /\ code b = 16 * hex_to_digit hi + hex_to_digit lo)
  /\ accumulate_string part literal false = literal ++ hi :: lo :: more.
Proof.
  intros Hty Hview Hhi Hlo.
  split; [|unfold accumulate_string, tok_str; cbn [negb]; now rewrite Hview].
  rewrite (accumulate_escape_hex_unfold part literal Hty), Hview.
  cbn [nth]. eexists. split; [reflexivity|].
  apply hex_digit_value in Hhi, Hlo. unfold digit_in_range in Hhi, Hlo.
  change (2 ^ 4) with 16 in Hhi, Hlo.
  rewrite code_char_of, Z.lor_comm, lor_shifted by (change (2 ^ 4) with 16; lia).
  change (2 ^ 4) with 16. rewrite Z.mod_small; lia.
Qed.

Lemma bin_step (v V d : Z) :
  v = V mod 256 -> 0 <= d < 2 ->
  Z.lor (Z.shiftl v 1 mod 256) d mod 256 = (2 * V + d) mod 256.
Proof.
  intros -> Hd. rewrite Z.shiftl_mul_pow2 by lia. change (2 ^ 1) with 2.
  assert (E : (V mod 256 * 2) mod 256 = 2 * (V mod 128)).
  { replace 256 with (2 * 128) at 2 by reflexivity.
    rewrite (Z.mul_comm _ 2), Zmult_mod_distr_l.
    f_equal. replace 256 with (128 * 2) by reflexivity.
    rewrite Z.rem_mul_r by lia.
    rewrite Z.mul_comm, Z.mod_add by lia. apply Z.mod_mod. lia. }
  rewrite E.
  assert (H128 : 0 <= V mod 128 < 128) by (apply Z.mod_pos_bound; lia).
  replace (Z.lor (2 * (V mod 128)) d) with (2 * (V mod 128) + d).
  - replace (2 * V + d) with ((2 * (V mod 128) + d) + (V / 128) * 256)
      by (pose proof (Z.div_mod V 128); lia).
    now rewrite Z.mod_add by lia.
  - rewrite Z.lor_comm.
    replace (Z.lor d (2 * (V mod 128))) with (Z.lor d (Z.shiftl (V mod 128) 1))
      by (rewrite Z.shiftl_mul_pow2 by lia; change (2 ^ 1) with 2;
          f_equal; lia).
    rewrite lor_shifted by (change (2 ^ 1) with 2; lia).
    change (2 ^ 1) with 2. lia.
Qed.

Lemma bin_fold (ds : cstring) (v V : Z) :
  forallb is_bin_digit ds = true -> v = V mod 256 ->
  fold_left
    (fun value c => Z.lor (Z.shiftl value 1 mod 256) (code c - code "0") mod 256)
    ds v
  = fold_left (fun v c => 2 * v + (code c - code "0")) ds V mod 256.
Proof.
  revert v V. induction ds as [|c ds IH]; intros v V Hds Hv; [exact Hv|].
  cbn [forallb] in Hds. apply andb_true_iff in Hds as [Hc Hds].
  cbn [fold_left]. apply IH; [exact Hds|].
  apply bin_step; [exact Hv|].
  apply bin_digit_value in Hc. unfold digit_in_range in Hc.
  change (2 ^ 1) with 2 in Hc. exact Hc.
Qed.

(** X2: where escapes are handled, a binary escape appends one byte,
    the number its digits write in base two, reduced modulo 256; where
    they are not, as in a raw string, it appends the digits themselves,
    the text of the token. *)
Theorem accumulate_bin_escape (part : Token) (literal : cstring) :
  type part = TOKEN_ESCAPE_BIN ->
  forallb is_bin_digit (view part) = true ->
  (exists b,
     accumulate_string part literal true = literal ++ [b]
     /\ code b = bin_value (view part) mod 256)
  /\ accumulate_string part literal false = literal ++ view part.
Proof.
  intros Hty Hview. split; [|reflexivity].
  rewrite (accumulate_escape_bin_unfold part literal Hty).
  eexists. split; [reflexivity|].
  rewrite code_char_of, (bin_fold _ 0 0 Hview eq_refl).
  unfold bin_value. apply Z.mod_mod. lia.
Qed.

End EscapeFacts.

(** Witness of [accumulate_hex_escape]: the escape of the two digits
    [4] and [1] appends the byte 65, and the two digits where escapes
    are not handled. *)
Lemma accumulate_hex_escape_witness :
  (exists b,
     accumulate_string (mkToken TOKEN_ESCAPE_HEX (chars "41")) (chars "x") true
     = chars "x" ++ [b]
     /\ code b = (16 * hex_to_digit "4" + hex_to_digit "1")%Z)
  /\ accumulate_string (mkToken TOKEN_ESCAPE_HEX (chars "41")) (chars "x") false
     = chars "x" ++ ["4"; "1"].
Proof.
  apply (accumulate_hex_escape (mkToken TOKEN_ESCAPE_HEX (chars "41"))
           "4" "1" [] (chars "x")); reflexivity.
Defined.

(** Witness of [accumulate_bin_escape]: the eight digits [01000001]
    append the byte 65, and themselves where escapes are not handled. *)
Lemma accumulate_bin_escape_witness :
  (exists b,
     accumulate_string (mkToken TOKEN_ESCAPE_BIN (chars "01000001")) [] true
     = [] ++ [b]
     /\ code b = (bin_value (chars "01000001") mod 256)%Z)
  /\ accumulate_string (mkToken TOKEN_ESCAPE_BIN (chars "01000001")) [] false
     = [] ++ chars "01000001".
Proof.
  apply (accumulate_bin_escape (mkToken TOKEN_ESCAPE_BIN (chars "01000001")) []);
    reflexivity.
Defined.

(** * Underscores in hex and binary literals *)

Section Separators.

Lemma hex_loop_digits (rview str : cstring) (counter : Z) :
  hex_loop rview str counter = hex_loop (digits rview) str counter.
Proof.
  revert str counter. induction rview as [|c rview IH]; intros str counter;
    [reflexivity|].
  unfold digits. cbn [List.filter hex_loop].
  destruct (Ascii.eqb c "_") eqn:E; cbn [negb]; [apply IH|].
  cbn [hex_loop]. rewrite E.
  destruct (negb (Z.land counter 1 =? 0)%Z).
  - destruct (or_back str _); [apply IH | reflexivity].
  - apply IH.
Qed.

Lemma bin_loop_digits (rview str : cstring) (counter : Z) :
  bin_loop rview str counter = bin_loop (digits rview) str counter.
Proof.
  revert str counter. induction rview as [|c rview IH]; intros str counter;
    [reflexivity|].
  unfold digits. cbn [List.filter bin_loop].
  destruct (Ascii.eqb c "_") eqn:E; cbn [negb]; [apply IH|].
  cbn [bin_loop]. rewrite E.
  destruct (negb (Z.land counter 7 =? 0)%Z).
  - destruct (or_back str _); [apply IH | reflexivity].
  - apply IH.
Qed.

(** X3: the underscores of a hex or binary literal are separators and
    nothing more: two literals with the same digits decode alike. *)
Theorem underscores_are_separators (view view' str : cstring) :
  digits view = digits view' ->
  hex_string view str = hex_string view' str
  /\ bin_string view str = bin_string view' str.
Proof.
  intros H. unfold hex_string, bin_string.
  rewrite (hex_loop_digits (rev view)), (hex_loop_digits (rev view')).
  rewrite (bin_loop_digits (rev view)), (bin_loop_digits (rev view')).
  now rewrite !digits_rev, H.
Qed.

End Separators.

(** Witness of [underscores_are_separators]: [48_69] and [4869]. *)
Lemma underscores_are_separators_witness :
  hex_string (chars "48_69") [] = hex_string (chars "4869") []
  /\ bin_string (chars "48_69") [] = bin_string (chars "4869") [].
Proof.
  apply (underscores_are_separators (chars "48_69") (chars "4869") []).
  reflexivity.
Defined.

(** * Paragraph strings: what is kept *)

Section ParagraphText.

Variable ws : ascii -> bool.
Hypothesis ws_space : ws " " = true.

Lemma text_cons_whitespace (c : ascii) (l : cstring) :
  ws c = true -> text ws (c :: l) = text ws l.
Proof. intros H. unfold text. cbn [List.filter]. now rewrite H. Qed.

Lemma text_cons_other (c : ascii) (l : cstring) :
  ws c = false -> text ws (c :: l) = c :: text ws l.
Proof. intros H. unfold text. cbn [List.filter]. now rewrite H. Qed.

Lemma text_app (l k : cstring) : text ws (l ++ k) = text ws l ++ text ws k.
Proof. apply List.filter_app. Qed.

Lemma text_unique_from (a : ascii) (l : cstring) :
  text ws (unique_from (both_whitespace ws) a l) = text ws l
  /\ length (unique_from (both_whitespace ws) a l) <= length l.
Proof.
  revert a. induction l as [|x l IH]; intros a; [split; reflexivity|].
  cbn [unique_from].
  destruct (both_whitespace ws a x) eqn:E; unfold both_whitespace in E.
  - apply andb_true_iff in E as [_ Hx]. rewrite (text_cons_whitespace x l Hx).
    destruct (IH a) as [H1 H2]. split; [exact H1 | cbn [length]; lia].
  - destruct (IH x) as [H1 H2]. split; [|cbn [length]; lia].
    unfold text in *. cbn [List.filter]. now rewrite H1.
Qed.

Lemma text_to_space (l : cstring) : text ws (map (to_space ws) l) = text ws l.
Proof.
  induction l as [|c l IH]; [reflexivity|]. cbn [map]. unfold to_space at 1.
  destruct (ws c) eqn:E.
  - now rewrite (text_cons_whitespace " " _ ws_space), (text_cons_whitespace c l E).
  - now rewrite !(text_cons_other c _ E), IH.
Qed.

Lemma text_removelast (l : cstring) (b : ascii) :
  last l = Some b -> ws b = true -> text ws (removelast l) = text ws l.
Proof.
  intros Hb Hw. apply last_Some in Hb as [l' ->].
  rewrite removelast_last, text_app, (text_cons_whitespace b [] Hw).
  now rewrite app_nil_r.
Qed.

Lemma length_removelast_le {A} (l : list A) : length (removelast l) <= length l.
Proof.
  induction l as [|a l IH]; [reflexivity|]. destruct l; cbn [removelast length] in *; lia.
Qed.

(** X4: a paragraph string keeps the characters that are not whitespace,
    all of them and in their order, and is never longer than its
    source. *)
Theorem para_string_keeps_text (x y : cstring) :
  para_string ws x = Some y ->
  text ws y = text ws x /\ length y <= length x.
Proof.
  unfold para_string. intros H.
  assert (U : text ws (map (to_space ws) (unique (both_whitespace ws) x)) = text ws x
              /\ length (map (to_space ws) (unique (both_whitespace ws) x))
                 <= length x).
  { rewrite text_to_space, length_map. destruct x as [|a l]; [split; reflexivity|].
    cbn [unique]. destruct (text_unique_from a l) as [H1 H2].
    split; [|cbn [length]; lia].
    unfold text in *. cbn [List.filter]. now rewrite H1. }
  destruct U as [U1 U2]. revert H U1 U2.
  generalize (map (to_space ws) (unique (both_whitespace ws) x)). intros z H U1 U2.
  destruct z as [|f z]; [discriminate|]. cbn [head mbind option_bind] in H.
  cbv zeta in H.
  set (z1 := if ws f then erase_first (f :: z) else f :: z) in *.
  assert (Z1 : text ws z1 = text ws x /\ length z1 <= length x).
  { subst z1. destruct (ws f) eqn:Hf; [|split; assumption].
    unfold erase_first. cbn [tail]. rewrite <- U1.
    rewrite (text_cons_whitespace f z Hf). split; [reflexivity|].
    cbn [length] in U2. lia. }
  destruct Z1 as [Z1 Z2]. clearbody z1.
  destruct (last z1) as [b|] eqn:Hb; [|discriminate]. cbn in H.
  injection H as <-. destruct (ws b) eqn:Hwb; [|split; assumption].
  unfold erase_last. rewrite (text_removelast z1 b Hb Hwb).
  split; [exact Z1|]. pose proof (length_removelast_le z1). lia.
Qed.

End ParagraphText.

Section ParagraphShape.

Variable ws : ascii -> bool.

(** X5: what a paragraph string is, whatever its source: it begins and
    ends with a character that is not whitespace, no two whitespace
    characters are neighbours in it, and a whitespace character of it is
    a space. *)
Theorem para_string_shape (x y : cstring) :
  para_string ws x = Some y ->
  (exists f, head y = Some f /\ ws f = false)
  /\ (exists b, last y = Some b /\ ws b = false)
  /\ no_adjacent ws y = true
  /\ Forall (fun c => ws c = true -> c = " ") y.
Proof.
  intros H. destruct (para_string_form ws x y H) as (Hadj & Hsp & Hf & Hb).
  repeat split; try assumption.
  eapply Forall_impl; [exact Hsp|]. intros c Hc Hw.
  unfold spaced, to_space in Hc. rewrite Hw in Hc. now symmetry.
Qed.

End ParagraphShape.

(** Witness of [para_string_keeps_text]. *)
Lemma para_string_keeps_text_witness :
  text blank (chars "a b") = text blank (chars "  a   b ")
  /\ length (chars "a b") <= length (chars "  a   b ").
Proof.
  apply (para_string_keeps_text blank eq_refl (chars "  a   b ") (chars "a b")).
  reflexivity.
Defined.

(** Witness of [para_string_shape]. *)
Lemma para_string_shape_witness :
  (exists f, head (chars "a b") = Some f /\ blank f = false)
  /\ (exists b, last (chars "a b") = Some b /\ blank b = false)
  /\ no_adjacent blank (chars "a b") = true
  /\ Forall (fun c => blank c = true -> c = " ") (chars "a b").
Proof.
  apply (para_string_shape blank (chars "  a   b ") (chars "a b")).
  reflexivity.
Defined.
(** * Code strings: what is removed *)

Section CodeRemoves.

Variable ws : ascii -> bool.


Lemma thinned_refl (s : cstring) : thinned ws s s.
Proof. split; reflexivity. Qed.

Lemma thinned_trans (r s t : cstring) : thinned ws r s -> thinned ws s t -> thinned ws r t.
Proof. intros [H1 H2] [H3 H4]. split; [now transitivity s | congruence]. Qed.

Lemma text_whitespace (l : cstring) : forallb ws l = true -> text ws l = [].
Proof.
  induction l as [|c l IH]; [reflexivity|]. cbn [forallb]. intros H.
  apply andb_true_iff in H as [Hc Hl].
  unfold text in *. cbn [List.filter]. rewrite Hc. now apply IH.
Qed.

Lemma thinned_cut (pre mid post : cstring) :
  forallb ws mid = true -> thinned ws (pre ++ post) (pre ++ mid ++ post).
Proof.
  intros H. split.
  - apply sublist_app; [reflexivity | now apply sublist_inserts_l].
  - unfold text. rewrite !List.filter_app.
    fold (text ws mid). now rewrite (text_whitespace mid H).
Qed.

Lemma trim_trailing_thinned (n : nat) (str : cstring) :
  forallb ws (drop n str) = true -> thinned ws (trim_trailing ws n str) str.
Proof.
  induction n as [|n IH]; intros H; [apply thinned_refl|].
  cbn [trim_trailing]. destruct (str !! n) as [c|] eqn:E; [|apply thinned_refl].
  destruct (ws c) eqn:Hc; cbn [negb].
  - apply IH. rewrite (drop_S _ _ _ E). cbn [forallb]. now rewrite Hc.
  - pose proof (thinned_cut (take (S n) str) (drop (S n) str) [] H) as T.
    now rewrite !app_nil_r, take_drop in T.
Qed.

Lemma trim_leading_thinned (fuel : nat) (str : cstring) (it : nat) :
  forallb ws (take it str) = true -> thinned ws (trim_leading ws fuel str it) str.
Proof.
  revert str it. induction fuel as [|fuel IH]; intros str it H;
    [apply thinned_refl|].
  cbn [trim_leading]. destruct (str !! it) as [c|] eqn:E; [|apply thinned_refl].
  destruct (ws c) eqn:Hc; cbn [negb]; [|apply thinned_refl].
  assert (H' : forallb ws (take (S it) str) = true).
  { rewrite (take_S_r _ _ _ E), forallb_app, H. cbn [forallb]. now rewrite Hc. }
  destruct (Ascii.eqb c NL).
  - apply (thinned_trans _ (drop (S it) str)); [now apply IH|].
    pose proof (thinned_cut [] (take (S it) str) (drop (S it) str) H') as T.
    cbn [app] in T. now rewrite take_drop in T.
  - now apply IH.
Qed.

Lemma deref_length (str : cstring) (i : nat) (c : ascii) :
  deref str i = Some c -> i <= length str.
Proof.
  unfold deref. destruct (str !! i) eqn:E.
  - intros _. apply lookup_lt_Some in E. lia.
  - destruct (Nat.eqb_spec i (length str)); [lia | discriminate].
Qed.

Lemma deref_inside (str : cstring) (i : nat) (c : ascii) :
  deref str i = Some c -> i < length str -> str !! i = Some c.
Proof.
  unfold deref. intros H Hi. destruct (str !! i) eqn:E; [exact H|].
  apply lookup_ge_None in E. lia.
Qed.

(** What the loop of [strip] steps over is whitespace of the string. *)
Lemma strip_scan_whitespace (fuel : nat) (str : cstring) (common : Z)
    (ptr : nat) (count : Z) (p : nat) :
  strip_scan ws fuel str common ptr count = Some p ->
  ptr <= p <= length str
  /\ exists mid, drop ptr str = mid ++ drop p str /\ forallb ws mid = true.
Proof.
  revert ptr count. induction fuel as [|fuel IH]; intros ptr count H;
    [discriminate|].
  cbn [strip_scan] in H. destruct (deref str ptr) as [c|] eqn:E; [|discriminate].
  cbn [mbind option_bind] in H. pose proof (deref_length _ _ _ E) as Hlen.
  destruct (ws c && negb (count =? common)%Z) eqn:Hc.
  - destruct (IH _ _ H) as [Hp (mid & Hmid & Hws)].
    apply andb_true_iff in Hc as [Hc _].
    split; [lia|]. exists (c :: mid). split.
    + rewrite (drop_S _ _ _ (deref_inside _ _ _ E ltac:(lia))), Hmid. reflexivity.
    + cbn [forallb]. now rewrite Hc.
  - injection H as <-. split; [lia|]. now exists [].
Qed.

Lemma strip_thinned (str : cstring) (common : Z) (start : nat) (r : cstring) :
  strip ws str common start = Some r -> thinned ws r str.
Proof.
  unfold strip. intros H.
  destruct (strip_scan ws _ str common start 0) as [p|] eqn:E; [|discriminate].
  injection H as <-.
  destruct (strip_scan_whitespace _ _ _ _ _ _ E) as [Hp (mid & Hmid & Hws)].
  pose proof (thinned_cut (take start str) mid (drop p str) Hws) as T.
  now rewrite <- Hmid, take_drop in T.
Qed.

Lemma strip_lines_thinned (fuel : nat) (str : cstring) (common : Z)
    (ptr : nat) (r : cstring) :
  strip_lines ws fuel str common ptr = Some r -> thinned ws r str.
Proof.
  revert str ptr. induction fuel as [|fuel IH]; intros str ptr H;
    [discriminate|].
  cbn [strip_lines] in H. destruct (deref str ptr) as [c|]; [|discriminate].
  cbn [mbind option_bind] in H.
  destruct (Ascii.eqb c NUL); [injection H as <-; apply thinned_refl|].
  destruct (Ascii.eqb c NL); [|now apply (IH _ _ H)].
  destruct (strip ws str common (S ptr)) as [str'|] eqn:E; [|discriminate].
  cbn [mbind option_bind] in H.
  apply (thinned_trans _ str'); [now apply (IH _ _ H) | now apply (strip_thinned _ _ _ _ E)].
Qed.

(** X6: all that [code_string] takes out of a string is whitespace: the
    result is the string with some characters removed, and the
    characters that are not whitespace are all there, in their order. *)
Theorem code_string_removes_whitespace (s r : cstring) :
  code_string ws s = Some r ->
  r `sublist_of` s /\ text ws r = text ws s.
Proof.
  unfold code_string. intros H.
  set (s1 := trim_trailing ws (length s) s) in *.
  assert (T1 : thinned ws s1 s)
    by (apply trim_trailing_thinned; now rewrite drop_all).
  set (s2 := trim_leading ws (S (length s1)) s1 0) in *.
  assert (T2 : thinned ws s2 s1) by (now apply trim_leading_thinned).
  destruct (discover_indent ws _ s2 0 INT_MAX) as [common|]; [|discriminate].
  cbn [mbind option_bind] in H.
  destruct (deref s2 0) as [c|]; [|discriminate].
  cbn [mbind option_bind] in H.
  destruct (if ws c then strip ws s2 common 0 else Some s2) as [s3|] eqn:E;
    [|discriminate].
  cbn [mbind option_bind] in H.
  assert (T3 : thinned ws s3 s2).
  { destruct (ws c); [now apply (strip_thinned _ _ _ _ E)|].
    injection E as <-. apply thinned_refl. }
  apply (thinned_trans _ s3); [now apply (strip_lines_thinned _ _ _ _ _ H)|].
  apply (thinned_trans _ s2); [exact T3|].
  now apply (thinned_trans _ s1).
Qed.

End CodeRemoves.

(** Witness of [code_string_removes_whitespace]: two indented lines. *)
Lemma code_string_removes_whitespace_witness :
  (chars "a" ++ [NL] ++ chars "b")
    `sublist_of` (chars "  a" ++ [NL] ++ chars "  b" ++ [NL])
  /\ text blank (chars "a" ++ [NL] ++ chars "b")
     = text blank (chars "  a" ++ [NL] ++ chars "  b" ++ [NL]).
Proof.
  apply (code_string_removes_whitespace blank
           (chars "  a" ++ [NL] ++ chars "  b" ++ [NL])
           (chars "a" ++ [NL] ++ chars "b")).
  reflexivity.
Defined.

(** * Code strings of a single line *)

Section SingleLine.

Variable ws : ascii -> bool.
Hypothesis ws_nul : ws NUL = false.

Lemma drop_leading_whitespace_rev_snoc (p : cstring) (c : ascii) :
  rev (drop_leading_whitespace ws (rev (p ++ [c])))
  = if ws c then rev (drop_leading_whitespace ws (rev p)) else p ++ [c].
Proof.
  rewrite rev_app_distr. cbn [rev app drop_leading_whitespace].
  destruct (ws c); [reflexivity|]. cbn [rev]. now rewrite rev_involutive.
Qed.

Lemma has_non_whitespace_snoc (p : cstring) (c : ascii) :
  has_non_whitespace ws (p ++ [c]) = has_non_whitespace ws p || negb (ws c).
Proof.
  unfold has_non_whitespace. rewrite existsb_app. cbn [existsb].
  now rewrite orb_false_r.
Qed.

(** Trimming the trailing whitespace, on a string with whitespace
    [suffix] behind the part still to visit. *)
Lemma trim_trailing_visit (p suffix : cstring) :
  trim_trailing ws (length p) (p ++ suffix)
  = if has_non_whitespace ws p then trim_trailing_spec ws p else p ++ suffix.
Proof.
  revert suffix. induction p as [|c p IH] using rev_ind; intros suffix;
    [reflexivity|].
  rewrite length_app. cbn [length]. rewrite Nat.add_1_r. cbn [trim_trailing].
  rewrite <- List.app_assoc. cbn [app].
  rewrite list_lookup_middle by reflexivity.
  rewrite has_non_whitespace_snoc. unfold trim_trailing_spec.
  rewrite drop_leading_whitespace_rev_snoc.
  destruct (ws c) eqn:Hc; cbn [negb].
  - rewrite orb_false_r. apply IH.
  - rewrite orb_true_r.
    replace (p ++ c :: suffix) with ((p ++ [c]) ++ suffix)
      by (now rewrite <- List.app_assoc).
    replace (S (length p)) with (length (p ++ [c]))
      by (rewrite length_app; cbn; lia).
    apply take_app_length.
Qed.

Lemma one_line_lookup (s : cstring) (i : nat) (c : ascii) :
  one_line s = true -> s !! i = Some c -> Ascii.eqb c NL = false.
Proof.
  unfold one_line. rewrite forallb_forall. intros H E.
  apply negb_true_iff, H. apply list_elem_of_In. eapply list_elem_of_lookup_2, E.
Qed.

Lemma one_line_deref (s : cstring) (i : nat) (c : ascii) :
  one_line s = true -> deref s i = Some c -> Ascii.eqb c NL = false.
Proof.
  intros H. unfold deref. destruct (s !! i) as [c'|] eqn:E.
  - intros [= <-]. exact (one_line_lookup _ _ _ H E).
  - destruct (Nat.eqb i (length s)); [|discriminate]. now intros [= <-].
Qed.

Lemma trim_leading_one_line (fuel : nat) (s : cstring) (it : nat) :
  one_line s = true -> trim_leading ws fuel s it = s.
Proof.
  intros H. revert it. induction fuel as [|fuel IH]; intros it; [reflexivity|].
  cbn [trim_leading]. destruct (s !! it) as [c|] eqn:E; [|reflexivity].
  destruct (negb (ws c)); [reflexivity|].
  rewrite (one_line_lookup _ _ _ H E). apply IH.
Qed.

Lemma deref_defined (s : cstring) (i : nat) :
  i <= length s -> exists c, deref s i = Some c.
Proof.
  intros Hi. unfold deref. destruct (s !! i) as [c|] eqn:E; [now exists c|].
  apply lookup_ge_None in E. replace i with (length s) by lia.
  rewrite Nat.eqb_refl. now exists NUL.
Qed.

Lemma deref_terminator (s : cstring) : deref s (length s) = Some NUL.
Proof.
  unfold deref. rewrite (proj2 (lookup_ge_None s (length s))) by lia.
  now rewrite Nat.eqb_refl.
Qed.

Lemma discover_indent_one_line (fuel : nat) (s : cstring) (it : nat)
    (common : Z) :
  one_line s = true -> it <= length s -> length s - it < fuel ->
  discover_indent ws fuel s it common = Some common.
Proof.
  intros H. revert it. induction fuel as [|fuel IH]; intros it Hit Hfuel; [lia|].
  cbn [discover_indent].
  destruct (Nat.eq_dec it (length s)) as [->|Hne].
  - now rewrite deref_terminator.
  - destruct (deref_defined s it Hit) as [c E]. rewrite E.
    cbn [mbind option_bind]. destruct (Ascii.eqb c NUL); [reflexivity|].
    rewrite (one_line_deref _ _ _ H E). apply IH; lia.
Qed.

Lemma strip_lines_one_line (fuel : nat) (s : cstring) (common : Z) (ptr : nat) :
  one_line s = true -> ptr <= length s -> length s - ptr < fuel ->
  strip_lines ws fuel s common ptr = Some s.
Proof.
  intros H. revert ptr. induction fuel as [|fuel IH]; intros ptr Hptr Hfuel; [lia|].
  cbn [strip_lines].
  destruct (Nat.eq_dec ptr (length s)) as [->|Hne].
  - now rewrite deref_terminator.
  - destruct (deref_defined s ptr Hptr) as [c E]. rewrite E.
    cbn [mbind option_bind]. destruct (Ascii.eqb c NUL); [reflexivity|].
    rewrite (one_line_deref _ _ _ H E). apply IH; lia.
Qed.

Lemma drop_indentation (l : cstring) :
  drop (indentation ws l) l = drop_leading_whitespace ws l.
Proof.
  induction l as [|c l IH]; [reflexivity|].
  cbn [indentation drop_leading_whitespace]. destruct (ws c); [exact IH | reflexivity].
Qed.

Lemma indentation_le (l : cstring) : indentation ws l <= length l.
Proof.
  induction l as [|c l IH]; [reflexivity|]. cbn [indentation length].
  destruct (ws c); lia.
Qed.

(** The loop of [strip] with a bound it does not reach: it stops at the
    first character that is not whitespace. *)
Lemma strip_scan_indentation (l pre : cstring) (fuel : nat) (common count : Z) :
  indentation ws l < fuel ->
  (count + Z.of_nat (indentation ws l) <= common)%Z ->
  strip_scan ws fuel (pre ++ l) common (length pre) count
  = Some (length pre + indentation ws l).
Proof.
  revert pre fuel count. induction l as [|c l IH]; intros pre fuel count Hfuel Hc;
    (destruct fuel as [|fuel]; [lia|]); cbn [strip_scan].
  - rewrite app_nil_r, deref_terminator. cbn [mbind option_bind].
    rewrite ws_nul. cbn [andb indentation]. now rewrite Nat.add_0_r.
  - rewrite deref_middle. cbn [mbind option_bind indentation] in *.
    destruct (ws c) eqn:E; cbn [andb]; [|now rewrite Nat.add_0_r].
    destruct (Z.eqb_spec count common) as [->|_]; [lia|]. cbn [negb].
    replace (pre ++ c :: l) with ((pre ++ [c]) ++ l)
      by (now rewrite <- List.app_assoc).
    replace (S (length pre)) with (length (pre ++ [c]))
      by (rewrite length_app; cbn; lia).
    rewrite IH by lia. f_equal. rewrite length_app. cbn [length]. lia.
Qed.

Lemma one_line_sublist (r s : cstring) :
  r `sublist_of` s -> one_line s = true -> one_line r = true.
Proof.
  unfold one_line. rewrite !forallb_forall. intros Hs H c Hc. apply H.
  apply list_elem_of_In. eapply elem_of_sublist; [|exact Hs].
  now apply list_elem_of_In.
Qed.

Lemma drop_leading_whitespace_sublist (l : cstring) :
  drop_leading_whitespace ws l `sublist_of` l.
Proof. rewrite <- drop_indentation. apply sublist_drop. Qed.

Lemma drop_leading_whitespace_all (l : cstring) :
  has_non_whitespace ws l = false -> drop_leading_whitespace ws l = [].
Proof.
  induction l as [|c l IH]; [reflexivity|].
  unfold has_non_whitespace. cbn [existsb drop_leading_whitespace].
  intros H. apply orb_false_iff in H as [Hc Hl]. apply negb_false_iff in Hc.
  rewrite Hc. now apply IH.
Qed.

Lemma has_non_whitespace_rev (l : cstring) :
  has_non_whitespace ws (rev l) = has_non_whitespace ws l.
Proof.
  induction l as [|c l IH]; [reflexivity|]. cbn [rev].
  rewrite has_non_whitespace_snoc, IH. unfold has_non_whitespace.
  cbn [existsb]. apply orb_comm.
Qed.

(** The first line: whitespace at the start of the string goes, up to
    the bound. *)
Lemma first_line_strip (t : cstring) :
  (Z.of_nat (length t) <= INT_MAX)%Z ->
  (c ← deref t 0; (if ws c then strip ws t INT_MAX 0 else Some t))
  = Some (drop_leading_whitespace ws t).
Proof.
  intros Hlen. destruct t as [|c t'].
  - cbn. now rewrite ws_nul.
  - change (deref (c :: t') 0) with (Some c). cbn [mbind option_bind].
    destruct (ws c) eqn:Hc; [|cbn [drop_leading_whitespace]; now rewrite Hc].
    unfold strip.
    pose proof (indentation_le (c :: t')) as Hi.
    rewrite (strip_scan_indentation (c :: t') [] _ INT_MAX 0) by lia.
    cbn [mbind option_bind length Nat.add take app].
    now rewrite drop_indentation.
Qed.

(** X7: of a string without a newline [code_string] makes the string
    without its leading and its trailing whitespace. *)
Theorem code_string_single_line (s : cstring) :
  one_line s = true ->
  (Z.of_nat (length s) <= INT_MAX)%Z ->
  code_string ws s
  = Some (drop_leading_whitespace ws (trim_trailing_spec ws s)).
Proof.
  intros Hline Hlen. unfold code_string.
  pose proof (trim_trailing_visit s []) as T. rewrite app_nil_r in T.
  set (t := trim_trailing ws (length s) s) in *.
  assert (Ht : t `sublist_of` s)
    by (apply (trim_trailing_thinned ws (length s) s); now rewrite drop_all).
  assert (Hlt : one_line t = true) by (now apply (one_line_sublist t s)).
  assert (Hres : drop_leading_whitespace ws t
                 = drop_leading_whitespace ws (trim_trailing_spec ws s)).
  { rewrite T. destruct (has_non_whitespace ws s) eqn:E; [reflexivity|].
    rewrite (drop_leading_whitespace_all s E). unfold trim_trailing_spec.
    rewrite (drop_leading_whitespace_all (rev s))
      by (now rewrite has_non_whitespace_rev).
    reflexivity. }
  rewrite <- Hres. clear T Hres.
  rewrite (trim_leading_one_line _ t 0 Hlt).
  rewrite (discover_indent_one_line _ t 0 INT_MAX Hlt) by lia.
  cbn [mbind option_bind].
  assert (Hstrip := first_line_strip t ltac:(pose proof (sublist_length _ _ Ht); lia)).
  destruct (deref t 0) as [c|]; [|discriminate]. cbn [mbind option_bind] in *.
  rewrite Hstrip. cbn [mbind option_bind].
  apply strip_lines_one_line; [|lia|lia].
  apply (one_line_sublist _ t); [apply drop_leading_whitespace_sublist | exact Hlt].
Qed.

End SingleLine.

(** Witness of [code_string_single_line]. *)
Lemma code_string_single_line_witness :
  code_string blank (chars "  int x;  ")
  = Some (drop_leading_whitespace blank
            (trim_trailing_spec blank (chars "  int x;  "))).
Proof.
  apply (code_string_single_line blank eq_refl (chars "  int x;  "));
    [reflexivity | vm_compute; discriminate].
Defined.
(** * The parser comes to an end *)

Section FinishRules.

Context {S : Type}.

Lemma finishes_ret {A} (a : A) (s : S) (Q : A -> S -> Prop) :
  Q a s -> finishes (ret a) s Q.
Proof. intros H. exact H. Qed.

Lemma finishes_throw {A} (msg : string) (s : S) (Q : A -> S -> Prop) :
  finishes (throw msg) s Q.
Proof. exact I. Qed.

Lemma finishes_undefined {A} (s : S) (Q : A -> S -> Prop) :
  finishes undefined s Q.
Proof. exact I. Qed.

Lemma finishes_bind {A B} (m : ST S A) (k : A -> ST S B) (s : S)
    (Q : B -> S -> Prop) :
  finishes m s (fun a s1 => finishes (k a) s1 Q) -> finishes (bind m k) s Q.
Proof.
  unfold finishes, bind. destruct (m s) as [[a s1]| | |]; intros H; exact H.
Qed.

Lemma finishes_weaken {A} (m : ST S A) (s : S) (Q Q' : A -> S -> Prop) :
  finishes m s Q -> (forall a s', Q a s' -> Q' a s') -> finishes m s Q'.
Proof.
  unfold finishes. destruct (m s) as [[a s1]| | |]; intros H HQ;
    [now apply HQ | exact I | exact I | exact H].
Qed.

Lemma finishes_lift_option {A} (o : option A) (s : S) (Q : A -> S -> Prop) :
  (forall a, Q a s) -> finishes (lift (of_option o)) s Q.
Proof. intros H. unfold finishes, lift. destruct o; [apply H | exact I]. Qed.

Lemma finishes_not_timeout {A} (m : ST S A) (s : S) (Q : A -> S -> Prop) :
  finishes m s Q -> m s <> Timeout.
Proof. unfold finishes. intros H E. now rewrite E in H. Qed.

End FinishRules.

Lemma expr_not_eof (t : Token) :
  peek_is_expr t = true -> tok_is t TOKEN_EOF = false.
Proof.
  unfold peek_is_expr, peek_is_string, peek_is_call, peek_is_intrinsic, tok_is.
  destruct (type t); vm_compute; intros H; first [discriminate H | reflexivity].
Qed.

Lemma stmt_not_eof (t : Token) :
  peek_is_stmt t = true -> tok_is t TOKEN_EOF = false.
Proof.
  unfold peek_is_stmt, peek_is_expr, peek_is_string, peek_is_call,
    peek_is_intrinsic, tok_is.
  destruct (type t); vm_compute; intros H; first [discriminate H | reflexivity].
Qed.

Lemma call_not_eof (t : Token) :
  peek_is_call t = true -> tok_is t TOKEN_EOF = false.
Proof.
  unfold peek_is_call, peek_is_intrinsic, tok_is.
  destruct (type t); vm_compute; intros H; first [discriminate H | reflexivity].
Qed.

Lemma string_not_eof (t : Token) :
  peek_is_string t = true -> tok_is t TOKEN_EOF = false.
Proof.
  unfold peek_is_string, tok_is.
  destruct (type t); vm_compute; intros H; first [discriminate H | reflexivity].
Qed.

(** The six openers of a string. *)
Lemma string_openers (t : Token) :
  peek_is_string t = true ->
  tok_is t TOKEN_HEX = true \/ tok_is t TOKEN_BIN = true
  \/ tok_is t TOKEN_SMART = true \/ tok_is t TOKEN_EXCLAIM = true
  \/ tok_is t TOKEN_QUOTE || tok_is t TOKEN_DOUBLEQUOTE = true.
Proof.
  unfold peek_is_string, tok_is.
  destruct (type t); vm_compute; intros H; try discriminate H; tauto.
Qed.

Section Total.

Variable Lexer : Type.
Variable next_token : mode -> Lexer -> outcome (Token * Lexer).
Variable is_whitespace : ascii -> bool.
Variable NODE_EMPTY : wpp.node_t.

(** What is left of the input. *)
Variable size : Lexer -> nat.

(** The lexer returns or fails; a token takes nothing back, and a token
    other than the end of the input takes some of it; where the string
    mode finds the end of the input, so does the normal mode. *)
Hypothesis lexer_returns : forall md lex, next_token md lex <> Timeout.
Hypothesis lexer_shrinks :
  forall md lex t lex', next_token md lex = Ok (t, lex') -> size lex' <= size lex.
Hypothesis lexer_consumes :
  forall md lex t lex',
    next_token md lex = Ok (t, lex') -> tok_is t TOKEN_EOF = false ->
    size lex' < size lex.
Hypothesis lexer_end :
  forall lex t lex' t' lex'',
    next_token string_mode lex = Ok (t, lex') -> tok_is t TOKEN_EOF = true ->
    next_token normal lex = Ok (t', lex'') -> tok_is t' TOKEN_EOF = true.

Lemma finishes_lpeek (md : mode) (lex : Lexer) (Q : Token -> Lexer -> Prop) :
  (forall t lex', next_token md lex = Ok (t, lex') -> Q t lex) ->
  finishes (wpp.lpeek Lexer next_token md) lex Q.
Proof.
  intros H. unfold finishes, wpp.lpeek. pose proof (lexer_returns md lex).
  destruct (next_token md lex) as [[t lex']| | |]; [now apply (H t lex') | exact I | exact I | congruence].
Qed.

Lemma finishes_ladvance (md : mode) (lex : Lexer) (Q : Token -> Lexer -> Prop) :
  (forall t lex',
     next_token md lex = Ok (t, lex') -> size lex' <= size lex ->
     (tok_is t TOKEN_EOF = false -> size lex' < size lex) -> Q t lex') ->
  finishes (wpp.ladvance Lexer next_token md) lex Q.
Proof.
  intros H. unfold finishes, wpp.ladvance. pose proof (lexer_returns md lex).
  destruct (next_token md lex) as [[t lex']| | |] eqn:E;
    [ | exact I | exact I | congruence].
  apply H; [reflexivity | exact (lexer_shrinks _ _ _ _ E) | exact (lexer_consumes _ _ _ _ E)].
Qed.

Lemma finishes_on_lexer {A} (m : ST Lexer A) (lex : Lexer) (tree : wpp.AST)
    (Q : A -> Lexer * wpp.AST -> Prop) :
  finishes m lex (fun a lex' => Q a (lex', tree)) ->
  finishes (wpp.on_lexer Lexer m) (lex, tree) Q.
Proof.
  unfold finishes, wpp.on_lexer. cbn [fst snd].
  destruct (m lex) as [[a lex']| | |]; intros H; exact H.
Qed.

Lemma finishes_peek (md : mode) (lex : Lexer) (tree : wpp.AST)
    (Q : Token -> Lexer * wpp.AST -> Prop) :
  (forall t lex', next_token md lex = Ok (t, lex') -> Q t (lex, tree)) ->
  finishes (wpp.peek Lexer next_token md) (lex, tree) Q.
Proof. intros H. apply finishes_on_lexer, finishes_lpeek. exact H. Qed.

Lemma finishes_advance (md : mode) (lex : Lexer) (tree : wpp.AST)
    (Q : Token -> Lexer * wpp.AST -> Prop) :
  (forall t lex',
     next_token md lex = Ok (t, lex') -> size lex' <= size lex ->
     (tok_is t TOKEN_EOF = false -> size lex' < size lex) -> Q t (lex', tree)) ->
  finishes (wpp.advance Lexer next_token md) (lex, tree) Q.
Proof. intros H. apply finishes_on_lexer, finishes_ladvance. exact H. Qed.

Lemma finishes_add (n : wpp.node) (lex : Lexer) (tree : wpp.AST)
    (Q : wpp.node_t -> Lexer * wpp.AST -> Prop) :
  Q (length tree) (lex, tree ++ [n]) ->
  finishes (wpp.add Lexer n) (lex, tree) Q.
Proof. intros H. exact H. Qed.

Lemma finishes_modify (i : wpp.node_t) (f : wpp.node -> option wpp.node)
    (lex : Lexer) (tree : wpp.AST) (Q : unit -> Lexer * wpp.AST -> Prop) :
  (forall tree', Q tt (lex, tree')) ->
  finishes (wpp.modify Lexer i f) (lex, tree) Q.
Proof.
  intros H. unfold finishes, wpp.modify. cbn [fst snd].
  destruct (tree !! i) as [n|]; [|exact I].
  destruct (f n); [apply H | exact I].
Qed.

(** Facts on tokens, as the tests of the parser leave them. *)
Ltac token_facts :=
  repeat match goal with
  | H : negb _ = true |- _ => apply negb_true_iff in H
  | H : negb _ = false |- _ => apply negb_false_iff in H
  | H : next_token ?md ?lex = Ok _, H' : next_token ?md ?lex = Ok _ |- _ =>
      rewrite H in H'; injection H' as <- <-
  end.

Ltac not_eof :=
  first
    [ assumption
    | match goal with
      | H : tok_is ?t ?ty = true |- tok_is ?t TOKEN_EOF = false =>
          apply (tok_is_other t ty TOKEN_EOF H); discriminate
      | H : peek_is_expr ?t = true |- tok_is ?t TOKEN_EOF = false =>
          exact (expr_not_eof t H)
      | H : peek_is_stmt ?t = true |- tok_is ?t TOKEN_EOF = false =>
          exact (stmt_not_eof t H)
      | H : peek_is_call ?t = true |- tok_is ?t TOKEN_EOF = false =>
          exact (call_not_eof t H)
      | H : peek_is_string ?t = true |- tok_is ?t TOKEN_EOF = false =>
          exact (string_not_eof t H)
      end ].

(** The sizes the tokens read so far give. *)
Ltac sizes :=
  token_facts;
  repeat match goal with
  | H : tok_is ?t TOKEN_EOF = false -> _ |- _ =>
      first [ specialize (H ltac:(not_eof)) | clear H ]
  end;
  unfold consumes, shrinks in *; cbn [fst snd] in *; try lia.

Ltac finishes_step :=
  match goal with
  | |- finishes (bind _ _) _ _ => apply finishes_bind
  | |- finishes (ret _) _ _ => apply finishes_ret
  | |- finishes (throw _) _ _ => exact I
  | |- finishes undefined _ _ => exact I
  | |- finishes (wpp.lpeek _ _ _) _ _ =>
      apply finishes_lpeek; intros ? ? ?
  | |- finishes (wpp.ladvance _ _ _) _ _ =>
      apply finishes_ladvance; intros ? ? ? ? ?
  | |- finishes (wpp.peek _ _ _) (_, _) _ =>
      apply finishes_peek; intros ? ? ?
  | |- finishes (wpp.advance _ _ _) (_, _) _ =>
      apply finishes_advance; intros ? ? ? ? ?
  | |- finishes (wpp.add _ _) (_, _) _ => apply finishes_add
  | |- finishes (wpp.modify _ _ _) (_, _) _ =>
      apply finishes_modify; intros ?
  | |- finishes (lift (of_option _)) _ _ =>
      apply finishes_lift_option; intros ?
  | |- finishes (if ?b then _ else _) _ _ => destruct b eqn:?
  end.

Ltac finishes_steps := repeat (finishes_step; token_facts).

Lemma normal_loop_finishes (fuel : nat) (delim : Token) (str : cstring)
    (lex : Lexer) :
  size lex < fuel ->
  finishes (wpp.normal_loop Lexer next_token fuel delim str) lex
    (fun _ lex' => size lex' <= size lex).
Proof.
  revert str lex. induction fuel as [|fuel IH]; intros str lex Hfuel; [lia|].
  cbn [wpp.normal_loop]. finishes_steps; [|lia].
  eapply finishes_weaken; [apply IH; sizes|].
  cbv beta. intros; sizes.
Qed.

Lemma smart_loop_finishes (fuel : nat) (ty d : ascii) (quote : Token)
    (str : cstring) (lex : Lexer) :
  size lex < fuel ->
  finishes (wpp.smart_loop Lexer next_token fuel ty d quote str) lex
    (fun _ lex' => size lex' <= size lex).
Proof.
  revert str lex. induction fuel as [|fuel IH]; intros str lex Hfuel; [lia|].
  cbn [wpp.smart_loop]. finishes_steps; try (sizes; fail).
  - eapply finishes_weaken; [apply IH; sizes|]. cbv beta. intros; sizes.
  - eapply finishes_weaken; [apply IH; sizes|]. cbv beta. intros; sizes.
Qed.

Lemma normal_string_finishes (fuel : nat) (str : cstring) (lex : Lexer)
    (t : Token) (lex1 : Lexer) :
  next_token normal lex = Ok (t, lex1) -> tok_is t TOKEN_EOF = false ->
  size lex < fuel ->
  finishes (wpp.normal_string Lexer next_token fuel str) lex
    (fun _ lex' => size lex' < size lex).
Proof.
  intros Ht Hne Hfuel. unfold wpp.normal_string. finishes_steps.
  assert (Hd : tok_is t0 TOKEN_EOF = false).
  { destruct (tok_is t0 TOKEN_EOF) eqn:E; [|reflexivity].
    rewrite (lexer_end _ _ _ _ _ H E Ht) in Hne. discriminate. }
  eapply finishes_weaken; [apply normal_loop_finishes; sizes|].
  cbv beta. intros. finishes_steps. sizes.
Qed.

Lemma smart_string_finishes (fuel : nat) (str : cstring) (lex : Lexer)
    (t : Token) (lex1 : Lexer) :
  next_token normal lex = Ok (t, lex1) -> tok_is t TOKEN_EOF = false ->
  size lex < fuel ->
  finishes (wpp.smart_string Lexer next_token is_whitespace fuel str) lex
    (fun _ lex' => size lex' < size lex).
Proof.
  intros Ht Hne Hfuel. unfold wpp.smart_string. finishes_steps.
  destruct (view t) as [|str_type [|delim more]]; [exact I | exact I |].
  finishes_steps.
  eapply finishes_weaken; [apply smart_loop_finishes; sizes|].
  cbv beta. intros. unfold wpp.raw_string. finishes_steps; sizes.
Qed.

Lemma stringify_string_finishes (str : cstring) (lex : Lexer)
    (t : Token) (lex1 : Lexer) :
  next_token normal lex = Ok (t, lex1) -> tok_is t TOKEN_EOF = false ->
  finishes (wpp.stringify_string Lexer next_token str) lex
    (fun _ lex' => size lex' < size lex).
Proof.
  intros Ht Hne. unfold wpp.stringify_string. finishes_steps. sizes.
Qed.

Lemma string_finishes (fuel : nat) (lex : Lexer) (tree : wpp.AST)
    (t : Token) (lex1 : Lexer) :
  next_token normal lex = Ok (t, lex1) -> peek_is_string t = true ->
  size lex < fuel ->
  finishes (wpp.string Lexer next_token is_whitespace fuel) (lex, tree)
    (consumes size lex).
Proof.
  intros Ht Hstr Hfuel. pose proof (string_not_eof t Hstr) as Hne.
  unfold wpp.string. finishes_steps.
  - sizes.
  - sizes.
  - apply finishes_on_lexer.
    eapply finishes_weaken; [now apply (smart_string_finishes _ _ _ t lex1)|].
    cbv beta. intros. finishes_steps. sizes.
  - apply finishes_on_lexer.
    eapply finishes_weaken; [now apply (stringify_string_finishes _ _ t lex1)|].
    cbv beta. intros. finishes_steps. sizes.
  - apply finishes_on_lexer.
    eapply finishes_weaken; [now apply (normal_string_finishes _ _ _ t lex1)|].
    cbv beta. intros. finishes_steps. sizes.
  - destruct (string_openers t Hstr) as [H1|[H1|[H1|[H1|H1]]]]; congruence.
Qed.

Lemma let_params_finishes (fuel : nat) (node : wpp.node_t) (lex : Lexer)
    (tree : wpp.AST) :
  size lex < fuel ->
  finishes (wpp.let_params Lexer next_token fuel node) (lex, tree)
    (shrinks size lex).
Proof.
  revert lex tree. induction fuel as [|fuel IH]; intros lex tree Hfuel; [lia|].
  cbn [wpp.let_params]. finishes_steps; try (sizes; fail).
  - eapply finishes_weaken; [apply IH; sizes|]. intros ? [? ?] ?. sizes.
  - eapply finishes_weaken; [apply IH; sizes|]. intros ? [? ?] ?. sizes.
Qed.

Lemma let_parameter_list_finishes (fuel : nat) (node : wpp.node_t)
    (lex : Lexer) (tree : wpp.AST) :
  size lex < fuel ->
  finishes (wpp.let_parameter_list Lexer next_token fuel node) (lex, tree)
    (shrinks size lex).
Proof.
  intros Hfuel. unfold wpp.let_parameter_list. finishes_steps; try (sizes; fail).
  eapply finishes_weaken; [apply let_params_finishes; sizes|].
  intros ? [? ?] ?. finishes_steps; sizes.
Qed.

Let expression := wpp.expression Lexer next_token is_whitespace NODE_EMPTY.
Let let_ := wpp.let_ Lexer next_token is_whitespace NODE_EMPTY.
Let var := wpp.var Lexer next_token is_whitespace NODE_EMPTY.
Let codeify := wpp.codeify Lexer next_token is_whitespace NODE_EMPTY.
Let drop := wpp.drop Lexer next_token is_whitespace NODE_EMPTY.
Let fninvoke_args := wpp.fninvoke_args Lexer next_token is_whitespace NODE_EMPTY.
Let fninvoke := wpp.fninvoke Lexer next_token is_whitespace NODE_EMPTY.
Let prefix_stmts := wpp.prefix_stmts Lexer next_token is_whitespace NODE_EMPTY.
Let prefix := wpp.prefix Lexer next_token is_whitespace NODE_EMPTY.
Let block_stmts := wpp.block_stmts Lexer next_token is_whitespace NODE_EMPTY.
Let block := wpp.block Lexer next_token is_whitespace NODE_EMPTY.
Let map_arms := wpp.map_arms Lexer next_token is_whitespace NODE_EMPTY.
Let map := wpp.map Lexer next_token is_whitespace NODE_EMPTY.
Let statement := wpp.statement Lexer next_token is_whitespace NODE_EMPTY.

(** A call on a token that is there, and a call on any input. *)
Local Abbreviation on_token m c f post :=
  (forall lex tree t lex1,
     next_token normal lex = Ok (t, lex1) -> tok_is t TOKEN_EOF = false ->
     4 * size lex + c <= f -> finishes (m f%nat) (lex, tree) (post lex)).
Local Abbreviation on_input m c f post :=
  (forall lex tree,
     4 * size lex + c <= f -> finishes (m f%nat) (lex, tree) (post lex)).
Local Abbreviation on_node m c f post :=
  (forall node lex tree,
     4 * size lex + c <= f -> finishes (m f%nat node) (lex, tree) (post lex)).

Ltac post_facts :=
  repeat match goal with
  | H : progresses _ _ _ _ _ |- _ => destruct H as [? ?]
  | H : forall t l, next_token normal ?lex = Ok (t, l) -> _,
    Ht : next_token normal ?lex = Ok _ |- _ => specialize (H _ _ Ht)
  end.

Ltac bounds := cbn [fst snd] in *; post_facts; sizes.

Ltac call H :=
  eapply finishes_weaken;
  [ first [ apply H; solve [bounds]
          | eapply H; [eassumption | solve [not_eof] | solve [bounds]] ]
  | intros ? [? ?] ? ].

Ltac parse IHs :=
  repeat first
    [ finishes_step; token_facts
    | match goal with
      | |- finishes (wpp.string _ _ _ _) _ _ =>
          eapply finishes_weaken;
          [ eapply string_finishes; [eassumption | assumption | solve [bounds]]
          | intros ? [? ?] ? ]
      | |- finishes (wpp.let_parameter_list _ _ _ _) _ _ =>
          eapply finishes_weaken;
          [ apply let_parameter_list_finishes; solve [bounds]
          | intros ? [? ?] ? ]
      end
    | IHs ].

(** Every parsing function comes to an end within its steps when these
    are four times the size of the input and a few more; the loops leave
    no more input than they found, the others take some of it. *)
Lemma parser_finishes (f : nat) :
  on_input expression 2 f (consumes size)
  /\ on_token let_ 1 f (consumes size)
  /\ on_token var 1 f (consumes size)
  /\ on_token codeify 1 f (consumes size)
  /\ on_token drop 1 f (consumes size)
  /\ on_node fninvoke_args 3 f (shrinks size)
  /\ on_input fninvoke 1 f (progresses next_token size)
  /\ on_node prefix_stmts 4 f (shrinks size)
  /\ on_token prefix 1 f (consumes size)
  /\ on_node block_stmts 4 f (shrinks size)
  /\ on_token block 1 f (consumes size)
  /\ on_node map_arms 3 f (shrinks size)
  /\ on_token map 1 f (consumes size)
  /\ on_input statement 3 f (consumes size).
Proof.
  subst expression let_ var codeify drop fninvoke_args fninvoke prefix_stmts
    prefix block_stmts block map_arms map statement.
  induction f as [|f IH].
  - repeat apply conj; intros; lia.
  - destruct IH
      as (H1 & H2 & H3 & H4 & H5 & H6 & H7 & H8 & H9 & H10 & H11 & H12 & H13 & H14).
    cbn [wpp.expression wpp.let_ wpp.var wpp.codeify wpp.drop
         wpp.fninvoke_args wpp.fninvoke wpp.prefix_stmts wpp.prefix
         wpp.block_stmts wpp.block wpp.map_arms wpp.map wpp.statement].
    repeat apply conj; intros;
      parse ltac:(first [ call H1 | call H2 | call H3 | call H4 | call H5
                        | call H6 | call H7 | call H8 | call H9 | call H10
                        | call H11 | call H12 | call H13 | call H14 ]);
      try solve [bounds].
    all: split; [solve [bounds] | intros ? ? ? ?; solve [bounds]].
Qed.

Lemma document_stmts_finishes (f : nat) (node : wpp.node_t) (lex : Lexer)
    (tree : wpp.AST) :
  4 * size lex + 4 <= f ->
  finishes (wpp.document_stmts Lexer next_token is_whitespace NODE_EMPTY f node)
    (lex, tree) (fun _ _ => True).
Proof.
  revert lex tree. induction f as [|f IH]; intros lex tree Hf; [lia|].
  cbn [wpp.document_stmts]. finishes_steps; [|exact I].
  eapply finishes_weaken;
    [apply (proj2 (proj2 (proj2 (proj2 (proj2 (proj2 (proj2 (proj2 (proj2
       (proj2 (proj2 (proj2 (proj2 (parser_finishes f))))))))))))));
     lia|].
  intros ? [? ?] ?. finishes_steps.
  eapply finishes_weaken; [apply IH; bounds | trivial].
Qed.

Lemma document_stmts_steps (n m : nat) (node : wpp.node_t) :
  n <= m ->
  more_steps
    (wpp.document_stmts Lexer next_token is_whitespace NODE_EMPTY n node)
    (wpp.document_stmts Lexer next_token is_whitespace NODE_EMPTY m node).
Proof.
  revert m. induction n as [|n IH]; intros m Hle; [apply more_steps_timeout|].
  destruct m as [|m]; [lia|]. cbn [wpp.document_stmts].
  pose proof (statement_steps Lexer next_token is_whitespace NODE_EMPTY n m
                ltac:(lia)).
  more_steps_auto. apply IH. lia.
Qed.

(** X8: parsing a document comes to an end.  On a lexer that returns,
    whose tokens take nothing back and take some of the input unless
    they are its end, the outcome of [document] is the same for every
    number of steps from four times the size of the input and four on,
    and it is not that of running out of steps: the parser returns a
    tree, throws, or is undefined. *)
Theorem document_terminates (lex : Lexer) (tree : wpp.AST) :
  exists r,
    r <> Timeout
    /\ forall fuel, 4 * size lex + 4 <= fuel ->
         wpp.document Lexer next_token is_whitespace NODE_EMPTY fuel (lex, tree)
         = r.
Proof.
  exists (wpp.document Lexer next_token is_whitespace NODE_EMPTY
            (4 * size lex + 4) (lex, tree)).
  assert (H : wpp.document Lexer next_token is_whitespace NODE_EMPTY
                (4 * size lex + 4) (lex, tree) <> Timeout).
  { apply (finishes_not_timeout _ _ (fun _ _ => True)).
    unfold wpp.document. finishes_steps.
    eapply finishes_weaken; [apply document_stmts_finishes; cbn [fst]; lia|].
    intros ? [? ?] _. finishes_steps. exact I. }
  split; [exact H|]. intros fuel Hfuel.
  assert (M : more_steps
                (wpp.document Lexer next_token is_whitespace NODE_EMPTY
                   (4 * size lex + 4))
                (wpp.document Lexer next_token is_whitespace NODE_EMPTY fuel)).
  { unfold wpp.document.
    pose proof (fun node => document_stmts_steps _ fuel node Hfuel).
    more_steps_auto. }
  now apply M.
Qed.

End Total.

Lemma stream_lexer_returns (md : mode) (toks : list Token) :
  stream_lexer md toks <> Timeout.
Proof. destruct toks; discriminate. Qed.

Lemma stream_lexer_shrinks (md : mode) (toks : list Token) (t : Token)
    (toks' : list Token) :
  stream_lexer md toks = Ok (t, toks') -> length toks' <= length toks.
Proof. destruct toks; intros [= <- <-]; cbn; lia. Qed.

Lemma stream_lexer_consumes (md : mode) (toks : list Token) (t : Token)
    (toks' : list Token) :
  stream_lexer md toks = Ok (t, toks') -> tok_is t TOKEN_EOF = false ->
  length toks' < length toks.
Proof. destruct toks; intros [= <- <-]; [discriminate | cbn; lia]. Qed.

Lemma stream_lexer_end (toks : list Token) (t : Token) (toks' : list Token)
    (t' : Token) (toks'' : list Token) :
  stream_lexer string_mode toks = Ok (t, toks') -> tok_is t TOKEN_EOF = true ->
  stream_lexer normal toks = Ok (t', toks'') -> tok_is t' TOKEN_EOF = true.
Proof. destruct toks; intros [= <- <-] H [= <- <-]; exact H. Qed.

(** Witness of [document_terminates]: on a list of tokens, measured by
    its length; here [var x] with nothing after it. *)
Lemma document_terminates_witness :
  exists r,
    r <> Timeout
    /\ forall fuel, 4 * 2 + 4 <= fuel ->
         wpp.document (list Token) stream_lexer blank 999 fuel
           ([tok TOKEN_VAR "var"; ident "x"], [])
         = r.
Proof.
  apply (document_terminates (list Token) stream_lexer blank 999 (@length Token)
           stream_lexer_returns stream_lexer_shrinks stream_lexer_consumes
           stream_lexer_end [tok TOKEN_VAR "var"; ident "x"] []).
Defined.
(** * The nodes of the statements and of the expressions *)

Lemma tok_is_type (t : Token) (ty : token_type) :
  type t = ty -> tok_is t ty = true.
Proof. intros H. unfold tok_is. now apply bool_decide_eq_true. Qed.

Lemma tok_is_not (t : Token) (ty ty' : token_type) :
  type t = ty -> ty <> ty' -> tok_is t ty' = false.
Proof. intros H. apply tok_is_other. now apply tok_is_type. Qed.

Section Nodes.

Variable Lexer : Type.
Variable next_token : mode -> Lexer -> outcome (Token * Lexer).
Variable is_whitespace : ascii -> bool.
Variable NODE_EMPTY : wpp.node_t.

Let peek := wpp.peek Lexer next_token.
Let advance := wpp.advance Lexer next_token.
Let expression := wpp.expression Lexer next_token is_whitespace NODE_EMPTY.
Let statement := wpp.statement Lexer next_token is_whitespace NODE_EMPTY.
Let fninvoke := wpp.fninvoke Lexer next_token is_whitespace NODE_EMPTY.

Lemma peek_at (md : mode) (lex : Lexer) (tree : wpp.AST) (t : Token)
    (lex' : Lexer) :
  next_token md lex = Ok (t, lex') -> peek md (lex, tree) = Ok (t, (lex, tree)).
Proof.
  intros H. subst peek. unfold wpp.peek, wpp.on_lexer, wpp.lpeek. cbn [fst snd].
  now rewrite H.
Qed.

Lemma advance_at (md : mode) (lex : Lexer) (tree : wpp.AST) (t : Token)
    (lex' : Lexer) :
  next_token md lex = Ok (t, lex') ->
  advance md (lex, tree) = Ok (t, (lex', tree)).
Proof.
  intros H. subst advance. unfold wpp.advance, wpp.on_lexer, wpp.ladvance.
  cbn [fst snd]. now rewrite H.
Qed.

Lemma bind_add {B} (n : wpp.node) (k : wpp.node_t -> wpp.P Lexer B)
    (lex : Lexer) (tree : wpp.AST) :
  bind (wpp.add Lexer n) k (lex, tree) = k (length tree) (lex, tree ++ [n]).
Proof. reflexivity. Qed.

(** A parsing function leaves the node made just before it was called
    as it is. *)
Lemma kept_node {A} (m : wpp.P Lexer A) (lex : Lexer) (tree : wpp.AST)
    (n : wpp.node) (a : A) (lex' : Lexer) (tree' : wpp.AST) :
  (forall L, wpp.frame Lexer L m) ->
  m (lex, tree ++ [n]) = Ok (a, (lex', tree')) ->
  tree' !! length tree = Some n /\ length tree < length tree'.
Proof.
  intros Hm H.
  destruct (frame_lookup Lexer m (S (length tree)) _ _ _ (length tree) n
              (Hm _) H) as [H1 H2]; cbn [snd] in *.
  - lia.
  - rewrite length_app. cbn. lia.
  - apply list_lookup_middle. reflexivity.
  - rewrite length_app in H2. cbn in H2. split; [exact H1 | lia].
Qed.

Lemma insert_last (tree : wpp.AST) (n n' : wpp.node) :
  <[length tree := n']> (tree ++ [n]) = tree ++ [n'].
Proof.
  rewrite insert_app_r_alt by lia. now rewrite Nat.sub_diag.
Qed.

(** X9: a [var] statement.  When the token after [var] is not an
    identifier the statement is a parse error; when it is one and the
    expression after it is parsed, the statement is the [Var] node of
    that name and of that expression, made before the nodes of the
    expression. *)
Theorem var_statement (lex : Lexer) (tree : wpp.AST) (kw : Token)
    (lex1 : Lexer) (name : Token) (lex2 : Lexer) :
  next_token normal lex = Ok (kw, lex1) -> type kw = TOKEN_VAR ->
  next_token normal lex1 = Ok (name, lex2) ->
  (tok_is name TOKEN_IDENTIFIER = false ->
   forall fuel,
     statement (S (S fuel)) (lex, tree)
     = Throw "variable declaration does not have a name.")
  /\ (tok_is name TOKEN_IDENTIFIER = true ->
      forall fuel body lex3 tree3,
        expression fuel (lex2, tree ++ [wpp.Var (tok_str name) NODE_EMPTY])
        = Ok (body, (lex3, tree3)) ->
        statement (S (S fuel)) (lex, tree)
        = Ok (length tree,
              (lex3, <[length tree := wpp.Var (tok_str name) body]> tree3))).
Proof.
  intros Hkw Hty Hname.
  assert (Hstart : forall fuel,
            statement (S (S fuel)) (lex, tree)
            = (t <- peek normal;;
               if negb (tok_is t TOKEN_IDENTIFIER) then
                 throw "variable declaration does not have a name."
               else
                 id <- advance normal;;
                 wpp.modify Lexer (length tree) (fun n =>
                   match n with
                   | wpp.Var _ b => Some (wpp.Var (tok_str id) b)
                   | _ => None
                   end);;;
                 body <- expression fuel;;
                 wpp.modify Lexer (length tree) (fun n =>
                   match n with
                   | wpp.Var i _ => Some (wpp.Var i body)
                   | _ => None
                   end);;;
                 ret (length tree))
              (lex1, tree ++ [wpp.Var [] NODE_EMPTY])).
  { intros fuel. subst statement. cbn [wpp.statement wpp.var].
    rewrite (bind_ok _ _ _ _ _ (peek_at _ _ _ _ _ Hkw)).
    rewrite (tok_is_not kw _ TOKEN_LET Hty) by discriminate.
    rewrite (tok_is_type kw _ Hty). rewrite bind_add.
    rewrite (bind_ok _ _ _ _ _ (advance_at _ _ _ _ _ Hkw)). reflexivity. }
  split; intros Hid fuel.
  - rewrite Hstart, (bind_ok _ _ _ _ _ (peek_at _ _ _ _ _ Hname)), Hid.
    reflexivity.
  - intros body lex3 tree3 Hbody.
    rewrite Hstart, (bind_ok _ _ _ _ _ (peek_at _ _ _ _ _ Hname)), Hid.
    cbn [negb]. rewrite (bind_ok _ _ _ _ _ (advance_at _ _ _ _ _ Hname)).
    erewrite bind_ok
      by (eapply modify_run; [apply list_lookup_middle; reflexivity | reflexivity]).
    rewrite insert_last. rewrite (bind_ok _ _ _ _ _ Hbody).
    destruct (kept_node _ _ _ _ _ _ _ (expression_frame _ _ _ _ fuel) Hbody)
      as [Hnode _].
    erewrite bind_ok by (eapply modify_run; [exact Hnode | reflexivity]).
    reflexivity.
Qed.

(** X10: [= expression].  When the token after [=] does not start an
    expression, it is a parse error; otherwise, once the expression is
    parsed, it is the [Codeify] node of that expression. *)
Theorem codeify_expression (lex : Lexer) (tree : wpp.AST) (eq : Token)
    (lex1 : Lexer) (t : Token) (lex2 : Lexer) (fuel : nat) :
  next_token normal lex = Ok (eq, lex1) ->
  next_token normal lex1 = Ok (t, lex2) ->
  (peek_is_expr t = false ->
   wpp.codeify Lexer next_token is_whitespace NODE_EMPTY (S fuel) (lex, tree)
   = Throw "expecting an expression to follow =.")
  /\ (peek_is_expr t = true ->
      forall e lex3 tree3,
        expression fuel (lex1, tree ++ [wpp.Codeify NODE_EMPTY])
        = Ok (e, (lex3, tree3)) ->
        wpp.codeify Lexer next_token is_whitespace NODE_EMPTY (S fuel) (lex, tree)
        = Ok (length tree, (lex3, <[length tree := wpp.Codeify e]> tree3))).
Proof.
  intros Heq Ht. cbn [wpp.codeify].
  rewrite (bind_ok _ _ _ _ _ (advance_at _ _ _ _ _ Heq)).
  rewrite (bind_ok _ _ _ _ _ (peek_at _ _ _ _ _ Ht)).
  split; intros Hexpr; rewrite Hexpr; [reflexivity|].
  intros e lex3 tree3 He. cbn [negb]. rewrite bind_add.
  rewrite (bind_ok _ _ _ _ _ He).
  destruct (kept_node _ _ _ _ _ _ _ (expression_frame _ _ _ _ fuel) He)
    as [Hnode _].
  erewrite bind_ok by (eapply modify_run; [exact Hnode | reflexivity]).
  reflexivity.
Qed.

(** A name that no parenthesis follows is a call without arguments. *)
Lemma fninvoke_name (lex : Lexer) (tree : wpp.AST) (fn : Token)
    (lex1 : Lexer) (t : Token) (lex2 : Lexer) (fuel : nat) :
  next_token normal lex = Ok (fn, lex1) ->
  next_token normal lex1 = Ok (t, lex2) -> tok_is t TOKEN_LPAREN = false ->
  fninvoke (S fuel) (lex, tree)
  = Ok (length tree, (lex1, tree ++ [call_node fn []])).
Proof.
  intros Hfn Ht Hno. subst fninvoke. cbn [wpp.fninvoke]. rewrite bind_add.
  rewrite (bind_ok _ _ _ _ _ (advance_at _ _ _ _ _ Hfn)).
  rewrite (bind_ok _ _ _ _ _ (peek_at _ _ _ _ _ Ht)), Hno.
  unfold bind at 1. unfold ret at 1. unfold call_node.
  destruct (peek_is_intrinsic fn);
    (erewrite bind_ok
       by (eapply modify_run; [apply list_lookup_middle; reflexivity | reflexivity]));
    now rewrite insert_last.
Qed.

(** X11: a [drop] statement takes the token after [drop] for the name
    of a function, whatever token it is: when no parenthesis follows,
    the statement is a [Drop] node of a call, without arguments, of the
    text of that token. *)
Theorem drop_statement (lex : Lexer) (tree : wpp.AST) (kw : Token)
    (lex1 : Lexer) (fn : Token) (lex2 : Lexer) (t : Token) (lex3 : Lexer)
    (fuel : nat) :
  next_token normal lex = Ok (kw, lex1) -> type kw = TOKEN_DROP ->
  next_token normal lex1 = Ok (fn, lex2) ->
  next_token normal lex2 = Ok (t, lex3) -> tok_is t TOKEN_LPAREN = false ->
  statement (S (S (S fuel))) (lex, tree)
  = Ok (length tree,
        (lex2, tree ++ [wpp.Drop (S (length tree)); call_node fn []])).
Proof.
  intros Hkw Hty Hfn Ht Hno. subst statement. cbn [wpp.statement wpp.drop].
  rewrite (bind_ok _ _ _ _ _ (peek_at _ _ _ _ _ Hkw)).
  rewrite (tok_is_not kw _ TOKEN_LET Hty) by discriminate.
  rewrite (tok_is_not kw _ TOKEN_VAR Hty) by discriminate.
  rewrite (tok_is_type kw _ Hty).
  rewrite (bind_ok _ _ _ _ _ (advance_at _ _ _ _ _ Hkw)). rewrite bind_add.
  pose proof (fninvoke_name lex1 (tree ++ [wpp.Drop NODE_EMPTY]) fn lex2 t lex3
                fuel Hfn Ht Hno) as Hcall.
  subst fninvoke. rewrite (bind_ok _ _ _ _ _ Hcall).
  erewrite bind_ok
    by (eapply modify_run;
        [rewrite <- List.app_assoc; apply list_lookup_middle; reflexivity
        | reflexivity]).
  unfold ret. rewrite length_app. cbn [length]. rewrite Nat.add_1_r.
  rewrite <- List.app_assoc. cbn [app].
  rewrite insert_app_r_alt by lia. now rewrite Nat.sub_diag.
Qed.

Lemma reads_app (lex : Lexer) (toks toks' : list Token) (lex' : Lexer) :
  reads next_token lex (toks ++ toks') lex' ->
  exists lex1, reads next_token lex toks lex1 /\ reads next_token lex1 toks' lex'.
Proof.
  revert lex. induction toks as [|t toks IH]; intros lex H.
  - now exists lex.
  - destruct H as (l1 & Ht & H). destruct (IH _ H) as (l2 & H1 & H2).
    exists l2. split; [now exists l1 | exact H2].
Qed.

(** The parameter loop of [let] over names each followed by a comma. *)
Lemma let_params_commas (comma : Token) (init : list Token) :
  tok_is comma TOKEN_COMMA = true ->
  forallb (fun p => tok_is p TOKEN_IDENTIFIER) init = true ->
  forall fuel node lex lex' tree i ps b,
    reads next_token lex (flat_map (fun p => [p; comma]) init) lex' ->
    tree !! node = Some (wpp.Fn i ps b) ->
    wpp.let_params Lexer next_token (length init + fuel) node (lex, tree)
    = wpp.let_params Lexer next_token fuel node
        (lex', <[node := wpp.Fn i (ps ++ map tok_str init) b]> tree).
Proof.
  intros Hcomma. induction init as [|p init IH];
    intros Hinit fuel node lex lex' tree i ps b Hreads Hnode.
  - cbn in Hreads. subst lex'. cbn [map length Nat.add].
    now rewrite app_nil_r, list_insert_id.
  - cbn [forallb] in Hinit. apply andb_true_iff in Hinit as [Hp Hinit].
    cbn [flat_map app] in Hreads.
    destruct Hreads as (l1 & Hpt & l2 & Hct & Hreads).
    cbn [length Nat.add wpp.let_params map].
    rewrite (bind_ok _ _ _ _ _ (peek_at _ _ _ _ _ Hpt)), Hp.
    rewrite (bind_ok _ _ _ _ _ (advance_at _ _ _ _ _ Hpt)).
    erewrite bind_ok by (eapply modify_run; [exact Hnode | reflexivity]).
    rewrite (bind_ok _ _ _ _ _ (peek_at _ _ _ _ _ Hct)), Hcomma.
    rewrite (bind_ok _ _ _ _ _ (advance_at _ _ _ _ _ Hct)).
    rewrite (IH Hinit fuel node l2 lex' _ i (ps ++ [tok_str p]) b Hreads)
      by (apply list_lookup_insert_eq; now apply lookup_lt_Some in Hnode).
    now rewrite list_insert_insert_eq, <- List.app_assoc.
Qed.

(** The end of the parameter loop: a last name with no comma, or none,
    then the closing parenthesis, which the loop leaves. *)
Lemma let_params_last (rparen : Token) (last_part : list Token) :
  tok_is rparen TOKEN_RPAREN = true ->
  forallb (fun p => tok_is p TOKEN_IDENTIFIER) last_part = true ->
  length last_part <= 1 ->
  forall fuel node lex lex1 lex' tree i ps b,
    reads next_token lex last_part lex1 ->
    next_token normal lex1 = Ok (rparen, lex') ->
    tree !! node = Some (wpp.Fn i ps b) ->
    wpp.let_params Lexer next_token (S (S fuel)) node (lex, tree)
    = Ok (tt, (lex1, <[node := wpp.Fn i (ps ++ map tok_str last_part) b]> tree)).
Proof.
  intros Hrp Hlast Hlen fuel node lex lex1 lex' tree i ps b Hreads Hr Hnode.
  assert (Hnotid : tok_is rparen TOKEN_IDENTIFIER = false)
    by (apply (tok_is_other _ _ _ Hrp); discriminate).
  assert (Hnotcomma : tok_is rparen TOKEN_COMMA = false)
    by (apply (tok_is_other _ _ _ Hrp); discriminate).
  destruct last_part as [|p [|q more]]; [| |cbn in Hlen; lia].
  - cbn in Hreads. subst lex1. cbn [wpp.let_params map].
    rewrite (bind_ok _ _ _ _ _ (peek_at _ _ _ _ _ Hr)), Hnotid.
    now rewrite app_nil_r, list_insert_id.
  - cbn [forallb] in Hlast. apply andb_true_iff in Hlast as [Hp _].
    destruct Hreads as (l1 & Hpt & <-). cbn [wpp.let_params map].
    rewrite (bind_ok _ _ _ _ _ (peek_at _ _ _ _ _ Hpt)), Hp.
    rewrite (bind_ok _ _ _ _ _ (advance_at _ _ _ _ _ Hpt)).
    erewrite bind_ok by (eapply modify_run; [exact Hnode | reflexivity]).
    rewrite (bind_ok _ _ _ _ _ (peek_at _ _ _ _ _ Hr)), Hnotcomma, Hrp.
    cbn [negb].
    rewrite (bind_ok _ _ _ _ _ (peek_at _ _ _ _ _ Hr)), Hnotid. reflexivity.
Qed.

Lemma rparen_not_reserved (t : Token) :
  tok_is t TOKEN_RPAREN = true -> peek_is_reserved_name t = false.
Proof.
  unfold tok_is, peek_is_reserved_name, peek_is_intrinsic, peek_is_keyword.
  destruct (type t); vm_compute; intros H; first [discriminate H | reflexivity].
Qed.

(** [let] once its node is made and its name read. *)
Lemma let_enter (lex : Lexer) (tree : wpp.AST) (klet name : Token)
    (lexA : Lexer) (F : nat) :
  reads next_token lex [klet; name] lexA ->
  type klet = TOKEN_LET -> tok_is name TOKEN_IDENTIFIER = true ->
  statement (S (S F)) (lex, tree)
  = (wpp.let_parameter_list Lexer next_token F (length tree);;;
     body <- expression F;;
     wpp.modify Lexer (length tree) (fun n =>
       match n with
       | wpp.Fn i ps _ => Some (wpp.Fn i ps body)
       | _ => None
       end);;;
     ret (length tree))
    (lexA, tree ++ [wpp.Fn (tok_str name) [] NODE_EMPTY]).
Proof.
  intros (l1 & Hk & l2 & Hn & <-) Hty Hid.
  subst statement. cbn [wpp.statement wpp.let_].
  rewrite (bind_ok _ _ _ _ _ (peek_at _ _ _ _ _ Hk)).
  rewrite (tok_is_type klet _ Hty). rewrite bind_add.
  rewrite (bind_ok _ _ _ _ _ (advance_at _ _ _ _ _ Hk)).
  rewrite (bind_ok _ _ _ _ _ (peek_at _ _ _ _ _ Hn)), Hid. cbn [negb].
  rewrite (bind_ok _ _ _ _ _ (advance_at _ _ _ _ _ Hn)).
  erewrite bind_ok
    by (eapply modify_run; [apply list_lookup_middle; reflexivity | reflexivity]).
  now rewrite insert_last.
Qed.

(** [let] from the body on. *)
Lemma let_body (lexB : Lexer) (tree : wpp.AST) (name : cstring)
    (params : list cstring) (fuel F : nat) (body : wpp.node_t) (lex3 : Lexer)
    (tree3 : wpp.AST) :
  expression fuel (lexB, tree ++ [wpp.Fn name params NODE_EMPTY])
  = Ok (body, (lex3, tree3)) ->
  fuel <= F ->
  (body <- expression F;;
   wpp.modify Lexer (length tree) (fun n =>
     match n with
     | wpp.Fn i ps _ => Some (wpp.Fn i ps body)
     | _ => None
     end);;;
   ret (length tree)) (lexB, tree ++ [wpp.Fn name params NODE_EMPTY])
  = Ok (length tree, (lex3, <[length tree := wpp.Fn name params body]> tree3)).
Proof.
  intros Hbody HF.
  destruct (kept_node _ _ _ _ _ _ _ (expression_frame _ _ _ _ fuel) Hbody)
    as [Hnode _].
  rewrite (bind_ok _ _ _ _ _
             (steps_ok _ _ _ _ _ (expression_steps _ _ _ _ fuel F HF) Hbody)).
  erewrite bind_ok by (eapply modify_run; [exact Hnode | reflexivity]).
  reflexivity.
Qed.

(** X12: a [let] statement.  After [let] and the name come either the
    body at once, or, between parentheses, the names of the parameters
    with a comma after each, the comma after the last one being
    optional; once the body is parsed the statement is the [Fn] node of
    that name, of these parameters in their order and of that body. *)
Theorem let_statement (lex : Lexer) (tree : wpp.AST) (klet name : Token)
    (lexA : Lexer) :
  reads next_token lex [klet; name] lexA ->
  type klet = TOKEN_LET -> tok_is name TOKEN_IDENTIFIER = true ->
  (forall t lex' fuel body lex3 tree3 F,
     next_token normal lexA = Ok (t, lex') -> tok_is t TOKEN_LPAREN = false ->
     expression fuel (lexA, tree ++ [wpp.Fn (tok_str name) [] NODE_EMPTY])
     = Ok (body, (lex3, tree3)) ->
     fuel <= F ->
     statement (S (S F)) (lex, tree)
     = Ok (length tree,
           (lex3, <[length tree := wpp.Fn (tok_str name) [] body]> tree3)))
  /\ (forall lparen comma rparen init last_part lexB fuel body lex3 tree3 F,
        reads next_token lexA
          (lparen :: flat_map (fun p => [p; comma]) init
           ++ last_part ++ [rparen]) lexB ->
        tok_is lparen TOKEN_LPAREN = true ->
        tok_is comma TOKEN_COMMA = true ->
        tok_is rparen TOKEN_RPAREN = true ->
        forallb (fun p => tok_is p TOKEN_IDENTIFIER) (init ++ last_part) = true ->
        length last_part <= 1 ->
        expression fuel
          (lexB, tree ++ [wpp.Fn (tok_str name)
                            (map tok_str (init ++ last_part)) NODE_EMPTY])
        = Ok (body, (lex3, tree3)) ->
        fuel <= F -> length init + 1 < F ->
        statement (S (S F)) (lex, tree)
        = Ok (length tree,
              (lex3, <[length tree := wpp.Fn (tok_str name)
                                        (map tok_str (init ++ last_part)) body]>
                       tree3))).
Proof.
  intros Hreads Hty Hid. split.
  - intros t lex' fuel body lex3 tree3 F Ht Hno Hbody HF.
    rewrite (let_enter _ _ _ _ _ F Hreads Hty Hid).
    unfold wpp.let_parameter_list at 1.
    unfold bind at 1. unfold bind at 1.
    rewrite (peek_at _ _ _ _ _ Ht), Hno. unfold ret at 1.
    exact (let_body _ _ _ _ _ _ _ _ _ Hbody HF).
  - intros lparen comma rparen init last_part lexB fuel body lex3 tree3 F
      Hlist Hlp Hcomma Hrp Hids Hlen Hbody HF HF'.
    rewrite forallb_app in Hids. apply andb_true_iff in Hids as [Hinit Hlast].
    destruct Hlist as (l1 & Hl & Hlist).
    apply reads_app in Hlist as (l2 & Hcommas & Hlist).
    apply reads_app in Hlist as (l3 & Hlastr & l4 & Hr & <-).
    rewrite (let_enter _ _ _ _ _ F Hreads Hty Hid).
    unfold wpp.let_parameter_list at 1.
    unfold bind at 1. unfold bind at 1.
    rewrite (peek_at _ _ _ _ _ Hl), Hlp.
    unfold bind at 1. rewrite (advance_at _ _ _ _ _ Hl).
    unfold bind at 1.
    replace F with (length init + (S (S (F - length init - 2)))) at 1 by lia.
    rewrite (let_params_commas comma init Hcomma Hinit _ (length tree) l1 l2 _
               (tok_str name) [] NODE_EMPTY Hcommas)
      by (apply list_lookup_middle; reflexivity).
    rewrite insert_last. cbn [app].
    rewrite (let_params_last rparen last_part Hrp Hlast Hlen _ (length tree)
               l2 l3 l4 _ (tok_str name) (map tok_str init) NODE_EMPTY
               Hlastr Hr)
      by (apply list_lookup_middle; reflexivity).
    rewrite insert_last, <- map_app.
    unfold bind at 1. rewrite (peek_at _ _ _ _ _ Hr).
    rewrite (rparen_not_reserved _ Hrp).
    unfold bind at 1. rewrite (advance_at _ _ _ _ _ Hr), Hrp. cbn [negb].
    unfold ret at 1.
    exact (let_body _ _ _ _ _ _ _ _ _ Hbody HF).
Qed.

Lemma reserved_not_comma (kw : Token) :
  peek_is_reserved_name kw = true -> tok_is kw TOKEN_COMMA = false.
Proof.
  unfold peek_is_reserved_name, peek_is_intrinsic, peek_is_keyword, tok_is.
  destruct (type kw); cbn [orb]; intros H;
    first [discriminate H | vm_compute; reflexivity].
Qed.

(** [let] itself, entered by [statement] or not, once its node is made
    and its name read. *)
Lemma let_begin (lex : Lexer) (tree : wpp.AST) (klet name : Token)
    (lexA : Lexer) (F : nat) :
  reads next_token lex [klet; name] lexA ->
  tok_is name TOKEN_IDENTIFIER = true ->
  wpp.let_ Lexer next_token is_whitespace NODE_EMPTY (S F) (lex, tree)
  = (wpp.let_parameter_list Lexer next_token F (length tree);;;
     body <- expression F;;
     wpp.modify Lexer (length tree) (fun n =>
       match n with
       | wpp.Fn i ps _ => Some (wpp.Fn i ps body)
       | _ => None
       end);;;
     ret (length tree))
    (lexA, tree ++ [wpp.Fn (tok_str name) [] NODE_EMPTY]).
Proof.
  intros (l1 & Hk & l2 & Hn & <-) Hid.
  cbn [wpp.let_]. rewrite bind_add.
  rewrite (bind_ok _ _ _ _ _ (advance_at _ _ _ _ _ Hk)).
  rewrite (bind_ok _ _ _ _ _ (peek_at _ _ _ _ _ Hn)), Hid. cbn [negb].
  rewrite (bind_ok _ _ _ _ _ (advance_at _ _ _ _ _ Hn)).
  erewrite bind_ok
    by (eapply modify_run; [apply list_lookup_middle; reflexivity | reflexivity]).
  now rewrite insert_last.
Qed.

(** The parameter list of [let] from its opening parenthesis up to the
    last of the names that are each followed by a comma. *)
Lemma let_parameter_list_commas (lparen comma : Token) (init : list Token)
    (lexA lexB : Lexer) (tree : wpp.AST) (name : cstring) (F : nat) :
  reads next_token lexA (lparen :: flat_map (fun p => [p; comma]) init) lexB ->
  tok_is lparen TOKEN_LPAREN = true ->
  tok_is comma TOKEN_COMMA = true ->
  forallb (fun p => tok_is p TOKEN_IDENTIFIER) init = true ->
  wpp.let_parameter_list Lexer next_token (length init + F) (length tree)
    (lexA, tree ++ [wpp.Fn name [] NODE_EMPTY])
  = (wpp.let_params Lexer next_token F (length tree);;;
     t <- peek normal;;
     if peek_is_reserved_name t then
       t <- advance normal;;
       throw ("parameter name '" ++ string_of_list_ascii (tok_str t)
              ++ "' conflicts with keyword.")
     else
       t <- advance normal;;
       if negb (tok_is t TOKEN_RPAREN) then
         throw "expecting ')' to follow argument list."
       else ret tt)
    (lexB, tree ++ [wpp.Fn name (map tok_str init) NODE_EMPTY]).
Proof.
  intros (l1 & Hl & Hcommas) Hlp Hcomma Hinit.
  unfold wpp.let_parameter_list at 1.
  unfold bind at 1. rewrite (peek_at _ _ _ _ _ Hl), Hlp.
  unfold bind at 1. unfold bind at 1. rewrite (advance_at _ _ _ _ _ Hl).
  unfold bind at 1.
  rewrite (let_params_commas comma init Hcomma Hinit _ (length tree) l1 lexB _
             name [] NODE_EMPTY Hcommas)
    by (apply list_lookup_middle; reflexivity).
  rewrite insert_last. reflexivity.
Qed.

(** C8 (amended): a [let] with a reserved name in its parameter list,
    the tokens before it being names each followed by a comma and at
    most one name more, is a parse error and returns no [Fn] node.
    Where a parameter name is expected, that is first in the list or
    after a comma, the error says that the parameter name conflicts
    with a keyword; right after a parameter name, with no comma between
    them, the error is the one of the missing comma.  [statement], at a
    [let] token, is this parse. *)
Theorem let_keyword_parameter (lex : Lexer) (tree : wpp.AST)
    (klet name lparen comma kw : Token) (init : list Token)
    (lexB lex' : Lexer) (F : nat) :
  reads next_token lex
    (klet :: name :: lparen :: flat_map (fun p => [p; comma]) init) lexB ->
  tok_is name TOKEN_IDENTIFIER = true ->
  tok_is lparen TOKEN_LPAREN = true ->
  tok_is comma TOKEN_COMMA = true ->
  forallb (fun p => tok_is p TOKEN_IDENTIFIER) init = true ->
  peek_is_reserved_name kw = true ->
  length init < F ->
  (next_token normal lexB = Ok (kw, lex') ->
   wpp.let_ Lexer next_token is_whitespace NODE_EMPTY (S F) (lex, tree)
   = Throw ("parameter name '" ++ string_of_list_ascii (tok_str kw)
            ++ "' conflicts with keyword."))
  /\ (forall p lexC,
        next_token normal lexB = Ok (p, lexC) ->
        tok_is p TOKEN_IDENTIFIER = true ->
        next_token normal lexC = Ok (kw, lex') ->
        wpp.let_ Lexer next_token is_whitespace NODE_EMPTY (S F) (lex, tree)
        = Throw "expecting comma to follow parameter name.")
  /\ (type klet = TOKEN_LET ->
      statement (S (S F)) (lex, tree)
      = wpp.let_ Lexer next_token is_whitespace NODE_EMPTY (S F) (lex, tree)).
Proof.
  intros (l1 & Hk & l2 & Hn & Hlist) Hid Hlp Hcomma Hinit Hkw HF.
  assert (Hr2 : reads next_token lex [klet; name] l2)
    by (exists l1; split; [exact Hk|]; exists l2; split; [exact Hn | reflexivity]).
  pose proof (let_begin _ tree _ _ _ F Hr2 Hid) as Hbegin.
  unfold bind at 1 in Hbegin.
  replace F with (length init + S (F - length init - 1)) in Hbegin at 2 by lia.
  rewrite (let_parameter_list_commas lparen comma init l2 lexB tree _ _
             Hlist Hlp Hcomma Hinit) in Hbegin.
  cbn [wpp.let_params] in Hbegin.
  repeat apply conj.
  - intros Ht. rewrite Hbegin. unfold bind at 1.
    rewrite (bind_ok _ _ _ _ _ (peek_at _ _ _ _ _ Ht)).
    rewrite (reserved_not_identifier kw Hkw).
    unfold ret at 1. unfold bind at 1.
    rewrite (peek_at _ _ _ _ _ Ht), Hkw.
    unfold bind at 1. rewrite (advance_at _ _ _ _ _ Ht). reflexivity.
  - intros p lexC Hp Hpid Ht. rewrite Hbegin. unfold bind at 1.
    rewrite (bind_ok _ _ _ _ _ (peek_at _ _ _ _ _ Hp)), Hpid.
    rewrite (bind_ok _ _ _ _ _ (advance_at _ _ _ _ _ Hp)).
    erewrite bind_ok
      by (eapply modify_run; [apply list_lookup_middle; reflexivity | reflexivity]).
    rewrite (bind_ok _ _ _ _ _ (peek_at _ _ _ _ _ Ht)).
    rewrite (reserved_not_comma kw Hkw).
    destruct (tok_is kw TOKEN_RPAREN) eqn:Hr;
      [now rewrite (rparen_not_reserved kw Hr) in Hkw | reflexivity].
  - intros Hty. subst statement. cbn [wpp.statement].
    rewrite (bind_ok _ _ _ _ _ (peek_at _ _ _ _ _ Hk)).
    now rewrite (tok_is_type klet _ Hty).
Qed.

(** X13: what [let] rejects: a token after [let] that is not an
    identifier; right after a parameter name, a token that is neither a
    comma nor the closing parenthesis; where a parameter name is
    expected, that is right after the opening parenthesis or after the
    comma of a parameter, a token that is neither an identifier, nor a
    reserved name, nor the closing parenthesis. *)
Theorem let_rejects (lex : Lexer) (tree : wpp.AST) (klet : Token)
    (lex1 : Lexer) :
  next_token normal lex = Ok (klet, lex1) -> type klet = TOKEN_LET ->
  (forall name lex2 F,
     next_token normal lex1 = Ok (name, lex2) ->
     tok_is name TOKEN_IDENTIFIER = false ->
     statement (S (S F)) (lex, tree)
     = Throw "function declaration does not have a name.")
  /\ (forall name lparen comma init p t lexB lex' F,
        reads next_token lex1
          (name :: lparen :: flat_map (fun p => [p; comma]) init ++ [p]) lexB ->
        next_token normal lexB = Ok (t, lex') ->
        tok_is name TOKEN_IDENTIFIER = true ->
        tok_is lparen TOKEN_LPAREN = true ->
        tok_is comma TOKEN_COMMA = true ->
        forallb (fun p => tok_is p TOKEN_IDENTIFIER) (init ++ [p]) = true ->
        tok_is t TOKEN_COMMA = false -> tok_is t TOKEN_RPAREN = false ->
        length init < F ->
        statement (S (S F)) (lex, tree)
        = Throw "expecting comma to follow parameter name.")
  /\ (forall name lparen comma init t lexB lex' F,
        reads next_token lex1
          (name :: lparen :: flat_map (fun p => [p; comma]) init) lexB ->
        next_token normal lexB = Ok (t, lex') ->
        tok_is name TOKEN_IDENTIFIER = true ->
        tok_is lparen TOKEN_LPAREN = true ->
        tok_is comma TOKEN_COMMA = true ->
        forallb (fun p => tok_is p TOKEN_IDENTIFIER) init = true ->
        tok_is t TOKEN_IDENTIFIER = false ->
        peek_is_reserved_name t = false ->
        tok_is t TOKEN_RPAREN = false ->
        length init < F ->
        statement (S (S F)) (lex, tree)
        = Throw "expecting ')' to follow argument list.").
Proof.
  intros Hk Hty. repeat apply conj.
  - intros name lex2 F Hn Hid. subst statement. cbn [wpp.statement wpp.let_].
    rewrite (bind_ok _ _ _ _ _ (peek_at _ _ _ _ _ Hk)).
    rewrite (tok_is_type klet _ Hty). rewrite bind_add.
    rewrite (bind_ok _ _ _ _ _ (advance_at _ _ _ _ _ Hk)).
    rewrite (bind_ok _ _ _ _ _ (peek_at _ _ _ _ _ Hn)), Hid. reflexivity.
  - intros name lparen comma init p t lexB lex' F Hreads Ht Hid Hlp Hcomma
      Hids Hnc Hnr HF.
    rewrite forallb_app in Hids. apply andb_true_iff in Hids as [Hinit Hp].
    cbn [forallb] in Hp. rewrite andb_true_r in Hp.
    destruct Hreads as (l1 & Hn & l2 & Hl & Hreads).
    apply reads_app in Hreads as (l3 & Hcommas & l4 & Hpt & <-).
    assert (Hr2 : reads next_token lex [klet; name] l1)
      by (exists lex1; split; [exact Hk|]; exists l1; split; [exact Hn | reflexivity]).
    rewrite (let_enter _ _ _ _ _ F Hr2 Hty Hid).
    unfold wpp.let_parameter_list at 1.
    unfold bind at 1. unfold bind at 1.
    rewrite (peek_at _ _ _ _ _ Hl), Hlp.
    unfold bind at 1. rewrite (advance_at _ _ _ _ _ Hl).
    unfold bind at 1.
    replace F with (length init + (S (F - length init - 1))) at 1 by lia.
    rewrite (let_params_commas comma init Hcomma Hinit _ (length tree) l2 l3 _
               (tok_str name) [] NODE_EMPTY Hcommas)
      by (apply list_lookup_middle; reflexivity).
    rewrite insert_last. cbn [app wpp.let_params].
    rewrite (bind_ok _ _ _ _ _ (peek_at _ _ _ _ _ Hpt)), Hp.
    rewrite (bind_ok _ _ _ _ _ (advance_at _ _ _ _ _ Hpt)).
    erewrite bind_ok
      by (eapply modify_run; [apply list_lookup_middle; reflexivity | reflexivity]).
    rewrite (bind_ok _ _ _ _ _ (peek_at _ _ _ _ _ Ht)), Hnc, Hnr. reflexivity.
  - intros name lparen comma init t lexB lex' F Hreads Ht Hid Hlp Hcomma
      Hinit Hnid Hnres Hnr HF.
    destruct Hreads as (l1 & Hn & l2 & Hl & Hcommas).
    assert (Hr2 : reads next_token lex [klet; name] l1)
      by (exists lex1; split; [exact Hk|]; exists l1; split; [exact Hn | reflexivity]).
    rewrite (let_enter _ _ _ _ _ F Hr2 Hty Hid).
    unfold wpp.let_parameter_list at 1.
    unfold bind at 1. unfold bind at 1.
    rewrite (peek_at _ _ _ _ _ Hl), Hlp.
    unfold bind at 1. rewrite (advance_at _ _ _ _ _ Hl).
    unfold bind at 1.
    replace F with (length init + (S (F - length init - 1))) at 1 by lia.
    rewrite (let_params_commas comma init Hcomma Hinit _ (length tree) l2 lexB _
               (tok_str name) [] NODE_EMPTY Hcommas)
      by (apply list_lookup_middle; reflexivity).
    rewrite insert_last. cbn [app wpp.let_params].
    rewrite (bind_ok _ _ _ _ _ (peek_at _ _ _ _ _ Ht)), Hnid.
    unfold ret at 1. unfold bind at 1. rewrite (peek_at _ _ _ _ _ Ht), Hnres.
    unfold bind at 1. rewrite (advance_at _ _ _ _ _ Ht), Hnr. reflexivity.
Qed.

End Nodes.
(** * Calls *)

Lemma rparen_not_expr (t : Token) :
  tok_is t TOKEN_RPAREN = true -> peek_is_expr t = false.
Proof.
  unfold peek_is_expr, peek_is_string, peek_is_call, peek_is_intrinsic, tok_is.
  destruct (type t); vm_compute; intros H; first [discriminate H | reflexivity].
Qed.

Section Calls.

Variable Lexer : Type.
Variable next_token : mode -> Lexer -> outcome (Token * Lexer).
Variable is_whitespace : ascii -> bool.
Variable NODE_EMPTY : wpp.node_t.

Let peek := wpp.peek Lexer next_token.
Let advance := wpp.advance Lexer next_token.
Let expression := wpp.expression Lexer next_token is_whitespace NODE_EMPTY.
Let fninvoke_args := wpp.fninvoke_args Lexer next_token is_whitespace NODE_EMPTY.
Let fninvoke := wpp.fninvoke Lexer next_token is_whitespace NODE_EMPTY.
Local Abbreviation call_arguments :=
  (call_arguments Lexer next_token is_whitespace NODE_EMPTY).

Lemma fninvoke_args_steps (n m : nat) node :
  n <= m -> more_steps (fninvoke_args n node) (fninvoke_args m node).
Proof.
  intros Hle.
  apply (parser_steps Lexer next_token is_whitespace NODE_EMPTY n m Hle).
Qed.

Lemma push_argument_call (node arg : wpp.node_t) (tree : wpp.AST) i args :
  tree !! node = Some (wpp.FnInvoke i args) ->
  push_argument node arg tree = <[node := wpp.FnInvoke i (args ++ [arg])]> tree.
Proof. intros H. unfold push_argument. now rewrite H. Qed.

(** One argument: it is parsed, the call is still there and the
    argument is appended to it. *)
Lemma fninvoke_args_argument (f fuel : nat) node s t arg s1 i done :
  fuel <= f ->
  peek normal s = Ok (t, s) -> peek_is_expr t = true ->
  expression fuel s = Ok (arg, s1) ->
  node < length (snd s) ->
  snd s !! node = Some (wpp.FnInvoke i done) ->
  let tree2 := push_argument node arg (snd s1) in
  tree2 !! node = Some (wpp.FnInvoke i (done ++ [arg]))
  /\ node < length tree2
  /\ fninvoke_args (S f) node s
     = (t <- peek normal;;
        if tok_is t TOKEN_COMMA then advance normal;;; fninvoke_args f node
        else if negb (tok_is t TOKEN_RPAREN) then
          throw "expecting comma to follow parameter name."
        else fninvoke_args f node) (fst s1, tree2).
Proof.
  intros Hf Ht Hexpr Harg Hlen Hnode tree2.
  assert (Hframe : snd s1 !! node = Some (wpp.FnInvoke i done)
                    /\ length (snd s) <= length (snd s1)).
  { refine (frame_lookup _ _ (S node) _ _ _ _ _
              (expression_frame _ _ _ _ fuel _) Harg _ _ Hnode); lia. }
  destruct Hframe as [Hkeep Hlen1].
  assert (Hpush := push_argument_call node arg _ _ _ Hkeep).
  subst tree2. repeat split.
  - rewrite Hpush. apply list_lookup_insert_eq. lia.
  - rewrite Hpush, length_insert. lia.
  - subst fninvoke_args. cbn [wpp.fninvoke_args].
    rewrite (bind_ok _ _ _ _ _ Ht), Hexpr.
    rewrite (bind_ok _ _ _ _ _
               (steps_ok _ _ _ _ _ (expression_steps _ _ _ _ fuel f Hf) Harg)).
    destruct s1 as [l1 tree1]. cbn [fst snd] in *.
    erewrite bind_ok by (eapply modify_run; [exact Hkeep | reflexivity]).
    now rewrite <- Hpush.
Qed.

Lemma call_arguments_run node s args s' :
  call_arguments node s args s' ->
  forall i done,
    node < length (snd s) ->
    snd s !! node = Some (wpp.FnInvoke i done) ->
    (snd s' !! node = Some (wpp.FnInvoke i (done ++ args))
     /\ node < length (snd s'))
    /\ exists F, forall fuel, F <= fuel ->
         fninvoke_args fuel node s = Ok (tt, s').
Proof.
  induction 1 as [s t Ht Hno
                 |s t fuel arg s1 comma s2 args s' Ht Hyes Harg Hadv Hcomma Hrest IH
                 |s t fuel arg s1 rparen Ht Hyes Harg Hpeek Hrp];
    intros i done Hlen Hnode.
  - split; [split; [now rewrite app_nil_r | exact Hlen]|].
    exists 1. intros fuel Hfuel. destruct fuel as [|f]; [lia|].
    subst fninvoke_args. cbn [wpp.fninvoke_args].
    now rewrite (bind_ok _ _ _ _ _ Ht), Hno.
  - pose proof (fninvoke_args_argument fuel fuel node s t arg s1 i done
                  (le_n _) Ht Hyes Harg Hlen Hnode) as (H1 & H2 & _).
    destruct (IH i (done ++ [arg]) H2 H1) as [[K1 K2] [F HF]].
    split; [split; [|exact K2]|].
    + rewrite K1. now rewrite <- List.app_assoc.
    + exists (S (Nat.max fuel F)). intros f Hf. destruct f as [|f]; [lia|].
      pose proof (fninvoke_args_argument f fuel node s t arg s1 i done
                    ltac:(lia) Ht Hyes Harg Hlen Hnode) as (_ & _ & H3).
      rewrite H3.
      destruct (peek_of_advance _ _ _ _ _ _ Hadv) as [Hpk _].
      rewrite (bind_ok _ _ _ _ _ (peek_tree _ _ _ _ _ _ Hpk)), Hcomma.
      rewrite (bind_ok _ _ _ _ _ (advance_tree _ _ _ _ _ _ _ Hadv)).
      apply HF. lia.
  - pose proof (fninvoke_args_argument fuel fuel node s t arg s1 i done
                  (le_n _) Ht Hyes Harg Hlen Hnode) as (H1 & H2 & _).
    split; [split; [exact H1 | exact H2]|].
    exists (S (S fuel)). intros f Hf. destruct f as [|f]; [lia|].
    pose proof (fninvoke_args_argument f fuel node s t arg s1 i done
                  ltac:(lia) Ht Hyes Harg Hlen Hnode) as (_ & _ & H3).
    rewrite H3.
    pose proof (peek_tree _ _ _ _ _ (push_argument node arg (snd s1)) Hpeek)
      as Hpk.
    rewrite (bind_ok _ _ _ _ _ Hpk).
    rewrite (tok_is_other _ _ TOKEN_COMMA Hrp) by discriminate.
    rewrite Hrp. cbn [negb].
    destruct f as [|f]; [lia|]. subst fninvoke_args. cbn [wpp.fninvoke_args].
    now rewrite (bind_ok _ _ _ _ _ Hpk), (rparen_not_expr _ Hrp).
Qed.

(** [fninvoke] once the node is made, the name read and the
    parenthesis skipped. *)
Lemma fninvoke_enter (lex : Lexer) (tree : wpp.AST) (fn : Token)
    (lex1 : Lexer) (lparen : Token) (lex2 : Lexer) (f : nat) :
  next_token normal lex = Ok (fn, lex1) ->
  next_token normal lex1 = Ok (lparen, lex2) ->
  tok_is lparen TOKEN_LPAREN = true ->
  fninvoke (S f) (lex, tree)
  = ((fninvoke_args f (length tree);;;
      t <- advance normal;;
      if negb (tok_is t TOKEN_RPAREN) then
        throw "expecting ')' to follow argument list."
      else ret tt);;;
     (if peek_is_intrinsic fn then
        wpp.modify Lexer (length tree) (fun n =>
          match n with
          | wpp.FnInvoke _ args =>
              Some (wpp.Intrinsic (type fn) (tok_str fn) args)
          | _ => None
          end)
      else
        wpp.modify Lexer (length tree) (fun n =>
          match n with
          | wpp.FnInvoke _ args => Some (wpp.FnInvoke (tok_str fn) args)
          | _ => None
          end));;;
     ret (length tree)) (lex2, tree ++ [wpp.FnInvoke [] []]).
Proof.
  intros Hfn Hlp Hyes. subst fninvoke fninvoke_args advance.
  cbn [wpp.fninvoke]. rewrite bind_add.
  rewrite (bind_ok _ _ _ _ _ (advance_at _ _ _ _ _ _ _ Hfn)).
  rewrite (bind_ok _ _ _ _ _ (peek_at _ _ _ _ _ _ _ Hlp)), Hyes.
  unfold bind at 1. unfold bind at 1.
  rewrite (advance_at _ _ _ _ _ _ _ Hlp). reflexivity.
Qed.

(** X14: a call with its arguments between parentheses: the arguments
    are expressions, each followed by a comma, or the last one by the
    closing parenthesis at once.  When the closing parenthesis comes
    after them, the call is an [FnInvoke] node, or an [Intrinsic] node
    when the name is that of an intrinsic, of the name and of the
    arguments in their order.  When the list ends elsewhere, that is
    when right after the opening parenthesis or after the comma of an
    argument comes a token that neither starts an expression nor is the
    closing parenthesis, it is the parse error of the parenthesis; an
    argument followed by a token that is neither a comma nor the
    closing parenthesis is not such a list. *)
Theorem call_with_arguments (lex : Lexer) (tree : wpp.AST) (fn : Token)
    (lex1 : Lexer) (lparen : Token) (lex2 : Lexer)
    (args : list wpp.node_t) (s' : Lexer * wpp.AST) (t : Token)
    (s'' : Lexer * wpp.AST) :
  next_token normal lex = Ok (fn, lex1) ->
  next_token normal lex1 = Ok (lparen, lex2) ->
  tok_is lparen TOKEN_LPAREN = true ->
  call_arguments (length tree) (lex2, tree ++ [wpp.FnInvoke [] []]) args s' ->
  advance normal s' = Ok (t, s'') ->
  (tok_is t TOKEN_RPAREN = true ->
   exists F, forall fuel, F <= fuel ->
     exists tree',
       fninvoke fuel (lex, tree) = Ok (length tree, (fst s'', tree'))
       /\ tree' !! length tree = Some (call_node fn args))
  /\ (tok_is t TOKEN_RPAREN = false ->
      exists F, forall fuel, F <= fuel ->
        fninvoke fuel (lex, tree)
        = Throw "expecting ')' to follow argument list.").
Proof.
  intros Hfn Hlp Hyes Hargs Hadv.
  destruct (call_arguments_run _ _ _ _ Hargs [] [])
    as [[K1 K2] [F HF]].
  { cbn [snd]. rewrite length_app. cbn. lia. }
  { cbn [snd]. apply list_lookup_middle. reflexivity. }
  cbn [app] in K1. destruct s' as [l' tree1]. destruct s'' as [l'' tree2].
  assert (Htree : tree2 = tree1)
    by (apply (peek_of_advance _ _ _ _ _ _ Hadv)).
  subst tree2. cbn [fst snd] in *. split; intros Hrp.
  - exists (S F). intros fuel Hfuel. destruct fuel as [|f]; [lia|].
    exists (<[length tree := call_node fn args]> tree1). split.
    + rewrite (fninvoke_enter _ _ _ _ _ _ _ Hfn Hlp Hyes).
      erewrite bind_ok
        by (rewrite (bind_ok _ _ _ _ _ (HF f ltac:(lia)));
            unfold bind; rewrite Hadv, Hrp; reflexivity).
      unfold call_node.
      destruct (peek_is_intrinsic fn);
        (erewrite bind_ok by (eapply modify_run; [exact K1 | reflexivity]));
        reflexivity.
    + now apply list_lookup_insert_eq.
  - exists (S F). intros fuel Hfuel. destruct fuel as [|f]; [lia|].
    rewrite (fninvoke_enter _ _ _ _ _ _ _ Hfn Hlp Hyes).
    erewrite bind_throw; [reflexivity|].
    rewrite (bind_ok _ _ _ _ _ (HF f ltac:(lia))).
    unfold bind. now rewrite Hadv, Hrp.
Qed.

(** X15: after an argument of a call a token that is neither a comma
    nor the closing parenthesis is a parse error. *)
Theorem call_missing_comma (lex : Lexer) (tree : wpp.AST) (fn : Token)
    (lex1 : Lexer) (lparen : Token) (lex2 : Lexer) (t : Token) (fuel : nat)
    (arg : wpp.node_t) (s1 : Lexer * wpp.AST) (t' : Token) :
  next_token normal lex = Ok (fn, lex1) ->
  next_token normal lex1 = Ok (lparen, lex2) ->
  tok_is lparen TOKEN_LPAREN = true ->
  peek normal (lex2, tree ++ [wpp.FnInvoke [] []])
  = Ok (t, (lex2, tree ++ [wpp.FnInvoke [] []])) ->
  peek_is_expr t = true ->
  expression fuel (lex2, tree ++ [wpp.FnInvoke [] []]) = Ok (arg, s1) ->
  peek normal s1 = Ok (t', s1) ->
  tok_is t' TOKEN_COMMA = false -> tok_is t' TOKEN_RPAREN = false ->
  fninvoke (S (S fuel)) (lex, tree)
  = Throw "expecting comma to follow parameter name.".
Proof.
  intros Hfn Hlp Hyes Ht Hexpr Harg Ht' Hnc Hnr.
  rewrite (fninvoke_enter _ _ _ _ _ _ _ Hfn Hlp Hyes).
  pose proof (fninvoke_args_argument fuel fuel (length tree) _ t arg s1 [] []
                (le_n _) Ht Hexpr Harg) as (_ & _ & H3).
  { cbn [snd]. rewrite length_app. cbn. lia. }
  { cbn [snd]. apply list_lookup_middle. reflexivity. }
  erewrite bind_throw; [reflexivity|]. erewrite bind_throw; [reflexivity|].
  rewrite H3.
  rewrite (bind_ok _ _ _ _ _ (peek_tree _ _ _ _ _ _ Ht')), Hnc, Hnr.
  reflexivity.
Qed.

End Calls.
(** * Documents *)

Section Document.

Variable Lexer : Type.
Variable next_token : mode -> Lexer -> outcome (Token * Lexer).
Variable is_whitespace : ascii -> bool.
Variable NODE_EMPTY : wpp.node_t.

Let peek := wpp.peek Lexer next_token.
Let statement := wpp.statement Lexer next_token is_whitespace NODE_EMPTY.
Let document_stmts :=
  wpp.document_stmts Lexer next_token is_whitespace NODE_EMPTY.
Let document := wpp.document Lexer next_token is_whitespace NODE_EMPTY.
Local Abbreviation document_statements :=
  (document_statements Lexer next_token is_whitespace NODE_EMPTY).

Lemma peek_same (md : mode) s t s' : peek md s = Ok (t, s') -> s' = s.
Proof.
  subst peek. unfold wpp.peek, wpp.on_lexer, wpp.lpeek.
  destruct (next_token md (fst s)) as [[t' l]| | |]; try discriminate.
  intros [= _ <-]. now destruct s.
Qed.

Lemma modify_inv (i : wpp.node_t) (f : wpp.node -> option wpp.node) s u s' :
  wpp.modify Lexer i f s = Ok (u, s') ->
  exists n n', snd s !! i = Some n /\ f n = Some n'
               /\ s' = (fst s, <[i := n']> (snd s)).
Proof.
  unfold wpp.modify. destruct (snd s !! i) as [n|]; [|discriminate].
  destruct (f n) as [n'|] eqn:E; [|discriminate].
  intros [= _ <-]. now exists n, n'.
Qed.

Lemma push_document_node (node stmt : wpp.node_t) (tree : wpp.AST) stmts :
  tree !! node = Some (wpp.Document stmts) ->
  push_document node stmt tree
  = <[node := wpp.Document (stmts ++ [stmt])]> tree.
Proof. intros H. unfold push_document. now rewrite H. Qed.

Lemma document_statements_run node s stmts s' :
  document_statements node s stmts s' ->
  forall done,
    node < length (snd s) ->
    snd s !! node = Some (wpp.Document done) ->
    (snd s' !! node = Some (wpp.Document (done ++ stmts))
     /\ exists t, peek normal s' = Ok (t, s') /\ tok_is t TOKEN_EOF = true)
    /\ exists F, forall fuel, F <= fuel ->
         document_stmts fuel node s = Ok (tt, s').
Proof.
  induction 1 as [s t Ht Heof|s t fuel stmt s1 stmts s' Ht Hno Hstmt Hrest IH];
    intros done Hlen Hnode.
  - split; [split; [now rewrite app_nil_r | now exists t]|].
    exists 1. intros fuel Hfuel. destruct fuel as [|f]; [lia|].
    subst document_stmts. cbn [wpp.document_stmts].
    now rewrite (bind_ok _ _ _ _ _ Ht), Heof.
  - assert (Hframe : snd s1 !! node = Some (wpp.Document done)
                      /\ length (snd s) <= length (snd s1)).
    { refine (frame_lookup _ _ (S node) _ _ _ _ _
                (statement_frame _ _ _ _ fuel _) Hstmt _ _ Hnode); lia. }
    destruct Hframe as [Hkeep Hlen1].
    assert (Hpush := push_document_node node stmt _ _ Hkeep).
    destruct (IH (done ++ [stmt])) as [[K1 K2] [F HF]].
    { cbn [snd]. rewrite Hpush, length_insert. lia. }
    { cbn [snd]. rewrite Hpush. apply list_lookup_insert_eq. lia. }
    split; [split; [|exact K2]|].
    + rewrite K1. now rewrite <- List.app_assoc.
    + exists (S (Nat.max fuel F)). intros f Hf. destruct f as [|f]; [lia|].
      subst document_stmts. cbn [wpp.document_stmts].
      rewrite (bind_ok _ _ _ _ _ Ht), Hno. cbn [negb].
      rewrite (bind_ok _ _ _ _ _
                 (steps_ok _ _ _ _ _
                    (statement_steps _ _ _ _ fuel f ltac:(lia)) Hstmt)).
      destruct s1 as [l1 tree1]. cbn [fst snd] in *.
      erewrite bind_ok by (eapply modify_run; [exact Hkeep | reflexivity]).
      rewrite <- Hpush. apply HF. lia.
Qed.

Lemma document_stmts_inv (fuel : nat) node s s' :
  document_stmts fuel node s = Ok (tt, s') ->
  exists stmts, document_statements node s stmts s'.
Proof.
  revert s. induction fuel as [|fuel IH]; intros s H; [discriminate|].
  subst document_stmts. cbn [wpp.document_stmts] in H.
  apply bind_inv in H as (t & s0 & Ht & H).
  pose proof (peek_same _ _ _ _ Ht) as ->.
  destruct (tok_is t TOKEN_EOF) eqn:Heof; cbn [negb] in H.
  - injection H as <-. exists []. now apply (document_statements_end _ _ _ _ _ _ t).
  - apply bind_inv in H as (stmt & s1 & Hstmt & H).
    apply bind_inv in H as ([] & s2 & Hmod & H).
    apply modify_inv in Hmod as (n & n' & Hn & Hf & ->).
    destruct n; try discriminate. injection Hf as <-.
    destruct (IH _ H) as [rest Hrest].
    exists (stmt :: rest).
    apply (document_statements_more _ _ _ _ _ _ t fuel stmt s1); try assumption.
    now rewrite (push_document_node _ _ _ _ Hn).
Qed.

(** X16: the statements of a document.  When, from the start of the
    input, statements are parsed one after the other up to the end of
    the input, [document] returns a [Document] node, made before their
    nodes, of these statements in their order. *)
Theorem document_of_statements (lex : Lexer) (tree : wpp.AST)
    (stmts : list wpp.node_t) (s' : Lexer * wpp.AST) :
  document_statements (length tree) (lex, tree ++ [wpp.Document []]) stmts s' ->
  exists F, forall fuel, F <= fuel ->
    document fuel (lex, tree) = Ok (length tree, s')
    /\ snd s' !! length tree = Some (wpp.Document stmts).
Proof.
  intros H.
  destruct (document_statements_run _ _ _ _ H []) as [[K1 _] [F HF]].
  { cbn [snd]. rewrite length_app. cbn. lia. }
  { cbn [snd]. apply list_lookup_middle. reflexivity. }
  exists F. intros fuel Hfuel. split; [|exact K1].
  subst document. unfold wpp.document. rewrite bind_add.
  now rewrite (bind_ok _ _ _ _ _ (HF fuel Hfuel)).
Qed.

(** X17: [document] returns at the end of the input only.  When it
    returns, what it returns is the index of the node it made first, a
    [Document] node of the statements parsed from the start of the input
    on, and the token to come is the end of the input. *)
Theorem document_reads_all (fuel : nat) (lex : Lexer) (tree : wpp.AST)
    (root : wpp.node_t) (lex' : Lexer) (tree' : wpp.AST) :
  document fuel (lex, tree) = Ok (root, (lex', tree')) ->
  root = length tree
  /\ (exists stmts,
        document_statements root (lex, tree ++ [wpp.Document []]) stmts
          (lex', tree')
        /\ tree' !! root = Some (wpp.Document stmts))
  /\ exists t lex'',
       next_token normal lex' = Ok (t, lex'') /\ tok_is t TOKEN_EOF = true.
Proof.
  subst document. unfold wpp.document. rewrite bind_add. intros H.
  apply bind_inv in H as ([] & s1 & Hstmts & H). unfold ret in H.
  injection H as Hroot Hs. subst root s1. split; [reflexivity|].
  destruct (document_stmts_inv _ _ _ _ Hstmts) as [stmts Hrel].
  destruct (document_statements_run _ _ _ _ Hrel [])
    as [[K1 (t & Ht & Heof)] _].
  { cbn [snd]. rewrite length_app. cbn. lia. }
  { cbn [snd]. apply list_lookup_middle. reflexivity. }
  split; [exists stmts; split; [exact Hrel | exact K1]|].
  subst peek. unfold wpp.peek, wpp.on_lexer, wpp.lpeek in Ht. cbn [fst] in Ht.
  destruct (next_token normal lex') as [[t' l]| | |] eqn:E; try discriminate.
  injection Ht as ->. now exists t, l.
Qed.

End Document.
(** * Maps *)

Section Maps.

Variable Lexer : Type.
Variable next_token : mode -> Lexer -> outcome (Token * Lexer).
Variable is_whitespace : ascii -> bool.
Variable NODE_EMPTY : wpp.node_t.

Let peek := wpp.peek Lexer next_token.
Let advance := wpp.advance Lexer next_token.
Let expression := wpp.expression Lexer next_token is_whitespace NODE_EMPTY.
Let map_arms := wpp.map_arms Lexer next_token is_whitespace NODE_EMPTY.
Let map := wpp.map Lexer next_token is_whitespace NODE_EMPTY.
Local Abbreviation map_cases :=
  (map_cases Lexer next_token is_whitespace NODE_EMPTY).

Lemma push_case_map (node arm hand : wpp.node_t) (tree : wpp.AST) e cases d :
  tree !! node = Some (wpp.Map e cases d) ->
  push_case node arm hand tree
  = <[node := wpp.Map e (cases ++ [(arm, hand)]) d]> tree.
Proof. intros H. unfold push_case. now rewrite H. Qed.

(** A node made before an expression is parsed is as it was after
    it. *)
Lemma expression_keeps (fuel : nat) s a s' (i : wpp.node_t) (n : wpp.node) :
  expression fuel s = Ok (a, s') ->
  snd s !! i = Some n ->
  snd s' !! i = Some n /\ length (snd s) <= length (snd s').
Proof.
  intros H Hn. pose proof (lookup_lt_Some _ _ _ Hn) as Hlt.
  refine (frame_lookup _ _ (S i) _ _ _ _ _
            (expression_frame _ _ _ _ fuel _) H _ _ Hn); lia.
Qed.

Lemma map_cases_run node s cases s' :
  map_cases node s cases s' ->
  forall e done d,
    snd s !! node = Some (wpp.Map e done d) ->
    (snd s' !! node = Some (wpp.Map e (done ++ cases) d)
     /\ exists t, peek normal s' = Ok (t, s') /\ peek_is_expr t = false)
    /\ exists F, forall fuel, F <= fuel -> map_arms fuel node s = Ok (tt, s').
Proof.
  induction 1 as [s t Ht Hno
                 |s t fuel arm s1 arrow s2 t2 fuel' hand s3 cases s'
                    Ht Hyes Harm Hadv Harrow Ht2 Hyes2 Hhand Hrest IH];
    intros e done d Hnode.
  - split; [split; [now rewrite app_nil_r | now exists t]|].
    exists 1. intros fuel Hfuel. destruct fuel as [|f]; [lia|].
    subst map_arms. cbn [wpp.map_arms].
    now rewrite (bind_ok _ _ _ _ _ Ht), Hno.
  - destruct (expression_keeps _ _ _ _ _ _ Harm Hnode) as [Hk1 _].
    destruct (peek_of_advance _ _ _ _ _ _ Hadv) as [_ Htree].
    rewrite <- Htree in Hk1.
    destruct (expression_keeps _ _ _ _ _ _ Hhand Hk1) as [Hk3 _].
    assert (Hpush := push_case_map node arm hand _ _ _ _ Hk3).
    destruct (IH e (done ++ [(arm, hand)]) d) as [[K1 K2] [F HF]].
    { cbn [snd]. rewrite Hpush. apply list_lookup_insert_eq.
      now apply lookup_lt_Some in Hk3. }
    split; [split; [|exact K2]|].
    + rewrite K1. now rewrite <- List.app_assoc.
    + exists (S (Nat.max (Nat.max fuel fuel') F)). intros f Hf.
      destruct f as [|f]; [lia|].
      subst map_arms. cbn [wpp.map_arms].
      rewrite (bind_ok _ _ _ _ _ Ht), Hyes.
      rewrite (bind_ok _ _ _ _ _
                 (steps_ok _ _ _ _ _
                    (expression_steps _ _ _ _ fuel f ltac:(lia)) Harm)).
      rewrite (bind_ok _ _ _ _ _ Hadv), Harrow. cbn [negb].
      rewrite (bind_ok _ _ _ _ _ Ht2), Hyes2. cbn [negb].
      rewrite (bind_ok _ _ _ _ _
                 (steps_ok _ _ _ _ _
                    (expression_steps _ _ _ _ fuel' f ltac:(lia)) Hhand)).
      destruct s3 as [l3 tree3]. cbn [fst snd] in *.
      erewrite bind_ok by (eapply modify_run; [exact Hk3 | reflexivity]).
      rewrite <- Hpush. apply HF. lia.
Qed.

(** [map] up to the cases: the keyword is skipped, the node made, the
    test parsed and the brace skipped. *)
Lemma map_enter (lex : Lexer) (tree : wpp.AST) (kw : Token) (lex1 : Lexer)
    (t : Token) (ftest : nat) (test : wpp.node_t) s1 (lbrace : Token) s2
    (f : nat) :
  next_token normal lex = Ok (kw, lex1) ->
  peek normal (lex1, tree ++ [wpp.Map NODE_EMPTY [] NODE_EMPTY])
  = Ok (t, (lex1, tree ++ [wpp.Map NODE_EMPTY [] NODE_EMPTY])) ->
  peek_is_expr t = true ->
  expression ftest (lex1, tree ++ [wpp.Map NODE_EMPTY [] NODE_EMPTY])
  = Ok (test, s1) ->
  advance normal s1 = Ok (lbrace, s2) -> tok_is lbrace TOKEN_LBRACE = true ->
  ftest <= f ->
  let tree2 := <[length tree := wpp.Map test [] NODE_EMPTY]> (snd s1) in
  tree2 !! length tree = Some (wpp.Map test [] NODE_EMPTY)
  /\ map (S f) (lex, tree)
     = (map_arms f (length tree);;;
        t <- peek normal;;
        (if tok_is t TOKEN_STAR then
           advance normal;;;
           t <- advance normal;;
           if negb (tok_is t TOKEN_ARROW) then throw "expected '->'."
           else
             t <- peek normal;;
             if negb (peek_is_expr t) then throw "expected expression."
             else
               default_case <- expression f;;
               wpp.modify Lexer (length tree) (fun n =>
                 match n with
                 | wpp.Map e cases _ => Some (wpp.Map e cases default_case)
                 | _ => None
                 end)
         else
           wpp.modify Lexer (length tree) (fun n =>
             match n with
             | wpp.Map e cases _ => Some (wpp.Map e cases NODE_EMPTY)
             | _ => None
             end));;;
        t <- advance normal;;
        if negb (tok_is t TOKEN_RBRACE) then throw "expected '}'."
        else ret (length tree)) (fst s2, tree2).
Proof.
  intros Hkw Ht Hexpr Htest Hadv Hlb Hf tree2.
  destruct s1 as [l1 tree1].
  destruct (kept_node _ _ _ _ _ _ _ _
              (expression_frame _ _ _ _ ftest) Htest) as [Hnode Hlen].
  cbn [fst snd] in *. split.
  - subst tree2. apply list_lookup_insert_eq.
    now apply lookup_lt_Some in Hnode.
  - subst map map_arms. cbn [wpp.map].
    rewrite (bind_ok _ _ _ _ _ (advance_at _ _ _ _ _ _ _ Hkw)). rewrite bind_add.
    rewrite (bind_ok _ _ _ _ _ Ht), Hexpr. cbn [negb].
    rewrite (bind_ok _ _ _ _ _
               (steps_ok _ _ _ _ _
                  (expression_steps _ _ _ _ ftest f Hf) Htest)).
    erewrite bind_ok by (eapply modify_run; [exact Hnode | reflexivity]).
    rewrite (bind_ok _ _ _ _ _ (advance_tree _ _ _ _ _ _ _ Hadv)), Hlb.
    reflexivity.
Qed.

Lemma rbrace_not_star (t : Token) :
  tok_is t TOKEN_RBRACE = true -> tok_is t TOKEN_STAR = false.
Proof. intros H. apply (tok_is_other _ _ _ H). discriminate. Qed.

(** X18: a [map] expression.  After [map] come the test, the opening
    brace, the cases (an expression, the arrow, an expression, as long
    as an expression comes), then either the closing brace, or a star,
    the arrow, the default expression and the closing brace.  The
    expression is then the [Map] node of the test, of the cases in their
    order as pairs, and of the default expression, [NODE_EMPTY] when
    there is none. *)
Theorem map_expression (lex : Lexer) (tree : wpp.AST) (kw : Token)
    (lex1 : Lexer) (t : Token) (ftest : nat) (test : wpp.node_t) s1
    (lbrace : Token) s2 (cases : list (wpp.node_t * wpp.node_t)) s3 :
  next_token normal lex = Ok (kw, lex1) ->
  peek normal (lex1, tree ++ [wpp.Map NODE_EMPTY [] NODE_EMPTY])
  = Ok (t, (lex1, tree ++ [wpp.Map NODE_EMPTY [] NODE_EMPTY])) ->
  peek_is_expr t = true ->
  expression ftest (lex1, tree ++ [wpp.Map NODE_EMPTY [] NODE_EMPTY])
  = Ok (test, s1) ->
  advance normal s1 = Ok (lbrace, s2) -> tok_is lbrace TOKEN_LBRACE = true ->
  map_cases (length tree)
    (fst s2, <[length tree := wpp.Map test [] NODE_EMPTY]> (snd s1)) cases s3 ->
  (forall rbrace s4,
     advance normal s3 = Ok (rbrace, s4) ->
     tok_is rbrace TOKEN_RBRACE = true ->
     exists F, forall fuel, F <= fuel ->
       exists tree',
         map fuel (lex, tree) = Ok (length tree, (fst s4, tree'))
         /\ tree' !! length tree = Some (wpp.Map test cases NODE_EMPTY))
  /\ (forall star s4 arrow s5 t5 fd d s6 rbrace s7,
        advance normal s3 = Ok (star, s4) -> tok_is star TOKEN_STAR = true ->
        advance normal s4 = Ok (arrow, s5) ->
        tok_is arrow TOKEN_ARROW = true ->
        peek normal s5 = Ok (t5, s5) -> peek_is_expr t5 = true ->
        expression fd s5 = Ok (d, s6) ->
        advance normal s6 = Ok (rbrace, s7) ->
        tok_is rbrace TOKEN_RBRACE = true ->
        exists F, forall fuel, F <= fuel ->
          exists tree',
            map fuel (lex, tree) = Ok (length tree, (fst s7, tree'))
            /\ tree' !! length tree = Some (wpp.Map test cases d)).
Proof.
  intros Hkw Ht Hexpr Htest Hadv Hlb Hcases.
  destruct (map_cases_run _ _ _ _ Hcases test [] NODE_EMPTY)
    as [[K1 _] [F0 HF0]].
  { cbn [snd]. exact (proj1 (map_enter _ _ _ _ _ _ _ _ _ _ ftest
                               Hkw Ht Hexpr Htest Hadv Hlb (le_n _))). }
  cbn [app] in K1. split.
  - intros rbrace s4 Hrb Hclose.
    destruct (peek_of_advance _ _ _ _ _ _ Hrb) as [Hpk Htree].
    exists (S (Nat.max ftest F0)). intros fuel Hfuel.
    destruct fuel as [|f]; [lia|].
    exists (<[length tree := wpp.Map test cases NODE_EMPTY]> (snd s3)).
    split; [|apply list_lookup_insert_eq; now apply lookup_lt_Some in K1].
    rewrite (proj2 (map_enter _ _ _ _ _ _ _ _ _ _ f
                      Hkw Ht Hexpr Htest Hadv Hlb ltac:(lia))).
    rewrite (bind_ok _ _ _ _ _ (HF0 f ltac:(lia))).
    rewrite (bind_ok _ _ _ _ _ Hpk), (rbrace_not_star _ Hclose).
    destruct s3 as [l3 tree3]. cbn [fst snd] in *.
    erewrite bind_ok by (eapply modify_run; [exact K1 | reflexivity]).
    rewrite (bind_ok _ _ _ _ _ (advance_tree _ _ _ _ _ _ _ Hrb)), Hclose.
    reflexivity.
  - intros star s4 arrow s5 t5 fd d s6 rbrace s7 Hstar Hst Harr Har Ht5 He5
      Hd Hrb Hclose.
    destruct (peek_of_advance _ _ _ _ _ _ Hstar) as [Hpk Htree4].
    destruct (peek_of_advance _ _ _ _ _ _ Harr) as [_ Htree5].
    assert (K5 : snd s5 !! length tree = Some (wpp.Map test cases NODE_EMPTY))
      by (rewrite Htree5, Htree4; exact K1).
    destruct (expression_keeps _ _ _ _ _ _ Hd K5) as [K6 _].
    destruct s6 as [l6 tree6]. cbn [fst snd] in *.
    exists (S (Nat.max (Nat.max ftest fd) F0)). intros fuel Hfuel.
    destruct fuel as [|f]; [lia|].
    exists (<[length tree := wpp.Map test cases d]> tree6).
    split; [|apply list_lookup_insert_eq; now apply lookup_lt_Some in K6].
    rewrite (proj2 (map_enter _ _ _ _ _ _ _ _ _ _ f
                      Hkw Ht Hexpr Htest Hadv Hlb ltac:(lia))).
    rewrite (bind_ok _ _ _ _ _ (HF0 f ltac:(lia))).
    rewrite (bind_ok _ _ _ _ _ Hpk), Hst.
    erewrite bind_ok.
    2:{ rewrite (bind_ok _ _ _ _ _ Hstar).
        rewrite (bind_ok _ _ _ _ _ Harr), Har. cbn [negb].
        rewrite (bind_ok _ _ _ _ _ Ht5), He5. cbn [negb].
        rewrite (bind_ok _ _ _ _ _
                   (steps_ok _ _ _ _ _
                      (expression_steps _ _ _ _ fd f ltac:(lia)) Hd)).
        eapply modify_run; [exact K6 | reflexivity]. }
    rewrite (bind_ok _ _ _ _ _ (advance_tree _ _ _ _ _ _ _ Hrb)), Hclose.
    reflexivity.
Qed.

(** X19: what [map] rejects at its head: a token after [map] that does
    not start an expression, and a token after the test that is not the
    opening brace. *)
Theorem map_rejects (lex : Lexer) (tree : wpp.AST) (kw : Token)
    (lex1 : Lexer) (t : Token) (lex2 : Lexer) :
  next_token normal lex = Ok (kw, lex1) ->
  next_token normal lex1 = Ok (t, lex2) ->
  (peek_is_expr t = false ->
   forall fuel,
     map (S fuel) (lex, tree)
     = Throw "expected an expression to follow `map` keyword.")
  /\ (peek_is_expr t = true ->
      forall fuel test s1 tok s2,
        expression fuel (lex1, tree ++ [wpp.Map NODE_EMPTY [] NODE_EMPTY])
        = Ok (test, s1) ->
        advance normal s1 = Ok (tok, s2) ->
        tok_is tok TOKEN_LBRACE = false ->
        map (S fuel) (lex, tree) = Throw "expected '{'.").
Proof.
  intros Hkw Ht. split; intros Hexpr fuel.
  - subst map. cbn [wpp.map].
    rewrite (bind_ok _ _ _ _ _ (advance_at _ _ _ _ _ _ _ Hkw)). rewrite bind_add.
    rewrite (bind_ok _ _ _ _ _ (peek_at _ _ _ _ _ _ _ Ht)), Hexpr. reflexivity.
  - intros test [l1 tree1] tok s2 Htest Hadv Hno.
    destruct (kept_node _ _ _ _ _ _ _ _
                (expression_frame _ _ _ _ fuel) Htest) as [Hnode Hlen].
    subst map. cbn [wpp.map].
    rewrite (bind_ok _ _ _ _ _ (advance_at _ _ _ _ _ _ _ Hkw)). rewrite bind_add.
    rewrite (bind_ok _ _ _ _ _ (peek_at _ _ _ _ _ _ _ Ht)), Hexpr. cbn [negb].
    rewrite (bind_ok _ _ _ _ _ Htest).
    erewrite bind_ok by (eapply modify_run; [exact Hnode | reflexivity]).
    rewrite (bind_ok _ _ _ _ _ (advance_tree _ _ _ _ _ _ _ Hadv)), Hno.
    reflexivity.
Qed.

End Maps.
(** * Prefixes *)

Lemma stmt_not_rbrace (t : Token) :
  peek_is_stmt t = true -> tok_is t TOKEN_RBRACE = false.
Proof.
  unfold peek_is_stmt, peek_is_expr, peek_is_string, peek_is_call,
    peek_is_intrinsic, tok_is.
  destruct (type t); vm_compute; intros H; first [discriminate H | reflexivity].
Qed.

Section Prefixes.

Variable Lexer : Type.
Variable next_token : mode -> Lexer -> outcome (Token * Lexer).
Variable is_whitespace : ascii -> bool.
Variable NODE_EMPTY : wpp.node_t.

Let peek := wpp.peek Lexer next_token.
Let advance := wpp.advance Lexer next_token.
Let expression := wpp.expression Lexer next_token is_whitespace NODE_EMPTY.
Let statement := wpp.statement Lexer next_token is_whitespace NODE_EMPTY.
Let prefix_stmts := wpp.prefix_stmts Lexer next_token is_whitespace NODE_EMPTY.
Local Abbreviation prefix_statements :=
  (prefix_statements Lexer next_token is_whitespace NODE_EMPTY).

Lemma push_prefix_pre (node stmt : wpp.node_t) (tree : wpp.AST) es stmts :
  tree !! node = Some (wpp.Pre es stmts) ->
  push_prefix node stmt tree = <[node := wpp.Pre es (stmts ++ [stmt])]> tree.
Proof. intros H. unfold push_prefix. now rewrite H. Qed.

Lemma statement_keeps (fuel : nat) s a s' (i : wpp.node_t) (n : wpp.node) :
  statement fuel s = Ok (a, s') ->
  snd s !! i = Some n ->
  snd s' !! i = Some n /\ length (snd s) <= length (snd s').
Proof.
  intros H Hn. pose proof (lookup_lt_Some _ _ _ Hn) as Hlt.
  refine (frame_lookup _ _ (S i) _ _ _ _ _
            (statement_frame _ _ _ _ fuel _) H _ _ Hn); lia.
Qed.

Lemma prefix_stmts_steps (n m : nat) node :
  n <= m -> more_steps (prefix_stmts n node) (prefix_stmts m node).
Proof.
  intros Hle.
  apply (parser_steps Lexer next_token is_whitespace NODE_EMPTY n m Hle).
Qed.

(** One round of the loop of [prefix]. *)
Lemma prefix_stmts_round (f fuel : nat) node s stmt s1 t' es done :
  fuel <= f ->
  statement fuel s = Ok (stmt, s1) ->
  peek normal s1 = Ok (t', s1) ->
  snd s !! node = Some (wpp.Pre es done) ->
  let s2 := (fst s1, push_prefix node stmt (snd s1)) in
  snd s2 !! node = Some (wpp.Pre es (done ++ [stmt]))
  /\ prefix_stmts (S f) node s
     = if peek_is_stmt t' then prefix_stmts f node s2 else Ok (tt, s2).
Proof.
  intros Hf Hstmt Ht' Hnode s2.
  destruct (statement_keeps _ _ _ _ _ _ Hstmt Hnode) as [Hkeep _].
  assert (Hpush := push_prefix_pre node stmt _ _ _ Hkeep).
  assert (Hpeek2 := peek_tree _ _ _ _ _ (snd s2) Ht').
  subst s2. cbn [fst snd] in *. split.
  - rewrite Hpush. apply list_lookup_insert_eq.
    now apply lookup_lt_Some in Hkeep.
  - subst prefix_stmts. cbn [wpp.prefix_stmts].
    rewrite (bind_ok _ _ _ _ _
               (steps_ok _ _ _ _ _ (statement_steps _ _ _ _ fuel f Hf) Hstmt)).
    destruct s1 as [l1 tree1]. cbn [fst snd] in *.
    erewrite bind_ok by (eapply modify_run; [exact Hkeep | reflexivity]).
    rewrite <- Hpush. rewrite (bind_ok _ _ _ _ _ Hpeek2).
    destruct (peek_is_stmt t'); reflexivity.
Qed.

Lemma prefix_statements_run node s stmts s' :
  prefix_statements node s stmts s' ->
  forall es done,
    snd s !! node = Some (wpp.Pre es done) ->
    snd s' !! node = Some (wpp.Pre es (done ++ stmts))
    /\ exists F, forall fuel, F <= fuel ->
         prefix_stmts fuel node s = Ok (tt, s').
Proof.
  induction 1 as [s fuel stmt s1 t' Hstmt Ht' Hno
                 |s fuel stmt s1 t' stmts s' Hstmt Ht' Hyes Hrest IH];
    intros es done Hnode.
  - pose proof (prefix_stmts_round fuel fuel node s stmt s1 t' es done
                  (le_n _) Hstmt Ht' Hnode) as (H1 & _).
    split; [exact H1|].
    exists (S fuel). intros f Hf. destruct f as [|f]; [lia|].
    pose proof (prefix_stmts_round f fuel node s stmt s1 t' es done
                  ltac:(lia) Hstmt Ht' Hnode) as (_ & H2).
    now rewrite H2, Hno.
  - pose proof (prefix_stmts_round fuel fuel node s stmt s1 t' es done
                  (le_n _) Hstmt Ht' Hnode) as (H1 & _).
    destruct (IH es (done ++ [stmt]) H1) as [K1 [F HF]].
    split; [rewrite K1; now rewrite <- List.app_assoc|].
    exists (S (Nat.max fuel F)). intros f Hf. destruct f as [|f]; [lia|].
    pose proof (prefix_stmts_round f fuel node s stmt s1 t' es done
                  ltac:(lia) Hstmt Ht' Hnode) as (_ & H2).
    rewrite H2, Hyes. apply HF. lia.
Qed.

(** Where statements are read the token to come is not the closing
    brace. *)
Lemma prefix_statements_open node s stmts s' :
  prefix_statements node s stmts s' ->
  exists t0, peek normal s = Ok (t0, s) /\ tok_is t0 TOKEN_RBRACE = false.
Proof.
  destruct 1 as [s fuel stmt s1 t' Hstmt _ _|s fuel stmt s1 t' stmts s' Hstmt _ _ _];
    (destruct (peek normal s) as [[t0 s0]| | |] eqn:E;
     [ pose proof (peek_same _ _ _ _ _ _ E) as ->; exists t0;
       split; [reflexivity|];
       exact (stmt_not_rbrace _ (statement_starts _ _ _ _ _ _ _ _ Hstmt E))
     | subst peek; destruct fuel; [discriminate|];
       cbn [wpp.statement] in Hstmt; unfold bind in Hstmt;
       rewrite E in Hstmt; discriminate .. ]).
Qed.

(** [prefix], at a statement, up to the body: the node is made, the
    keyword skipped, the name parsed and the brace skipped. *)
Lemma prefix_enter (lex : Lexer) (tree : wpp.AST) (kw : Token) (lex1 : Lexer)
    (t : Token) (fname : nat) (name : wpp.node_t) s1 (lbrace : Token) s2
    (f : nat) :
  next_token normal lex = Ok (kw, lex1) -> type kw = TOKEN_PREFIX ->
  peek normal (lex1, tree ++ [wpp.Pre [] []])
  = Ok (t, (lex1, tree ++ [wpp.Pre [] []])) ->
  peek_is_expr t = true ->
  expression fname (lex1, tree ++ [wpp.Pre [] []]) = Ok (name, s1) ->
  advance normal s1 = Ok (lbrace, s2) -> tok_is lbrace TOKEN_LBRACE = true ->
  fname <= f ->
  let tree2 := <[length tree := wpp.Pre [name] []]> (snd s1) in
  tree2 !! length tree = Some (wpp.Pre [name] [])
  /\ statement (S (S f)) (lex, tree)
     = (t <- peek normal;;
        (if negb (tok_is t TOKEN_RBRACE) then prefix_stmts f (length tree)
         else ret tt);;;
        t <- advance normal;;
        if negb (tok_is t TOKEN_RBRACE) then throw "prefix is unterminated."
        else ret (length tree)) (fst s2, tree2).
Proof.
  intros Hkw Hty Ht Hexpr Hname Hadv Hlb Hf tree2.
  destruct s1 as [l1 tree1].
  destruct (kept_node _ _ _ _ _ _ _ _
              (expression_frame _ _ _ _ fname) Hname) as [Hnode Hlen].
  cbn [fst snd] in *. split.
  - subst tree2. apply list_lookup_insert_eq.
    now apply lookup_lt_Some in Hnode.
  - subst statement prefix_stmts. cbn [wpp.statement wpp.prefix].
    rewrite (bind_ok _ _ _ _ _ (peek_at _ _ _ _ _ _ _ Hkw)).
    rewrite (tok_is_not kw _ TOKEN_LET Hty) by discriminate.
    rewrite (tok_is_not kw _ TOKEN_VAR Hty) by discriminate.
    rewrite (tok_is_not kw _ TOKEN_DROP Hty) by discriminate.
    rewrite (tok_is_type kw _ Hty). rewrite bind_add.
    rewrite (bind_ok _ _ _ _ _ (advance_at _ _ _ _ _ _ _ Hkw)).
    rewrite (bind_ok _ _ _ _ _ Ht), Hexpr. cbn [negb].
    rewrite (bind_ok _ _ _ _ _
               (steps_ok _ _ _ _ _
                  (expression_steps _ _ _ _ fname f Hf) Hname)).
    erewrite bind_ok by (eapply modify_run; [exact Hnode | reflexivity]).
    rewrite (bind_ok _ _ _ _ _ (advance_tree _ _ _ _ _ _ _ Hadv)), Hlb.
    reflexivity.
Qed.

(** X20: a [prefix] statement.  After [prefix] come the name, an
    expression, and between braces the statements, none or more; the
    statement is then the [Pre] node of that name and of these
    statements in their order. *)
Theorem prefix_statement (lex : Lexer) (tree : wpp.AST) (kw : Token)
    (lex1 : Lexer) (t : Token) (fname : nat) (name : wpp.node_t) s1
    (lbrace : Token) s2 :
  next_token normal lex = Ok (kw, lex1) -> type kw = TOKEN_PREFIX ->
  peek normal (lex1, tree ++ [wpp.Pre [] []])
  = Ok (t, (lex1, tree ++ [wpp.Pre [] []])) ->
  peek_is_expr t = true ->
  expression fname (lex1, tree ++ [wpp.Pre [] []]) = Ok (name, s1) ->
  advance normal s1 = Ok (lbrace, s2) -> tok_is lbrace TOKEN_LBRACE = true ->
  let body := (fst s2, <[length tree := wpp.Pre [name] []]> (snd s1)) in
  (forall rbrace s3,
     advance normal body = Ok (rbrace, s3) ->
     tok_is rbrace TOKEN_RBRACE = true ->
     exists F, forall fuel, F <= fuel ->
       statement fuel (lex, tree) = Ok (length tree, s3)
       /\ snd s3 !! length tree = Some (wpp.Pre [name] []))
  /\ (forall stmts s3 rbrace s4,
        prefix_statements (length tree) body stmts s3 ->
        advance normal s3 = Ok (rbrace, s4) ->
        tok_is rbrace TOKEN_RBRACE = true ->
        exists F, forall fuel, F <= fuel ->
          statement fuel (lex, tree) = Ok (length tree, s4)
          /\ snd s4 !! length tree = Some (wpp.Pre [name] stmts)).
Proof.
  intros Hkw Hty Ht Hexpr Hname Hadv Hlb body.
  pose proof (proj1 (prefix_enter _ _ _ _ _ _ _ _ _ _ fname
                       Hkw Hty Ht Hexpr Hname Hadv Hlb (le_n _))) as Hnode.
  split.
  - intros rbrace s3 Hrb Hclose.
    destruct (peek_of_advance _ _ _ _ _ _ Hrb) as [Hpk Htree].
    exists (S (S fname)). intros fuel Hfuel.
    destruct fuel as [|[|f]]; [lia|lia|].
    split; [|rewrite Htree; exact Hnode].
    rewrite (proj2 (prefix_enter _ _ _ _ _ _ _ _ _ _ f
                      Hkw Hty Ht Hexpr Hname Hadv Hlb ltac:(lia))).
    fold body. rewrite (bind_ok _ _ _ _ _ Hpk), Hclose. cbn [negb].
    unfold bind at 1. unfold ret at 1.
    now rewrite (bind_ok _ _ _ _ _ Hrb), Hclose.
  - intros stmts s3 rbrace s4 Hstmts Hrb Hclose.
    destruct (peek_of_advance _ _ _ _ _ _ Hrb) as [_ Htree].
    destruct (prefix_statements_run _ _ _ _ Hstmts [name] [] Hnode)
      as [K1 [F0 HF0]].
    cbn [app] in K1.
    destruct (prefix_statements_open _ _ _ _ Hstmts) as (t0 & Ht0 & Hopen).
    exists (S (S (Nat.max fname F0))). intros fuel Hfuel.
    destruct fuel as [|[|f]]; [lia|lia|].
    split; [|rewrite Htree; exact K1].
    rewrite (proj2 (prefix_enter _ _ _ _ _ _ _ _ _ _ f
                      Hkw Hty Ht Hexpr Hname Hadv Hlb ltac:(lia))).
    fold body. rewrite (bind_ok _ _ _ _ _ Ht0), Hopen. cbn [negb].
    rewrite (bind_ok _ _ _ _ _ (HF0 f ltac:(lia))).
    now rewrite (bind_ok _ _ _ _ _ Hrb), Hclose.
Qed.

(** X21: what [prefix] rejects: a token after [prefix] that does not
    start an expression; a token after the name that is not the opening
    brace; after the statements of the body, one or more, a token that
    is not the closing brace; and, right after the opening brace, a
    token that is neither the closing brace nor the start of a
    statement, which is the error of [statement] and not that of the
    prefix left open. *)
Theorem prefix_rejects (lex : Lexer) (tree : wpp.AST) (kw : Token)
    (lex1 : Lexer) (t : Token) (lex2 : Lexer) :
  next_token normal lex = Ok (kw, lex1) -> type kw = TOKEN_PREFIX ->
  next_token normal lex1 = Ok (t, lex2) ->
  (peek_is_expr t = false ->
   forall fuel,
     statement (S (S fuel)) (lex, tree) = Throw "prefix does not have a name.")
  /\ (peek_is_expr t = true ->
      forall fuel name s1 tok s2,
        expression fuel (lex1, tree ++ [wpp.Pre [] []]) = Ok (name, s1) ->
        advance normal s1 = Ok (tok, s2) ->
        (tok_is tok TOKEN_LBRACE = false ->
         statement (S (S fuel)) (lex, tree)
         = Throw "expecting '{' to follow name.")
        /\ (tok_is tok TOKEN_LBRACE = true ->
            forall stmts s3 tok' s4,
              prefix_statements (length tree)
                (fst s2, <[length tree := wpp.Pre [name] []]> (snd s1))
                stmts s3 ->
              advance normal s3 = Ok (tok', s4) ->
              tok_is tok' TOKEN_RBRACE = false ->
              exists F, forall fuel', F <= fuel' ->
                statement fuel' (lex, tree) = Throw "prefix is unterminated.")
        /\ (tok_is tok TOKEN_LBRACE = true ->
            forall t0 s3,
              peek normal
                (fst s2, <[length tree := wpp.Pre [name] []]> (snd s1))
              = Ok (t0, s3) ->
              tok_is t0 TOKEN_RBRACE = false ->
              peek_is_stmt t0 = false ->
              exists F, forall fuel', F <= fuel' ->
                statement fuel' (lex, tree) = Throw "expecting a statement.")).
Proof.
  intros Hkw Hty Ht.
  assert (Hstart : forall fuel,
            statement (S (S fuel)) (lex, tree)
            = wpp.prefix Lexer next_token is_whitespace NODE_EMPTY (S fuel)
                (lex, tree)).
  { intros fuel. subst statement. cbn [wpp.statement].
    rewrite (bind_ok _ _ _ _ _ (peek_at _ _ _ _ _ _ _ Hkw)).
    rewrite (tok_is_not kw _ TOKEN_LET Hty) by discriminate.
    rewrite (tok_is_not kw _ TOKEN_VAR Hty) by discriminate.
    rewrite (tok_is_not kw _ TOKEN_DROP Hty) by discriminate.
    now rewrite (tok_is_type kw _ Hty). }
  split; intros Hexpr fuel.
  - rewrite Hstart. cbn [wpp.prefix]. rewrite bind_add.
    rewrite (bind_ok _ _ _ _ _ (advance_at _ _ _ _ _ _ _ Hkw)).
    rewrite (bind_ok _ _ _ _ _ (peek_at _ _ _ _ _ _ _ Ht)), Hexpr. reflexivity.
  - intros name s1 tok s2 Hname Hadv. split; [|split].
    + intros Hno. destruct s1 as [l1 tree1].
      destruct (kept_node _ _ _ _ _ _ _ _
                  (expression_frame _ _ _ _ fuel) Hname) as [Hnode Hlen].
      rewrite Hstart. cbn [wpp.prefix]. rewrite bind_add.
      rewrite (bind_ok _ _ _ _ _ (advance_at _ _ _ _ _ _ _ Hkw)).
      rewrite (bind_ok _ _ _ _ _ (peek_at _ _ _ _ _ _ _ Ht)), Hexpr. cbn [negb].
      rewrite (bind_ok _ _ _ _ _ Hname).
      erewrite bind_ok by (eapply modify_run; [exact Hnode | reflexivity]).
      rewrite (bind_ok _ _ _ _ _ (advance_tree _ _ _ _ _ _ _ Hadv)), Hno.
      reflexivity.
    + intros Hlb stmts s3 tok' s4 Hstmts Hadv' Hno.
      pose proof (peek_at _ _ _ _ (tree ++ [wpp.Pre [] []]) _ _ Ht) as Hpk.
      pose proof (proj1 (prefix_enter _ _ _ _ _ _ _ _ _ _ fuel
                           Hkw Hty Hpk Hexpr Hname Hadv Hlb (le_n _))) as Hnode.
      destruct (prefix_statements_run _ _ _ _ Hstmts [name] [] Hnode)
        as [_ [F0 HF0]].
      set (body := (fst s2, <[length tree := wpp.Pre [name] []]> (snd s1))) in *.
      destruct (prefix_statements_open _ _ _ _ Hstmts) as (t0 & Ht0 & Hopen).
      exists (S (S (Nat.max fuel F0))). intros fuel' Hfuel.
      destruct fuel' as [|[|f]]; [lia|lia|].
      rewrite (proj2 (prefix_enter _ _ _ _ _ _ _ _ _ _ f
                        Hkw Hty Hpk Hexpr Hname Hadv Hlb ltac:(lia))).
      fold body. rewrite (bind_ok _ _ _ _ _ Ht0), Hopen. cbn [negb].
      rewrite (bind_ok _ _ _ _ _ (HF0 f ltac:(lia))).
      now rewrite (bind_ok _ _ _ _ _ Hadv'), Hno.
    + intros Hlb t0 s3 Ht0 Hnr Hns.
      pose proof (peek_at _ _ _ _ (tree ++ [wpp.Pre [] []]) _ _ Ht) as Hpk.
      exists (S (S (S (S fuel)))). intros fuel' Hfuel.
      destruct fuel' as [|[|[|[|f]]]]; try lia.
      rewrite (proj2 (prefix_enter _ _ _ _ _ _ _ _ _ _ (S (S f))
                        Hkw Hty Hpk Hexpr Hname Hadv Hlb ltac:(lia))).
      assert (Hs3 : s3 = (fst s2, <[length tree := wpp.Pre [name] []]> (snd s1))).
      { revert Ht0. subst peek. unfold wpp.peek, wpp.on_lexer, wpp.lpeek.
        cbn [fst snd]. destruct (next_token normal (fst s2)) as [[? ?]| | |];
          try discriminate. now intros [= _ <-]. }
      subst s3. rewrite (bind_ok _ _ _ _ _ Ht0), Hnr. cbn [negb].
      erewrite bind_throw; [reflexivity|].
      subst prefix_stmts statement. cbn [wpp.prefix_stmts wpp.statement].
      erewrite bind_throw; [reflexivity|].
      rewrite (bind_ok _ _ _ _ _ Ht0).
      unfold peek_is_stmt in Hns.
      apply orb_false_iff in Hns as [Hns Hne].
      apply orb_false_iff in Hns as [Hns Hnd].
      apply orb_false_iff in Hns as [Hns Hnp].
      apply orb_false_iff in Hns as [Hnl Hnv].
      now rewrite Hnl, Hnv, Hnd, Hnp, Hne.
Qed.

End Prefixes.
(** * Blocks: what follows the trailing expression *)

Section Blocks.

Variable Lexer : Type.
Variable next_token : mode -> Lexer -> outcome (Token * Lexer).
Variable is_whitespace : ascii -> bool.
Variable NODE_EMPTY : wpp.node_t.

Let peek := wpp.peek Lexer next_token.
Let advance := wpp.advance Lexer next_token.
Let block := wpp.block Lexer next_token is_whitespace NODE_EMPTY.
Local Abbreviation block_statements :=
  (wpp.block_statements Lexer next_token is_whitespace NODE_EMPTY).

(** X22: a block whose statements end with an expression is rejected
    when the token after them is an arrow, as a map without its test,
    and when it is any other token than the closing brace, as
    unterminated. *)
Theorem block_rejects s0 lbrace s0' stmts s2 tl el t :
  advance normal s0 = Ok (lbrace, s0') ->
  block_statements (length (snd s0))
    (fst s0', snd s0 ++ [wpp.Block [] NODE_EMPTY]) stmts s2 ->
  last stmts = Some (tl, el) -> peek_is_expr tl = true ->
  peek normal s2 = Ok (t, s2) ->
  (tok_is t TOKEN_ARROW = true ->
   exists F, forall fuel, F <= fuel ->
     block fuel s0 = Throw "map is missing test expression.")
  /\ (tok_is t TOKEN_ARROW = false -> tok_is t TOKEN_RBRACE = false ->
      exists F, forall fuel, F <= fuel ->
        block fuel s0 = Throw "block is unterminated.").
Proof.
  intros Hadv Hstmts Hlast Htl Ht.
  destruct (block_statements_first _ _ _ _ _ _ _ _ Hstmts) as (t1 & Ht1 & Hyes).
  destruct (block_stmts_run _ _ _ _ _ _ _ _ Hstmts [] NODE_EMPTY tl el)
    as [(K1 & K2 & t' & Ht' & Hno) [F HF]].
  { cbn [snd]. rewrite length_app. cbn. lia. }
  { cbn [snd]. apply list_lookup_middle. reflexivity. }
  { exact Hlast. }
  assert (t' = t) by (subst peek; congruence). subst t'.
  cbn [app] in K1.
  assert (Hrun : forall f, F <= f ->
            block (S f) s0
            = (t <- peek normal;;
               if tok_is t TOKEN_ARROW then
                 throw "map is missing test expression."
               else if negb (tok_is t TOKEN_RBRACE) then
                 throw "block is unterminated."
               else advance normal;;; ret (length (snd s0)))
              (fst s2, <[length (snd s0) :=
                          wpp.Block (removelast (map snd stmts)) el]> (snd s2))).
  { intros f Hf. subst block. rewrite (block_enter _ _ _ _ _ _ _ _ Hadv).
    rewrite (bind_ok _ _ _ _ _ Ht1), Hyes.
    rewrite (bind_ok _ _ _ _ _ (HF f Hf)).
    rewrite (bind_ok _ _ _ _ _ Ht), Htl, (not_stmt_not_expr _ Hno).
    cbn [negb andb].
    destruct s2 as [l2 tree2]. cbn [fst snd] in *.
    erewrite bind_ok
      by (eapply modify_run;
          [exact K1 | cbv beta iota; rewrite last_map, Hlast; reflexivity]).
    reflexivity. }
  split.
  - intros Harrow. exists (S F). intros fuel Hfuel.
    destruct fuel as [|f]; [lia|]. rewrite (Hrun f ltac:(lia)).
    now rewrite (bind_ok _ _ _ _ _ (peek_tree _ _ _ _ _ _ Ht)), Harrow.
  - intros Harrow Hbrace. exists (S F). intros fuel Hfuel.
    destruct fuel as [|f]; [lia|]. rewrite (Hrun f ltac:(lia)).
    now rewrite (bind_ok _ _ _ _ _ (peek_tree _ _ _ _ _ _ Ht)), Harrow, Hbrace.
Qed.

End Blocks.
(** * String literals *)

Section StringNodes.

Variable Lexer : Type.
Variable next_token : mode -> Lexer -> outcome (Token * Lexer).
Variable is_whitespace : ascii -> bool.

Let string := wpp.string Lexer next_token is_whitespace.

Lemma string_literal (fuel : nat) (lex : Lexer) (tree : wpp.AST) (t : Token)
    (lex1 : Lexer) (literal : cstring) (lex2 : Lexer) :
  next_token normal lex = Ok (t, lex1) ->
  (if tok_is t TOKEN_HEX then
     tok <- wpp.advance Lexer next_token normal;;
     lift (of_option (hex_string (view tok) []))
   else if tok_is t TOKEN_BIN then
     tok <- wpp.advance Lexer next_token normal;;
     lift (of_option (bin_string (view tok) []))
   else if tok_is t TOKEN_SMART then
     wpp.on_lexer Lexer (wpp.smart_string Lexer next_token is_whitespace fuel [])
   else if tok_is t TOKEN_EXCLAIM then
     wpp.on_lexer Lexer (wpp.stringify_string Lexer next_token [])
   else if tok_is t TOKEN_QUOTE || tok_is t TOKEN_DOUBLEQUOTE then
     wpp.on_lexer Lexer (wpp.normal_string Lexer next_token fuel [])
   else ret []) (lex, tree ++ [wpp.String []])
  = Ok (literal, (lex2, tree ++ [wpp.String []])) ->
  string fuel (lex, tree)
  = Ok (length tree, (lex2, tree ++ [wpp.String literal])).
Proof.
  intros Ht H. subst string. unfold wpp.string. rewrite bind_add.
  rewrite (bind_ok _ _ _ _ _ (peek_at _ _ _ _ _ _ _ Ht)).
  rewrite (bind_ok _ _ _ _ _ H).
  erewrite bind_ok
    by (eapply modify_run; [apply list_lookup_middle; reflexivity | reflexivity]).
  now rewrite insert_last.
Qed.

(** X23: the literals that are one or two tokens.  A hex and a binary
    literal are the [String] node of the bytes their digits decode to;
    an exclamation mark followed by an identifier is the [String] node
    of the text of the identifier, and followed by another token it is a
    parse error. *)
Theorem string_of_tokens (fuel : nat) (lex : Lexer) (tree : wpp.AST)
    (t : Token) (lex1 : Lexer) :
  next_token normal lex = Ok (t, lex1) ->
  (tok_is t TOKEN_HEX = true ->
   forall bytes, hex_string (view t) [] = Some bytes ->
     string fuel (lex, tree)
     = Ok (length tree, (lex1, tree ++ [wpp.String bytes])))
  /\ (tok_is t TOKEN_BIN = true ->
      forall bytes, bin_string (view t) [] = Some bytes ->
        string fuel (lex, tree)
        = Ok (length tree, (lex1, tree ++ [wpp.String bytes])))
  /\ (tok_is t TOKEN_EXCLAIM = true ->
      forall name lex2,
        next_token normal lex1 = Ok (name, lex2) ->
        (tok_is name TOKEN_IDENTIFIER = true ->
         string fuel (lex, tree)
         = Ok (length tree, (lex2, tree ++ [wpp.String (tok_str name)])))
        /\ (tok_is name TOKEN_IDENTIFIER = false ->
            string fuel (lex, tree)
            = Throw "expected an identifier to follow !.")).
Proof.
  intros Ht. repeat apply conj.
  - intros Hty bytes Hbytes. eapply string_literal; [exact Ht|].
    rewrite Hty. rewrite (bind_ok _ _ _ _ _ (advance_at _ _ _ _ _ _ _ Ht)).
    now rewrite Hbytes.
  - intros Hty bytes Hbytes. eapply string_literal; [exact Ht|].
    rewrite (tok_is_other _ _ TOKEN_HEX Hty) by discriminate.
    rewrite Hty. rewrite (bind_ok _ _ _ _ _ (advance_at _ _ _ _ _ _ _ Ht)).
    now rewrite Hbytes.
  - intros Hty name lex2 Hname. split; intros Hid.
    + eapply string_literal; [exact Ht|].
      rewrite (tok_is_other _ _ TOKEN_HEX Hty) by discriminate.
      rewrite (tok_is_other _ _ TOKEN_BIN Hty) by discriminate.
      rewrite (tok_is_other _ _ TOKEN_SMART Hty) by discriminate.
      rewrite Hty. unfold wpp.on_lexer, wpp.stringify_string. cbn [fst snd].
      unfold bind, wpp.ladvance, wpp.lpeek. rewrite Ht, Hname, Hid.
      cbn [negb]. now rewrite Hname.
    + subst string. unfold wpp.string. rewrite bind_add.
      rewrite (bind_ok _ _ _ _ _ (peek_at _ _ _ _ _ _ _ Ht)).
      rewrite (tok_is_other _ _ TOKEN_HEX Hty) by discriminate.
      rewrite (tok_is_other _ _ TOKEN_BIN Hty) by discriminate.
      rewrite (tok_is_other _ _ TOKEN_SMART Hty) by discriminate.
      rewrite Hty. erewrite bind_throw; [reflexivity|].
      unfold wpp.on_lexer, wpp.stringify_string. cbn [fst snd].
      unfold bind, wpp.ladvance, wpp.lpeek. now rewrite Ht, Hname, Hid.
Qed.

End StringNodes.

(** * Quoted strings, on the bytes of the source *)

Section Quoted.

Variable lex_normal : cstring -> outcome (Token * cstring).
Variable q : ascii.
Hypothesis q_quote : is_quote q = true.

Let loop := wpp.normal_loop cstring (byte_lexer lex_normal).

Lemma quote_not_eof : tok_is (quote_token q) TOKEN_EOF = false.
Proof. destruct (is_quote_cases q q_quote) as [-> | ->]; reflexivity. Qed.

Lemma chunk_not_quote (v : cstring) :
  same_token (mkToken TOKEN_CHAR v) (quote_token q) = false.
Proof. destruct (is_quote_cases q q_quote) as [-> | ->]; reflexivity. Qed.

Lemma no_quote_app (a b : cstring) :
  no_quote q (a ++ b) = true -> no_quote q b = true.
Proof.
  unfold no_quote. rewrite forallb_app. intros H.
  now apply andb_true_iff in H as [_ H].
Qed.

Lemma other_quote (c : ascii) :
  is_quote c = true -> Ascii.eqb c q = false ->
  same_token (quote_token c) (quote_token q) = false.
Proof. intros Hc Hne. now rewrite same_quote_token. Qed.

Lemma chunk_suffix (l : cstring) : exists pre, l = pre ++ snd (chunk l).
Proof. exists (fst (chunk l)). symmetry. apply chunk_app. Qed.

Lemma chunk_shorter (c : ascii) (l : cstring) :
  ends_chunk c = false -> length (snd (chunk (c :: l))) <= length l.
Proof.
  intros H. cbn [chunk]. rewrite H. cbn [snd]. apply chunk_length.
Qed.

(** One round of the loop of [normal_string] on a character of the
    content: a quote of the other kind, or a literal chunk. *)
Lemma normal_loop_round (fuel : nat) (c : ascii) (content str : cstring) :
  Ascii.eqb c "092" = false -> Ascii.eqb c q = false ->
  exists part left,
    c :: content = part ++ left /\ length left <= length content
    /\ loop (S fuel) (quote_token q) str (c :: content)
       = loop fuel (quote_token q) (str ++ part) left
    /\ forall tail t, ends_chunk t = true ->
         loop (S fuel) (quote_token q) str (c :: content ++ t :: tail)
         = loop fuel (quote_token q) (str ++ part) (left ++ t :: tail).
Proof.
  intros Hbs Hq. subst loop. destruct (is_quote c) eqn:Hc.
  - exists [c], content. repeat split; [lia| |].
    + cbn [wpp.normal_loop]. unfold bind at 1. unfold wpp.lpeek.
      cbn [byte_lexer]. rewrite lex_string_quote by assumption.
      rewrite (other_quote c Hc Hq). cbn [negb].
      replace (tok_is (quote_token c) TOKEN_EOF) with false
        by (destruct (is_quote_cases c Hc) as [-> | ->]; reflexivity).
      unfold bind at 1. unfold wpp.ladvance. cbn [byte_lexer].
      rewrite lex_string_quote by assumption. now rewrite accumulate_quote.
    + intros tail t Ht. cbn [wpp.normal_loop]. unfold bind at 1.
      unfold wpp.lpeek. cbn [byte_lexer].
      rewrite lex_string_quote by assumption.
      rewrite (other_quote c Hc Hq). cbn [negb].
      replace (tok_is (quote_token c) TOKEN_EOF) with false
        by (destruct (is_quote_cases c Hc) as [-> | ->]; reflexivity).
      unfold bind at 1. unfold wpp.ladvance. cbn [byte_lexer].
      rewrite lex_string_quote by assumption. now rewrite accumulate_quote.
  - assert (Hend : ends_chunk c = false)
      by (unfold ends_chunk; now rewrite Hbs, Hc).
    exists (fst (chunk (c :: content))), (snd (chunk (c :: content))).
    repeat split.
    + symmetry. apply chunk_app.
    + now apply chunk_shorter.
    + cbn [wpp.normal_loop]. unfold bind at 1. unfold wpp.lpeek.
      cbn [byte_lexer]. rewrite lex_string_chunk by assumption.
      rewrite chunk_not_quote. cbn [negb].
      change (tok_is _ TOKEN_EOF) with false. cbv iota.
      unfold bind at 1. unfold wpp.ladvance. cbn [byte_lexer].
      rewrite lex_string_chunk by assumption. now rewrite accumulate_chunk.
    + intros tail t Ht. cbn [wpp.normal_loop]. unfold bind at 1.
      unfold wpp.lpeek. cbn [byte_lexer].
      rewrite lex_string_chunk by assumption.
      change (c :: content ++ t :: tail) with ((c :: content) ++ t :: tail).
      rewrite chunk_split by assumption. cbn [fst snd].
      rewrite chunk_not_quote. cbn [negb].
      change (tok_is _ TOKEN_EOF) with false. cbv iota.
      unfold bind at 1. unfold wpp.ladvance. cbn [byte_lexer].
      change ((c :: content) ++ t :: tail) with (c :: content ++ t :: tail).
      rewrite lex_string_chunk by assumption.
      change (c :: content ++ t :: tail) with ((c :: content) ++ t :: tail).
      rewrite chunk_split by assumption. cbn [fst snd].
      now rewrite accumulate_chunk.
Qed.

Lemma content_head (c : ascii) (content : cstring) :
  no_backslash (c :: content) = true -> no_quote q (c :: content) = true ->
  Ascii.eqb c "092" = false /\ Ascii.eqb c q = false
  /\ no_backslash content = true /\ no_quote q content = true.
Proof.
  unfold no_backslash, no_quote. cbn [forallb]. intros H1 H2.
  apply andb_true_iff in H1 as [H1 H1']. apply andb_true_iff in H2 as [H2 H2'].
  apply negb_true_iff in H1, H2. auto.
Qed.

Lemma content_suffix (part left content : cstring) :
  content = part ++ left ->
  no_backslash content = true -> no_quote q content = true ->
  no_backslash left = true /\ no_quote q left = true.
Proof.
  intros -> H1 H2. split; [now apply (no_backslash_app part) | now apply (no_quote_app part)].
Qed.

(** The loop of [normal_string] over a content without backslash and
    without the quote that opened the string, up to that quote. *)
Lemma normal_loop_closed (fuel : nat) (content str rest : cstring) :
  length content < fuel ->
  no_backslash content = true -> no_quote q content = true ->
  loop fuel (quote_token q) str (content ++ q :: rest)
  = Ok (str ++ content, q :: rest).
Proof.
  revert content str. induction fuel as [|fuel IH];
    intros content str Hlen Hbs Hnq; [lia|].
  assert (Hclose : ends_chunk q = true)
    by (unfold ends_chunk; now rewrite q_quote, orb_true_r).
  destruct content as [|c content].
  - subst loop. cbn [app wpp.normal_loop]. unfold bind, wpp.lpeek.
    cbn [byte_lexer]. rewrite lex_string_quote by assumption.
    rewrite same_quote_token, Ascii.eqb_refl by assumption.
    now rewrite app_nil_r.
  - destruct (content_head _ _ Hbs Hnq) as (Hcb & Hcq & Hbs' & Hnq').
    destruct (normal_loop_round fuel c content str Hcb Hcq)
      as (part & left & Hsplit & Hshort & _ & Hstep).
    destruct (content_suffix _ _ _ Hsplit Hbs Hnq) as [Hbl Hnl].
    cbn [app]. rewrite (Hstep rest q Hclose).
    rewrite IH by (try assumption; cbn [length] in Hlen; lia).
    now rewrite <- List.app_assoc, <- Hsplit.
Qed.

(** The same when the input ends before that quote comes. *)
Lemma normal_loop_open (fuel : nat) (content str : cstring) :
  length content < fuel ->
  no_backslash content = true -> no_quote q content = true ->
  loop fuel (quote_token q) str content
  = Throw "reached EOF while parsing string.".
Proof.
  revert content str. induction fuel as [|fuel IH];
    intros content str Hlen Hbs Hnq; [lia|].
  destruct content as [|c content].
  - subst loop. cbn [wpp.normal_loop]. unfold bind, wpp.lpeek.
    cbn [byte_lexer lex_string_mode].
    replace (same_token (mkToken TOKEN_EOF []) (quote_token q)) with false
      by (destruct (is_quote_cases q q_quote) as [-> | ->]; reflexivity).
    reflexivity.
  - destruct (content_head _ _ Hbs Hnq) as (Hcb & Hcq & Hbs' & Hnq').
    destruct (normal_loop_round fuel c content str Hcb Hcq)
      as (part & left & Hsplit & Hshort & Hstep & _).
    destruct (content_suffix _ _ _ Hsplit Hbs Hnq) as [Hbl Hnl].
    rewrite Hstep. apply IH; try assumption. cbn [length] in Hlen. lia.
Qed.

(** X24: a quoted string, on the bytes of the source.  A content
    without backslash and without the quote that opens the string is
    taken as it is, a quote of the other kind included, up to the quote
    that closes the string; that quote is then read in normal mode.
    When the input ends before the closing quote, it is a parse
    error. *)
Theorem normal_string_content (fuel : nat) (content rest : cstring) :
  length content < fuel ->
  no_backslash content = true -> no_quote q content = true ->
  (forall closing rest',
     lex_normal (q :: rest) = Ok (closing, rest') ->
     wpp.normal_string cstring (byte_lexer lex_normal) fuel []
       (q :: content ++ q :: rest)
     = Ok (content, rest'))
  /\ wpp.normal_string cstring (byte_lexer lex_normal) fuel [] (q :: content)
     = Throw "reached EOF while parsing string.".
Proof.
  intros Hlen Hbs Hnq. split.
  - intros closing rest' Hclosing. unfold wpp.normal_string.
    unfold bind at 1. unfold wpp.ladvance at 1. cbn [byte_lexer].
    rewrite lex_string_quote by assumption.
    fold loop. rewrite (bind_ok _ _ _ _ _
                          (normal_loop_closed fuel content [] rest Hlen Hbs Hnq)).
    unfold bind, wpp.ladvance. cbn [byte_lexer app]. now rewrite Hclosing.
  - unfold wpp.normal_string.
    unfold bind at 1. unfold wpp.ladvance at 1. cbn [byte_lexer].
    rewrite lex_string_quote by assumption.
    fold loop. now rewrite (bind_throw _ _ _ _
                              (normal_loop_open fuel content [] Hlen Hbs Hnq)).
Qed.

End Quoted.

(** * Smart strings that do not end *)

Section Unterminated.

Variable lex_normal : cstring -> outcome (Token * cstring).
Variable is_whitespace : ascii -> bool.
Variables (str_type delim q : ascii).
Hypothesis q_quote : is_quote q = true.

Let loop := wpp.smart_loop cstring (byte_lexer lex_normal).

Lemma never_closed_app (a b : cstring) :
  never_closed q delim (a ++ b) = true -> never_closed q delim b = true.
Proof.
  induction a as [|c a IH]; [auto|]. cbn [app never_closed].
  intros H. apply andb_true_iff in H as [_ H]. auto.
Qed.

Lemma smart_loop_open (fuel : nat) (content str : cstring) :
  length content < fuel ->
  no_backslash content = true ->
  never_closed q delim content = true ->
  loop fuel str_type delim (quote_token q) str content
  = Throw "reached EOF while parsing string.".
Proof.
  revert content str. induction fuel as [|fuel IH];
    intros content str Hlen Hbs Hnc; [lia|].
  destruct content as [|c content].
  - reflexivity.
  - cbn [length] in Hlen. cbn [never_closed] in Hnc.
    apply andb_true_iff in Hnc as [Hc Hnc]. apply negb_true_iff in Hc.
    unfold no_backslash in Hbs. cbn [forallb] in Hbs.
    apply andb_true_iff in Hbs as [Hcb Hbs]. apply negb_true_iff in Hcb.
    destruct (is_quote c) eqn:Hq.
    + subst loop. cbn [wpp.smart_loop].
      unfold bind at 1. unfold wpp.lpeek. cbn [byte_lexer].
      rewrite lex_string_quote by assumption.
      replace (tok_is (quote_token c) TOKEN_EOF) with false
        by (destruct (is_quote_cases c Hq) as [-> | ->]; reflexivity).
      rewrite same_quote_token by assumption.
      destruct (Ascii.eqb c q) eqn:Ecq.
      * unfold bind at 1. unfold wpp.ladvance. cbn [byte_lexer].
        rewrite lex_string_quote by assumption.
        unfold bind at 1. unfold wpp.lpeek. cbn [byte_lexer].
        rewrite andb_true_l in Hc. rewrite accumulate_quote.
        destruct content as [|d content].
        -- cbn [lex_character_mode view view_is].
           apply IH; [cbn [length] in *; lia | reflexivity | reflexivity].
        -- cbn [lex_character_mode view view_is]. rewrite Hc.
           apply IH; [lia | assumption | assumption].
      * unfold bind at 1. unfold wpp.ladvance. cbn [byte_lexer].
        rewrite lex_string_quote by assumption.
        rewrite accumulate_quote.
        apply IH; [lia | assumption | assumption].
    + assert (Hend : ends_chunk c = false)
        by (unfold ends_chunk; now rewrite Hcb, Hq).
      subst loop. cbn [wpp.smart_loop].
      unfold bind at 1. unfold wpp.lpeek. cbn [byte_lexer].
      rewrite lex_string_chunk by assumption.
      change (tok_is _ TOKEN_EOF) with false. cbv iota.
      replace (same_token _ (quote_token q)) with false
        by (destruct (is_quote_cases q q_quote) as [-> | ->]; reflexivity).
      cbv iota.
      unfold bind at 1. unfold wpp.ladvance. cbn [byte_lexer].
      rewrite lex_string_chunk by assumption.
      pose proof (chunk_app (c :: content)) as Happ.
      pose proof (chunk_shorter c content Hend) as Hle.
      apply IH.
      * lia.
      * apply (no_backslash_app (fst (chunk (c :: content)))).
        rewrite Happ. unfold no_backslash. cbn [forallb].
        now rewrite Hcb, Hbs.
      * apply (never_closed_app (fst (chunk (c :: content)))).
        rewrite Happ. cbn [never_closed]. now rewrite Hc, Hnc.
Qed.

(** X25: a smart string that is not closed (no quote of its content,
    which holds no backslash, is directly followed by the delimiter
    byte) is a parse error, at the end of the input. *)
Theorem smart_string_unterminated (dtail content input : cstring)
    (fuel : nat) :
  lex_normal input
  = Ok (mkToken TOKEN_SMART (str_type :: delim :: dtail), q :: content) ->
  no_backslash content = true ->
  never_closed q delim content = true ->
  length content < fuel ->
  wpp.smart_string cstring (byte_lexer lex_normal) is_whitespace fuel [] input
  = Throw "reached EOF while parsing string.".
Proof.
  intros Hopen Hbs Hnc Hfuel. unfold wpp.smart_string.
  unfold bind at 1. unfold wpp.ladvance at 1. cbn [byte_lexer].
  rewrite Hopen. cbn [view].
  unfold bind at 1. unfold wpp.ladvance at 1. cbn [byte_lexer].
  rewrite lex_string_quote by assumption.
  fold loop. now rewrite (bind_throw _ _ _ _ (smart_loop_open fuel content [] Hfuel Hbs Hnc)).
Qed.

End Unterminated.
(** * The links of the tree stay in the tree *)

Section EnsureRules.

Context {S : Type}.

Lemma ensures_ret {A} (a : A) (s : S) (Q : A -> S -> Prop) :
  Q a s -> ensures (ret a) s Q.
Proof. intros H. exact H. Qed.

Lemma ensures_bind {A B} (m : ST S A) (k : A -> ST S B) (s : S)
    (Q : B -> S -> Prop) :
  ensures m s (fun a s1 => ensures (k a) s1 Q) -> ensures (bind m k) s Q.
Proof.
  unfold ensures, bind. destruct (m s) as [[a s1]| | |]; intros H; exact H.
Qed.

Lemma ensures_weaken {A} (m : ST S A) (s : S) (Q Q' : A -> S -> Prop) :
  ensures m s Q -> (forall a s', Q a s' -> Q' a s') -> ensures m s Q'.
Proof.
  unfold ensures. destruct (m s) as [[a s1]| | |]; intros H HQ;
    [now apply HQ | exact I | exact I | exact I].
Qed.

Lemma ensures_lift {A} (o : outcome A) (s : S) (Q : A -> S -> Prop) :
  (forall a, Q a s) -> ensures (lift o) s Q.
Proof. intros H. unfold ensures, lift. destruct o; [apply H | exact I ..]. Qed.

Lemma ensures_returned {A} (m : ST S A) (s : S) (Q : A -> S -> Prop) a s' :
  ensures m s Q -> m s = Ok (a, s') -> Q a s'.
Proof. unfold ensures. intros H E. now rewrite E in H. Qed.

End EnsureRules.

Section LinkFacts.

Variable NODE_EMPTY : wpp.node_t.

Lemma closed_mono (lo hi lo' hi' : nat) (n : wpp.node) :
  lo' <= lo -> hi <= hi' ->
  closed NODE_EMPTY lo hi n -> closed NODE_EMPTY lo' hi' n.
Proof.
  intros Hlo Hhi H. unfold closed in *.
  eapply Forall_impl; [exact H|]. intros j Hj. cbn beta in *. lia.
Qed.

Lemma closed_from_fresh (tree : wpp.AST) :
  closed_from NODE_EMPTY (length tree) tree.
Proof.
  intros i n Hi Hl. apply lookup_lt_Some in Hl. lia.
Qed.

Lemma take_all_length {A} (t t' : list A) :
  take (length t) t' = t -> length t <= length t'.
Proof.
  intros H. apply (f_equal (@length A)) in H. rewrite length_take in H. lia.
Qed.

Lemma take_all_lookup {A} (t t' : list A) (i : nat) (x : A) :
  take (length t) t' = t -> t !! i = Some x -> t' !! i = Some x.
Proof.
  intros H Hl. pose proof (lookup_lt_Some _ _ _ Hl) as Hi.
  rewrite <- H in Hl. now rewrite lookup_take_lt in Hl by lia.
Qed.

(** Nodes made after a closed part, and closed among themselves. *)
Lemma closed_from_app (lo : nat) (t t' : wpp.AST) :
  closed_from NODE_EMPTY lo t -> lo <= length t ->
  take (length t) t' = t ->
  closed_from NODE_EMPTY (length t) t' ->
  closed_from NODE_EMPTY lo t'.
Proof.
  intros Ht Hlo Htake Hnew i n Hi Hl.
  pose proof (take_all_length _ _ Htake) as Hlen.
  destruct (decide (i < length t)) as [Hlt|Hge].
  - apply (closed_mono lo (length t)); [lia | lia |].
    apply (Ht i); [lia|]. rewrite <- Htake. now rewrite lookup_take_lt by lia.
  - apply (closed_mono (length t) (length t')); [lia | lia |].
    apply (Hnew i); [lia | assumption].
Qed.

Lemma closed_from_insert (lo i : nat) (o : wpp.node) (t : wpp.AST) :
  closed_from NODE_EMPTY lo t -> closed NODE_EMPTY lo (length t) o ->
  closed_from NODE_EMPTY lo (<[i := o]> t).
Proof.
  intros Ht Ho j n Hj Hl. rewrite length_insert.
  destruct (decide (i = j)) as [->|Hne].
  - rewrite list_lookup_insert_eq in Hl by (apply lookup_lt_Some in Hl;
      now rewrite length_insert in Hl).
    now injection Hl as <-.
  - rewrite list_lookup_insert_ne in Hl by assumption. now apply (Ht j).
Qed.

Lemma closed_from_insert_below (lo i : nat) (o : wpp.node) (t : wpp.AST) :
  i < lo -> closed_from NODE_EMPTY lo t ->
  closed_from NODE_EMPTY lo (<[i := o]> t).
Proof.
  intros Hi Ht j n Hj Hl. rewrite length_insert.
  rewrite list_lookup_insert_ne in Hl by lia. now apply (Ht j).
Qed.

Lemma closed_from_snoc (lo : nat) (n : wpp.node) (t : wpp.AST) :
  closed_from NODE_EMPTY lo t -> closed NODE_EMPTY lo (S (length t)) n ->
  closed_from NODE_EMPTY lo (t ++ [n]).
Proof.
  intros Ht Hn j x Hj Hl. rewrite length_app, Nat.add_1_r.
  destruct (decide (j < length t)) as [Hlt|Hge].
  - rewrite lookup_app_l in Hl by assumption.
    apply (closed_mono lo (length t)); [lia | lia | now apply (Ht j)].
  - pose proof (lookup_lt_Some _ _ _ Hl) as Hlen.
    rewrite length_app, Nat.add_1_r in Hlen.
    assert (j = length t) as -> by lia.
    rewrite list_lookup_middle in Hl by reflexivity. now injection Hl as <-.
Qed.

(** A part closed up to [node], the node [node], and the nodes after
    it. *)
Lemma closed_from_join (lo node : nat) (t : wpp.AST) :
  lo <= node ->
  closed_from NODE_EMPTY lo (take node t) ->
  closed_from NODE_EMPTY (S node) t ->
  (forall o, t !! node = Some o -> closed NODE_EMPTY lo (length t) o) ->
  closed_from NODE_EMPTY lo t.
Proof.
  intros Hlo Hbefore Hafter Hnode i n Hi Hl.
  pose proof (lookup_lt_Some _ _ _ Hl) as Hlen.
  destruct (lt_eq_lt_dec i node) as [[Hlt| ->]|Hgt].
  - apply (closed_mono lo (length (take node t))); [lia | rewrite length_take; lia |].
    apply (Hbefore i); [lia|]. now rewrite lookup_take_lt by lia.
  - now apply Hnode.
  - apply (closed_mono (S node) (length t)); [lia | lia |].
    now apply (Hafter i).
Qed.

Lemma filling_add (n : wpp.node) (t : wpp.AST) :
  filling NODE_EMPTY (length t) n (t ++ [n]).
Proof.
  split; [now apply list_lookup_middle|].
  replace (S (length t)) with (length (t ++ [n]))
    by (rewrite length_app; simpl; lia).
  apply closed_from_fresh.
Qed.

Lemma filling_length (node : nat) (o : wpp.node) (t : wpp.AST) :
  filling NODE_EMPTY node o t -> node < length t.
Proof. intros [Hl _]. now apply lookup_lt_Some in Hl. Qed.

Lemma filling_call (node : nat) (o : wpp.node) (t t' : wpp.AST) :
  filling NODE_EMPTY node o t ->
  take (length t) t' = t -> closed_from NODE_EMPTY (length t) t' ->
  filling NODE_EMPTY node o t'.
Proof.
  intros [Hl Hc] Htake Hnew. split.
  - now apply (take_all_lookup t).
  - apply (closed_from_app _ t); try assumption.
    apply lookup_lt_Some in Hl. lia.
Qed.

Lemma filling_modify (node : nat) (o o' : wpp.node) (t : wpp.AST) :
  filling NODE_EMPTY node o t ->
  filling NODE_EMPTY node o' (<[node := o']> t).
Proof.
  intros [Hl Hc]. split.
  - apply list_lookup_insert_eq. now apply lookup_lt_Some in Hl.
  - apply closed_from_insert_below; [lia | assumption].
Qed.

Lemma filling_close (node : nat) (o : wpp.node) (t : wpp.AST) :
  filling NODE_EMPTY node o t -> closed NODE_EMPTY node (length t) o ->
  closed_from NODE_EMPTY node t.
Proof.
  intros [Hl Hc] Ho. apply (closed_from_join node node); [lia | | assumption |].
  - intros i n Hi Hli. apply lookup_lt_Some in Hli.
    rewrite length_take in Hli. lia.
  - intros o' Ho'. rewrite Hl in Ho'. now injection Ho' as <-.
Qed.

(** What a node that is closed was given. *)
Lemma closed_from_lookup (node : nat) (o : wpp.node) (t : wpp.AST) :
  closed_from NODE_EMPTY node t -> t !! node = Some o ->
  closed NODE_EMPTY node (length t) o.
Proof. intros Hc Ho. now apply (Hc node). Qed.

End LinkFacts.

Section Closed.

Variable Lexer : Type.
Variable next_token : mode -> Lexer -> outcome (Token * Lexer).
Variable is_whitespace : ascii -> bool.
Variable NODE_EMPTY : wpp.node_t.

Lemma ensures_on_lexer {A} (m : ST Lexer A) (lex : Lexer) (tree : wpp.AST)
    (Q : A -> Lexer * wpp.AST -> Prop) :
  (forall a lex', Q a (lex', tree)) ->
  ensures (wpp.on_lexer Lexer m) (lex, tree) Q.
Proof.
  intros H. unfold ensures, wpp.on_lexer. cbn [fst snd].
  destruct (m lex) as [[a lex']| | |]; [apply H | exact I ..].
Qed.

Lemma ensures_add (n : wpp.node) (lex : Lexer) (tree : wpp.AST)
    (Q : wpp.node_t -> Lexer * wpp.AST -> Prop) :
  Q (length tree) (lex, tree ++ [n]) ->
  ensures (wpp.add Lexer n) (lex, tree) Q.
Proof. intros H. exact H. Qed.

Lemma ensures_modify (i : wpp.node_t) (f : wpp.node -> option wpp.node)
    (lex : Lexer) (tree : wpp.AST) (Q : unit -> Lexer * wpp.AST -> Prop) :
  (forall o o',
     tree !! i = Some o -> f o = Some o' -> Q tt (lex, <[i := o']> tree)) ->
  ensures (wpp.modify Lexer i f) (lex, tree) Q.
Proof.
  intros H. unfold ensures, wpp.modify. cbn [fst snd].
  destruct (tree !! i) as [o|] eqn:E; [|exact I].
  destruct (f o) as [o'|] eqn:E'; [|exact I]. now apply (H o o').
Qed.

(** A call of a function that builds a node. *)
Lemma ensures_call (m : wpp.P Lexer wpp.node_t) (lex : Lexer)
    (tree : wpp.AST) (Q : wpp.node_t -> Lexer * wpp.AST -> Prop) :
  builds Lexer NODE_EMPTY m -> (forall L, wpp.frame Lexer L m) ->
  (forall a lex' tree',
     take (length tree) tree' = tree ->
     length tree <= a < length tree' ->
     closed_from NODE_EMPTY (length tree) tree' ->
     Q a (lex', tree')) ->
  ensures m (lex, tree) Q.
Proof.
  intros Hb Hf HQ. specialize (Hb (lex, tree)). unfold ensures in *.
  destruct (m (lex, tree)) as [[a [lex' tree']]| | |] eqn:E; try exact I.
  cbn [fst snd] in Hb. destruct Hb as [Ha Hc].
  destruct (Hf (length tree) _ _ _ E (le_n _)) as [Ht _]. cbn [snd] in Ht.
  rewrite firstn_all in Ht. now apply HQ.
Qed.

(** A call while the node [node] is being filled. *)
Lemma ensures_fill_call (node : wpp.node_t) (o : wpp.node)
    (m : wpp.P Lexer wpp.node_t) (lex : Lexer) (tree : wpp.AST)
    (Q : wpp.node_t -> Lexer * wpp.AST -> Prop) :
  builds Lexer NODE_EMPTY m -> (forall L, wpp.frame Lexer L m) ->
  filling NODE_EMPTY node o tree ->
  (forall a lex' tree',
     filling NODE_EMPTY node o tree' ->
     take (length tree) tree' = tree ->
     length tree <= a < length tree' ->
     Q a (lex', tree')) ->
  ensures m (lex, tree) Q.
Proof.
  intros Hb Hf Hfill HQ. apply ensures_call; try assumption.
  intros a lex' tree' Htake Ha Hnew. apply HQ; try assumption.
  now apply (filling_call NODE_EMPTY node o tree).
Qed.

(** A call while the nodes from [node] on are closed. *)
Lemma ensures_closed_call (node : wpp.node_t)
    (m : wpp.P Lexer wpp.node_t) (lex : Lexer) (tree : wpp.AST)
    (Q : wpp.node_t -> Lexer * wpp.AST -> Prop) :
  builds Lexer NODE_EMPTY m -> (forall L, wpp.frame Lexer L m) ->
  closed_from NODE_EMPTY node tree -> node <= length tree ->
  (forall a lex' tree',
     closed_from NODE_EMPTY node tree' ->
     take (length tree) tree' = tree ->
     length tree <= a < length tree' ->
     Q a (lex', tree')) ->
  ensures m (lex, tree) Q.
Proof.
  intros Hb Hf Hc Hnode HQ. apply ensures_call; try assumption.
  intros a lex' tree' Htake Ha Hnew. apply HQ; try assumption.
  now apply (closed_from_app NODE_EMPTY node tree).
Qed.

Lemma ensures_fill_modify (node : wpp.node_t)
    (f : wpp.node -> option wpp.node) (lex : Lexer) (tree : wpp.AST)
    (Q : unit -> Lexer * wpp.AST -> Prop) (o : wpp.node) :
  filling NODE_EMPTY node o tree ->
  (forall o',
     f o = Some o' -> filling NODE_EMPTY node o' (<[node := o']> tree) ->
     Q tt (lex, <[node := o']> tree)) ->
  ensures (wpp.modify Lexer node f) (lex, tree) Q.
Proof.
  intros Hfill HQ. apply ensures_modify. intros o1 o' Ho1 Ho'.
  destruct Hfill as [Ho Hc]. rewrite Ho in Ho1. injection Ho1 as <-.
  apply HQ; [assumption|]. now apply (filling_modify NODE_EMPTY node o).
Qed.

Lemma ensures_closed_modify (node : wpp.node_t)
    (f : wpp.node -> option wpp.node) (lex : Lexer) (tree : wpp.AST)
    (Q : unit -> Lexer * wpp.AST -> Prop) :
  closed_from NODE_EMPTY node tree ->
  (forall o o',
     closed NODE_EMPTY node (length tree) o -> f o = Some o' ->
     closed NODE_EMPTY node (length tree) o') ->
  (forall o',
     closed_from NODE_EMPTY node (<[node := o']> tree) ->
     Q tt (lex, <[node := o']> tree)) ->
  ensures (wpp.modify Lexer node f) (lex, tree) Q.
Proof.
  intros Hc Hf HQ. apply ensures_modify. intros o o' Ho Ho'.
  apply HQ. apply closed_from_insert; [assumption|].
  apply (Hf o); [|assumption]. now apply (closed_from_lookup NODE_EMPTY node o).
Qed.

(** The lengths, as numbers. *)
Ltac lens :=
  cbn [fst snd] in *;
  rewrite ?length_insert, ?length_app in *; cbn [length] in *.

(** A [modify] that adds links in the tree to a closed node leaves it
    closed. *)
Ltac links_ok :=
  let o := fresh "o" in
  let o' := fresh "o'" in
  let Hcl := fresh "Hcl" in
  let E := fresh "E" in
  intros o o' Hcl E; destruct o; try discriminate E; injection E as <-;
  unfold closed in *; cbn [links flat_map app] in *;
  rewrite ?flat_map_app in *; cbn [flat_map app fst snd] in *;
  rewrite ?Nat.eqb_refl in *;
  repeat (progress rewrite ?Forall_app, ?Forall_cons, ?Forall_nil in * );
  lens;
  repeat match goal with
         | |- context [if ?b then _ else _] => destruct b
         end;
  repeat (progress rewrite ?Forall_cons, ?Forall_nil in * );
  intuition lia.

(** One step of the parser's code. *)
Ltac wp :=
  lazymatch goal with
  | |- ensures (bind _ _) _ _ => apply ensures_bind
  | |- ensures (ret _) _ _ => apply ensures_ret
  | |- ensures (throw _) _ _ => exact I
  | |- ensures timeout _ _ => exact I
  | |- ensures undefined _ _ => exact I
  | |- ensures (lift _) _ _ => apply ensures_lift; intros ?
  | |- ensures (wpp.peek _ _ _) (_, _) _ => apply ensures_on_lexer; intros ? ?
  | |- ensures (wpp.advance _ _ _) (_, _) _ =>
      apply ensures_on_lexer; intros ? ?
  | |- ensures (wpp.on_lexer _ _) (_, _) _ =>
      apply ensures_on_lexer; intros ? ?
  | |- ensures (wpp.add _ ?n) (_, ?t) _ =>
      apply ensures_add; pose proof (filling_add NODE_EMPTY n t)
  | |- ensures (if ?b then _ else _) _ _ => destruct b eqn:?
  end.

(** What a [modify] made of the node it found. *)
Ltac modified :=
  lazymatch goal with
  | Hf : filling _ ?node ?o ?t |- ensures (wpp.modify _ ?node _) (_, ?t) _ =>
      apply (ensures_fill_modify node _ _ t _ o Hf);
      let o' := fresh "o'" in
      let E := fresh "E" in
      intros o' E; clear Hf; intros Hf;
      first [ injection E as <-
            | destruct o; try discriminate E; injection E as <- ]
  | Hc : closed_from _ ?node ?t |- ensures (wpp.modify _ ?node _) (_, ?t) _ =>
      apply (ensures_closed_modify node _ _ t _ Hc);
      [ links_ok | clear Hc; intros ? Hc ]
  | |- ensures (wpp.modify _ _ _) (_, _) _ =>
      apply ensures_modify;
      let o := fresh "o" in
      let o' := fresh "o'" in
      let Ho := fresh "Ho" in
      let Ho' := fresh "Ho'" in
      intros o o' Ho Ho';
      destruct o; try discriminate Ho'; injection Ho' as <-
  end.

(** The node of a concatenation is made after its left operand. *)
Lemma concat_closed (t t0 t1 : wpp.AST) (lhs rhs : wpp.node_t)
    (c : wpp.node) :
  take (length t) t0 = t -> length t <= lhs < length t0 ->
  closed_from NODE_EMPTY (length t) t0 ->
  take (length (t0 ++ [c])) t1 = t0 ++ [c] ->
  length (t0 ++ [c]) <= rhs < length t1 ->
  filling NODE_EMPTY (length t0) (wpp.Concat lhs rhs)
    (<[length t0 := wpp.Concat lhs rhs]> t1) ->
  length t <= length t0 < length t1
  /\ closed_from NODE_EMPTY (length t)
       (<[length t0 := wpp.Concat lhs rhs]> t1).
Proof.
  intros Htake Hl Hnew Htake' Hr [Hnode Hafter].
  pose proof (take_all_length _ _ Htake) as Hlen.
  pose proof (take_all_length _ _ Htake') as Hlen'.
  lens. split; [lia|].
  apply (closed_from_join NODE_EMPTY _ (length t0)); [lia | | assumption |].
  - rewrite take_insert_ge by lia.
    replace (take (length t0) t1) with t0; [assumption|].
    replace (length t0) with (length t0 `min` (length t0 + 1)) at 1 by lia.
    rewrite <- take_take, Htake'. now rewrite take_app_length.
  - intros o Ho. rewrite Hnode in Ho. injection Ho as <-.
    repeat constructor; lens; lia.
Qed.

(** The node made first is filled. *)
Lemma filled (t t' : wpp.AST) (o : wpp.node) :
  filling NODE_EMPTY (length t) o t' ->
  closed NODE_EMPTY (length t) (length t') o ->
  length t <= length t < length t'
  /\ closed_from NODE_EMPTY (length t) t'.
Proof.
  intros Hf Hc. split.
  - split; [lia | now apply (filling_length NODE_EMPTY _ o)].
  - now apply (filling_close NODE_EMPTY _ o).
Qed.

(** The node made first is filled, and its links are in the tree. *)
Ltac finish :=
  cbn [fst snd]; eapply filled;
  [ eassumption
  | unfold closed; cbn [links]; repeat constructor; lens; lia ].

Lemma string_builds (n : nat) :
  builds Lexer NODE_EMPTY (wpp.string Lexer next_token is_whitespace n).
Proof.
  intros [lex t]. unfold wpp.string. repeat first [wp | modified].
  all: eapply (filled t); [eassumption | constructor].
Qed.

(** The parameters of [let] are names: its loop leaves the links as
    they are. *)
Lemma let_params_keeps (n : nat) (node : wpp.node_t) (lex : Lexer)
    (t : wpp.AST) (o : wpp.node) :
  filling NODE_EMPTY node o t ->
  ensures (wpp.let_params Lexer next_token n node) (lex, t)
    (fun _ s' => exists o', filling NODE_EMPTY node o' (snd s')
                            /\ length (snd s') = length t).
Proof.
  revert lex t o. induction n as [|n IH]; intros lex t o Ht; [exact I|].
  cbn [wpp.let_params]. repeat first [wp | modified]; try (now exists o).
  all: match goal with
       | |- ensures (wpp.let_params _ _ _ _) _ _ =>
           eapply ensures_weaken;
           [ eapply IH; eassumption
           | intros _ [lx tx] (ox & Hox & Hlen); exists ox;
             split; [exact Hox|]; cbn [snd] in *;
             now rewrite Hlen, length_insert ]
       end.
Qed.

Lemma let_parameter_list_keeps (n : nat) (node : wpp.node_t) (lex : Lexer)
    (t : wpp.AST) (o : wpp.node) :
  filling NODE_EMPTY node o t ->
  ensures (wpp.let_parameter_list Lexer next_token n node) (lex, t)
    (fun _ s' => exists o', filling NODE_EMPTY node o' (snd s')
                            /\ length (snd s') = length t).
Proof.
  intros Ht. unfold wpp.let_parameter_list. repeat wp; try (now exists o).
  eapply ensures_weaken; [eapply let_params_keeps, Ht|].
  intros _ [lx tx] (ox & Hox & Hlen). cbn [snd] in *.
  repeat wp. now exists ox.
Qed.


Let expression := wpp.expression Lexer next_token is_whitespace NODE_EMPTY.
Let let_ := wpp.let_ Lexer next_token is_whitespace NODE_EMPTY.
Let var := wpp.var Lexer next_token is_whitespace NODE_EMPTY.
Let codeify := wpp.codeify Lexer next_token is_whitespace NODE_EMPTY.
Let drop := wpp.drop Lexer next_token is_whitespace NODE_EMPTY.
Let fninvoke_args := wpp.fninvoke_args Lexer next_token is_whitespace NODE_EMPTY.
Let fninvoke := wpp.fninvoke Lexer next_token is_whitespace NODE_EMPTY.
Let prefix_stmts := wpp.prefix_stmts Lexer next_token is_whitespace NODE_EMPTY.
Let prefix := wpp.prefix Lexer next_token is_whitespace NODE_EMPTY.
Let block_stmts := wpp.block_stmts Lexer next_token is_whitespace NODE_EMPTY.
Let block := wpp.block Lexer next_token is_whitespace NODE_EMPTY.
Let map_arms := wpp.map_arms Lexer next_token is_whitespace NODE_EMPTY.
Let map := wpp.map Lexer next_token is_whitespace NODE_EMPTY.
Let statement := wpp.statement Lexer next_token is_whitespace NODE_EMPTY.

(** A call of a function that builds a node, known to do so. *)
Ltac call :=
  let a := fresh "a" in
  let lx := fresh "lex" in
  let tx := fresh "t" in
  let Htake := fresh "Htake" in
  let Ha := fresh "Ha" in
  lazymatch goal with
  | Hf : filling _ ?node ?o ?t |- ensures ?m (_, ?t) _ =>
      apply (ensures_fill_call node o m _ t);
      [assumption | assumption | exact Hf | ];
      clear Hf; intros a lx tx Hf Htake Ha;
      pose proof (take_all_length _ _ Htake)
  | Hc : closed_from _ ?node ?t |- ensures ?m (_, ?t) _ =>
      apply (ensures_closed_call node m _ t);
      [assumption | assumption | exact Hc | lens; lia | ];
      clear Hc; intros a lx tx Hc Htake Ha;
      pose proof (take_all_length _ _ Htake)
  | |- ensures ?m (_, _) _ =>
      apply (ensures_call m); [assumption | assumption | ];
      let Hnew := fresh "Hnew" in
      intros a lx tx Htake Ha Hnew;
      pose proof (take_all_length _ _ Htake)
  end.

Ltac run := repeat first [wp | modified | call].

(** A loop that keeps the nodes closed, met on the way. *)
Ltac loop H :=
  lazymatch goal with
  | Hc : closed_from _ ?node ?t |- ensures _ (_, ?t) _ =>
      eapply ensures_weaken;
      [ apply (H node); [lens; lia | exact Hc] | ];
      let lx := fresh "lex" in
      let tx := fresh "t" in
      let Hlen := fresh "Hlen" in
      clear Hc; intros _ [lx tx] [Hlen Hc]; cbn [snd] in Hlen, Hc
  end.

(** A turn more of a loop that keeps the nodes closed. *)
Ltac again H :=
  eapply ensures_weaken;
  [ apply H; [lens; lia | lens; assumption]
  | let s' := fresh "s" in
    let Hlen := fresh "Hlen" in
    let Hc := fresh "Hc" in
    intros _ s' [Hlen Hc]; split; [lens; lia | exact Hc] ].

Lemma parser_builds (n : nat) :
  builds Lexer NODE_EMPTY (expression n)
  /\ builds Lexer NODE_EMPTY (let_ n)
  /\ builds Lexer NODE_EMPTY (var n)
  /\ builds Lexer NODE_EMPTY (codeify n)
  /\ builds Lexer NODE_EMPTY (drop n)
  /\ (forall node, keeps Lexer NODE_EMPTY node (fninvoke_args n node))
  /\ builds Lexer NODE_EMPTY (fninvoke n)
  /\ (forall node, keeps Lexer NODE_EMPTY node (prefix_stmts n node))
  /\ builds Lexer NODE_EMPTY (prefix n)
  /\ (forall node lex t stmts e,
        filling NODE_EMPTY node (wpp.Block stmts e) t ->
        Forall (fun j => node < j < length t) stmts ->
        ensures (block_stmts n node) (lex, t)
          (fun _ s' =>
             length t <= length (snd s')
             /\ exists stmts',
                  filling NODE_EMPTY node (wpp.Block stmts' e) (snd s')
                  /\ Forall (fun j => node < j < length (snd s')) stmts'))
  /\ builds Lexer NODE_EMPTY (block n)
  /\ (forall node, keeps Lexer NODE_EMPTY node (map_arms n node))
  /\ builds Lexer NODE_EMPTY (map n)
  /\ builds Lexer NODE_EMPTY (statement n).
Proof.
  subst expression let_ var codeify drop fninvoke_args fninvoke prefix_stmts
    prefix block_stmts block map_arms map statement.
  induction n as [|n IH].
  - repeat apply conj; unfold builds, keeps; intros; exact I.
  - destruct IH
      as (H1 & H2 & H3 & H4 & H5 & H6 & H7 & H8 & H9 & H10 & H11 & H12 & H13 & H14).
    destruct (parser_frame Lexer next_token is_whitespace NODE_EMPTY n)
      as (F1 & F2 & F3 & F4 & F5 & F6 & F7 & F8 & F9 & F10 & F11 & F12 & F13 & F14).
    pose proof (string_frame Lexer next_token is_whitespace n) as Fs.
    pose proof (string_builds n) as Hs.
    cbn [wpp.expression wpp.let_ wpp.var wpp.codeify wpp.drop
         wpp.fninvoke_args wpp.fninvoke wpp.prefix_stmts wpp.prefix
         wpp.block_stmts wpp.block wpp.map_arms wpp.map wpp.statement].
    repeat apply conj.
    + (* expression *)
      intros [lex t]. run.
      all: cbn [fst snd]; try (split; assumption).
      all: rewrite length_insert;
        eapply (concat_closed t t0 t1 a0 a3); eassumption.
    + (* let *)
      intros [lex t]. run.
      eapply ensures_weaken; [eapply let_parameter_list_keeps; eassumption|].
      clear H. intros _ [lx tx] (ox & H & Hlen). run. finish.
    + (* var *)
      intros [lex t]. run. finish.
    + (* codeify *)
      intros [lex t]. run. finish.
    + (* drop *)
      intros [lex t]. run. finish.
    + (* fninvoke_args *)
      intros node [lex t] Hnode Hc. cbn [snd] in *. run.
      1, 2: again H6.
      cbn [snd]. split; [lia | assumption].
    + (* fninvoke *)
      intros [lex t]. wp. wp.
      apply filling_close in H; [|constructor]. run.
      loop H6. run.
      all: lens; split; [lia | assumption].
    + (* prefix_stmts *)
      intros node [lex t] Hnode Hc. cbn [snd] in *. run.
      * again H8.
      * lens; split; [lia | assumption].
    + (* prefix *)
      intros [lex t]. wp. wp.
      apply filling_close in H; [|constructor]. run.
      1: loop H8; run.
      all: lens; split; [lia | assumption].
    + (* block_stmts *)
      intros node lex t stmts e H Hstmts.
      pose proof (filling_length _ _ _ _ H) as Hnode. run.
      all: assert (Hpush : Forall (fun j => node < j
                     < length (<[node := wpp.Block (stmts ++ [a0]) e]> t0))
                    (stmts ++ [a0]))
        by (apply Forall_app; split;
            [ eapply Forall_impl; [exact Hstmts|]; intros j Hj; lens; lia
            | repeat constructor; lens; lia ]).
      * eapply ensures_weaken; [apply (H10 _ _ _ _ _ H Hpush)|].
        intros _ s' [Hlen' Hrest]. split; [lens; lia | exact Hrest].
      * split; [lens; lia|]. now exists (stmts ++ [a0]).
    + (* block *)
      intros [lex t]. run.
      eapply ensures_weaken;
        [apply (H10 _ _ _ [] _ H); constructor|].
      intros last_is_expr [lx tx] [Hlen (stmts & H' & Hstmts)].
      cbn [snd] in *. run.
      apply (ensures_fill_modify _ _ _ _ _ _ H'). intros o' E. clear H H'.
      intros H. destruct (last stmts) as [e|] eqn:Hlast; [|discriminate E].
      injection E as <-. apply last_Some in Hlast as [stmts' ->].
      rewrite removelast_last in H |- *. run.
      all: cbn [fst snd]; eapply filled; [eassumption|].
      all: unfold closed; cbn [links];
        eapply Forall_impl; [exact Hstmts|]; intros j Hj; lens; lia.
    + (* map_arms *)
      intros node [lex t] Hnode Hc. cbn [snd] in *. run.
      * again H12.
      * cbn [snd]. split; [lia | assumption].
    + (* map *)
      intros [lex t]. run.
      apply filling_close in H;
        [|unfold closed; cbn [links flat_map app]; rewrite Nat.eqb_refl;
          repeat constructor; lens; lia].
      loop H12. run.
      all: lens; split; [lia | assumption].
    + (* statement *)
      intros [lex t]. run.
      all: cbn [fst snd]; split; assumption.
Qed.

Lemma take_before {A} (node : nat) (t t' : list A) :
  node <= length t -> take (length t) t' = t -> take node t' = take node t.
Proof.
  intros Hnode Htake.
  transitivity (take node (take (length t) t')); [|now rewrite Htake].
  rewrite take_take. now replace (node `min` length t) with node by lia.
Qed.

Lemma document_stmts_keeps (n : nat) (node : wpp.node_t) (lex : Lexer)
    (t : wpp.AST) :
  node < length t -> closed_from NODE_EMPTY node t ->
  ensures (wpp.document_stmts Lexer next_token is_whitespace NODE_EMPTY n node)
    (lex, t)
    (fun _ s' =>
       length t <= length (snd s')
       /\ closed_from NODE_EMPTY node (snd s')
       /\ take node (snd s') = take node t).
Proof.
  revert lex t. induction n as [|n IH]; intros lex t Hnode Hc; [exact I|].
  destruct (parser_builds n) as (_ & _ & _ & _ & _ & _ & _ & _ & _ & _ & _ & _ & _ & Hb).
  pose proof (statement_frame Lexer next_token is_whitespace NODE_EMPTY n)
    as Hf.
  cbn [wpp.document_stmts]. run.
  - eapply ensures_weaken; [apply IH; [lens; lia | exact Hc]|].
    intros _ s' (Hlen & Hc' & Htk). repeat split; [lens; lia | exact Hc' |].
    rewrite Htk, take_insert_ge by lia. apply take_before; [lia | exact Htake].
  - cbn [snd]. repeat split; [lia | exact Hc].
Qed.

(** X26: the links of a document stay in the document.  When [document]
    returns, the nodes that were in the tree are as they were, and every
    node made refers to nodes made only: its links are indices of the
    tree returned, not below the first node made.  (The default case of
    a [Map] without a default arm is [NODE_EMPTY], no link.) *)
Theorem document_links_in_tree (fuel : nat) (lex : Lexer) (tree : wpp.AST)
    (root : wpp.node_t) (lex' : Lexer) (tree' : wpp.AST) :
  wpp.document Lexer next_token is_whitespace NODE_EMPTY fuel (lex, tree)
  = Ok (root, (lex', tree')) ->
  take (length tree) tree' = tree
  /\ forall i n,
       length tree <= i -> tree' !! i = Some n ->
       Forall (fun j => length tree <= j < length tree') (links NODE_EMPTY n).
Proof.
  intros Hdoc.
  refine (ensures_returned _ (lex, tree)
            (fun _ s' =>
               take (length tree) (snd s') = tree
               /\ closed_from NODE_EMPTY (length tree) (snd s'))
            root (lex', tree') _ Hdoc).
  unfold wpp.document. wp. wp.
  apply filling_close in H; [|constructor]. wp.
  eapply ensures_weaken;
    [apply document_stmts_keeps; [lens; lia | exact H]|].
  intros _ [lx tx] (Hlen & Hc & Htk). wp. cbn [snd] in *. split; [|exact Hc].
  rewrite Htk. now rewrite take_app_length.
Qed.

(** X27: a statement and an expression are trees of their own.  When
    [statement] or [expression] returns, the nodes that were in the tree
    are as they were, what is returned is the index of a node made, and
    every node made refers to nodes made only. *)
Theorem statement_links_in_tree (fuel : nat) (lex : Lexer) (tree : wpp.AST)
    (node : wpp.node_t) (lex' : Lexer) (tree' : wpp.AST) :
  statement fuel (lex, tree) = Ok (node, (lex', tree'))
  \/ expression fuel (lex, tree) = Ok (node, (lex', tree')) ->
  take (length tree) tree' = tree
  /\ length tree <= node < length tree'
  /\ forall i n,
       length tree <= i -> tree' !! i = Some n ->
       Forall (fun j => length tree <= j < length tree') (links NODE_EMPTY n).
Proof.
  destruct (parser_builds fuel)
    as (He & _ & _ & _ & _ & _ & _ & _ & _ & _ & _ & _ & _ & Hs).
  intros [Hrun|Hrun].
  - destruct (statement_frame Lexer next_token is_whitespace NODE_EMPTY fuel
                (length tree) _ _ _ Hrun (le_n _)) as [Htake _].
    cbn [snd] in Htake. rewrite firstn_all in Htake. split; [exact Htake|].
    exact (ensures_returned _ _ _ _ _ (Hs (lex, tree)) Hrun).
  - destruct (expression_frame Lexer next_token is_whitespace NODE_EMPTY fuel
                (length tree) _ _ _ Hrun (le_n _)) as [Htake _].
    cbn [snd] in Htake. rewrite firstn_all in Htake. split; [exact Htake|].
    exact (ensures_returned _ _ _ _ _ (He (lex, tree)) Hrun).
Qed.

End Closed.
(** * Code strings without a blank line *)

Section Lines.

Lemma unlines_cons (l : cstring) (ls : list cstring) :
  unlines (l :: ls) = l ++ after_newlines ls.
Proof.
  revert l. induction ls as [|l' ls IH]; intros l.
  - cbn. now rewrite app_nil_r.
  - change (unlines (l :: l' :: ls)) with (l ++ NL :: unlines (l' :: ls)).
    now rewrite IH.
Qed.

Lemma lines_not_nil (s : cstring) : lines s <> [].
Proof.
  destruct s as [|c s]; [discriminate|]. cbn [lines].
  destruct (Ascii.eqb c NL); [discriminate|].
  destruct (lines s); discriminate.
Qed.

Lemma unlines_lines (s : cstring) : unlines (lines s) = s.
Proof.
  induction s as [|c s IH]; [reflexivity|]. cbn [lines].
  destruct (Ascii.eqb_spec c NL) as [->|Hc].
  - pose proof (lines_not_nil s) as Hne.
    destruct (lines s) as [|l ls]; [contradiction|].
    change (unlines ([] :: l :: ls)) with ([] ++ NL :: unlines (l :: ls)).
    now rewrite IH.
  - pose proof (lines_not_nil s) as Hne.
    destruct (lines s) as [|l ls]; [contradiction|].
    rewrite unlines_cons in *. cbn [app]. now rewrite IH.
Qed.

Lemma line_cons (c : ascii) (l : cstring) :
  line (c :: l) = true <->
  Ascii.eqb c NL = false /\ Ascii.eqb c NUL = false /\ line l = true.
Proof.
  unfold line. cbn [forallb]. rewrite !andb_true_iff, !negb_true_iff. tauto.
Qed.

Lemma line_app (l k : cstring) :
  line (l ++ k) = true <-> line l = true /\ line k = true.
Proof. unfold line. rewrite forallb_app. apply andb_true_iff. Qed.

Lemma no_nul_cons (c : ascii) (s : cstring) :
  no_nul (c :: s) = true <-> Ascii.eqb c NUL = false /\ no_nul s = true.
Proof.
  unfold no_nul. cbn [forallb]. rewrite andb_true_iff, negb_true_iff. tauto.
Qed.

(** The lines of a string without a NUL are lines. *)
Lemma lines_are_lines (s : cstring) :
  no_nul s = true -> Forall (fun l => line l = true) (lines s).
Proof.
  induction s as [|c s IH]; intros Hs.
  - repeat constructor.
  - apply no_nul_cons in Hs as [Hc Hs]. specialize (IH Hs). cbn [lines].
    destruct (Ascii.eqb c NL) eqn:Hnl.
    + constructor; [reflexivity | assumption].
    + destruct (lines s) as [|l ls]; [repeat constructor; now apply line_cons|].
      inversion IH as [|? ? Hl Hls]; subst. constructor; [|assumption].
      now apply line_cons.
Qed.

End Lines.

Section CodeLines.

Variable ws : ascii -> bool.
Hypothesis ws_newline : ws NL = true.
Hypothesis ws_nul : ws NUL = false.

Lemma has_non_whitespace_forallb (l : cstring) :
  has_non_whitespace ws l = negb (forallb ws l).
Proof.
  induction l as [|c l IH]; [reflexivity|].
  cbn [has_non_whitespace existsb forallb] in *.
  unfold has_non_whitespace in IH. rewrite IH. now destruct (ws c).
Qed.

(** *** Leading lines of whitespace *)

Lemma trim_leading_scan (l pre rest : cstring) (fuel : nat) :
  line l = true -> forallb ws l = true ->
  trim_leading ws (length l + fuel) (pre ++ l ++ rest) (length pre)
  = trim_leading ws fuel (pre ++ l ++ rest) (length pre + length l).
Proof.
  revert pre. induction l as [|c l IH]; intros pre Hl Hws.
  - cbn [length app]. now rewrite Nat.add_0_r.
  - apply line_cons in Hl as (Hnl & _ & Hl).
    cbn [forallb] in Hws. apply andb_true_iff in Hws as [Hc Hws].
    cbn [length Nat.add trim_leading].
    change (pre ++ (c :: l) ++ rest) with (pre ++ c :: (l ++ rest)).
    rewrite list_lookup_middle by reflexivity. rewrite Hc, Hnl. cbn [negb].
    replace (pre ++ c :: l ++ rest) with ((pre ++ [c]) ++ l ++ rest)
      by now rewrite <- List.app_assoc.
    replace (S (length pre)) with (length (pre ++ [c]))
      by (rewrite length_app; cbn; lia).
    rewrite IH by assumption. f_equal. rewrite length_app. cbn. lia.
Qed.

Lemma trim_leading_stop (l pre rest : cstring) (fuel : nat) :
  line l = true -> has_non_whitespace ws l = true ->
  trim_leading ws fuel (pre ++ l ++ rest) (length pre) = pre ++ l ++ rest.
Proof.
  revert pre fuel. induction l as [|c l IH]; intros pre fuel Hl Hnw.
  - discriminate Hnw.
  - destruct fuel as [|fuel]; [reflexivity|].
    apply line_cons in Hl as (Hnl & _ & Hl). cbn [trim_leading].
    change (pre ++ (c :: l) ++ rest) with (pre ++ c :: (l ++ rest)).
    rewrite list_lookup_middle by reflexivity.
    cbn [has_non_whitespace existsb] in Hnw.
    destruct (ws c) eqn:Hc; cbn [negb orb] in *; [|reflexivity].
    rewrite Hnl.
    replace (pre ++ c :: l ++ rest) with ((pre ++ [c]) ++ l ++ rest)
      by now rewrite <- List.app_assoc.
    replace (S (length pre)) with (length (pre ++ [c]))
      by (rewrite length_app; cbn; lia).
    now apply IH.
Qed.

(** Trimming the leading whitespace takes the leading lines of
    whitespace away, as the specification words it. *)
Lemma trim_leading_lines (X : list cstring) (fuel : nat) :
  X <> [] -> Forall (fun l => line l = true) X ->
  length (unlines X) < fuel ->
  trim_leading ws fuel (unlines X) 0 = unlines (trim_leading_spec ws X).
Proof.
  revert fuel. induction X as [|l X IH]; intros fuel Hne HX Hfuel;
    [contradiction|].
  inversion HX as [|? ? Hl HX']; subst.
  destruct X as [|l' X'].
  - cbn [unlines trim_leading_spec] in *.
    destruct (has_non_whitespace ws l) eqn:Hnw.
    + pose proof (trim_leading_stop l [] [] fuel Hl Hnw) as E.
      now rewrite app_nil_r in E.
    + rewrite has_non_whitespace_forallb in Hnw.
      apply negb_false_iff in Hnw.
      pose proof (trim_leading_scan l [] [] (fuel - length l) Hl Hnw) as E.
      rewrite app_nil_r in E. cbn [app length Nat.add] in E.
      replace (length l + (fuel - length l)) with fuel in E by lia.
      rewrite E. destruct (fuel - length l) as [|f] eqn:Hf; [lia|].
      cbn [trim_leading]. now rewrite lookup_ge_None_2 by lia.
  - rewrite unlines_cons in *. cbn [after_newlines flat_map] in *.
    fold (after_newlines X') in *.
    change (trim_leading_spec ws (l :: l' :: X'))
      with (if forallb ws l then trim_leading_spec ws (l' :: X')
            else l :: l' :: X').
    destruct (forallb ws l) eqn:Hws.
    + pose proof (trim_leading_scan l [] ((NL :: l') ++ after_newlines X')
                    (fuel - length l) Hl Hws) as E.
      cbn [app length Nat.add] in E.
      rewrite length_app in Hfuel. cbn [length app] in Hfuel.
      replace (length l + (fuel - length l)) with fuel in E by lia.
      cbn [app]. rewrite E. destruct (fuel - length l) as [|f] eqn:Hf; [lia|].
      cbn [trim_leading]. rewrite list_lookup_middle by reflexivity.
      rewrite ws_newline, Ascii.eqb_refl. cbn [negb].
      replace (drop (S (length l)) (l ++ NL :: l' ++ after_newlines X'))
        with (unlines (l' :: X')).
      2:{ rewrite unlines_cons.
          replace (l ++ NL :: l' ++ after_newlines X')
            with ((l ++ [NL]) ++ l' ++ after_newlines X')
            by now rewrite <- List.app_assoc.
          replace (S (length l)) with (length (l ++ [NL]))
            by (rewrite length_app; cbn; lia).
          now rewrite drop_app_length. }
      rewrite unlines_cons. apply IH; [discriminate | assumption | lia].
    + rewrite unlines_cons. cbn [after_newlines flat_map].
      fold (after_newlines X'). cbn [app].
      apply (trim_leading_stop l [] _ fuel Hl).
      rewrite has_non_whitespace_forallb, Hws. reflexivity.
Qed.

(** *** Reading at a position *)

Lemma deref_at (str : cstring) (it : nat) (c : ascii) (r : cstring) :
  drop it str = c :: r -> deref str it = Some c.
Proof.
  intros H. unfold deref.
  assert (E : str !! it = Some c).
  { rewrite <- (Nat.add_0_r it), <- lookup_drop, H. reflexivity. }
  now rewrite E.
Qed.

Lemma drop_next (str : cstring) (it : nat) (c : ascii) (r : cstring) :
  drop it str = c :: r -> drop (S it) str = r.
Proof.
  intros H. replace (S it) with (it + 1) by lia.
  now rewrite <- drop_drop, H.
Qed.

Lemma drop_further (str : cstring) (it k : nat) (x : cstring) :
  drop it str = x -> drop (it + k) str = drop k x.
Proof. intros <-. now rewrite drop_drop. Qed.

Lemma deref_at_end (str : cstring) (it : nat) :
  drop it str = [] -> it <= length str -> deref str it = Some NUL.
Proof.
  intros H Hit. apply (f_equal (@length ascii)) in H.
  rewrite length_drop in H. cbn [length] in H.
  replace it with (length str) by lia. apply deref_end.
Qed.

Lemma drop_inside (str : cstring) (it : nat) (c : ascii) (r : cstring) :
  drop it str = c :: r -> it < length str.
Proof.
  intros H. apply (f_equal (@length ascii)) in H.
  rewrite length_drop in H. cbn [length] in H. lia.
Qed.

(** *** The indentation *)

Lemma indentation_app (l r : cstring) :
  has_non_whitespace ws l = true ->
  indentation ws (l ++ r) = indentation ws l.
Proof.
  induction l as [|c l IH]; intros H; [discriminate|].
  cbn [has_non_whitespace existsb] in H. cbn [app indentation].
  destruct (ws c); cbn [negb orb] in H; [|reflexivity].
  f_equal. now apply IH.
Qed.

Lemma indentation_inside (l : cstring) :
  has_non_whitespace ws l = true -> indentation ws l < length l.
Proof.
  induction l as [|c l IH]; intros H; [discriminate|].
  cbn [has_non_whitespace existsb] in H. cbn [indentation length].
  destruct (ws c); cbn [negb orb] in H; [|lia].
  specialize (IH H). lia.
Qed.

Lemma count_indent_at (x str : cstring) (it fuel : nat) (k : Z) :
  drop it str = x -> it <= length str ->
  indentation ws x < fuel ->
  (k + Z.of_nat (indentation ws x) <= INT_MAX)%Z ->
  count_indent ws fuel str it k
  = Some (it + indentation ws x, (k + Z.of_nat (indentation ws x))%Z).
Proof.
  revert it fuel k. induction x as [|c x IH]; intros it fuel k Hx Hit Hf Hk.
  - destruct fuel as [|fuel]; [cbn in Hf; lia|]. cbn [count_indent].
    rewrite (deref_at_end _ _ Hx Hit). cbn [mbind option_bind].
    rewrite ws_nul. cbn [indentation]. do 2 f_equal; lia.
  - destruct fuel as [|fuel]; [lia|]. cbn [count_indent].
    rewrite (deref_at _ _ _ _ Hx). cbn [mbind option_bind].
    cbn [indentation] in *. destruct (ws c).
    + destruct (Z.eqb_spec k INT_MAX) as [->|Hne]; [lia|].
      rewrite (IH (S it) fuel (k + 1)%Z);
        [ | exact (drop_next _ _ _ _ Hx)
          | pose proof (drop_inside _ _ _ _ Hx); lia | lia | lia ].
      do 2 f_equal; lia.
    + do 2 f_equal; lia.
Qed.

(** *** Discovering the common indent *)

Lemma discover_indent_line (l0 rest str : cstring) (it fuel : nat)
    (common : Z) :
  drop it str = l0 ++ rest -> line l0 = true ->
  discover_indent ws (length l0 + fuel) str it common
  = discover_indent ws fuel str (it + length l0) common.
Proof.
  revert it. induction l0 as [|c l0 IH]; intros it Hx Hl.
  - cbn [length Nat.add]. now rewrite Nat.add_0_r.
  - apply line_cons in Hl as (Hnl & Hnul & Hl).
    cbn [length Nat.add]. rewrite discover_indent_step.
    rewrite (deref_at _ _ _ _ Hx). cbn [mbind option_bind].
    rewrite Hnul, Hnl. rewrite (IH (S it)); [f_equal; lia | | assumption].
    exact (drop_next _ _ _ _ Hx).
Qed.

Lemma line_drop (n : nat) (l : cstring) :
  line l = true -> line (drop n l) = true.
Proof.
  intros H. rewrite <- (take_drop n l) in H. now apply line_app in H.
Qed.

Lemma discover_indent_lines (ls : list cstring) (l0 str : cstring)
    (it fuel : nat) (common : Z) :
  drop it str = l0 ++ after_newlines ls -> it <= length str ->
  line l0 = true ->
  Forall (fun l => line l = true /\ has_non_whitespace ws l = true) ls ->
  length (l0 ++ after_newlines ls) < fuel ->
  (Z.of_nat (length str) <= INT_MAX)%Z ->
  discover_indent ws fuel str it common = Some (least_indent ws common ls).
Proof.
  revert l0 it fuel common.
  induction ls as [|l ls IH]; intros l0 it fuel common Hx Hit Hl0 Hls Hf Hmax.
  - cbn [after_newlines flat_map] in *. rewrite app_nil_r in *.
    replace fuel with (length l0 + (fuel - length l0)) by lia.
    rewrite (discover_indent_line l0 [] str it); [| now rewrite app_nil_r | assumption].
    destruct (fuel - length l0) as [|f] eqn:E; [lia|].
    rewrite discover_indent_step.
    assert (Hend : drop (it + length l0) str = [])
      by (rewrite (drop_further _ _ _ _ Hx); apply drop_all).
    rewrite (deref_at_end _ _ Hend).
    + reflexivity.
    + apply (f_equal (@length ascii)) in Hx. rewrite length_drop in Hx. lia.
  - inversion Hls as [|? ? [Hl Hnw] Hls']; subst.
    cbn [after_newlines flat_map] in *. fold (after_newlines ls) in *.
    rewrite length_app in Hf. cbn [length app] in Hf.
    rewrite length_app in Hf.
    replace fuel with (length l0 + (fuel - length l0)) by lia.
    rewrite (discover_indent_line l0 _ str it _ _ Hx Hl0).
    destruct (fuel - length l0) as [|f] eqn:E; [lia|].
    rewrite discover_indent_step.
    assert (Hnl : drop (it + length l0) str = NL :: l ++ after_newlines ls).
    { rewrite (drop_further _ _ _ _ Hx).
      now rewrite drop_app_length. }
    pose proof (drop_inside _ _ _ _ Hnl) as Hin.
    rewrite (deref_at _ _ _ _ Hnl). cbn [mbind option_bind].
    change (Ascii.eqb NL NUL) with false. rewrite Ascii.eqb_refl. cbv iota.
    pose proof (indentation_inside l Hnw) as Hind.
    assert (Hlen : length l + length (after_newlines ls)
                   <= length str - S (it + length l0)).
    { apply drop_next in Hnl. apply (f_equal (@length ascii)) in Hnl.
      rewrite length_drop, length_app in Hnl. lia. }
    rewrite (count_indent_at (l ++ after_newlines ls) str (S (it + length l0)));
      [ | exact (drop_next _ _ _ _ Hnl) | lia
        | rewrite indentation_app by assumption; lia
        | rewrite indentation_app by assumption; lia ].
    cbn [mbind option_bind fst snd]. rewrite indentation_app by assumption.
    rewrite Z.add_0_l.
    replace (if (Z.of_nat (indentation ws l) <? common)%Z
             then Z.of_nat (indentation ws l) else common)
      with (Z.min common (Z.of_nat (indentation ws l)))
      by (destruct (Z.ltb_spec (Z.of_nat (indentation ws l)) common); lia).
    rewrite (IH (drop (S (indentation ws l)) l)
               (S (S (it + length l0) + indentation ws l)) f
               (Z.min common (Z.of_nat (indentation ws l)))).
    + reflexivity.
    + replace (S (S (it + length l0) + indentation ws l))
        with (S (it + length l0) + S (indentation ws l)) by lia.
      rewrite (drop_further _ _ _ _ (drop_next _ _ _ _ Hnl)).
      rewrite drop_app_le by lia. reflexivity.
    + lia.
    + now apply line_drop.
    + assumption.
    + rewrite length_app, length_drop. lia.
    + assumption.
Qed.

(** *** Stripping the indentation *)

Lemma strip_scan_at (x str : cstring) (it fuel : nat) (common count : Z) :
  drop it str = x -> it <= length str -> (count <= common)%Z ->
  indentation ws x < fuel ->
  strip_scan ws fuel str common it count
  = Some (it + Nat.min (Z.to_nat (common - count)) (indentation ws x)).
Proof.
  revert it fuel count.
  induction x as [|c x IH]; intros it fuel count Hx Hit Hc Hf.
  - destruct fuel as [|fuel]; [cbn in Hf; lia|]. cbn [strip_scan].
    rewrite (deref_at_end _ _ Hx Hit). cbn [mbind option_bind].
    rewrite ws_nul. cbn [andb indentation]. f_equal. lia.
  - destruct fuel as [|fuel]; [lia|]. cbn [strip_scan].
    rewrite (deref_at _ _ _ _ Hx). cbn [mbind option_bind].
    cbn [indentation] in *. destruct (ws c); cbn [andb].
    + destruct (Z.eqb_spec count common) as [->|Hne]; cbn [negb].
      * f_equal. rewrite Z.sub_diag. cbn. lia.
      * rewrite (IH (S it) fuel (count + 1)%Z);
          [ | exact (drop_next _ _ _ _ Hx)
            | pose proof (drop_inside _ _ _ _ Hx); lia | lia | lia ].
        f_equal.
        replace (Z.to_nat (common - count))
          with (S (Z.to_nat (common - (count + 1)))) by lia.
        cbn [Nat.min]. lia.
    + f_equal. lia.
Qed.

Lemma strip_at (x str : cstring) (start : nat) (common : Z) :
  drop start str = x -> start <= length str -> (0 <= common)%Z ->
  strip ws str common start = Some (take start str ++ strip_line ws common x).
Proof.
  intros Hx Hstart Hc. unfold strip.
  rewrite (strip_scan_at x str start _ common 0 Hx Hstart Hc).
  - cbn [mbind option_bind]. rewrite Z.sub_0_r.
    rewrite (drop_further _ _ _ _ Hx). reflexivity.
  - pose proof (indentation_le ws x) as H.
    apply (f_equal (@length ascii)) in Hx. rewrite length_drop in Hx. lia.
Qed.

Lemma strip_lines_line (l0 rest str : cstring) (ptr fuel : nat)
    (common : Z) :
  drop ptr str = l0 ++ rest -> line l0 = true ->
  strip_lines ws (length l0 + fuel) str common ptr
  = strip_lines ws fuel str common (ptr + length l0).
Proof.
  revert ptr. induction l0 as [|c l0 IH]; intros ptr Hx Hl.
  - cbn [length Nat.add]. now rewrite Nat.add_0_r.
  - apply line_cons in Hl as (Hnl & Hnul & Hl).
    cbn [length Nat.add]. rewrite strip_lines_step.
    rewrite (deref_at _ _ _ _ Hx). cbn [mbind option_bind].
    rewrite Hnul, Hnl. rewrite (IH (S ptr)); [f_equal; lia | | assumption].
    exact (drop_next _ _ _ _ Hx).
Qed.

(** A line that is not blank is not empty once stripped, and what is
    left of it is a line. *)
Lemma strip_line_inside (common : Z) (l : cstring) :
  has_non_whitespace ws l = true ->
  exists c l', strip_line ws common l = c :: l'
               /\ length l' < length l.
Proof.
  intros Hnw. pose proof (indentation_inside l Hnw) as Hind.
  unfold strip_line.
  destruct (drop (Z.to_nat common `min` indentation ws l) l) as [|c l'] eqn:E.
  - apply (f_equal (@length ascii)) in E. rewrite length_drop in E.
    cbn [length] in E. lia.
  - exists c, l'. split; [reflexivity|].
    apply (f_equal (@length ascii)) in E. rewrite length_drop in E.
    cbn [length] in E. lia.
Qed.

Lemma strip_line_app (common : Z) (l r : cstring) :
  has_non_whitespace ws l = true ->
  strip_line ws common (l ++ r) = strip_line ws common l ++ r.
Proof.
  intros Hnw. unfold strip_line. rewrite indentation_app by assumption.
  pose proof (indentation_le ws l). now rewrite drop_app_le by lia.
Qed.

Lemma strip_lines_lines (ls : list cstring) (l0 str : cstring)
    (ptr fuel : nat) (common : Z) :
  drop ptr str = l0 ++ after_newlines ls -> ptr <= length str ->
  (0 <= common)%Z -> line l0 = true ->
  Forall (fun l => line l = true /\ has_non_whitespace ws l = true) ls ->
  length (l0 ++ after_newlines ls) < fuel ->
  strip_lines ws fuel str common ptr
  = Some (take ptr str ++ l0
          ++ after_newlines (map (strip_line ws common) ls)).
Proof.
  revert l0 str ptr fuel.
  induction ls as [|l ls IH]; intros l0 str ptr fuel Hx Hptr Hc Hl0 Hls Hf.
  - cbn [after_newlines flat_map map] in *. rewrite app_nil_r in *.
    replace fuel with (length l0 + (fuel - length l0)) by lia.
    rewrite (strip_lines_line l0 [] str ptr);
      [| now rewrite app_nil_r | assumption].
    destruct (fuel - length l0) as [|f] eqn:E; [lia|].
    rewrite strip_lines_step.
    assert (Hend : drop (ptr + length l0) str = [])
      by (rewrite (drop_further _ _ _ _ Hx); apply drop_all).
    rewrite (deref_at_end _ _ Hend).
    + cbn [mbind option_bind]. rewrite Ascii.eqb_refl. f_equal.
      rewrite <- Hx. now rewrite take_drop.
    + apply (f_equal (@length ascii)) in Hx. rewrite length_drop in Hx. lia.
  - inversion Hls as [|? ? [Hl Hnw] Hls']; subst.
    cbn [after_newlines flat_map map] in *.
    fold (after_newlines ls) in *.
    fold (after_newlines (map (strip_line ws common) ls)).
    rewrite length_app in Hf. cbn [length app] in Hf.
    rewrite length_app in Hf.
    replace fuel with (length l0 + (fuel - length l0)) by lia.
    rewrite (strip_lines_line l0 _ str ptr _ _ Hx Hl0).
    destruct (fuel - length l0) as [|f] eqn:E; [lia|].
    rewrite strip_lines_step.
    assert (Hnl : drop (ptr + length l0) str = NL :: l ++ after_newlines ls).
    { rewrite (drop_further _ _ _ _ Hx). now rewrite drop_app_length. }
    pose proof (drop_inside _ _ _ _ Hnl) as Hin.
    rewrite (deref_at _ _ _ _ Hnl). cbn [mbind option_bind].
    change (Ascii.eqb NL NUL) with false. rewrite Ascii.eqb_refl. cbv iota.
    rewrite (strip_at _ str (S (ptr + length l0)) common
               (drop_next _ _ _ _ Hnl)) by lia.
    cbn [mbind option_bind]. rewrite strip_line_app by assumption.
    destruct (strip_line_inside common l Hnw) as (c & l' & Hstrip & Hlen).
    assert (Hl' : line l' = true).
    { assert (H : line (strip_line ws common l) = true)
        by (now apply line_drop).
      rewrite Hstrip in H. now apply line_cons in H. }
    rewrite Hstrip. cbn [app].
    set (T := take (S (ptr + length l0)) str).
    assert (HT : length T = S (ptr + length l0))
      by (unfold T; rewrite length_take; lia).
    assert (Htake : T = take ptr str ++ l0 ++ [NL]).
    { unfold T. remember (take ptr str) as P eqn:HP.
      assert (HlenP : length P = ptr) by (subst P; rewrite length_take; lia).
      assert (Hstr : str = (P ++ l0 ++ [NL]) ++ l ++ after_newlines ls).
      { rewrite <- (take_drop ptr str), <- HP, Hx.
        now rewrite <- !List.app_assoc. }
      rewrite Hstr. apply take_app_length'.
      rewrite !length_app. cbn [length]. lia. }
    rewrite (IH l' (T ++ c :: l' ++ after_newlines ls)
               (S (S (ptr + length l0))) f).
    + f_equal.
      replace (T ++ c :: l' ++ after_newlines ls)
        with ((T ++ [c]) ++ l' ++ after_newlines ls)
        by now rewrite <- List.app_assoc.
      rewrite take_app_length'
        by (rewrite length_app; cbn; lia).
      rewrite Htake. now rewrite <- !List.app_assoc.
    + replace (T ++ c :: l' ++ after_newlines ls)
        with ((T ++ [c]) ++ l' ++ after_newlines ls)
        by now rewrite <- List.app_assoc.
      apply drop_app_length'. rewrite length_app. cbn. lia.
    + rewrite length_app. cbn [length]. lia.
    + assumption.
    + assumption.
    + assumption.
    + rewrite length_app. lia.
Qed.

(** *** The steps put together *)

Lemma trim_trailing_prefix (n : nat) (str : cstring) :
  exists k, trim_trailing ws n str = take k str.
Proof.
  induction n as [|n IH]; cbn [trim_trailing].
  - exists (length str). now rewrite take_ge.
  - destruct (str !! n) as [c|]; [|exists (length str); now rewrite take_ge].
    destruct (negb (ws c)); [now exists (S n) | exact IH].
Qed.

Lemma no_nul_take (k : nat) (s : cstring) :
  no_nul s = true -> no_nul (take k s) = true.
Proof.
  intros H. rewrite <- (take_drop k s) in H. unfold no_nul in *.
  rewrite forallb_app in H. now apply andb_true_iff in H.
Qed.

Lemma trim_leading_spec_suffix (X : list cstring) :
  exists P, X = P ++ trim_leading_spec ws X.
Proof.
  induction X as [|l X IH]; [now exists []|].
  destruct X as [|l' X']; [now exists []|].
  change (trim_leading_spec ws (l :: l' :: X'))
    with (if forallb ws l then trim_leading_spec ws (l' :: X')
          else l :: l' :: X').
  destruct (forallb ws l); [|now exists []].
  destruct IH as [P HP]. exists (l :: P). cbn [app]. now rewrite <- HP.
Qed.

Lemma trim_leading_spec_not_nil (X : list cstring) :
  X <> [] -> trim_leading_spec ws X <> [].
Proof.
  induction X as [|l X IH]; intros Hne; [contradiction|].
  destruct X as [|l' X']; [discriminate|].
  change (trim_leading_spec ws (l :: l' :: X'))
    with (if forallb ws l then trim_leading_spec ws (l' :: X')
          else l :: l' :: X').
  destruct (forallb ws l); [apply IH|]; discriminate.
Qed.

Lemma length_unlines_suffix (P L : list cstring) :
  L <> [] -> length (unlines L) <= length (unlines (P ++ L)).
Proof.
  intros HL. induction P as [|p P IH]; [reflexivity|].
  destruct (P ++ L) as [|x Y] eqn:E.
  - destruct P; [cbn [app] in E; contradiction | discriminate E].
  - cbn [app]. rewrite E.
    change (unlines (p :: x :: Y)) with (p ++ NL :: unlines (x :: Y)).
    rewrite length_app. cbn [length]. lia.
Qed.

Lemma after_newlines_length (l : cstring) (ls : list cstring) :
  l ∈ ls -> length l <= length (after_newlines ls).
Proof.
  induction ls as [|x ls IH]; intros Hin; [now apply elem_of_nil in Hin|].
  cbn [after_newlines flat_map]. fold (after_newlines ls).
  rewrite length_app. cbn [length].
  apply elem_of_cons in Hin as [->|Hin]; [lia|]. specialize (IH Hin). lia.
Qed.

Lemma least_indent_nonneg (common : Z) (ls : list cstring) :
  (0 <= common)%Z -> (0 <= least_indent ws common ls)%Z.
Proof.
  revert common. induction ls as [|l ls IH]; intros common H; [exact H|].
  cbn [least_indent fold_left]. apply IH. lia.
Qed.

Lemma fold_min_swap (n a : nat) (l : list nat) :
  fold_right Nat.min (Nat.min n a) l = Nat.min a (fold_right Nat.min n l).
Proof. induction l as [|b l IH]; cbn [fold_right]; lia. Qed.

Lemma least_indent_fold (n : nat) (ls : list cstring) :
  least_indent ws (Z.of_nat n) ls
  = Z.of_nat (fold_right Nat.min n (map (indentation ws) ls)).
Proof.
  revert n. induction ls as [|l ls IH]; intros n; [reflexivity|].
  cbn [least_indent fold_left map fold_right].
  rewrite <- Nat2Z.inj_min. fold (least_indent ws (Z.of_nat (n `min` indentation ws l)) ls).
  rewrite IH. now rewrite fold_min_swap.
Qed.

(** What [code_string] strips from a line is what the specification
    strips. *)
Lemma strip_line_spec (l1 : cstring) (rest : list cstring) (l : cstring) :
  (Z.of_nat (length l) <= INT_MAX)%Z ->
  (forall r, r ∈ rest -> (Z.of_nat (length r) <= INT_MAX)%Z) ->
  strip_line ws (least_indent ws INT_MAX rest) l
  = strip_indent ws (minimum_indentation ws (l1 :: rest)) l.
Proof.
  intros Hl Hrest. unfold strip_line, minimum_indentation. cbn [tail].
  pose proof (indentation_le ws l) as Hind.
  destruct rest as [|r rs]; cbn [strip_indent least_indent fold_left].
  - rewrite <- drop_indentation. f_equal. lia.
  - pose proof (indentation_le ws r) as Hr.
    pose proof (Hrest r ltac:(left)) as Hlen.
    replace (Z.min INT_MAX (Z.of_nat (indentation ws r)))
      with (Z.of_nat (indentation ws r)) by lia.
    fold (least_indent ws (Z.of_nat (indentation ws r)) rs).
    rewrite least_indent_fold. now rewrite Nat2Z.id.
Qed.

(** X28: without a blank line, [code_string] does what the
    specification says.  For a string without a NUL, not longer than
    [INT_MAX], of which no line is blank once the trailing whitespace
    and the leading lines of whitespace are taken away, [code_string]
    returns the lines, each without the common indent (counted on the
    lines after the first one), joined by newlines. *)
Theorem code_string_refines_spec (s : cstring) :
  no_nul s = true ->
  (Z.of_nat (length s) <= INT_MAX)%Z ->
  forallb (has_non_whitespace ws)
    (trim_leading_spec ws (lines (trim_trailing_spec ws s))) = true ->
  code_string ws s = Some (code_spec ws s).
Proof.
  intros Hnul Hmax Hblank.
  assert (Hnw : has_non_whitespace ws s = true).
  { destruct (has_non_whitespace ws s) eqn:E; [reflexivity|].
    unfold trim_trailing_spec in Hblank.
    rewrite drop_leading_whitespace_all in Hblank
      by (now rewrite has_non_whitespace_rev).
    discriminate Hblank. }
  unfold code_string, code_spec.
  (* the trailing whitespace *)
  pose proof (trim_trailing_visit ws s []) as T1.
  rewrite app_nil_r, Hnw in T1.
  destruct (trim_trailing_prefix (length s) s) as [k Hk].
  rewrite T1 in Hk |- *. set (t1 := trim_trailing_spec ws s) in *.
  assert (Hnul1 : no_nul t1 = true) by (rewrite Hk; now apply no_nul_take).
  assert (Hlen1 : length t1 <= length s) by (rewrite Hk, length_take; lia).
  (* the leading lines of whitespace *)
  pose proof (lines_are_lines t1 Hnul1) as HX.
  pose proof (lines_not_nil t1) as HXne.
  pose proof (trim_leading_lines (lines t1) (S (length t1)) HXne HX) as T2.
  rewrite unlines_lines in T2. rewrite T2 by lia. clear T2.
  destruct (trim_leading_spec_suffix (lines t1)) as [P HP].
  pose proof (trim_leading_spec_not_nil (lines t1) HXne) as HLne.
  assert (HlenL : length (unlines (trim_leading_spec ws (lines t1)))
                  <= length t1).
  { rewrite <- (unlines_lines t1) at 2. rewrite HP at 2.
    now apply length_unlines_suffix. }
  rewrite HP in HX. apply Forall_app in HX as [_ HX].
  set (L := trim_leading_spec ws (lines t1)) in *. clearbody L.
  destruct L as [|l1 rest]; [contradiction|].
  cbn [forallb] in Hblank. apply andb_true_iff in Hblank as [Hnw1 Hrest].
  inversion HX as [|? ? Hl1 Hlrest]; subst.
  assert (HL : Forall (fun l => line l = true
                               /\ has_non_whitespace ws l = true) rest).
  { rewrite Forall_forall in Hlrest |- *. intros l Hin. split.
    - now apply Hlrest.
    - rewrite forallb_forall in Hrest. apply Hrest. now apply list_elem_of_In. }
  rewrite unlines_cons in *. set (str := l1 ++ after_newlines rest) in *.
  (* the common indent *)
  rewrite (discover_indent_lines rest l1 str 0 _ INT_MAX);
    [ | reflexivity | lia | assumption | assumption | fold str; lia | lia ].
  cbn [mbind option_bind]. set (common := least_indent ws INT_MAX rest).
  assert (Hc : (0 <= common)%Z)
    by (apply least_indent_nonneg; unfold INT_MAX; lia).
  (* the first line *)
  assert (D0 : exists c, deref str 0 = Some c
                         /\ (if ws c then strip ws str common 0 else Some str)
                            = Some (strip_line ws common l1
                                    ++ after_newlines rest)).
  { destruct l1 as [|c l1']; [discriminate Hnw1|]. exists c. split.
    - exact (deref_at str 0 c (l1' ++ after_newlines rest) eq_refl).
    - destruct (ws c) eqn:Hwc.
      + rewrite (strip_at str str 0 common eq_refl) by lia.
        cbn [take app]. unfold str. now rewrite strip_line_app.
      + unfold strip_line. cbn [indentation]. rewrite Hwc.
        now rewrite Nat.min_0_r. }
  destruct D0 as (c & D0 & F). rewrite D0. cbn [mbind option_bind].
  rewrite F. cbn [mbind option_bind]. clear F D0.
  (* the lines after it *)
  rewrite (strip_lines_lines rest (strip_line ws common l1) _ 0 _ common);
    [ | reflexivity | lia | assumption | now apply line_drop | assumption
      | lia ].
  rewrite take_0. cbn [app map]. f_equal. rewrite unlines_cons.
  assert (Hlens : forall r, r ∈ rest -> (Z.of_nat (length r) <= INT_MAX)%Z).
  { intros r Hr. apply after_newlines_length in Hr.
    unfold str in HlenL. rewrite length_app in HlenL. lia. }
  f_equal.
  - apply strip_line_spec; [|exact Hlens].
    unfold str in HlenL. rewrite length_app in HlenL. lia.
  - f_equal. apply map_ext_in. intros l Hin. apply strip_line_spec.
    + apply Hlens. now apply list_elem_of_In.
    + exact Hlens.
Qed.

End CodeLines.
(** * Examples on lists of tokens and on bytes *)

Section MoreExamples.

Local Open Scope string_scope.

Local Abbreviation toks := (list Token).

(** Witness of [var_statement]: [var x y]. *)
Lemma var_statement_witness :
  wpp.statement toks stream_lexer blank 999 4
    ([tok TOKEN_VAR "var"; ident "x"; ident "y"], [])
  = Ok (0, ([], [wpp.Var (chars "x") 1; wpp.FnInvoke (chars "y") []])).
Proof.
  apply (proj2 (var_statement toks stream_lexer blank 999
                  [tok TOKEN_VAR "var"; ident "x"; ident "y"] []
                  (tok TOKEN_VAR "var") [ident "x"; ident "y"]
                  (ident "x") [ident "y"] eq_refl eq_refl eq_refl)
           eq_refl 2 1 []
           [wpp.Var (chars "x") 999; wpp.FnInvoke (chars "y") []] eq_refl).
Defined.

(** Witness of [codeify_expression]: [= y]. *)
Lemma codeify_expression_witness :
  wpp.codeify toks stream_lexer blank 999 3
    ([tok TOKEN_EQUAL "="; ident "y"], [])
  = Ok (0, ([], [wpp.Codeify 1; wpp.FnInvoke (chars "y") []])).
Proof.
  apply (proj2 (codeify_expression toks stream_lexer blank 999
                  [tok TOKEN_EQUAL "="; ident "y"] []
                  (tok TOKEN_EQUAL "=") [ident "y"] (ident "y") [] 2
                  eq_refl eq_refl)
           eq_refl 1 []
           [wpp.Codeify 999; wpp.FnInvoke (chars "y") []] eq_refl).
Defined.

(** Witness of [drop_statement]: [drop] followed by a brace. *)
Lemma drop_statement_witness :
  wpp.statement toks stream_lexer blank 999 3
    ([tok TOKEN_DROP "drop"; tok TOKEN_LBRACE "{"], [])
  = Ok (0, ([], [wpp.Drop 1; wpp.FnInvoke (chars "{") []])).
Proof.
  apply (drop_statement toks stream_lexer blank 999
           [tok TOKEN_DROP "drop"; tok TOKEN_LBRACE "{"] []
           (tok TOKEN_DROP "drop") [tok TOKEN_LBRACE "{"]
           (tok TOKEN_LBRACE "{") [] (mkToken TOKEN_EOF []) [] 0);
    reflexivity.
Defined.

(** Witness of [let_statement]: [let f(a, b) x]. *)
Lemma let_statement_witness :
  wpp.statement toks stream_lexer blank 999 5
    ([tok TOKEN_LET "let"; ident "f"; tok TOKEN_LPAREN "("; ident "a";
      tok TOKEN_COMMA ","; ident "b"; tok TOKEN_RPAREN ")"; ident "x"], [])
  = Ok (0, ([], [wpp.Fn (chars "f") [chars "a"; chars "b"] 1;
                 wpp.FnInvoke (chars "x") []])).
Proof.
  refine (proj2 (let_statement toks stream_lexer blank 999
                   [tok TOKEN_LET "let"; ident "f"; tok TOKEN_LPAREN "(";
                    ident "a"; tok TOKEN_COMMA ","; ident "b";
                    tok TOKEN_RPAREN ")"; ident "x"] []
                   (tok TOKEN_LET "let") (ident "f")
                   [tok TOKEN_LPAREN "("; ident "a"; tok TOKEN_COMMA ",";
                    ident "b"; tok TOKEN_RPAREN ")"; ident "x"]
                   _ eq_refl eq_refl)
            (tok TOKEN_LPAREN "(") (tok TOKEN_COMMA ",") (tok TOKEN_RPAREN ")")
            [ident "a"] [ident "b"] [ident "x"] 2 1 []
            [wpp.Fn (chars "f") [chars "a"; chars "b"] 999;
             wpp.FnInvoke (chars "x") []] 3
            _ eq_refl eq_refl eq_refl eq_refl _ eq_refl _ _);
    cbn; try lia; repeat (eexists; split; [reflexivity|]); reflexivity.
Defined.

(** Witness of [let_rejects]: [let f(a b], [let f(a }] and
    [let f(a, }]. *)
Lemma let_rejects_witness :
  wpp.statement toks stream_lexer blank 999 3
    ([tok TOKEN_LET "let"; ident "f"; tok TOKEN_LPAREN "("; ident "a";
      ident "b"], [])
  = Throw "expecting comma to follow parameter name."
  /\ wpp.statement toks stream_lexer blank 999 3
       ([tok TOKEN_LET "let"; ident "f"; tok TOKEN_LPAREN "("; ident "a";
         tok TOKEN_RBRACE "}"], [])
     = Throw "expecting comma to follow parameter name."
  /\ wpp.statement toks stream_lexer blank 999 4
       ([tok TOKEN_LET "let"; ident "f"; tok TOKEN_LPAREN "("; ident "a";
         tok TOKEN_COMMA ","; tok TOKEN_RBRACE "}"], [])
     = Throw "expecting ')' to follow argument list.".
Proof.
  split; [|split].
  - refine (proj1 (proj2 (let_rejects toks stream_lexer blank 999
                            [tok TOKEN_LET "let"; ident "f";
                             tok TOKEN_LPAREN "("; ident "a"; ident "b"] []
                            (tok TOKEN_LET "let")
                            [ident "f"; tok TOKEN_LPAREN "("; ident "a";
                             ident "b"]
                            eq_refl eq_refl))
              (ident "f") (tok TOKEN_LPAREN "(") (tok TOKEN_COMMA ",") []
              (ident "a") (ident "b") [ident "b"] [] 1
              _ eq_refl eq_refl eq_refl eq_refl eq_refl eq_refl eq_refl _);
      cbn; try lia; repeat (eexists; split; [reflexivity|]); reflexivity.
  - refine (proj1 (proj2 (let_rejects toks stream_lexer blank 999
                            [tok TOKEN_LET "let"; ident "f";
                             tok TOKEN_LPAREN "("; ident "a";
                             tok TOKEN_RBRACE "}"] []
                            (tok TOKEN_LET "let")
                            [ident "f"; tok TOKEN_LPAREN "("; ident "a";
                             tok TOKEN_RBRACE "}"]
                            eq_refl eq_refl))
              (ident "f") (tok TOKEN_LPAREN "(") (tok TOKEN_COMMA ",") []
              (ident "a") (tok TOKEN_RBRACE "}") [tok TOKEN_RBRACE "}"] [] 1
              _ eq_refl eq_refl eq_refl eq_refl eq_refl eq_refl eq_refl _);
      cbn; try lia; repeat (eexists; split; [reflexivity|]); reflexivity.
  - refine (proj2 (proj2 (let_rejects toks stream_lexer blank 999
                            [tok TOKEN_LET "let"; ident "f";
                             tok TOKEN_LPAREN "("; ident "a";
                             tok TOKEN_COMMA ","; tok TOKEN_RBRACE "}"] []
                            (tok TOKEN_LET "let")
                            [ident "f"; tok TOKEN_LPAREN "("; ident "a";
                             tok TOKEN_COMMA ","; tok TOKEN_RBRACE "}"]
                            eq_refl eq_refl))
              (ident "f") (tok TOKEN_LPAREN "(") (tok TOKEN_COMMA ",")
              [ident "a"] (tok TOKEN_RBRACE "}") [tok TOKEN_RBRACE "}"] [] 2
              _ eq_refl eq_refl eq_refl eq_refl eq_refl eq_refl eq_refl
              eq_refl _);
      cbn; try lia; repeat (eexists; split; [reflexivity|]); reflexivity.
Defined.

(** Witness of [let_keyword_parameter]: [let f(x, let) x], where the
    keyword stands for a parameter name, and [let f(x, y let) x], where
    it follows one. *)
Lemma let_keyword_parameter_witness :
  wpp.let_ toks stream_lexer blank 999 3
    ([tok TOKEN_LET "let"; ident "f"; tok TOKEN_LPAREN "("; ident "x";
      tok TOKEN_COMMA ","; tok TOKEN_LET "let"; tok TOKEN_RPAREN ")";
      ident "x"], [])
  = Throw "parameter name 'let' conflicts with keyword."
  /\ wpp.let_ toks stream_lexer blank 999 3
       ([tok TOKEN_LET "let"; ident "f"; tok TOKEN_LPAREN "("; ident "x";
         tok TOKEN_COMMA ","; ident "y"; tok TOKEN_LET "let";
         tok TOKEN_RPAREN ")"; ident "x"], [])
     = Throw "expecting comma to follow parameter name.".
Proof.
  split.
  - refine (proj1 (let_keyword_parameter toks stream_lexer blank 999
                     [tok TOKEN_LET "let"; ident "f"; tok TOKEN_LPAREN "(";
                      ident "x"; tok TOKEN_COMMA ","; tok TOKEN_LET "let";
                      tok TOKEN_RPAREN ")"; ident "x"] []
                     (tok TOKEN_LET "let") (ident "f") (tok TOKEN_LPAREN "(")
                     (tok TOKEN_COMMA ",") (tok TOKEN_LET "let") [ident "x"]
                     [tok TOKEN_LET "let"; tok TOKEN_RPAREN ")"; ident "x"]
                     [tok TOKEN_RPAREN ")"; ident "x"] 2
                     _ eq_refl eq_refl eq_refl eq_refl eq_refl _) eq_refl);
      cbn; try lia; repeat (eexists; split; [reflexivity|]); reflexivity.
  - refine (proj1 (proj2 (let_keyword_parameter toks stream_lexer blank 999
                     [tok TOKEN_LET "let"; ident "f"; tok TOKEN_LPAREN "(";
                      ident "x"; tok TOKEN_COMMA ","; ident "y";
                      tok TOKEN_LET "let"; tok TOKEN_RPAREN ")"; ident "x"] []
                     (tok TOKEN_LET "let") (ident "f") (tok TOKEN_LPAREN "(")
                     (tok TOKEN_COMMA ",") (tok TOKEN_LET "let") [ident "x"]
                     [ident "y"; tok TOKEN_LET "let"; tok TOKEN_RPAREN ")";
                      ident "x"]
                     [tok TOKEN_RPAREN ")"; ident "x"] 2
                     _ eq_refl eq_refl eq_refl eq_refl eq_refl _))
              (ident "y") [tok TOKEN_LET "let"; tok TOKEN_RPAREN ")"; ident "x"]
              eq_refl eq_refl eq_refl);
      cbn; try lia; repeat (eexists; split; [reflexivity|]); reflexivity.
Defined.

(** Witness of [call_with_arguments]: [f(a, b)], and [f(a, }]. *)
Lemma call_with_arguments_witness :
  (exists F, forall fuel, F <= fuel ->
     exists tree',
       wpp.fninvoke toks stream_lexer blank 999 fuel
         ([ident "f"; tok TOKEN_LPAREN "("; ident "a"; tok TOKEN_COMMA ",";
           ident "b"; tok TOKEN_RPAREN ")"], [])
       = Ok (0, ([], tree'))
       /\ tree' !! 0 = Some (wpp.FnInvoke (chars "f") [1; 2]))
  /\ (exists F, forall fuel, F <= fuel ->
        wpp.fninvoke toks stream_lexer blank 999 fuel
          ([ident "f"; tok TOKEN_LPAREN "("; ident "a"; tok TOKEN_COMMA ",";
            tok TOKEN_RBRACE "}"], [])
        = Throw "expecting ')' to follow argument list.").
Proof.
  split.
  { refine (proj1 (call_with_arguments toks stream_lexer blank 999
                   [ident "f"; tok TOKEN_LPAREN "("; ident "a";
                    tok TOKEN_COMMA ","; ident "b"; tok TOKEN_RPAREN ")"] []
                   (ident "f")
                   [tok TOKEN_LPAREN "("; ident "a"; tok TOKEN_COMMA ",";
                    ident "b"; tok TOKEN_RPAREN ")"]
                   (tok TOKEN_LPAREN "(")
                   [ident "a"; tok TOKEN_COMMA ","; ident "b";
                    tok TOKEN_RPAREN ")"]
                   [1; 2]
                   ([tok TOKEN_RPAREN ")"],
                    [wpp.FnInvoke [] [1; 2]; wpp.FnInvoke (chars "a") [];
                     wpp.FnInvoke (chars "b") []])
                   (tok TOKEN_RPAREN ")")
                   ([], [wpp.FnInvoke [] [1; 2]; wpp.FnInvoke (chars "a") [];
                         wpp.FnInvoke (chars "b") []])
                   eq_refl eq_refl eq_refl _ eq_refl) eq_refl).
  apply (call_arguments_comma toks stream_lexer blank 999 0
           ([ident "a"; tok TOKEN_COMMA ","; ident "b"; tok TOKEN_RPAREN ")"],
            [wpp.FnInvoke [] []])
           (ident "a") 2 1
           ([tok TOKEN_COMMA ","; ident "b"; tok TOKEN_RPAREN ")"],
            [wpp.FnInvoke [] []; wpp.FnInvoke (chars "a") []])
           (tok TOKEN_COMMA ",")
           ([ident "b"; tok TOKEN_RPAREN ")"],
            [wpp.FnInvoke [] []; wpp.FnInvoke (chars "a") []]));
    try reflexivity.
  apply (call_arguments_last toks stream_lexer blank 999 0
           ([ident "b"; tok TOKEN_RPAREN ")"],
            [wpp.FnInvoke [] [1]; wpp.FnInvoke (chars "a") []])
           (ident "b") 2 2
           ([tok TOKEN_RPAREN ")"],
            [wpp.FnInvoke [] [1]; wpp.FnInvoke (chars "a") [];
             wpp.FnInvoke (chars "b") []])
           (tok TOKEN_RPAREN ")")); reflexivity. }
  refine (proj2 (call_with_arguments toks stream_lexer blank 999
                   [ident "f"; tok TOKEN_LPAREN "("; ident "a";
                    tok TOKEN_COMMA ","; tok TOKEN_RBRACE "}"] []
                   (ident "f")
                   [tok TOKEN_LPAREN "("; ident "a"; tok TOKEN_COMMA ",";
                    tok TOKEN_RBRACE "}"]
                   (tok TOKEN_LPAREN "(")
                   [ident "a"; tok TOKEN_COMMA ","; tok TOKEN_RBRACE "}"]
                   [1]
                   ([tok TOKEN_RBRACE "}"],
                    [wpp.FnInvoke [] [1]; wpp.FnInvoke (chars "a") []])
                   (tok TOKEN_RBRACE "}")
                   ([], [wpp.FnInvoke [] [1]; wpp.FnInvoke (chars "a") []])
                   eq_refl eq_refl eq_refl _ eq_refl) eq_refl).
  apply (call_arguments_comma toks stream_lexer blank 999 0
           ([ident "a"; tok TOKEN_COMMA ","; tok TOKEN_RBRACE "}"],
            [wpp.FnInvoke [] []])
           (ident "a") 2 1
           ([tok TOKEN_COMMA ","; tok TOKEN_RBRACE "}"],
            [wpp.FnInvoke [] []; wpp.FnInvoke (chars "a") []])
           (tok TOKEN_COMMA ",")
           ([tok TOKEN_RBRACE "}"],
            [wpp.FnInvoke [] []; wpp.FnInvoke (chars "a") []]));
    try reflexivity.
  apply (call_arguments_end toks stream_lexer blank 999 0
           ([tok TOKEN_RBRACE "}"],
            [wpp.FnInvoke [] [1]; wpp.FnInvoke (chars "a") []])
           (tok TOKEN_RBRACE "}")); reflexivity.
Defined.

(** Witness of [call_missing_comma]: [f(a b)]. *)
Lemma call_missing_comma_witness :
  wpp.fninvoke toks stream_lexer blank 999 4
    ([ident "f"; tok TOKEN_LPAREN "("; ident "a"; ident "b";
      tok TOKEN_RPAREN ")"], [])
  = Throw "expecting comma to follow parameter name.".
Proof.
  apply (call_missing_comma toks stream_lexer blank 999
           [ident "f"; tok TOKEN_LPAREN "("; ident "a"; ident "b";
            tok TOKEN_RPAREN ")"] []
           (ident "f")
           [tok TOKEN_LPAREN "("; ident "a"; ident "b"; tok TOKEN_RPAREN ")"]
           (tok TOKEN_LPAREN "(")
           [ident "a"; ident "b"; tok TOKEN_RPAREN ")"]
           (ident "a") 2 1
           ([ident "b"; tok TOKEN_RPAREN ")"],
            [wpp.FnInvoke [] []; wpp.FnInvoke (chars "a") []])
           (ident "b")); reflexivity.
Defined.

(** Witness of [document_of_statements]: the document [a b]. *)
Lemma document_of_statements_witness :
  exists F, forall fuel, F <= fuel ->
    wpp.document toks stream_lexer blank 999 fuel ([ident "a"; ident "b"], [])
    = Ok (0, ([], [wpp.Document [1; 2]; wpp.FnInvoke (chars "a") [];
                   wpp.FnInvoke (chars "b") []]))
    /\ snd (([] : toks), [wpp.Document [1; 2]; wpp.FnInvoke (chars "a") [];
                         wpp.FnInvoke (chars "b") []]) !! 0
       = Some (wpp.Document [1; 2]).
Proof.
  apply (document_of_statements toks stream_lexer blank 999
           [ident "a"; ident "b"] [] [1; 2]).
  apply (document_statements_more toks stream_lexer blank 999 0
           ([ident "a"; ident "b"], [wpp.Document []]) (ident "a") 3 1
           ([ident "b"], [wpp.Document []; wpp.FnInvoke (chars "a") []]));
    try reflexivity.
  apply (document_statements_more toks stream_lexer blank 999 0
           ([ident "b"], [wpp.Document [1]; wpp.FnInvoke (chars "a") []])
           (ident "b") 3 2
           ([], [wpp.Document [1]; wpp.FnInvoke (chars "a") [];
                 wpp.FnInvoke (chars "b") []]));
    try reflexivity.
  apply (document_statements_end toks stream_lexer blank 999 0
           ([], [wpp.Document [1; 2]; wpp.FnInvoke (chars "a") [];
                 wpp.FnInvoke (chars "b") []])
           (mkToken TOKEN_EOF [])); reflexivity.
Defined.

(** Witness of [document_reads_all]: the document [a]. *)
Lemma document_reads_all_witness :
  0 = length ([] : wpp.AST)
  /\ (exists stmts,
        document_statements toks stream_lexer blank 999 0
          ([ident "a"], [wpp.Document []]) stmts
          ([], [wpp.Document [1]; wpp.FnInvoke (chars "a") []])
        /\ [wpp.Document [1]; wpp.FnInvoke (chars "a") []] !! 0
           = Some (wpp.Document stmts))
  /\ exists t lex'',
       stream_lexer normal [] = Ok (t, lex'') /\ tok_is t TOKEN_EOF = true.
Proof.
  apply (document_reads_all toks stream_lexer blank 999 4 [ident "a"] [] 0 []
           [wpp.Document [1]; wpp.FnInvoke (chars "a") []]).
  reflexivity.
Defined.

(** Witness of [map_expression]: [map x { a -> b }]. *)
Lemma map_expression_witness :
  exists F, forall fuel, F <= fuel ->
    exists tree',
      wpp.map toks stream_lexer blank 999 fuel
        ([tok TOKEN_MAP "map"; ident "x"; tok TOKEN_LBRACE "{"; ident "a";
          tok TOKEN_ARROW "->"; ident "b"; tok TOKEN_RBRACE "}"], [])
      = Ok (0, ([], tree'))
      /\ tree' !! 0 = Some (wpp.Map 1 [(2, 3)] 999).
Proof.
  refine (proj1 (map_expression toks stream_lexer blank 999
                   [tok TOKEN_MAP "map"; ident "x"; tok TOKEN_LBRACE "{";
                    ident "a"; tok TOKEN_ARROW "->"; ident "b";
                    tok TOKEN_RBRACE "}"] []
                   (tok TOKEN_MAP "map")
                   [ident "x"; tok TOKEN_LBRACE "{"; ident "a";
                    tok TOKEN_ARROW "->"; ident "b"; tok TOKEN_RBRACE "}"]
                   (ident "x") 2 1
                   ([tok TOKEN_LBRACE "{"; ident "a"; tok TOKEN_ARROW "->";
                     ident "b"; tok TOKEN_RBRACE "}"],
                    [wpp.Map 999 [] 999; wpp.FnInvoke (chars "x") []])
                   (tok TOKEN_LBRACE "{")
                   ([ident "a"; tok TOKEN_ARROW "->"; ident "b";
                     tok TOKEN_RBRACE "}"],
                    [wpp.Map 999 [] 999; wpp.FnInvoke (chars "x") []])
                   [(2, 3)]
                   ([tok TOKEN_RBRACE "}"],
                    [wpp.Map 1 [(2, 3)] 999; wpp.FnInvoke (chars "x") [];
                     wpp.FnInvoke (chars "a") []; wpp.FnInvoke (chars "b") []])
                   eq_refl eq_refl eq_refl eq_refl eq_refl eq_refl _)
            (tok TOKEN_RBRACE "}")
            ([], [wpp.Map 1 [(2, 3)] 999; wpp.FnInvoke (chars "x") [];
                  wpp.FnInvoke (chars "a") []; wpp.FnInvoke (chars "b") []])
            eq_refl eq_refl).
  apply (map_cases_more toks stream_lexer blank 999 0
           ([ident "a"; tok TOKEN_ARROW "->"; ident "b"; tok TOKEN_RBRACE "}"],
            [wpp.Map 1 [] 999; wpp.FnInvoke (chars "x") []])
           (ident "a") 2 2
           ([tok TOKEN_ARROW "->"; ident "b"; tok TOKEN_RBRACE "}"],
            [wpp.Map 1 [] 999; wpp.FnInvoke (chars "x") [];
             wpp.FnInvoke (chars "a") []])
           (tok TOKEN_ARROW "->")
           ([ident "b"; tok TOKEN_RBRACE "}"],
            [wpp.Map 1 [] 999; wpp.FnInvoke (chars "x") [];
             wpp.FnInvoke (chars "a") []])
           (ident "b") 2 3
           ([tok TOKEN_RBRACE "}"],
            [wpp.Map 1 [] 999; wpp.FnInvoke (chars "x") [];
             wpp.FnInvoke (chars "a") []; wpp.FnInvoke (chars "b") []]));
    try reflexivity.
  apply (map_cases_end toks stream_lexer blank 999 0
           ([tok TOKEN_RBRACE "}"],
            [wpp.Map 1 [(2, 3)] 999; wpp.FnInvoke (chars "x") [];
             wpp.FnInvoke (chars "a") []; wpp.FnInvoke (chars "b") []])
           (tok TOKEN_RBRACE "}")); reflexivity.
Defined.

(** Witness of [map_rejects]: [map }]. *)
Lemma map_rejects_witness :
  wpp.map toks stream_lexer blank 999 1
    ([tok TOKEN_MAP "map"; tok TOKEN_RBRACE "}"], [])
  = Throw "expected an expression to follow `map` keyword.".
Proof.
  apply (proj1 (map_rejects toks stream_lexer blank 999
                  [tok TOKEN_MAP "map"; tok TOKEN_RBRACE "}"] []
                  (tok TOKEN_MAP "map") [tok TOKEN_RBRACE "}"]
                  (tok TOKEN_RBRACE "}") [] eq_refl eq_refl) eq_refl 0).
Defined.

(** Witness of [prefix_statement]: [prefix p { }]. *)
Lemma prefix_statement_witness :
  exists F, forall fuel, F <= fuel ->
    wpp.statement toks stream_lexer blank 999 fuel
      ([tok TOKEN_PREFIX "prefix"; ident "p"; tok TOKEN_LBRACE "{";
        tok TOKEN_RBRACE "}"], [])
    = Ok (0, ([], [wpp.Pre [1] []; wpp.FnInvoke (chars "p") []]))
    /\ snd (([] : toks), [wpp.Pre [1] []; wpp.FnInvoke (chars "p") []]) !! 0
       = Some (wpp.Pre [1] []).
Proof.
  apply (proj1 (prefix_statement toks stream_lexer blank 999
                  [tok TOKEN_PREFIX "prefix"; ident "p"; tok TOKEN_LBRACE "{";
                   tok TOKEN_RBRACE "}"] []
                  (tok TOKEN_PREFIX "prefix")
                  [ident "p"; tok TOKEN_LBRACE "{"; tok TOKEN_RBRACE "}"]
                  (ident "p") 2 1
                  ([tok TOKEN_LBRACE "{"; tok TOKEN_RBRACE "}"],
                   [wpp.Pre [] []; wpp.FnInvoke (chars "p") []])
                  (tok TOKEN_LBRACE "{")
                  ([tok TOKEN_RBRACE "}"],
                   [wpp.Pre [] []; wpp.FnInvoke (chars "p") []])
                  eq_refl eq_refl eq_refl eq_refl eq_refl eq_refl eq_refl)
           (tok TOKEN_RBRACE "}")
           ([], [wpp.Pre [1] []; wpp.FnInvoke (chars "p") []])
           eq_refl eq_refl).
Defined.

(** Witness of [prefix_rejects]: [prefix }], and [prefix p { )], whose
    body is entered. *)
Lemma prefix_rejects_witness :
  wpp.statement toks stream_lexer blank 999 2
    ([tok TOKEN_PREFIX "prefix"; tok TOKEN_RBRACE "}"], [])
  = Throw "prefix does not have a name."
  /\ exists F, forall fuel, F <= fuel ->
       wpp.statement toks stream_lexer blank 999 fuel
         ([tok TOKEN_PREFIX "prefix"; ident "p"; tok TOKEN_LBRACE "{";
           tok TOKEN_RPAREN ")"], [])
       = Throw "expecting a statement.".
Proof.
  split.
  - apply (proj1 (prefix_rejects toks stream_lexer blank 999
                    [tok TOKEN_PREFIX "prefix"; tok TOKEN_RBRACE "}"] []
                    (tok TOKEN_PREFIX "prefix") [tok TOKEN_RBRACE "}"]
                    (tok TOKEN_RBRACE "}") [] eq_refl eq_refl eq_refl)
             eq_refl 0).
  - apply (proj2 (proj2 (proj2 (prefix_rejects toks stream_lexer blank 999
                    [tok TOKEN_PREFIX "prefix"; ident "p";
                     tok TOKEN_LBRACE "{"; tok TOKEN_RPAREN ")"] []
                    (tok TOKEN_PREFIX "prefix")
                    [ident "p"; tok TOKEN_LBRACE "{"; tok TOKEN_RPAREN ")"]
                    (ident "p") [tok TOKEN_LBRACE "{"; tok TOKEN_RPAREN ")"]
                    eq_refl eq_refl eq_refl)
                   eq_refl 3 1
                   ([tok TOKEN_LBRACE "{"; tok TOKEN_RPAREN ")"],
                    [wpp.Pre [] []; wpp.FnInvoke (chars "p") []])
                   (tok TOKEN_LBRACE "{")
                   ([tok TOKEN_RPAREN ")"],
                    [wpp.Pre [] []; wpp.FnInvoke (chars "p") []])
                   eq_refl eq_refl))
             eq_refl (tok TOKEN_RPAREN ")")
             ([tok TOKEN_RPAREN ")"],
              [wpp.Pre [1] []; wpp.FnInvoke (chars "p") []])
             eq_refl eq_refl eq_refl).
Defined.

(** Witness of [block_rejects]: a brace, [a], an arrow. *)
Lemma block_rejects_witness :
  exists F, forall fuel, F <= fuel ->
    wpp.block toks stream_lexer blank 999 fuel
      ([tok TOKEN_LBRACE "{"; ident "a"; tok TOKEN_ARROW "->"], [])
    = Throw "map is missing test expression.".
Proof.
  refine (proj1 (block_rejects toks stream_lexer blank 999
                   ([tok TOKEN_LBRACE "{"; ident "a"; tok TOKEN_ARROW "->"], [])
                   (tok TOKEN_LBRACE "{")
                   ([ident "a"; tok TOKEN_ARROW "->"], [])
                   [(ident "a", 1)]
                   ([tok TOKEN_ARROW "->"],
                    [wpp.Block [1] 999; wpp.FnInvoke (chars "a") []])
                   (ident "a") 1 (tok TOKEN_ARROW "->")
                   eq_refl _ eq_refl eq_refl eq_refl) eq_refl).
  apply (wpp.block_statements_last toks stream_lexer blank 999 0
           ([ident "a"; tok TOKEN_ARROW "->"], [wpp.Block [] 999])
           (ident "a") 3 1
           ([tok TOKEN_ARROW "->"],
            [wpp.Block [] 999; wpp.FnInvoke (chars "a") []])
           (tok TOKEN_ARROW "->")); reflexivity.
Defined.

(** Witness of [string_of_tokens]: the hex literal of the digits
    [4869]. *)
Lemma string_of_tokens_witness :
  wpp.string toks stream_lexer blank 0 ([tok TOKEN_HEX "4869"], [])
  = Ok (0, ([], [wpp.String (chars "Hi")])).
Proof.
  apply (proj1 (string_of_tokens toks stream_lexer blank 0
                  [tok TOKEN_HEX "4869"] [] (tok TOKEN_HEX "4869") [] eq_refl)
           eq_refl (chars "Hi") eq_refl).
Defined.

(** Witness of [normal_string_content]: a quoted string holding a
    double quote, the closing quote read as in string mode. *)
Lemma normal_string_content_witness :
  wpp.normal_string cstring (byte_lexer lex_string_mode) 4 []
    ("'" :: "a" :: "034" :: "b" :: "'" :: chars " c")%char
  = Ok (("a" :: "034" :: "b" :: nil)%char, chars " c").
Proof.
  apply (proj1 (normal_string_content lex_string_mode "'"%char eq_refl 4
                  ("a" :: "034" :: "b" :: nil)%char (chars " c")
                  ltac:(cbn; lia) eq_refl eq_refl)
           (quote_token "'"%char) (chars " c") eq_refl).
Defined.

(** Witness of [smart_string_unterminated]: a raw string that is not
    closed. *)
Lemma smart_string_unterminated_witness :
  wpp.smart_string cstring (byte_lexer lex_opener) blank 4 []
    (chars "r#'abc")
  = Throw "reached EOF while parsing string.".
Proof.
  apply (smart_string_unterminated lex_opener blank "r"%char "#"%char "'"%char
           eq_refl [] (chars "abc") (chars "r#'abc") 4 eq_refl eq_refl eq_refl).
  cbn. lia.
Defined.

(** Witness of [document_links_in_tree]: the document [let f(x) a .. b];
    the node of the concatenation comes after its left operand. *)
Lemma document_links_in_tree_witness :
  take (length ([] : wpp.AST))
    [wpp.Document [1]; wpp.Fn (chars "f") [chars "x"] 3;
     wpp.FnInvoke (chars "a") []; wpp.Concat 2 4;
     wpp.FnInvoke (chars "b") []]
  = []
  /\ forall i n,
       length ([] : wpp.AST) <= i ->
       [wpp.Document [1]; wpp.Fn (chars "f") [chars "x"] 3;
        wpp.FnInvoke (chars "a") []; wpp.Concat 2 4;
        wpp.FnInvoke (chars "b") []] !! i = Some n ->
       Forall (fun j => length ([] : wpp.AST) <= j < 5) (links 999 n).
Proof.
  apply (document_links_in_tree toks stream_lexer blank 999 8
           [tok TOKEN_LET "let"; ident "f"; tok TOKEN_LPAREN "("; ident "x";
            tok TOKEN_RPAREN ")"; ident "a"; tok TOKEN_CAT ".."; ident "b"]
           [] 0 []).
  reflexivity.
Defined.

(** Witness of [statement_links_in_tree]: the statement [a .. b], read
    into a tree that holds a node. *)
Lemma statement_links_in_tree_witness :
  take 1 [wpp.Document []; wpp.FnInvoke (chars "a") []; wpp.Concat 1 3;
          wpp.FnInvoke (chars "b") []]
  = [wpp.Document []]
  /\ 1 <= 2 < 4
  /\ forall i n,
       1 <= i ->
       [wpp.Document []; wpp.FnInvoke (chars "a") []; wpp.Concat 1 3;
        wpp.FnInvoke (chars "b") []] !! i = Some n ->
       Forall (fun j => 1 <= j < 4) (links 999 n).
Proof.
  apply (statement_links_in_tree toks stream_lexer blank 999 8
           [ident "a"; tok TOKEN_CAT ".."; ident "b"] [wpp.Document []]
           2 []).
  left. reflexivity.
Defined.

(** Witness of [code_string_refines_spec]: three lines, the first less
    indented than the others. *)
Lemma code_string_refines_spec_witness :
  code_string blank
    (chars "  if (x)" ++ [NL] ++ chars "      y = 1;" ++ [NL]
     ++ chars "    z = 2;" ++ [NL])
  = Some (code_spec blank
            (chars "  if (x)" ++ [NL] ++ chars "      y = 1;" ++ [NL]
             ++ chars "    z = 2;" ++ [NL])).
Proof.
  apply (code_string_refines_spec blank eq_refl eq_refl).
  - reflexivity.
  - vm_compute. discriminate.
  - reflexivity.
Defined.

End MoreExamples.
